(** * Galois: lazy array, for-each executor and custom edge-cut partitioner

    A shallow embedding of three sources of the repository:

    - [include/Galois/LazyArray.h]                      (module [LazyArray]),
    - [include/Galois/Runtime/ParallelWork.h]           (module [ParallelWork]),
    - [libdist/.../DistributedGraph_CustomEdgeCut.h]    (module [CustomEdgeCut]).

    Fixed-width integers are [Z] (or [N]) with the wrap-around written out,
    [std::vector] is [list] with stdpp's lookup, [std::unordered_map] is
    [gmap]. *)

From Stdlib Require Import ZArith Lia Ascii String DecimalString DecimalN.
From stdpp Require Import base option list sorting gmap fin_maps.

Local Open Scope Z_scope.

(** ** Machine integers *)

Definition wrap32 (z : Z) : Z := z mod 2 ^ 32.
Definition wrap64 (z : Z) : Z := z mod 2 ^ 64.
(** [int]: 32 bit, two's complement. *)
Definition wrap_int (z : Z) : Z := (z + 2 ^ 31) mod 2 ^ 32 - 2 ^ 31.
Definition INT_MAX : Z := 2 ^ 31 - 1.
(** [std::numeric_limits<uint32_t>::max()] *)
Definition UINT32_MAX : Z := 2 ^ 32 - 1.

(* ===================================================================== *)
(** * LazyArray.h *)
(* ===================================================================== *)

Module LazyArray.
Section LazyArray.
(** [template<typename _Tp, unsigned _Size>] *)
Context {Tp : Type}.
Variable Size_ : N.

(** [__datac] seen as an array of slots; a slot that was never
    constructed holds nothing. *)
Definition storage := list (option Tp).

(** A [_Tp*] into the array and a [_Tp&] to one of its slots. *)
Inductive pointer := PtrTo (slot : N).
Inductive reference := RefTo (slot : N).

(** unary [*] *)
Definition deref (p : pointer) : reference :=
  match p with PtrTo n => RefTo n end.

(** [_Tp* get(size_t __n)]: [&(reinterpret_cast<_Tp*>(&__datac[0]))[__n]] *)
Definition get (n : N) : pointer := PtrTo n.

(** The operand of a [return] statement, before it initialises the
    returned object. *)
Inductive operand :=
| OPointer (p : pointer)
| OLvalue (r : reference).

Inductive exn := out_of_range (what : string).

Inductive outcome :=
| Throw (e : exn)
| Return (o : operand).

(** Initialising the declared return type [reference] ([_Tp&]) from the
    operand: an lvalue of type [_Tp] binds, a prvalue [_Tp*] does not. *)
Definition bind_reference (o : operand) : option reference :=
  match o with
  | OLvalue r => Some r
  | OPointer _ => None
  end.

(** [reference operator[](size_type __n) { return *get(__n); }] *)
Definition subscript (n : N) (a : storage) : outcome * storage :=
  (Return (OLvalue (deref (get n))), a).

(** [reference at(size_type __n)]:
    [if (__n >= _Size) throw std::out_of_range("lazyArray::at");
     return get(__n);] *)
Definition at_ (n : N) (a : storage) : outcome * storage :=
  if (Size_ <=? n)%N
  then (Throw (out_of_range "lazyArray::at"), a)
  else (Return (OPointer (get n)), a).

(** [char __datac[sizeof(_Tp[(_Size > 0 ? _Size : 1)])]]: the number of
    slots the array has room for. *)
Definition capacity : N := if (0 <? Size_)%N then Size_ else 1%N.

(** The array as it is declared: no slot holds an object. *)
Definition uninitialised : storage := replicate (N.to_nat capacity) None.

(** [size_type size() const { return _Size; }] *)
Definition size : N := Size_.

(** [bool empty() const { return _Size == 0; }] *)
Definition empty : bool := (Size_ =? 0)%N.

(** [iterator begin() { return iterator(get(0)); }] *)
Definition begin_ : pointer := get 0.

(** [iterator end() { return iterator(get(_Size)); }] *)
Definition end_ : pointer := get Size_.

(** [reference front() { return *get(0); }] *)
Definition front (a : storage) : outcome * storage :=
  (Return (OLvalue (deref (get 0))), a).

(** [reference back() { return *get(_Size > 0 ? _Size - 1 : 0); }] *)
Definition back (a : storage) : outcome * storage :=
  (Return (OLvalue (deref (get (if (0 <? Size_)%N then Size_ - 1 else 0)))), a).

(** Reading the object a reference refers to; [None] when the slot is
    outside the array or holds no object. *)
Definition load (r : reference) (a : storage) : option Tp :=
  match r with
  | RefTo n =>
      match a !! N.to_nat n with
      | Some (Some v) => Some v
      | _ => None
      end
  end.

(** [pointer construct(size_type __n, const _Tp& val)]:
    [return new (get(__n)) _Tp(val);] (with rvalue references, through
    [emplace]).  Placement new does not look at what the slot held;
    [None] when the slot is outside [__datac]. *)
Definition construct (n : N) (val : Tp) (a : storage)
  : option (pointer * storage) :=
  if (n <? N.of_nat (length a))%N
  then Some (get n, <[N.to_nat n := Some val]> a)
  else None.

(** [void destroy(size_type __n) { (get(__n))->~_Tp(); }]; [None] when
    there is no object in the slot to destroy. *)
Definition destroy (n : N) (a : storage) : option storage :=
  match a !! N.to_nat n with
  | Some (Some _) => Some (<[N.to_nat n := None]> a)
  | _ => None
  end.

End LazyArray.
End LazyArray.

(* ===================================================================== *)
(** * ParallelWork.h *)
(* ===================================================================== *)

Module ParallelWork.

(** [Configurator<Function>]: the operator's compile-time traits. *)
Record Configurator := {
  CollectStats : bool;
  NeedsBreak : bool;
  NeedsPush : bool;
  NeedsContext : bool;
  NeedsPIA : bool;
}.

(** [class LoopStatistics]: two [unsigned long] counters. *)
Record LoopStatistics := {
  conflicts : Z;
  iterations : Z;
}.

Definition inc_iterations (s : LoopStatistics) : LoopStatistics :=
  {| conflicts := conflicts s; iterations := wrap64 (iterations s + 1) |}.

Definition inc_conflicts (s : LoopStatistics) : LoopStatistics :=
  {| conflicts := wrap64 (conflicts s + 1); iterations := iterations s |}.

(** Modelled from the spec: [SimpleRuntimeContext] and
    [clearConflictLock] are declared in [Galois/Runtime/Context.h], a
    header that is not among the repository's sources.  The spec's state
    machine of an iteration names the calls [start_iteration],
    [commit_iteration] and [cancel_iteration]; they are recorded in the
    order they are made. *)
Inductive cnx_call :=
| clearConflictLock
| start_iteration
| cancel_iteration
| commit_iteration.

Section ForEachWork.
(** [typename WorkListTy::value_type] *)
Context {value_type : Type}.

(** Modelled from the spec: [Galois::UserContext<value_type>], whose
    declaration is not among the repository's sources.  The spec's
    per-thread context holds a "user-facing push buffer, per-iter
    allocator, break flag"; the per-iteration allocator "is a bump arena
    reset on commit or cancel", kept here as the number of bytes bumped
    since the last reset. *)
Record UserContext := {
  pushBuffer : list value_type;
  allocated : N;
  breakFlag : bool;
}.

Definition __resetBreakHappened (c : UserContext) : UserContext :=
  {| pushBuffer := pushBuffer c; allocated := allocated c;
     breakFlag := false |}.

Definition __breakHappened (c : UserContext) : bool := breakFlag c.

Definition __getPushBuffer (c : UserContext) : list value_type :=
  pushBuffer c.

(** [__getPushBuffer().clear()] *)
Definition __clearPushBuffer (c : UserContext) : UserContext :=
  {| pushBuffer := []; allocated := allocated c; breakFlag := breakFlag c |}.

Definition __resetAlloc (c : UserContext) : UserContext :=
  {| pushBuffer := pushBuffer c; allocated := 0%N;
     breakFlag := breakFlag c |}.

(** [struct tldTy] (the termination token plays no part below);
    [cnx] is the log of the calls made on the runtime context. *)
Record tldTy := {
  facing : UserContext;
  cnx : list cnx_call;
  stat : LoopStatistics;
}.

(** The shared members of [ForEachWork].  A worklist is kept as the
    sequence of items pushed and not yet popped, in push order. *)
Record ForEachWork := {
  global_wl : list value_type;
  aborted : list value_type;
  break_happened : Z;
  abort_happened : Z;
}.

(** How a call [f(val, tld.facing)] ends: normally, with the conflict
    signal (an [int] is thrown), or with an exception of another type,
    which [catch (int a)] does not catch. *)
Inductive f_exit :=
| Returned
| ThrewInt (a : Z)
| ThrewOther.

(** The operator: it sees the item and the user-facing context, which
    it may change before it returns or throws. *)
Definition Function := value_type -> UserContext -> UserContext * f_exit.

(** [for (b = buf.begin(); b != e; ++b) global_wl.push( *b )] *)
Definition push_all (wl : list value_type) (buf : list value_type)
  : list value_type :=
  foldl (fun w b => w ++ [b]) wl buf.

(** [void finishIteration(bool aborting, value_type val, tldTy& tld)] *)
Definition finishIteration (cfg : Configurator) (aborting : bool)
    (val : value_type) (tld : tldTy) (w : ForEachWork)
  : ForEachWork * tldTy :=
  (* if (aborting) { ... } *)
  let '(w1, tld1) :=
    if aborting then
      ({| global_wl := global_wl w;
          aborted := aborted w ++ [val];
          break_happened := break_happened w;
          abort_happened := 1 |},
       {| facing := __clearPushBuffer (__resetBreakHappened (facing tld));
          cnx := cnx tld ++ [clearConflictLock; cancel_iteration];
          stat := inc_conflicts (stat tld) |})
    else (w, tld) in
  (* if (Configurator<Function>::NeedsPush) { ... } *)
  let '(w2, tld2) :=
    if NeedsPush cfg then
      ({| global_wl := push_all (global_wl w1) (__getPushBuffer (facing tld1));
          aborted := aborted w1;
          break_happened := break_happened w1;
          abort_happened := abort_happened w1 |},
       {| facing := __clearPushBuffer (facing tld1);
          cnx := cnx tld1; stat := stat tld1 |})
    else (w1, tld1) in
  (* if (Configurator<Function>::NeedsPIA) tld.facing.__resetAlloc(); *)
  let tld3 :=
    if NeedsPIA cfg then
      {| facing := __resetAlloc (facing tld2);
         cnx := cnx tld2; stat := stat tld2 |}
    else tld2 in
  (* if (NeedsBreak) if (tld.facing.__breakHappened()) break_happened.data = 1; *)
  let w3 :=
    if NeedsBreak cfg && __breakHappened (facing tld3) then
      {| global_wl := global_wl w2; aborted := aborted w2;
         break_happened := 1; abort_happened := abort_happened w2 |}
    else w2 in
  (* if (!aborting) tld.cnx.commit_iteration(); *)
  let tld4 :=
    if aborting then tld3
    else {| facing := facing tld3; cnx := cnx tld3 ++ [commit_iteration];
            stat := stat tld3 |} in
  (w3, tld4).

(** [void doProcess(value_type val, tldTy& tld)].  [None]: the
    exception thrown by [f] is not an [int] and leaves [doProcess]. *)
Definition doProcess (cfg : Configurator) (f : Function)
    (val : value_type) (tld : tldTy) (w : ForEachWork)
  : option (ForEachWork * tldTy) :=
  let tld1 := {| facing := facing tld;
                 cnx := cnx tld ++ [start_iteration];
                 stat := inc_iterations (stat tld) |} in
  let '(fc, ex) := f val (facing tld1) in
  let tld2 := {| facing := fc; cnx := cnx tld1; stat := stat tld1 |} in
  match ex with
  | Returned => Some (finishIteration cfg false val tld2 w)
  | ThrewInt _ => Some (finishIteration cfg true val tld2 w)
  | ThrewOther => None
  end.

(** The calls one [doProcess] adds to the runtime context's log. *)
Definition calls_since (before after : list cnx_call) : list cnx_call :=
  drop (length before) after.

(** ** Initial fill *)

(** An iterator of the range [[b, e)]: the range's items and a position
    in them.  [std::advance(it, n)]; [None] when it leaves the range. *)
Definition advance (items : list value_type) (pos n : Z) : option Z :=
  if (0 <=? pos + n) && (pos + n <=? Z.of_nat (length items))
  then Some (pos + n) else None.

(** The loop of [AddInitialWork], [rest] being what lies at and after
    [b] and [n] the distance to [e]:
    [for(; b != e; ++b) if (fil( *b )) global_wl.push( *b );] *)
Fixpoint AddInitialWork_loop (rest : list value_type) (n : nat)
    (fil : value_type -> bool) (wl : list value_type)
  : option (list value_type) :=
  match n with
  | O => Some wl
  | S n' =>
      match rest with
      | [] => None
      | x :: rest' =>
          AddInitialWork_loop rest' n' fil (if fil x then wl ++ [x] else wl)
      end
  end.

(** [AddInitialWork(Iter b, Iter e, Filter fil)]; [None] when [b] never
    meets [e] inside the range. *)
Definition AddInitialWork (items : list value_type) (b e : Z)
    (fil : value_type -> bool) (wl : list value_type)
  : option (list value_type) :=
  if (0 <=? b) && (b <=? e)
  then AddInitialWork_loop (drop (Z.to_nat b) items) (Z.to_nat (e - b)) fil wl
  else None.

(** [class FillWork]: the range [[b, e)], and the [int]s [num], [dist]. *)
Record FillWork := {
  range : list value_type;
  num : Z;
  dist : Z;
}.

(** The constructor, [a] being [getActiveThreads()]:
    [dist = std::distance(b,e); num = (dist + a - 1) / a;] *)
Definition mkFillWork (a : Z) (items : list value_type) : FillWork :=
  let dist := wrap_int (Z.of_nat (length items)) in
  {| range := items;
     num := Z.quot (wrap_int (wrap_int (dist + a) - 1)) a;
     dist := dist |}.

(** [int A = std::min(num * id, dist);] *)
Definition chunk_begin (fw : FillWork) (id : Z) : Z :=
  Z.min (wrap_int (num fw * id)) (dist fw).

(** [int B = std::min(num * (id + 1), dist);] *)
Definition chunk_end (fw : FillWork) (id : Z) : Z :=
  Z.min (wrap_int (num fw * wrap_int (id + 1))) (dist fw).

(** [FillWork::operator()], run by the worker [id = getMyID()] on the
    global worklist [wl]. *)
Definition FillWork_run (fw : FillWork) (id : Z)
    (fil : value_type -> bool) (wl : list value_type)
  : option (list value_type) :=
  match advance (range fw) 0 (chunk_begin fw id),
        advance (range fw) 0 (chunk_end fw id) with
  | Some b2, Some e2 => AddInitialWork (range fw) b2 e2 fil wl
  | _, _ => None
  end.

(** The items at positions [[lo, hi)]. *)
Definition slice (items : list value_type) (lo hi : Z) : list value_type :=
  take (Z.to_nat (hi - lo)) (drop (Z.to_nat lo) items).

End ForEachWork.

Arguments UserContext : clear implicits.
Arguments tldTy : clear implicits.
Arguments ForEachWork : clear implicits.
Arguments Function : clear implicits.
Arguments FillWork : clear implicits.

(** ** The worker loop *)

(** Modelled from the spec: [TerminationDetection] is declared in
    [Galois/Runtime/Termination.h], which is not among the repository's
    sources.  In the spec "any worker that pops an item marks work
    happened" and "a local-termination call surrenders the token"; the
    calls a worker makes are recorded in their order. *)
Inductive term_call :=
| workHappened
| localTermination.

(** How a loop of the executor ends: it returns, an exception that is
    not an [int] leaves it, or it is still running when the fuel is
    used up. *)
Inductive run (A : Type) :=
| Finished (a : A)
| Escaped
| OutOfFuel.
Arguments Finished {A} a.
Arguments Escaped {A}.
Arguments OutOfFuel {A}.

Section Worker.
Context {value_type : Type}.

(** Modelled from the spec: the worklist types ([WorkListTy] and
    [LevelStealing<FIFO<value_type>, value_type>]) are declared in
    [Galois/Runtime/WorkList.h], which is not among the repository's
    sources.  In the spec a worklist is "a polymorphic container with
    operations push(V) and pop() -> Option<V>", for which "pop returns
    items pushed by any thread, empty pop returns empty, not blocking".
    A worklist is kept as the sequence of its pending items; its policy
    is the function by which [pop] takes one of them out. *)
Definition pop_policy : Type :=
  list value_type -> option (value_type * list value_type).

(** What the spec asks of [pop]: it takes out one of the pending items
    and leaves the others, and it gives an item whenever there is one. *)
Record pop_ok (pop : pop_policy) : Prop := {
  pop_takes_one : forall l x l', pop l = Some (x, l') -> l ≡ₚ x :: l';
  pop_not_blocking : forall l, l <> [] -> is_Some (pop l);
}.

(** Two policies: first in first out, and last in first out. *)
Definition fifo : pop_policy :=
  fun l => match l with [] => None | x :: l' => Some (x, l') end.

Definition lifo : pop_policy :=
  fun l => match reverse l with [] => None | x :: l' => Some (x, reverse l') end.

(** [WorkListTy::pop] and [AbortedListTy::pop] *)
Variables (pop_wl pop_aborted : pop_policy).

(** A worker thread: the shared members of [ForEachWork], its own
    [tldTy] and the calls it made on its termination token. *)
Record Worker := {
  wk_shared : ForEachWork value_type;
  wk_tld : tldTy value_type;
  wk_lterm : list term_call;
}.

(** The constructor: [abort_happened.data = 0; break_happened.data = 0;],
    the two lists empty. *)
Definition ForEachWork_new : ForEachWork value_type :=
  {| global_wl := []; aborted := []; break_happened := 0;
     abort_happened := 0 |}.

(** The loop of [drainAborted], from [p = aborted.pop()] on:
    [while (p.first) {
       if (Configurator<Function>::NeedsBreak && break_happened.data) return;
       doProcess(p.second, tld);
       p = aborted.pop(); }] *)
Fixpoint drain_loop (fuel : nat) (cfg : Configurator)
    (f : Function value_type) (tld : tldTy value_type)
    (w : ForEachWork value_type)
  : run (ForEachWork value_type * tldTy value_type) :=
  match fuel with
  | O => OutOfFuel
  | S fuel' =>
      match pop_aborted (aborted w) with
      | None => Finished (w, tld)
      | Some (val, rest) =>
          let w1 := {| global_wl := global_wl w; aborted := rest;
                       break_happened := break_happened w;
                       abort_happened := abort_happened w |} in
          if NeedsBreak cfg && negb (break_happened w1 =? 0)
          then Finished (w1, tld)
          else
            match doProcess cfg f val tld w1 with
            | Some (w2, tld2) => drain_loop fuel' cfg f tld2 w2
            | None => Escaped
            end
      end
  end.

(** [template<bool isLeader> void drainAborted(tldTy& tld)]:
    [if (!isLeader) return;  if (!abort_happened.data) return;
     tld.lterm->workHappened();  abort_happened.data = 0;] and the loop. *)
Definition drainAborted (isLeader : bool) (fuel : nat) (cfg : Configurator)
    (f : Function value_type) (k : Worker) : run Worker :=
  if negb isLeader then Finished k
  else if abort_happened (wk_shared k) =? 0 then Finished k
  else
    let w0 := {| global_wl := global_wl (wk_shared k);
                 aborted := aborted (wk_shared k);
                 break_happened := break_happened (wk_shared k);
                 abort_happened := 0 |} in
    match drain_loop fuel cfg f (wk_tld k) w0 with
    | Finished (w, tld) =>
        Finished {| wk_shared := w; wk_tld := tld;
                    wk_lterm := wk_lterm k ++ [workHappened] |}
    | Escaped => Escaped
    | OutOfFuel => OutOfFuel
    end.

(** The inner loop of [go], from a [p = global_wl.pop()] on:
    [while (p.first) {
       if (Configurator<Function>::NeedsBreak && break_happened.data)
         goto leaveLoop;
       doProcess(p.second, tld);
       drainAborted<isLeader>(tld);
       p = global_wl.pop(); }];
    the flag tells whether the loop was left by the [goto]. *)
Fixpoint go_pops (fuel : nat) (isLeader : bool) (cfg : Configurator)
    (f : Function value_type) (k : Worker) : run (Worker * bool) :=
  match fuel with
  | O => OutOfFuel
  | S fuel' =>
      match pop_wl (global_wl (wk_shared k)) with
      | None => Finished (k, false)
      | Some (val, rest) =>
          let w1 := {| global_wl := rest;
                       aborted := aborted (wk_shared k);
                       break_happened := break_happened (wk_shared k);
                       abort_happened := abort_happened (wk_shared k) |} in
          if NeedsBreak cfg && negb (break_happened w1 =? 0)
          then Finished ({| wk_shared := w1; wk_tld := wk_tld k;
                            wk_lterm := wk_lterm k |}, true)
          else
            match doProcess cfg f val (wk_tld k) w1 with
            | Some (w2, tld2) =>
                match drainAborted isLeader fuel' cfg f
                        {| wk_shared := w2; wk_tld := tld2;
                           wk_lterm := wk_lterm k |} with
                | Finished k3 => go_pops fuel' isLeader cfg f k3
                | Escaped => Escaped
                | OutOfFuel => OutOfFuel
                end
            | None => Escaped
            end
      end
  end.

(** The body of the [do ... while] of [go]:
    [p = global_wl.pop();  if (p.first) tld.lterm->workHappened();],
    the inner loop, then
    [drainAborted<isLeader>(tld);
     if (Configurator<Function>::NeedsBreak && break_happened.data)
       goto leaveLoop;
     term.localTermination();] *)
Definition go_round (fuel : nat) (isLeader : bool) (cfg : Configurator)
    (f : Function value_type) (k : Worker) : run (Worker * bool) :=
  let k0 :=
    match pop_wl (global_wl (wk_shared k)) with
    | Some _ => {| wk_shared := wk_shared k; wk_tld := wk_tld k;
                   wk_lterm := wk_lterm k ++ [workHappened] |}
    | None => k
    end in
  match go_pops fuel isLeader cfg f k0 with
  | Finished (k1, true) => Finished (k1, true)
  | Finished (k1, false) =>
      match drainAborted isLeader fuel cfg f k1 with
      | Finished k2 =>
          if NeedsBreak cfg && negb (break_happened (wk_shared k2) =? 0)
          then Finished (k2, true)
          else Finished ({| wk_shared := wk_shared k2; wk_tld := wk_tld k2;
                            wk_lterm := wk_lterm k2 ++ [localTermination] |},
                         false)
      | Escaped => Escaped
      | OutOfFuel => OutOfFuel
      end
  | Escaped => Escaped
  | OutOfFuel => OutOfFuel
  end.

(** [template<bool isLeader> void go()]: the body is repeated
    [while (!term.globalTermination())]; [answers] holds what the
    successive calls of [term.globalTermination()] return. *)
Fixpoint go (fuel : nat) (isLeader : bool) (cfg : Configurator)
    (f : Function value_type) (answers : list bool) (k : Worker)
  : run Worker :=
  match answers with
  | [] => OutOfFuel
  | terminated :: answers' =>
      match go_round fuel isLeader cfg f k with
      | Finished (k1, true) => Finished k1
      | Finished (k1, false) =>
          if terminated : bool then Finished k1
          else go fuel isLeader cfg f answers' k1
      | Escaped => Escaped
      | OutOfFuel => OutOfFuel
      end
  end.

(** What a commit leaves of the user-facing context [c] the operator
    returned. *)
Definition committed (cfg : Configurator) (c : UserContext value_type)
  : UserContext value_type :=
  {| pushBuffer := if NeedsPush cfg then [] else pushBuffer c;
     allocated := if NeedsPIA cfg then 0%N else allocated c;
     breakFlag := breakFlag c |}.

(** The first parallel command of [for_each_impl]: every worker runs
    [FillWork::operator()] once.  [ids] lists the workers in the order
    in which their pushes reach the global worklist. *)
Definition FillWork_all (fw : FillWork value_type) (ids : list Z)
    (fil : value_type -> bool) (wl : list value_type)
  : option (list value_type) :=
  foldl (fun acc id => acc ≫= FillWork_run fw id fil) (Some wl) ids.

End Worker.

Arguments Worker : clear implicits.
Arguments pop_policy : clear implicits.

(** ** Operators and states used as examples *)

(** An operator with none of the opt-in traits, which also declares that
    it does not push. *)
Definition traits_off : Configurator :=
  {| CollectStats := true; NeedsBreak := false; NeedsPush := false;
     NeedsContext := true; NeedsPIA := false |}.

(** An operator with every trait. *)
Definition traits_on : Configurator :=
  {| CollectStats := true; NeedsBreak := true; NeedsPush := true;
     NeedsContext := true; NeedsPIA := true |}.

(** Pushes [v + 1], allocates 8 bytes, asks for a break, and returns. *)
Definition op_push_alloc_break : Function Z :=
  fun v c =>
    ({| pushBuffer := pushBuffer c ++ [v + 1];
        allocated := (allocated c + 8)%N;
        breakFlag := true |}, Returned).

(** Does the same and then raises the conflict signal. *)
Definition op_conflict : Function Z :=
  fun v c => (fst (op_push_alloc_break v c), ThrewInt 0).

Definition tld_fresh : tldTy Z :=
  {| facing := {| pushBuffer := []; allocated := 0%N; breakFlag := false |};
     cnx := [];
     stat := {| conflicts := 0; iterations := 0 |} |}.

Definition work_fresh : ForEachWork Z :=
  {| global_wl := []; aborted := []; break_happened := 0;
     abort_happened := 0 |}.

(** A worker that starts on the shared state [w]. *)
Definition worker_on (w : ForEachWork Z) : Worker Z :=
  {| wk_shared := w; wk_tld := tld_fresh; wk_lterm := [] |}.

(** Two items on the global worklist. *)
Definition work_pending : ForEachWork Z :=
  {| global_wl := [7; 9]; aborted := []; break_happened := 0;
     abort_happened := 0 |}.

(** Two items on the aborted list. *)
Definition work_aborted : ForEachWork Z :=
  {| global_wl := []; aborted := [7; 9]; break_happened := 0;
     abort_happened := 1 |}.

(** Two items on the global worklist, after a break. *)
Definition work_broken : ForEachWork Z :=
  {| global_wl := [7; 9]; aborted := []; break_happened := 1;
     abort_happened := 0 |}.

End ParallelWork.

(* ===================================================================== *)
(** * DistributedGraph_CustomEdgeCut.h *)
(* ===================================================================== *)

Module CustomEdgeCut.

(** ** Mirror-owner lookup *)

(** What reading a [std::vector] through an iterator gives: the element,
    or a read outside the vector's elements. *)
Inductive access (A : Type) :=
| Ok (a : A)
| OutOfBounds (idx : nat).
Arguments Ok {A} a.
Arguments OutOfBounds {A} idx.

(** [*iter], the iterator being [vec.begin() + iter]. *)
Definition deref (vec : list Z) (iter : nat) : access Z :=
  match vec !! iter with
  | Some x => Ok x
  | None => OutOfBounds iter
  end.

(** The loop of [std::lower_bound] (libstdc++'s [__lower_bound]):
    [while (len > 0) { half = len >> 1; middle = first + half;
       if ( *middle < val ) { first = middle + 1; len = len - half - 1; }
       else len = half; }  return first;] *)
Fixpoint lower_bound_loop (fuel : nat) (vec : list Z) (first len : nat)
    (val : Z) : nat :=
  match fuel with
  | O => first
  | S fuel' =>
      if (len =? 0)%nat then first
      else
        let half := (len / 2)%nat in
        let middle := (first + half)%nat in
        match vec !! middle with
        | Some x =>
            if x <? val
            then lower_bound_loop fuel' vec (middle + 1) (len - half - 1) val
            else lower_bound_loop fuel' vec first half val
        | None => first
        end
  end.

(** [std::lower_bound(vec.begin(), vec.end(), val)], as an offset from
    [vec.begin()]; [length vec] is [vec.end()]. *)
Definition lower_bound (vec : list Z) (val : Z) : nat :=
  lower_bound_loop (length vec) vec 0 (length vec) val.

(** [uint32_t find_hostID(std::vector<uint64_t>& vec, uint64_t gid,
                          uint32_t from_hostID)]:
    [if(( *iter == gid) && (iter != vec.end())) return from_hostID;
     return max;] -- the left operand of [&&] is evaluated first. *)
Definition find_hostID_in (vec : list Z) (gid : Z) (from_hostID : Z)
  : access Z :=
  let iter := lower_bound vec gid in
  match deref vec iter with
  | OutOfBounds i => OutOfBounds i
  | Ok x =>
      Ok (if (x =? gid) && negb (iter =? length vec)%nat
          then from_hostID else UINT32_MAX)
  end.

(** ** File names *)

(** [std::to_string] of an [unsigned]: its decimal digits. *)
Definition to_string (n : N) : string :=
  NilEmpty.string_of_uint (N.to_uint n).

(** [getMetaFileName(basename, hostID, num_hosts)]:
    [result = basename; result += ".META.";
     result += std::to_string(hostID); result += ".OF.";
     result += std::to_string(num_hosts);] *)
Definition getMetaFileName (basename : string) (hostID num_hosts : N)
  : string :=
  String.append basename
    (String.append ".META."%string
       (String.append (to_string hostID)
          (String.append ".OF."%string (to_string num_hosts)))).

(** [getPartitionFileName(basename, hostID, num_hosts)], with
    [".PART."] for [".META."]. *)
Definition getPartitionFileName (basename : string) (hostID num_hosts : N)
  : string :=
  String.append basename
    (String.append ".PART."%string
       (String.append (to_string hostID)
          (String.append ".OF."%string (to_string num_hosts)))).

(** ** Reading the vertex-ID map *)

(** The bytes of the element [i] of the storage of a
    [std::vector<int32_t>], or of the [i]-th [int32_t] of a file:
    [sizeof(int32_t)] bytes from the byte [4 * i] on. *)
Definition element (mem : list Byte.byte) (i : nat) : list Byte.byte :=
  take 4 (drop (4 * i) mem).

(** [bool readVertexIDMappingFile(vertexIDMap_filename, vertexIDMap,
                                  num_entries_to_read, startLoc)]:
    [if (!meta_file.is_open()) return false;
     meta_file.seekg(startLoc, meta_file.beg);
     meta_file.read(reinterpret_cast<char*>(&vertexIDMap[0]),
                    sizeof(int32_t)*(num_entries_to_read));
     return true;]
    [file] holds the bytes of the file, [None] for a file that cannot be
    opened; [vertexIDMap] is the storage of the vector.  [read] stores
    the bytes it can extract and leaves the rest of the storage as it
    is.  [None]: the vector is empty, or bytes are stored behind its
    end. *)
Definition readVertexIDMappingFile (file : option (list Byte.byte))
    (vertexIDMap : list Byte.byte) (num_entries_to_read startLoc : Z)
  : option (bool * list Byte.byte) :=
  match file with
  | None => Some (false, vertexIDMap)
  | Some bytes =>
      let extracted :=
        take (Z.to_nat (4 * num_entries_to_read))
             (drop (Z.to_nat startLoc) bytes) in
      if (length vertexIDMap =? 0)%nat then None
      else if (length extracted <=? length vertexIDMap)%nat
      then Some (true, extracted ++ drop (length extracted) vertexIDMap)
      else None
  end.

(** The constructor, for the host with the range [[first, second)]:
    [auto startLoc = gid2host[id].first;
     auto num_entries_to_read = gid2host[id].second - gid2host[id].first;
     vertexIDMap.resize(num_entries_to_read);
     readVertexIDMappingFile(vertexIDMap_filename, vertexIDMap,
                             num_entries_to_read, startLoc);]
    both arguments are passed as [uint32_t]; the elements of the
    resized vector are 0, whose bytes are zero. *)
Definition read_vertexIDMap (file : option (list Byte.byte))
    (first second : Z) : option (bool * list Byte.byte) :=
  let num_entries_to_read := wrap64 (second - first) in
  readVertexIDMappingFile file
    (replicate (Z.to_nat (4 * num_entries_to_read)) Byte.x00)
    (wrap32 num_entries_to_read) (wrap32 first).

(** ** Phase 1: edge inspection *)

(** [uint32_t find_hostID(uint64_t offset)]: [vertexIDMap[offset]], an
    [int32_t], returned as [uint32_t]. *)
Definition find_hostID (vertexIDMap : list Z) (offset : nat) : option Z :=
  wrap32 <$> vertexIDMap !! offset.

(** The locals of [assign_edges_phase1] that the inspection fills. *)
Record Inspection := {
  numOutgoingEdges : list (list Z);
  hasIncomingEdge : list (list bool);
  num_assigned_edges_perhost : list Z;
  num_assigned_nodes_perhost : list Z;
}.

(** [numOutgoingEdges[i].assign(numNodesAssigned, 0);
     hasIncomingEdge[i].resize(numGlobalNodes);] *)
Definition inspection_init (numHosts numNodesAssigned numGlobalNodes : nat)
  : Inspection :=
  {| numOutgoingEdges := replicate numHosts (replicate numNodesAssigned 0);
     hasIncomingEdge := replicate numHosts (replicate numGlobalNodes false);
     num_assigned_edges_perhost := replicate numHosts 0;
     num_assigned_nodes_perhost := replicate numHosts 0 |}.

(** Modelled from the spec: [galois::DynamicBitSet] is declared outside
    this header; the spec has [hasIncomingEdge[h]] "a bitset of size
    numGlobalNodes" in which the inspection sets the bit of every
    destination.  [set(gdst)]; [None] outside the bitset. *)
Definition bitset_set (bits : list bool) (gdst : Z) : option (list bool) :=
  if (0 <=? gdst) && (gdst <? Z.of_nat (length bits))
  then Some (<[Z.to_nat gdst := true]> bits) else None.

(** [for (; ee != ee_end; ++ee) hasIncomingEdge[h].set(edgeDestination( *ee ))] *)
Fixpoint bitset_set_all (bits : list bool) (dsts : list Z)
  : option (list bool) :=
  match dsts with
  | [] => Some bits
  | d :: dsts' =>
      match bitset_set bits d with
      | Some bits' => bitset_set_all bits' dsts'
      | None => None
      end
  end.

(** The body of the [EdgeInspection] loop for the source at offset
    [k = src - globalOffset], whose edges go to [dsts]
    ([mpiGraph.edgeBegin(src)] to [edgeEnd(src)], read through
    [edgeDestination]).  [None]: the assertion [h < net.Num] fails or an
    index is out of range. *)
Definition inspect_src (numHosts : nat) (vertexIDMap : list Z)
    (k : nat) (dsts : list Z) (st : Inspection) : option Inspection :=
  let num_edges := Z.of_nat (length dsts) in
  match find_hostID vertexIDMap k with
  | None => None
  | Some h =>
      if h <? Z.of_nat numHosts then
        let hn := Z.to_nat h in
        match numOutgoingEdges st !! hn, hasIncomingEdge st !! hn with
        | Some row, Some bits =>
            if (k <? length row)%nat then
              match bitset_set_all bits dsts with
              | Some bits' =>
                  (* numOutgoingEdges[h][k] = 1; ... += num_edges; *)
                  let row' :=
                    alter (fun c => wrap64 (c + num_edges)) k (<[k := 1]> row) in
                  Some
                    {| numOutgoingEdges := <[hn := row']> (numOutgoingEdges st);
                       hasIncomingEdge := <[hn := bits']> (hasIncomingEdge st);
                       num_assigned_edges_perhost :=
                         alter (fun c => wrap64 (c + num_edges)) hn
                               (num_assigned_edges_perhost st);
                       num_assigned_nodes_perhost :=
                         alter (fun c => wrap32 (c + 1)) hn
                               (num_assigned_nodes_perhost st) |}
              | None => None
              end
            else None
        | _, _ => None
        end
      else None
  end.

(** The [EdgeInspection] loop over the sources at the offsets
    [k, k+1, ...], [edges] holding their destination lists.  The loop
    is a [galois::do_all]; an iteration writes the counter of its own
    source, adds to accumulators and sets bits, so that the iterations
    commute, and they are run here in the order of the sources. *)
Fixpoint inspect_from (numHosts : nat) (vertexIDMap : list Z) (k : nat)
    (edges : list (list Z)) (st : Inspection) : option Inspection :=
  match edges with
  | [] => Some st
  | dsts :: edges' =>
      match inspect_src numHosts vertexIDMap k dsts st with
      | Some st' => inspect_from numHosts vertexIDMap (S k) edges' st'
      | None => None
      end
  end.

(** Edge inspection of a host whose range [[lo, hi)] has the
    destination lists [edges], one per source; [vertexIDMap] is the
    member vector, holding the host of each source of the range. *)
Definition inspect (numHosts numGlobalNodes : nat) (vertexIDMap : list Z)
    (edges : list (list Z)) : option Inspection :=
  inspect_from numHosts vertexIDMap 0 edges
    (inspection_init numHosts (length edges) numGlobalNodes).

(** ** Phase 1: exchange *)

(** Modelled from the spec: the transport is "a reliable FIFO tagged
    channel per ordered pair of hosts", and serialisation round-trips.
    A message is what a host sends to the peer [x], in order
    [num_assigned_nodes_perhost[x]], [num_assigned_edges_perhost[x]],
    [numOutgoingEdges[x]] and [hasIncomingEdge[x]], tagged by the
    transport with the sender. *)
Record Message := {
  from_host : nat;
  num_nodes_from_host : Z;
  num_edges_from_host : Z;
  msg_numOutgoingEdges : list Z;
  msg_hasIncomingEdge : list bool;
}.

(** The send loop's buffer for the peer [x]. *)
Definition message_for (id : nat) (st : Inspection) (x : nat)
  : option Message :=
  match num_assigned_nodes_perhost st !! x,
        num_assigned_edges_perhost st !! x,
        numOutgoingEdges st !! x, hasIncomingEdge st !! x with
  | Some n, Some e, Some row, Some bits =>
      Some {| from_host := id; num_nodes_from_host := n;
              num_edges_from_host := e; msg_numOutgoingEdges := row;
              msg_hasIncomingEdge := bits |}
  | _, _, _, _ => None
  end.

(** The members and locals the receive loop updates. *)
Record Exchange := {
  ex_numOutgoingEdges : list (list Z);
  ex_hasIncomingEdge : list (list bool);
  num_total_edges_to_receive : Z;
  ex_numOwned : Z;
}.

(** [num_total_edges_to_receive = 0;] ...
    [numOwned = num_assigned_nodes_perhost[id].reduce();] *)
Definition exchange_init (id : nat) (st : Inspection) : option Exchange :=
  match num_assigned_nodes_perhost st !! id with
  | Some n =>
      Some {| ex_numOutgoingEdges := numOutgoingEdges st;
              ex_hasIncomingEdge := hasIncomingEdge st;
              num_total_edges_to_receive := 0;
              ex_numOwned := n |}
  | None => None
  end.

(** One round of the receive loop, [m] being the message received. *)
Definition receive_one (m : Message) (ex : Exchange) : option Exchange :=
  if (from_host m <? length (ex_numOutgoingEdges ex))%nat then
    Some {| ex_numOutgoingEdges :=
              <[from_host m := msg_numOutgoingEdges m]> (ex_numOutgoingEdges ex);
            ex_hasIncomingEdge :=
              <[from_host m := msg_hasIncomingEdge m]> (ex_hasIncomingEdge ex);
            num_total_edges_to_receive :=
              wrap64 (num_total_edges_to_receive ex + num_edges_from_host m);
            ex_numOwned := wrap64 (ex_numOwned ex + num_nodes_from_host m) |}
  else None.

(** The receive loop: [rounds] messages are taken from the transport, in
    the order [inbox] delivers them; [None] when the transport has no
    further message (the [do ... while(!p)] never ends) or a sender is
    not a host. *)
Fixpoint receive_loop (rounds : nat) (inbox : list Message) (ex : Exchange)
  : option Exchange :=
  match rounds with
  | O => Some ex
  | S rounds' =>
      match inbox with
      | [] => None
      | m :: inbox' =>
          match receive_one m ex with
          | Some ex' => receive_loop rounds' inbox' ex'
          | None => None
          end
      end
  end.

(** Modelled from the spec: [DynamicBitSet::bitwise_or], by which "each
    host OR-merges every peer's hasIncomingEdge bitset into its own";
    the caller asserts that the sizes are equal. *)
Definition bitwise_or (a b : list bool) : option (list bool) :=
  if (length a =? length b)%nat then Some (zip_with orb a b) else None.

(** [for (x = 0; x < net.Num; ++x) { if (x == id) continue;
      hasIncomingEdge[id].bitwise_or(hasIncomingEdge[x]); }],
    [x] running over the indices of [others] from [x0] on. *)
Fixpoint merge_incoming (id x0 : nat) (others : list (list bool))
    (mine : list bool) : option (list bool) :=
  match others with
  | [] => Some mine
  | b :: others' =>
      if (x0 =? id)%nat then merge_incoming id (S x0) others' mine
      else
        match bitwise_or mine b with
        | Some mine' => merge_incoming id (S x0) others' mine'
        | None => None
        end
  end.

(** ** Local id assignment *)

(** The members of the class that the assignment fills, and the local
    [prefixSumOfEdges]. *)
Record LocalIds := {
  numOwned : Z;
  numNodes : Z;
  numEdges : Z;
  localToGlobalVector : list Z;
  globalToLocalMap : gmap Z Z;
  prefixSumOfEdges : list Z;
}.

(** [globalToLocalMap.find(gid) != globalToLocalMap.end()] *)
Definition isLocal (s : LocalIds) (gid : Z) : bool :=
  match globalToLocalMap s !! gid with
  | Some _ => true
  | None => false
  end.

(** [isLocal(gid) && (globalToLocalMap.at(gid) < numOwned)] *)
Definition isOwned (s : LocalIds) (gid : Z) : bool :=
  isLocal s gid &&
  match globalToLocalMap s !! gid with
  | Some lid => lid <? numOwned s
  | None => false
  end.

(** [globalToLocalMap.at(gid)]; [None] when [gid] is not local. *)
Definition G2L (s : LocalIds) (gid : Z) : option Z :=
  globalToLocalMap s !! gid.


(** [localToGlobalVector.push_back(gid); globalToLocalMap[gid] = numNodes++;
     prefixSumOfEdges.push_back(numEdges);] once [numEdges] is [edges]. *)
Definition push_node (gid edges : Z) (s : LocalIds) : LocalIds :=
  {| numOwned := numOwned s;
     numNodes := wrap32 (numNodes s + 1);
     numEdges := edges;
     localToGlobalVector := localToGlobalVector s ++ [gid];
     globalToLocalMap := <[gid := numNodes s]> (globalToLocalMap s);
     prefixSumOfEdges := prefixSumOfEdges s ++ [edges] |}.

(** The body of the inner loop of the owned pass, [c] being
    [numOutgoingEdges[i][j]]; the state carries [src]. *)
Definition owned_visit (sx : LocalIds * Z) (c : Z) : LocalIds * Z :=
  let '(s, src) := sx in
  (if 0 <? c
   then push_node src (wrap64 (numEdges s + wrap64 (c - 1))) s
   else s,
   wrap64 (src + 1)).

(** [uint64_t src = 0; for (i ...) for (j ...) { ...; ++src; }] *)
Definition owned_pass (counters : list (list Z)) (s : LocalIds)
  : LocalIds * Z :=
  foldl (fun sx row => foldl owned_visit sx row) (s, 0) counters.

(** The body of the ghost loop for the GID [i];
    [None]: [test(i)] reads outside the bitset. *)
Definition ghost_visit (bits : list bool) (s : LocalIds) (i : nat)
  : option LocalIds :=
  match bits !! i with
  | Some b =>
      Some (if b && negb (isOwned s (Z.of_nat i))
            then push_node (Z.of_nat i) (numEdges s) s
            else s)
  | None => None
  end.

(** [for (uint64_t i = 0; i < numGlobalNodes; ++i) ...], from [i] on. *)
Fixpoint ghost_pass (bits : list bool) (i n : nat) (s : LocalIds)
  : option LocalIds :=
  match n with
  | O => Some s
  | S n' =>
      match ghost_visit bits s i with
      | Some s' => ghost_pass bits (S i) n' s'
      | None => None
      end
  end.

(** The state before the two passes: [numNodes = 0; numEdges = 0;], the
    vectors and the map empty, [numOwned] as the exchange left it. *)
Definition local_ids_init (owned : Z) : LocalIds :=
  {| numOwned := owned; numNodes := 0; numEdges := 0;
     localToGlobalVector := []; globalToLocalMap := ∅;
     prefixSumOfEdges := [] |}.

(** "Fill local and global vectors" followed by "Fill Ghosts".  The
    assertions between the two, [numNodes == numOwned] and
    [localToGlobalVector.size() == numOwned], are not run; they are part
    of [assignable] below. *)
Definition assign_local_ids (counters : list (list Z)) (bits : list bool)
    (owned : Z) (numGlobalNodes : nat) : option LocalIds :=
  ghost_pass bits 0 numGlobalNodes
    (fst (owned_pass counters (local_ids_init owned))).

(** [assign_edges_phase1] up to the end of "Fill Ghosts", on the host
    [id] of [numHosts] whose range has the edges [edges], the transport
    delivering [inbox]. *)
Definition assign_edges_phase1 (numHosts numGlobalNodes id : nat)
    (vertexIDMap : list Z) (edges : list (list Z)) (inbox : list Message)
  : option LocalIds :=
  st ← inspect numHosts numGlobalNodes vertexIDMap edges;
  ex0 ← exchange_init id st;
  ex ← receive_loop (numHosts - 1) inbox ex0;
  mine ← ex_hasIncomingEdge ex !! id;
  bits ← merge_incoming id 0 (ex_hasIncomingEdge ex) mine;
  assign_local_ids (ex_numOutgoingEdges ex) bits (ex_numOwned ex)
                   numGlobalNodes.

(** ** Mirror-owner resolution *)

(** What a host receives from a peer in the second exchange of
    [assign_edges_phase1]: the peer's
    [temp_vec(localToGlobalVector.begin(),
              localToGlobalVector.begin() + numOwned)],
    tagged by the transport with the sender ([p->first]). *)
Record Masters := {
  masters_from : Z;
  masters_vec : list Z;
}.

(** The send side, on the host [id]; [None] when [numOwned] is beyond
    the end of the vector. *)
Definition masters_for (id : nat) (s : LocalIds) : option Masters :=
  if (0 <=? numOwned s)
     && (numOwned s <=? Z.of_nat (length (localToGlobalVector s)))
  then Some {| masters_from := Z.of_nat id;
               masters_vec := take (Z.to_nat (numOwned s))
                                   (localToGlobalVector s) |}
  else None.

(** The ghosts: [localToGlobalVector.begin() + numOwned] to [end()]. *)
Definition ghosts_of (s : LocalIds) : list Z :=
  drop (Z.to_nat (numOwned s)) (localToGlobalVector s).

(** The body of the [MirrorToHostAssignment] loop for the ghost [src]:
    [auto h = this->find_hostID(temp_vec, src, from_hostID);
     if (h < std::numeric_limits<uint32_t>::max())
       mirror_mapping_to_hosts[this->G2L(src) - numOwned] = h;]
    [None]: a read or a write outside a vector, or [src] is not local. *)
Definition mirror_visit (s : LocalIds) (m : Masters) (mapping : list Z)
    (src : Z) : option (list Z) :=
  match find_hostID_in (masters_vec m) src (masters_from m) with
  | OutOfBounds _ => None
  | Ok h =>
      if h <? UINT32_MAX then
        match G2L s src with
        | Some l =>
            let i := wrap64 (l - numOwned s) in
            if i <? Z.of_nat (length mapping)
            then Some (<[Z.to_nat i := h]> mapping)
            else None
        | None => None
        end
      else Some mapping
  end.

(** The loop over the ghosts for one received list.  It is a
    [galois::do_all]; an iteration writes the entry of its own ghost, and
    the iterations are run here in the order of the ghosts.  The
    assertion [std::is_sorted(temp_vec)] before the loop is not run. *)
Definition mirror_round (s : LocalIds) (m : Masters) (mapping : list Z)
  : option (list Z) :=
  foldl (fun acc src => acc ≫= fun mp => mirror_visit s m mp src)
        (Some mapping) (ghosts_of s).

(** The receive loop of the second exchange: [rounds] lists are taken
    from the transport, in the order [inbox] delivers them. *)
Fixpoint mirror_rounds (rounds : nat) (s : LocalIds) (inbox : list Masters)
    (mapping : list Z) : option (list Z) :=
  match rounds with
  | O => Some mapping
  | S rounds' =>
      match inbox with
      | [] => None
      | m :: inbox' =>
          match mirror_round s m mapping with
          | Some mapping' => mirror_rounds rounds' s inbox' mapping'
          | None => None
          end
      end
  end.

(** [mirrorNodes[mirror_mapping_to_hosts[i]]
       .push_back(localToGlobalVector[numOwned + i]);] *)
Definition fill_mirror (s : LocalIds) (mapping : list Z)
    (mirrorNodes : list (list Z)) (i : nat) : option (list (list Z)) :=
  h ← mapping !! i;
  g ← localToGlobalVector s !! (Z.to_nat (numOwned s) + i)%nat;
  if (0 <=? h) && (h <? Z.of_nat (length mirrorNodes))
  then Some (alter (fun l => l ++ [g]) (Z.to_nat h) mirrorNodes)
  else None.

(** [for(uint32_t i = 0; i < (localToGlobalVector.size() - numOwned); ++i)];
    [None] also when the bound does not fit the counter [i]. *)
Definition fill_mirrors (s : LocalIds) (mapping : list Z)
    (mirrorNodes : list (list Z)) : option (list (list Z)) :=
  let bound := wrap64 (Z.of_nat (length (localToGlobalVector s)) - numOwned s) in
  if bound <? 2 ^ 32 then
    foldl (fun acc i => acc ≫= fun mn => fill_mirror s mapping mn i)
          (Some mirrorNodes) (seq 0 (Z.to_nat bound))
  else None.

(** The end of [assign_edges_phase1], from
    [uint32_t numGhosts = (localToGlobalVector.size() - numOwned);] on:
    [mirror_mapping_to_hosts.resize(numGhosts)] (zeros), the second
    exchange and the filling of [mirrorNodes], a member of the base
    class that the host starts with. *)
Definition resolve_mirrors (numHosts : nat) (s : LocalIds)
    (inbox : list Masters) (mirrorNodes : list (list Z))
  : option (list (list Z)) :=
  let numGhosts :=
    wrap32 (wrap64 (Z.of_nat (length (localToGlobalVector s)) - numOwned s)) in
  mapping ← mirror_rounds (numHosts - 1) s inbox
              (replicate (Z.to_nat numGhosts) 0);
  fill_mirrors s mapping mirrorNodes.

(** ** Bitset reset ranges *)

(** [base_hGraph::SyncType], of which the header names two values. *)
Inductive SyncType := syncReduce | syncBroadcast.

(** [reset_bitset(syncType, bitset_reset_range)]: the calls of
    [bitset_reset_range(first, last)] it makes, in order.
    [base_numOwned] is [base_hGraph::numOwned], which the constructor
    sets to the member [numOwned]; the index [numOwned - 1] is computed
    in [uint64_t], [numNodes - 1] in [uint32_t] and the arguments in
    [size_t].  The assertions are not run.  [None]: a read outside
    [localToGlobalVector] or a GID that is not local. *)
Definition reset_bitset (s : LocalIds) (base_numOwned : Z)
    (syncType : SyncType) : option (list (Z * Z)) :=
  owned ← (if 0 <? base_numOwned then
             g0 ← localToGlobalVector s !! 0%nat;
             first_owned ← G2L s g0;
             g1 ← localToGlobalVector s !! Z.to_nat (wrap64 (numOwned s - 1));
             last_owned ← G2L s g1;
             Some (first_owned, last_owned)
           else Some (0, 0));
  let first_owned := owned.1 in
  let last_owned := owned.2 in
  Some
    match syncType with
    | syncBroadcast =>
        if 0 <? base_numOwned then [(first_owned, last_owned)] else []
    | syncReduce =>
        if 0 <? base_numOwned then
          (if 0 <? first_owned then [(0, wrap64 (first_owned - 1))] else [])
          ++ (if last_owned <? wrap32 (numNodes s - 1)
              then [(wrap64 (last_owned + 1), wrap32 (numNodes s - 1))]
              else [])
        else if 0 <? numNodes s then [(0, wrap32 (numNodes s - 1))] else []
    end.

(** ** Phase 2: edge distribution *)

(** A call [graph.constructEdge(slot, ldst)]: the edge slot and the
    local id of the destination. *)
Abbreviation EdgeCall := (Z * Z)%type (only parsing).

(** What [gSerialize(sendBuffer, src, gdst_vec[h])] adds to a send
    buffer: a source and the destinations of its edges. *)
Abbreviation EdgeRecord := (Z * list Z)%type (only parsing).

(** The state of the [EdgeLoading] loop of [assign_load_send_edges]:
    the calls of [constructEdge] so far, the send buffers of the thread
    and the buffers handed to the transport, with their receivers. *)
Record Loading := {
  ld_calls : list EdgeCall;
  sendBuffers : list (list EdgeRecord);
  ld_sent : list (nat * list EdgeRecord);
}.

Section EdgeLoading.
(** The graph is a template parameter ([GraphTy& graph]).
    [edge_begin lsrc] and [edge_end lsrc] are [*graph.edge_begin(lsrc)]
    and [*graph.edge_end(lsrc)], [None] where the graph has no such
    node; the loading changes the graph by [constructEdge] alone, whose
    calls are recorded in order. *)
Variables (edge_begin edge_end : Z -> option Z).
(** [sendBuffer.size()] for a buffer with the given records, and the
    threshold [partition_edge_send_buffer_size], both declared outside
    this header. *)
Variable buffer_size : list EdgeRecord -> Z.
Variable partition_edge_send_buffer_size : Z.

(** [for(; ee != ee_end; ++ee){ auto gdst = edgeDestination( *ee );
      uint32_t ldst = this->G2L(gdst);
      graph.constructEdge(cur++, ldst); }], [cur] a [uint64_t];
    [None]: a destination is not local. *)
Fixpoint keep_edges (s : LocalIds) (dsts : list Z) (cur : Z)
    (calls : list EdgeCall) : option (list EdgeCall * Z) :=
  match dsts with
  | [] => Some (calls, cur)
  | gdst :: dsts' =>
      match G2L s gdst with
      | Some ldst =>
          keep_edges s dsts' (wrap64 (cur + 1)) (calls ++ [(cur, ldst)])
      | None => None
      end
  end.

(** [for (; ee != ee_end; ++ee) gdst_vec[h].push_back(gdst);]
    [None]: [h] is outside [gdst_vec]. *)
Fixpoint assign_to (h : Z) (dsts : list Z) (gdst_vec : list (list Z))
  : option (list (list Z)) :=
  match dsts with
  | [] => Some gdst_vec
  | gdst :: dsts' =>
      if h <? Z.of_nat (length gdst_vec)
      then assign_to h dsts'
             (alter (fun v => v ++ [gdst]) (Z.to_nat h) gdst_vec)
      else None
  end.

(** The body of the send loop for the host [h]:
    [if (h == id) continue;
     if (gdst_vec[h].size()) {
       gSerialize(sendBuffer, src, gdst_vec[h]);
       if (sendBuffer.size() > partition_edge_send_buffer_size) {
         net.sendTagged(h, evilPhase, sendBuffer);
         sendBuffer.getVec().clear(); } }] *)
Definition send_to (id : nat) (src : Z) (gdst_vec : list (list Z))
    (st : Loading) (h : nat) : option Loading :=
  if (h =? id)%nat then Some st
  else
    match gdst_vec !! h, sendBuffers st !! h with
    | Some v, Some b =>
        if (length v =? 0)%nat then Some st
        else
          let b' := b ++ [(src, v)] in
          if partition_edge_send_buffer_size <? buffer_size b'
          then Some {| ld_calls := ld_calls st;
                       sendBuffers := <[h := []]> (sendBuffers st);
                       ld_sent := ld_sent st ++ [(h, b')] |}
          else Some {| ld_calls := ld_calls st;
                       sendBuffers := <[h := b']> (sendBuffers st);
                       ld_sent := ld_sent st |}
    | _, _ => None
    end.

(** The body of the [EdgeLoading] loop (the variant without edge
    data) for the source at the offset [k] of the range, that is
    [src = globalOffset + k], whose edges go to [dsts].  [gdst_vec] is
    cleared first; the edges of a source that the vertex-ID map gives
    to this host are constructed from [*graph.edge_begin(lsrc)] on, the
    edges of another source are put into [gdst_vec[h]]; the send loop
    follows in both cases.  The assertions are not run.  [None]: a read
    outside a vector, or a GID that is not local. *)
Definition load_src (id numHosts : nat) (globalOffset : Z)
    (vertexIDMap : list Z) (s : LocalIds) (k : nat) (dsts : list Z)
    (st : Loading) : option Loading :=
  let src := globalOffset + Z.of_nat k in
  let cleared := replicate numHosts [] in
  h ← find_hostID vertexIDMap k;
  filled ←
    (if h =? Z.of_nat id then
       lsrc ← G2L s src;
       cur ← edge_begin lsrc;
       kept ← keep_edges s dsts cur (ld_calls st);
       Some (cleared, kept.1)
     else
       gdst_vec ← assign_to h dsts cleared;
       Some (gdst_vec, ld_calls st));
  foldl (fun acc h' => acc ≫= fun st' => send_to id src filled.1 st' h')
        (Some {| ld_calls := filled.2; sendBuffers := sendBuffers st;
                 ld_sent := ld_sent st |})
        (seq 0 numHosts).

(** The [EdgeLoading] loop over the sources at the offsets
    [k, k+1, ...].  It is a [galois::do_all] with per-thread buffers;
    it is run here by one thread, in the order of the sources. *)
Fixpoint load_from (id numHosts : nat) (globalOffset : Z)
    (vertexIDMap : list Z) (s : LocalIds) (k : nat)
    (edges : list (list Z)) (st : Loading) : option Loading :=
  match edges with
  | [] => Some st
  | dsts :: edges' =>
      match load_src id numHosts globalOffset vertexIDMap s k dsts st with
      | Some st' =>
          load_from id numHosts globalOffset vertexIDMap s (S k) edges' st'
      | None => None
      end
  end.

(** "flush buffers", for the buffers of the one thread
    ([sendBuffers.size()] is the number of threads) and the host [h]:
    [if (h == id) continue;
     if (sendBuffer.size() > 0) {
       net.sendTagged(h, evilPhase, sendBuffer);
       sendBuffer.getVec().clear(); }] *)
Definition flush_to (id : nat) (st : Loading) (h : nat) : option Loading :=
  if (h =? id)%nat then Some st
  else
    match sendBuffers st !! h with
    | Some b =>
        if 0 <? buffer_size b
        then Some {| ld_calls := ld_calls st;
                     sendBuffers := <[h := []]> (sendBuffers st);
                     ld_sent := ld_sent st ++ [(h, b)] |}
        else Some st
    | None => None
    end.

(** [assign_load_send_edges], on the host [id] of [numHosts] whose
    range starts at [globalOffset] and has the edges [edges]: the calls
    of [constructEdge], and the buffers sent with their receivers, in
    order. *)
Definition assign_load_send_edges (id numHosts : nat) (globalOffset : Z)
    (vertexIDMap : list Z) (s : LocalIds) (edges : list (list Z))
  : option (list EdgeCall * list (nat * list EdgeRecord)) :=
  st ← load_from id numHosts globalOffset vertexIDMap s 0 edges
         {| ld_calls := []; sendBuffers := replicate numHosts [];
            ld_sent := [] |};
  st' ← foldl (fun acc h => acc ≫= fun st' => flush_to id st' h)
              (Some st) (seq 0 numHosts);
  Some (ld_calls st', ld_sent st').

(** The loop of [deserializeEdges] (the variant without edge data) with
    [n] rounds to go:
    [uint64_t gdst = gdst_vec[i++]; uint32_t ldst = G2L(gdst);
     graph.constructEdge(cur++, ldst);]
    [None]: a read outside [gdst_vec] or a destination that is not
    local. *)
Fixpoint deserialize_loop (n : nat) (s : LocalIds) (gdst_vec : list Z)
    (i : nat) (cur : Z) (calls : list EdgeCall) : option (list EdgeCall) :=
  match n with
  | O => Some calls
  | S n' =>
      match gdst_vec !! i with
      | Some gdst =>
          match G2L s gdst with
          | Some ldst =>
              deserialize_loop n' s gdst_vec (S i) (cur + 1)
                               (calls ++ [(cur, ldst)])
          | None => None
          end
      | None => None
      end
  end.

(** [deserializeEdges(graph, b, gdst_vec, cur, cur_end)]:
    [uint64_t i = 0; while (cur < cur_end) { ... }]; the loop makes
    [cur_end - cur] rounds when [cur < cur_end] and none otherwise. *)
Definition deserializeEdges (s : LocalIds) (gdst_vec : list Z)
    (cur cur_end : Z) (calls : list EdgeCall) : option (list EdgeCall) :=
  deserialize_loop (Z.to_nat (cur_end - cur)) s gdst_vec 0 cur calls.

(** The body of [while (receiveBuffer.r_size() > 0)] in [receive_edges]
    for the record [(_src, _gdst_vec)], on the counter [edgesToReceive]
    and the calls so far.  The assertions are not run. *)
Definition receive_record (s : LocalIds) (st : Z * list EdgeCall)
    (rec : EdgeRecord) : option (Z * list EdgeCall) :=
  let edgesToReceive := wrap64 (st.1 - Z.of_nat (length rec.2)) in
  lsrc ← G2L s rec.1;
  cur ← edge_begin lsrc;
  cur_end ← edge_end lsrc;
  calls ← deserializeEdges s rec.2 cur cur_end st.2;
  Some (edgesToReceive, calls).

(** [while (receiveBuffer.r_size() > 0) { ... }] over the records of a
    received buffer. *)
Fixpoint receive_records (s : LocalIds) (records : list EdgeRecord)
    (st : Z * list EdgeCall) : option (Z * list EdgeCall) :=
  match records with
  | [] => Some st
  | rec :: records' =>
      match receive_record s st rec with
      | Some st' => receive_records s records' st'
      | None => None
      end
  end.

(** [receive_edges], run by one thread: [while (edgesToReceive) { ... }],
    the transport delivering the buffers [inbox] in order.  [None]: the
    counter is not zero and the transport has no further buffer (the
    loop never ends), or a record cannot be used. *)
Fixpoint receive_edges (s : LocalIds) (inbox : list (list EdgeRecord))
    (edgesToReceive : Z) (calls : list EdgeCall) : option (list EdgeCall) :=
  if edgesToReceive =? 0 then Some calls
  else
    match inbox with
    | [] => None
    | records :: inbox' =>
        match receive_records s records (edgesToReceive, calls) with
        | Some st => receive_edges s inbox' st.1 st.2
        | None => None
        end
    end.

(** [loadEdges]: [assign_load_send_edges], then
    [edgesToReceive.store(num_total_edges_to_receive)] and
    [receive_edges]. *)
Definition loadEdges (id numHosts : nat) (globalOffset : Z)
    (vertexIDMap : list Z) (s : LocalIds) (edges : list (list Z))
    (num_total_edges_to_receive : Z) (inbox : list (list EdgeRecord))
  : option (list EdgeCall * list (nat * list EdgeRecord)) :=
  loaded ← assign_load_send_edges id numHosts globalOffset vertexIDMap s
             edges;
  calls ← receive_edges s inbox num_total_edges_to_receive loaded.1;
  Some (calls, loaded.2).

End EdgeLoading.

(** ** Vocabulary of the statements *)

(** [std::is_sorted]: no element is smaller than one before it. *)
Definition is_sorted (vec : list Z) : Prop :=
  forall i j x y,
    (i <= j)%nat -> vec !! i = Some x -> vec !! j = Some y -> x <= y.

(** The number of sources at the offsets below [k] that the vertex-ID
    map gives to the host [h]. *)
Definition assigned_below (vertexIDMap : list Z) (h : nat) (k : nat) : nat :=
  length (filter (fun v => wrap32 v = Z.of_nat h) (take k vertexIDMap)).

(** What the inspection has established once the sources at the offsets
    below [k] are done. *)
Record inspected (numHosts numGlobalNodes : nat) (vertexIDMap : list Z)
    (edges : list (list Z)) (k : nat) (st : Inspection) : Prop := {
  insp_rows : length (numOutgoingEdges st) = numHosts;
  insp_bitsets : length (hasIncomingEdge st) = numHosts;
  insp_edge_acc : length (num_assigned_edges_perhost st) = numHosts;
  insp_bitset_size : forall h bits,
    hasIncomingEdge st !! h = Some bits -> length bits = numGlobalNodes;
  insp_row : forall h row,
    numOutgoingEdges st !! h = Some row ->
    length row = length edges /\
    forall j dsts, edges !! j = Some dsts ->
      row !! j
        = Some (if bool_decide
                     ((j < k)%nat /\
                      find_hostID vertexIDMap j = Some (Z.of_nat h))
                then wrap64 (1 + Z.of_nat (length dsts)) else 0);
  insp_nodes : forall h, (h < numHosts)%nat ->
    num_assigned_nodes_perhost st !! h
      = Some (wrap32 (Z.of_nat (assigned_below vertexIDMap h k)));
}.

(** The [assert(h < net.Num)] of the loop body, for every source. *)
Definition hosts_valid (numHosts : nat) (vertexIDMap : list Z)
    (edges : list (list Z)) : Prop :=
  forall k, (k < length edges)%nat ->
    exists h, find_hostID vertexIDMap k = Some (Z.of_nat h) /\
              (h < numHosts)%nat.

(** Every edge ends at a node of the graph. *)
Definition dsts_valid (numGlobalNodes : nat) (edges : list (list Z)) : Prop :=
  forall k dsts d, edges !! k = Some dsts -> d ∈ dsts ->
    0 <= d < Z.of_nat numGlobalNodes.

(** The node counts carried by the messages [ms], added up. *)
Fixpoint nodes_received (ms : list Message) : Z :=
  match ms with
  | [] => 0
  | m :: ms' => num_nodes_from_host m + nodes_received ms'
  end.

(** The GIDs [src, src+1, ...] whose flag is set, in increasing order. *)
Fixpoint select (src : Z) (flags : list bool) : list Z :=
  match flags with
  | [] => []
  | b :: flags' =>
      if b then src :: select (src + 1) flags' else select (src + 1) flags'
  end.

(** A received counter that is not zero: the host owns the node. *)
Definition is_master (c : Z) : bool := 0 <? c.

(** A node with an incoming edge here that the host does not own. *)
Definition is_ghost (b : bool) (c : Z) : bool := b && negb (is_master c).

(** The running edge count after each master, starting from [e]. *)
Fixpoint prefix_sums (e : Z) (cs : list Z) : list Z :=
  match cs with
  | [] => []
  | c :: cs' =>
      if is_master c then (e + (c - 1)) :: prefix_sums (e + (c - 1)) cs'
      else prefix_sums e cs'
  end.

(** The edges of all masters. *)
Fixpoint edges_total (cs : list Z) : Z :=
  match cs with
  | [] => 0
  | c :: cs' => (if is_master c then c - 1 else 0) + edges_total cs'
  end.

(** The invariant tying the vector, the map and the counters. *)
Record consistent (s : LocalIds) : Prop := {
  cons_numNodes : numNodes s = Z.of_nat (length (localToGlobalVector s));
  cons_prefix :
    length (prefixSumOfEdges s) = length (localToGlobalVector s);
  cons_map : forall g l,
    globalToLocalMap s !! g = Some l <->
    0 <= l /\ localToGlobalVector s !! Z.to_nat l = Some g;
}.

(** The conditions under which the assignment is run: the counters of
    all hosts' ranges cover the [N] nodes, the bitset has [N] bits, local
    ids fit 32 bits and edge counts 64 bits, and [numOwned] is the number
    of non-zero counters ([assert(numNodes == numOwned)]). *)
Record assignable (counters : list (list Z)) (bits : list bool)
    (owned : Z) (N : nat) : Prop := {
  asg_counters : length (concat counters) = N;
  asg_bits : length bits = N;
  asg_nodes : Z.of_nat N < 2 ^ 32;
  asg_range : Forall (fun c => 0 <= c < 2 ^ 64) (concat counters);
  asg_edges : edges_total (concat counters) < 2 ^ 64;
  asg_owned :
    owned = Z.of_nat (length (select 0 (is_master <$> concat counters)));
}.

(** The host a ghost is resolved to: the sender of the last received
    list that holds it, host 0 when no list does. *)
Definition resolved (inbox : list Masters) (g : Z) : Z :=
  foldl (fun h m => if bool_decide (g ∈ masters_vec m)
                    then masters_from m else h) 0 inbox.

(** What the resolution needs of a received list: it is sorted (the
    receiver's assertion), its sender is a host, and the search for
    each ghost ends inside the list. *)
Definition masters_usable (numHosts : nat) (ghosts : list Z) (m : Masters)
  : Prop :=
  is_sorted (masters_vec m) /\
  0 <= masters_from m < Z.of_nat numHosts /\
  masters_from m < UINT32_MAX /\
  forall g, g ∈ ghosts -> exists x, x ∈ masters_vec m /\ g <= x.

(** ** A cluster of hosts *)

(** What a host reads: its slice of the vertex-ID map and the edges of
    the sources of its range. *)
Record HostRange := {
  range_vertexIDMap : list Z;
  range_edges : list (list Z);
}.

(** The inspection of the host [p] of the cluster. *)
Definition inspection_of (hosts : list HostRange) (N p : nat)
  : option Inspection :=
  r ← hosts !! p;
  inspect (length hosts) N (range_vertexIDMap r) (range_edges r).

(** The message the host [p] sends to the host [me]. *)
Definition message_from (hosts : list HostRange) (N me p : nat)
  : option Message :=
  st ← inspection_of hosts N p; message_for p st me.

(** The hosts other than [me]. *)
Definition peers (numHosts me : nat) : list nat :=
  filter (fun p => p <> me) (seq 0 numHosts).

(** The ranges cover the [N] nodes, local ids fit 32 bits and edge
    counts 64 bits, every source is given to a host and every edge ends
    at a node. *)
Record cluster_ok (hosts : list HostRange) (N : nat) : Prop := {
  ck_cover : length (concat (range_edges <$> hosts)) = N;
  ck_nodes : Z.of_nat N < 2 ^ 32;
  ck_edges :
    Z.of_nat (length (concat (concat (range_edges <$> hosts)))) + 1 < 2 ^ 64;
  ck_hosts :
    Forall (fun r => hosts_valid (length hosts) (range_vertexIDMap r)
                                 (range_edges r)) hosts;
  ck_dsts : Forall (fun r => dsts_valid N (range_edges r)) hosts;
}.

(** The sum of [f] over the hosts [l]. *)
Fixpoint sum_over (f : nat -> Z) (l : list nat) : Z :=
  match l with
  | [] => 0
  | p :: l' => f p + sum_over f l'
  end.

(** The masters among the nodes with the counters [row]. *)
Definition count_masters (row : list Z) : Z :=
  Z.of_nat (length (select 0 (is_master <$> row))).

(** The message [m] from the host [p] carries the count [C p], the
    counters [R p] and the bitset [B p]. *)
Definition carries (R : nat -> list Z) (B : nat -> list bool) (C : nat -> Z)
    (p : nat) (m : Message) : Prop :=
  from_host m = p /\ num_nodes_from_host m = C p /\
  msg_numOutgoingEdges m = R p /\ msg_hasIncomingEdge m = B p.

(** The state the host [p] reaches by its inspection, and what it holds
    for the host [me]. *)
Definition state_of (hosts : list HostRange) (N p : nat) : Inspection :=
  default (inspection_init 0 0 0) (inspection_of hosts N p).

Definition counters_from (hosts : list HostRange) (N me p : nat) : list Z :=
  default [] (numOutgoingEdges (state_of hosts N p) !! me).

Definition bitset_from (hosts : list HostRange) (N me p : nat) : list bool :=
  default [] (hasIncomingEdge (state_of hosts N p) !! me).

Definition nodes_from (hosts : list HostRange) (N me p : nat) : Z :=
  default 0 (num_assigned_nodes_perhost (state_of hosts N p) !! me).

Definition edges_of (hosts : list HostRange) (p : nat) : list (list Z) :=
  default [] (range_edges <$> hosts !! p).

(** ** The graph as a whole *)

(** The nodes a host reads, in the order of its range: for each one the
    entry of the vertex-ID map and the destinations of its edges. *)
Definition range_nodes (r : HostRange) : list (Z * list Z) :=
  zip (range_vertexIDMap r) (range_edges r).

(** The nodes of the graph in GID order: the ranges of the hosts follow
    each other. *)
Definition graph (hosts : list HostRange) : list (Z * list Z) :=
  concat (range_nodes <$> hosts).

(** The vertex-ID map gives the node [g] to the host [h]. *)
Definition owner_is (hosts : list HostRange) (h : nat) (g : Z) : Prop :=
  0 <= g /\
  exists v dsts, graph hosts !! Z.to_nat g = Some (v, dsts) /\
                 wrap32 v = Z.of_nat h.

(** The graph has an edge from [src] to [dst]. *)
Definition has_edge (hosts : list HostRange) (src dst : Z) : Prop :=
  0 <= src /\
  exists v dsts, graph hosts !! Z.to_nat src = Some (v, dsts) /\ dst ∈ dsts.

(** The number of edges that leave [src]. *)
Definition out_degree (hosts : list HostRange) (src : Z) : Z :=
  match graph hosts !! Z.to_nat src with
  | Some (_, dsts) => Z.of_nat (length dsts)
  | None => 0
  end.

(** The counter the host [h] ends up with for a node: one more than
    the number of its edges when the map gives the node to [h]. *)
Definition counter_of (h : nat) (node : Z * list Z) : Z :=
  if decide (wrap32 node.1 = Z.of_nat h)
  then 1 + Z.of_nat (length node.2) else 0.

(** What the inspection has established of the bitsets and of the edge
    accumulators once the sources at the offsets below [k] are done. *)
Record inspected_edges (vertexIDMap : list Z) (edges : list (list Z))
    (k : nat) (st : Inspection) : Prop := {
  insp_bits : forall h bits,
    hasIncomingEdge st !! h = Some bits ->
    forall g, bits !! g = Some true <->
      (g < length bits)%nat /\
      exists j dsts, (j < k)%nat /\ edges !! j = Some dsts /\
        find_hostID vertexIDMap j = Some (Z.of_nat h) /\ Z.of_nat g ∈ dsts;
  insp_edges : forall h,
    (h < length (num_assigned_edges_perhost st))%nat ->
    num_assigned_edges_perhost st !! h
      = Some (wrap64 (edges_total
                        (counter_of h <$> take k (zip vertexIDMap edges))));
}.

(** [uint64_t check_numEdges = 0;
     for (h = 0; h < numHosts; ++h)
       check_numEdges += num_assigned_edges_perhost[h].reduce();] *)
Definition check_numEdges (st : Inspection) : Z :=
  foldl (fun acc c => wrap64 (acc + c)) 0 (num_assigned_edges_perhost st).

(** Phase 1 on the host [me] of the cluster, the transport delivering
    the peers' messages in the order of the peers. *)
Definition phase1_of (hosts : list HostRange) (N me : nat)
  : option LocalIds :=
  r ← hosts !! me;
  inbox ← mapM (message_from hosts N me) (peers (length hosts) me);
  assign_edges_phase1 (length hosts) N me
    (range_vertexIDMap r) (range_edges r) inbox.

(** [numOwned] and [numEdges] of the host [me] after phase 1. *)
Definition owned_on (hosts : list HostRange) (N me : nat) : Z :=
  from_option numOwned 0 (phase1_of hosts N me).

Definition edges_on (hosts : list HostRange) (N me : nat) : Z :=
  from_option numEdges 0 (phase1_of hosts N me).

(** The list of masters the host [p] of the cluster sends to every
    other host in the second exchange. *)
Definition masters_of (hosts : list HostRange) (N p : nat)
  : option Masters :=
  s ← phase1_of hosts N p; masters_for p s.

(** *** Edge distribution *)

(** The local id of a GID, 0 for a GID that is not local. *)
Definition lid (s : LocalIds) (g : Z) : Z := default 0 (G2L s g).

(** The calls that construct edges to [ldsts] in the slots
    [cur, cur + 1, ...]. *)
Fixpoint slots (cur : Z) (ldsts : list Z) : list EdgeCall :=
  match ldsts with
  | [] => []
  | ldst :: ldsts' => (cur, ldst) :: slots (cur + 1) ldsts'
  end.

(** The calls that construct the edges of the node [g] to [dsts], in
    the slots that begin at [edge_begin] of its local id. *)
Definition node_calls (edge_begin : Z -> option Z) (s : LocalIds) (g : Z)
    (dsts : list Z) : list EdgeCall :=
  slots (default 0 (edge_begin (lid s g))) (lid s <$> dsts).

(** The calls for those of the nodes [nodes], with the GIDs
    [g, g + 1, ...], that the vertex-ID map gives to the host [h]. *)
Fixpoint calls_for (h : nat) (edge_begin : Z -> option Z) (s : LocalIds)
    (g : Z) (nodes : list (Z * list Z)) : list EdgeCall :=
  match nodes with
  | [] => []
  | node :: nodes' =>
      (if decide (wrap32 node.1 = Z.of_nat h)
       then node_calls edge_begin s g node.2 else [])
      ++ calls_for h edge_begin s (g + 1) nodes'
  end.

(** The records for those of the nodes [nodes], with the GIDs
    [g, g + 1, ...], that the vertex-ID map gives to the host [h] and
    that have an edge. *)
Fixpoint records_for (h : nat) (g : Z) (nodes : list (Z * list Z))
  : list EdgeRecord :=
  match nodes with
  | [] => []
  | node :: nodes' =>
      (if decide (wrap32 node.1 = Z.of_nat h /\ node.2 <> [])
       then [(g, node.2)] else [])
      ++ records_for h (g + 1) nodes'
  end.

(** The records in the buffers sent to the host [h], in the order of
    sending. *)
Definition records_sent (h : nat) (sent : list (nat * list EdgeRecord))
  : list EdgeRecord :=
  concat (filter (fun m => m.1 = h) sent).*2.

(** The records for the host [h] that the loop has sent or holds in
    its buffer. *)
Definition records_to (h : nat) (st : Loading) : list EdgeRecord :=
  records_sent h (ld_sent st) ++ default [] (sendBuffers st !! h).

(** The number of edges in the records. *)
Definition edges_in (records : list EdgeRecord) : Z :=
  Z.of_nat (length (concat records.*2)).

(** What the loading needs of a source of the host [id] at the offset
    [k] of its range: the vertex-ID map gives it to a host of the
    cluster, and if that is [id], the source and the destinations of
    its edges are local and the graph has slots for the edges. *)
Definition loadable (edge_begin : Z -> option Z) (id numHosts : nat)
    (globalOffset : Z) (vertexIDMap : list Z) (s : LocalIds) (k : nat)
    (dsts : list Z) : Prop :=
  exists h,
    find_hostID vertexIDMap k = Some (Z.of_nat h) /\ (h < numHosts)%nat /\
    (h = id ->
     exists lsrc cur,
       G2L s (globalOffset + Z.of_nat k) = Some lsrc /\
       edge_begin lsrc = Some cur /\
       0 <= cur /\ cur + Z.of_nat (length dsts) < 2 ^ 64 /\
       Forall (fun gdst => is_Some (G2L s gdst)) dsts).

(** What the receiver needs of a record: the source is local with as
    many edge slots as the record has destinations, all of them
    local. *)
Definition receivable (edge_begin edge_end : Z -> option Z) (s : LocalIds)
    (rec : EdgeRecord) : Prop :=
  exists lsrc cur,
    G2L s rec.1 = Some lsrc /\
    edge_begin lsrc = Some cur /\
    edge_end lsrc = Some (cur + Z.of_nat (length rec.2)) /\
    Forall (fun gdst => is_Some (G2L s gdst)) rec.2.

(** Modelled from the spec: the CSR graph of the base class is declared
    outside this header.  The spec has it as the "graph-builder
    collaborator" with [fixEndEdge(lid, prefix)], [edge_begin(lid)] and
    [edge_end(lid)], holding the "edge prefix sum" and the edges; the
    edges of a source are written "using the pre-allocated prefix-sum
    slot", and [cur] "must equal [edge_end]" when they are.  After the
    constructor's [fixEndEdge(n, prefixSumOfEdges[n])] for every node,
    the edges of a node end at its entry of the prefix sums and begin
    where those of the node before it end, at 0 for the first node. *)
Definition fixed_end (prefix : list Z) (l : Z) : option Z :=
  if 0 <=? l then prefix !! Z.to_nat l else None.

Definition fixed_begin (prefix : list Z) (l : Z) : option Z :=
  if l =? 0 then Some 0 else fixed_end prefix (l - 1).

(** [gid2host[p].first]: the ranges of the hosts follow each other
    from 0. *)
Definition range_offset (hosts : list HostRange) (p : nat) : Z :=
  Z.of_nat (length (concat (range_edges <$> take p hosts))).

(** [num_total_edges_to_receive] of the host [me] after the first
    exchange, the transport delivering the peers' messages in the
    order of the peers. *)
Definition edges_to_receive_of (hosts : list HostRange) (N me : nat)
  : option Z :=
  r ← hosts !! me;
  inbox ← mapM (message_from hosts N me) (peers (length hosts) me);
  st ← inspect (length hosts) N (range_vertexIDMap r) (range_edges r);
  ex0 ← exchange_init me st;
  ex ← receive_loop (length hosts - 1) inbox ex0;
  Some (num_total_edges_to_receive ex).

Section ClusterLoading.
Variable buffer_size : list EdgeRecord -> Z.
Variable partition_edge_send_buffer_size : Z.

(** [assign_load_send_edges] on the host [p] of the cluster, after its
    phase 1 and the [fixEndEdge] of its nodes. *)
Definition load_of (hosts : list HostRange) (N p : nat)
  : option (list EdgeCall * list (nat * list EdgeRecord)) :=
  r ← hosts !! p;
  s ← phase1_of hosts N p;
  assign_load_send_edges (fixed_begin (prefixSumOfEdges s)) buffer_size
    partition_edge_send_buffer_size p (length hosts) (range_offset hosts p)
    (range_vertexIDMap r) s (range_edges r).

(** The buffers the host [p] sends to the host [me], in order. *)
Definition buffers_from (hosts : list HostRange) (N me p : nat)
  : list (list EdgeRecord) :=
  (filter (fun m => m.1 = me) (from_option snd [] (load_of hosts N p))).*2.

(** [loadEdges] on the host [me] of the cluster, the transport
    delivering the buffers [inbox]: the calls of [constructEdge]. *)
Definition load_edges_of (hosts : list HostRange) (N me : nat)
    (inbox : list (list EdgeRecord)) : option (list EdgeCall) :=
  r ← hosts !! me;
  s ← phase1_of hosts N me;
  total ← edges_to_receive_of hosts N me;
  fst <$> loadEdges (fixed_begin (prefixSumOfEdges s))
            (fixed_end (prefixSumOfEdges s)) buffer_size
            partition_edge_send_buffer_size me (length hosts)
            (range_offset hosts me) (range_vertexIDMap r) s (range_edges r)
            total inbox.

End ClusterLoading.

(** The destinations of the edges that leave the nodes the vertex-ID
    map gives to the host [h], in the order of the sources and of their
    edges. *)
Definition owned_edges (hosts : list HostRange) (h : nat) : list Z :=
  concat ((fun node : Z * list Z =>
             if decide (wrap32 node.1 = Z.of_nat h) then node.2 else [])
          <$> graph hosts).

(** ** Examples *)

(** The path [0 -> 1 -> 2 -> 3] on two hosts with the ranges [0,2) and
    [2,4) and the vertex-ID map [0,0,1,1]. *)
Definition path_hosts : list HostRange :=
  [ {| range_vertexIDMap := [0; 0]; range_edges := [[1]; [2]] |};
    {| range_vertexIDMap := [1; 1]; range_edges := [[3]; []] |} ].

(** The range of host 0 of [path_hosts], and what host 1 sends to
    host 0 after its inspection: no node and no edge of its range is
    given to host 0. *)
Definition path_range0 : HostRange :=
  {| range_vertexIDMap := [0; 0]; range_edges := [[1]; [2]] |}.

Definition path_message10 : Message :=
  {| from_host := 1; num_nodes_from_host := 0; num_edges_from_host := 0;
     msg_numOutgoingEdges := [0; 0];
     msg_hasIncomingEdge := replicate 4 false |}.

(** What host 0 of [path_hosts] has after the local id assignment, and
    the masters host 1 sends it. *)
Definition path_ids0 : LocalIds :=
  {| numOwned := 2; numNodes := 3; numEdges := 2;
     localToGlobalVector := [0; 1; 2];
     globalToLocalMap := <[2 := 2]> (<[1 := 1]> (<[0 := 0]> ∅));
     prefixSumOfEdges := [1; 2; 2] |}.

Definition path_masters1 : Masters :=
  {| masters_from := 1; masters_vec := [2; 3] |}.

(** [mirrorNodes] on a host of two before the resolution: an empty list
    for each host. *)
Definition path_mirrorNodes : list (list Z) := [[]; []].

(** The path [0 -> 1 -> 2 -> 3] on two hosts with the ranges [0,2) and
    [2,4) and the vertex-ID map [1,0,1,0]: host 0 reads the edges of
    the node 0, which belongs to host 1. *)
Definition cross_hosts : list HostRange :=
  [ {| range_vertexIDMap := [1; 0]; range_edges := [[1]; [2]] |};
    {| range_vertexIDMap := [1; 0]; range_edges := [[3]; []] |} ].

(** A send buffer measured by the number of its records. *)
Definition records_size (b : list (Z * list Z)) : Z := Z.of_nat (length b).

(** A vertex-ID map file for five nodes, with the entries 0, 1, 0, 1
    and 1 in the byte order of a little-endian machine. *)
Definition map_file : list Byte.byte :=
  [Byte.x00; Byte.x00; Byte.x00; Byte.x00;
   Byte.x01; Byte.x00; Byte.x00; Byte.x00;
   Byte.x00; Byte.x00; Byte.x00; Byte.x00;
   Byte.x01; Byte.x00; Byte.x00; Byte.x00;
   Byte.x01; Byte.x00; Byte.x00; Byte.x00].

(** Two hosts with the ranges [0,2) and [2,4) of a graph without edges;
    the vertex-ID map gives the nodes 0, 1 and 2 to host 0.  What host 0
    has after its inspection, and what host 1 sends it. *)
Definition two_hosts_inspection0 : Inspection :=
  {| numOutgoingEdges := [[1; 1]; [0; 0]];
     hasIncomingEdge := [replicate 4 false; replicate 4 false];
     num_assigned_edges_perhost := [0; 0];
     num_assigned_nodes_perhost := [2; 0] |}.

Definition two_hosts_message10 : Message :=
  {| from_host := 1; num_nodes_from_host := 1; num_edges_from_host := 0;
     msg_numOutgoingEdges := [1; 0];
     msg_hasIncomingEdge := replicate 4 false |}.

End CustomEdgeCut.

(* ===================================================================== *)
(** * Machine integers: facts *)
(* ===================================================================== *)

Lemma wrap32_small z : 0 <= z < 2 ^ 32 -> wrap32 z = z.
Proof. intros H. unfold wrap32. now apply Z.mod_small. Qed.

Lemma wrap64_small z : 0 <= z < 2 ^ 64 -> wrap64 z = z.
Proof. intros H. unfold wrap64. now apply Z.mod_small. Qed.

Lemma wrap_int_small z : -2147483648 <= z <= 2147483647 -> wrap_int z = z.
Proof.
  intros H. unfold wrap_int.
  rewrite Z.mod_small; lia.
Qed.

Lemma wrap32_succ c : wrap32 (wrap32 c + 1) = wrap32 (c + 1).
Proof. unfold wrap32. now rewrite Zplus_mod_idemp_l. Qed.

Lemma wrap64_add_l a b : wrap64 (wrap64 a + b) = wrap64 (a + b).
Proof. unfold wrap64. now rewrite Zplus_mod_idemp_l. Qed.

(** Two [if bool_decide _ then a else b] agree when the propositions do. *)
Ltac same_decision :=
  f_equal; erewrite bool_decide_ext; [reflexivity|].

(** Closes a conjunction whose parts are at hand. *)
Ltac split_all :=
  repeat (split; [first [assumption | reflexivity | f_equal; lia | lia]|]);
  first [assumption | reflexivity | f_equal; lia | lia].

(* ===================================================================== *)
(** * LazyArray.h: facts *)
(* ===================================================================== *)

Module LazyArray_facts.
Import LazyArray.

Section at_facts.
Context {Tp : Type}.
Variable Size_ : N.
Implicit Type a : @storage Tp.

(** The bounds check of [at]: it throws exactly when [n >= _Size]. *)
Lemma at_throws_iff n a :
  fst (at_ Size_ n a) = Throw (out_of_range "lazyArray::at")
  <-> (Size_ <= n)%N.
Proof.
  unfold at_. destruct (N.leb_spec Size_ n) as [H|H]; simpl.
  - tauto.
  - split; [discriminate | lia].
Qed.

(** In range, the operand of [return] is the pointer [get(n)]. *)
Lemma at_in_range n a :
  (n < Size_)%N -> fst (at_ Size_ n a) = Return (OPointer (get n)).
Proof.
  intros H. unfold at_. destruct (N.leb_spec Size_ n); [lia | reflexivity].
Qed.

(** [at] leaves the stored contents alone. *)
Lemma at_keeps_storage n a : snd (at_ Size_ n a) = a.
Proof. unfold at_. now destruct (Size_ <=? n)%N. Qed.

(** No call of [at] returns an lvalue of the element. *)
Lemma at_never_an_lvalue n a r : fst (at_ Size_ n a) <> Return (OLvalue r).
Proof. unfold at_. destruct (Size_ <=? n)%N; simpl; congruence. Qed.

End at_facts.

Section element_facts.
Context {Tp : Type}.
Implicit Type a : @storage Tp.

Lemma load_insert_eq n (o : option Tp) a :
  (N.to_nat n < length a)%nat ->
  load (RefTo n) (<[N.to_nat n := o]> a) = o.
Proof.
  intros H. unfold load, storage in *.
  rewrite list_lookup_insert_eq by assumption. now destruct o.
Qed.

Lemma load_insert_ne n m (o : option Tp) a :
  m <> n -> load (RefTo m) (<[N.to_nat n := o]> a) = load (RefTo m) a.
Proof.
  intros H. unfold load, storage in *.
  rewrite list_lookup_insert_ne by lia. reflexivity.
Qed.

(** X1.  [construct(n, val)] on a slot of the array returns the pointer
    to the slot; afterwards [operator[](n)] yields an lvalue through
    which [val] is read, whatever the slot held before, and every other
    slot reads as it did. *)
Theorem construct_subscript_round_trip n (val : Tp) a :
  (n < N.of_nat (length a))%N ->
  exists a',
    construct n val a = Some (get n, a') /\
    (exists r, subscript n a' = (Return (OLvalue r), a') /\
               load r a' = Some val) /\
    (forall m, m <> n -> load (RefTo m) a' = load (RefTo m) a) /\
    length a' = length a.
Proof.
  intros Hn. unfold construct.
  destruct (N.ltb_spec n (N.of_nat (length a))) as [_|]; [|lia].
  eexists. split; [reflexivity|]. split; [|split].
  - exists (RefTo n). split; [reflexivity|]. apply load_insert_eq. lia.
  - intros m Hm. now apply load_insert_ne.
  - apply length_insert.
Qed.

(** X2.  [destroy(n)] undoes [construct(n, val)] on a slot that held no
    object: after the two calls the storage is as it was before them. *)
Theorem destroy_undoes_construct n (val : Tp) a :
  a !! N.to_nat n = Some None ->
  exists p a',
    construct n val a = Some (p, a') /\
    destroy n a' = Some a.
Proof.
  intros Hn. pose proof (lookup_lt_Some _ _ _ Hn) as Hlt.
  unfold construct, destroy, storage in *.
  destruct (N.ltb_spec n (N.of_nat (length a))) as [_|]; [|lia].
  eexists _, _. split; [reflexivity|].
  rewrite list_lookup_insert_eq by assumption.
  rewrite list_insert_insert_eq. f_equal. now apply list_insert_id.
Qed.

End element_facts.

Lemma construct_subscript_round_trip_witness :
  (1 < N.of_nat (length [Some 10; None; None; None]))%N /\
  exists a',
    construct 1 11 [Some 10; None; None; None] = Some (get 1, a') /\
    load (RefTo 1) a' = Some 11 /\ load (RefTo 0) a' = Some 10.
Proof.
  assert (H : (1 < N.of_nat (length [Some 10; None; None; None]))%N)
    by (simpl; lia).
  split; [exact H|].
  destruct (construct_subscript_round_trip 1 11 [Some 10; None; None; None] H)
    as [a' (Hc & [r [Hs Hl]] & Ho & _)].
  exists a'. split; [exact Hc|].
  injection Hs as <-. split; [exact Hl|].
  rewrite (Ho 0%N) by discriminate. reflexivity.
Defined.

Lemma destroy_undoes_construct_witness :
  [Some 10; None] !! N.to_nat 1 = Some (@None Z) /\
  exists p a',
    construct 1 11 [Some 10; None] = Some (p, a') /\
    destroy 1 a' = Some [Some 10; None].
Proof.
  assert (H : [Some 10; None] !! N.to_nat 1 = Some (@None Z)) by reflexivity.
  split; [exact H|]. exact (destroy_undoes_construct 1 11 _ H).
Defined.

(** X3.  [front()] and [back()] refer to slots the storage has, whatever
    [_Size] is: for a positive [_Size], [back()] is the slot [_Size - 1],
    the last one [at] accepts; for [_Size = 0] the array still has room
    for one slot, [front()] and [back()] both refer to it, and [at]
    throws for every index. *)
Theorem front_back_within_storage {Tp : Type} (Size_ : N) (a : @storage Tp) :
  length a = N.to_nat (capacity Size_) ->
  exists f b,
    front a = (Return (OLvalue (RefTo f)), a) /\
    back Size_ a = (Return (OLvalue (RefTo b)), a) /\
    f = 0%N /\ (N.to_nat f < length a)%nat /\ (N.to_nat b < length a)%nat /\
    ((0 < Size_)%N ->
       b = (Size_ - 1)%N /\
       fst (at_ Size_ b a) = Return (OPointer (get b)) /\
       fst (at_ Size_ (b + 1) a) = Throw (out_of_range "lazyArray::at")) /\
    (Size_ = 0%N ->
       b = 0%N /\ empty Size_ = true /\
       forall n, fst (at_ Size_ n a) = Throw (out_of_range "lazyArray::at")).
Proof.
  intros Hlen. unfold front, back, capacity, empty in *.
  eexists _, _. split; [reflexivity|]. split; [reflexivity|].
  split; [reflexivity|].
  destruct (N.ltb_spec 0 Size_) as [Hpos|Hz].
  - split; [lia|]. split; [lia|]. split.
    + intros _. split; [reflexivity|]. split.
      * apply at_in_range. lia.
      * apply at_throws_iff. lia.
    + intros ->. lia.
  - assert (Size_ = 0%N) as -> by lia.
    split; [lia|]. split; [lia|]. split; [lia|].
    intros _. split; [reflexivity|]. split; [reflexivity|].
    intros n. apply at_throws_iff. lia.
Qed.

Lemma front_back_within_storage_witness :
  length (@uninitialised Z 0) = N.to_nat (capacity 0) /\
  exists f b,
    front (@uninitialised Z 0) = (Return (OLvalue (RefTo f)), uninitialised 0) /\
    back 0 (@uninitialised Z 0) = (Return (OLvalue (RefTo b)), uninitialised 0) /\
    (N.to_nat b < length (@uninitialised Z 0))%nat.
Proof.
  assert (H : length (@uninitialised Z 0) = N.to_nat (capacity 0)) by reflexivity.
  split; [exact H|].
  destruct (front_back_within_storage 0 (@uninitialised Z 0) H)
    as (f & b & Hf & Hb & _ & _ & Hlt & _).
  exists f, b. split; [exact Hf|]. split; [exact Hb|exact Hlt].
Defined.

(** C10 (the code departs from the claim).  On [LazyArray<_, 4>] with
    element 0 constructed, [at(0)] does not throw and leaves the storage
    alone, but the operand it returns is the pointer [get(0)], from which
    the declared return type [reference] cannot be initialised;
    [operator[]] returns the lvalue [*get(0)].  So [at(0)] yields no
    reference to element 0. *)
Theorem at_returns_pointer_operand :
  let a : storage := [Some 10; None; None; None] in
  at_ 4 0 a = (Return (OPointer (PtrTo 0)), a) /\
  bind_reference (OPointer (PtrTo 0)) = None /\
  subscript 0 a = (Return (OLvalue (RefTo 0)), a) /\
  bind_reference (OLvalue (RefTo 0)) = Some (RefTo 0).
Proof. repeat split. Qed.

End LazyArray_facts.

(* ===================================================================== *)
(** * ParallelWork.h: facts *)
(* ===================================================================== *)

Module ParallelWork_facts.
Import ParallelWork.

Section iteration.
Context {value_type : Type}.
Implicit Types (w : ForEachWork value_type) (tld : tldTy value_type).
Implicit Types (fc : UserContext value_type) (f : Function value_type).

Lemma push_all_app (wl buf : list value_type) : push_all wl buf = wl ++ buf.
Proof.
  unfold push_all. revert wl.
  induction buf as [|b buf IH]; intros wl; simpl.
  - now rewrite app_nil_r.
  - rewrite IH, <- app_assoc. reflexivity.
Qed.

Lemma calls_since_app (l l' : list cnx_call) : calls_since l (l ++ l') = l'.
Proof. unfold calls_since. apply drop_app_length. Qed.

(** C5.  When [f] raises the conflict signal, [doProcess] rolls the
    iteration back: the global worklist gets nothing from the push
    buffer, the global break flag is left as it was, the conflicts
    counter goes up by one (modulo 2^64, the width of [unsigned long]),
    the item is pushed on the aborted list and [abort_happened] is set;
    the push buffer and the break request are cleared, and the runtime
    context sees [start_iteration], [clearConflictLock],
    [cancel_iteration] and no [commit_iteration]. *)
Theorem doProcess_conflict_rolls_back cfg f val tld w fc a :
  f val (facing tld) = (fc, ThrewInt a) ->
  exists w' tld',
    doProcess cfg f val tld w = Some (w', tld') /\
    global_wl w' = global_wl w /\
    break_happened w' = break_happened w /\
    conflicts (stat tld') = wrap64 (conflicts (stat tld) + 1) /\
    (0 <= conflicts (stat tld) < 2 ^ 64 - 1 ->
     conflicts (stat tld') = conflicts (stat tld) + 1) /\
    aborted w' = aborted w ++ [val] /\
    abort_happened w' = 1 /\
    pushBuffer (facing tld') = [] /\
    breakFlag (facing tld') = false /\
    calls_since (cnx tld) (cnx tld')
      = [start_iteration; clearConflictLock; cancel_iteration].
Proof.
  intros Hf. unfold doProcess. simpl. rewrite Hf.
  unfold finishIteration.
  destruct (NeedsPush cfg), (NeedsPIA cfg), (NeedsBreak cfg); simpl;
    (eexists _, _; split; [reflexivity|]); simpl;
    rewrite <- ?app_assoc, ?calls_since_app;
    repeat split; auto; intros; apply wrap64_small; lia.
Qed.

(** C6, amended.  When [f] returns normally, [doProcess] commits the
    iteration once: the runtime context sees [start_iteration] and then
    [commit_iteration], never [cancel_iteration]; the aborted list, its
    flag and the conflicts counter are untouched.  If the operator has
    the trait [NeedsPush], the push buffer is appended to the global
    worklist and cleared; if it has [NeedsPIA], the allocator is reset;
    if it has [NeedsBreak], a break request raises the global flag. *)
Theorem doProcess_commits cfg f val tld w fc :
  f val (facing tld) = (fc, Returned) ->
  exists w' tld',
    doProcess cfg f val tld w = Some (w', tld') /\
    calls_since (cnx tld) (cnx tld') = [start_iteration; commit_iteration] /\
    (NeedsPush cfg = true ->
     global_wl w' = global_wl w ++ pushBuffer fc /\
     pushBuffer (facing tld') = []) /\
    (NeedsPIA cfg = true -> allocated (facing tld') = 0%N) /\
    (NeedsBreak cfg = true -> breakFlag fc = true -> break_happened w' = 1) /\
    aborted w' = aborted w /\
    abort_happened w' = abort_happened w /\
    conflicts (stat tld') = conflicts (stat tld).
Proof.
  intros Hf. unfold doProcess. simpl. rewrite Hf.
  unfold finishIteration, __breakHappened.
  destruct (NeedsPush cfg), (NeedsPIA cfg), (NeedsBreak cfg),
    (breakFlag fc) eqn:Hb; simpl; rewrite ?Hb; simpl;
    (eexists _, _; split; [reflexivity|]); simpl;
    rewrite <- ?app_assoc, ?calls_since_app, ?push_all_app;
    repeat split; auto; try discriminate.
Qed.

(** Without the traits the same call leaves the worklist, the allocator
    and the global break flag as they were. *)
Lemma doProcess_commit_elided cfg f val tld w fc :
  f val (facing tld) = (fc, Returned) ->
  exists w' tld',
    doProcess cfg f val tld w = Some (w', tld') /\
    (NeedsPush cfg = false ->
     global_wl w' = global_wl w /\
     pushBuffer (facing tld') = pushBuffer fc) /\
    (NeedsPIA cfg = false -> allocated (facing tld') = allocated fc) /\
    (NeedsBreak cfg = false -> break_happened w' = break_happened w).
Proof.
  intros Hf. unfold doProcess. simpl. rewrite Hf.
  unfold finishIteration, __breakHappened.
  destruct (NeedsPush cfg), (NeedsPIA cfg), (NeedsBreak cfg),
    (breakFlag fc) eqn:Hb; simpl; rewrite ?Hb; simpl;
    (eexists _, _; split; [reflexivity|]); simpl;
    repeat split; auto; try discriminate.
Qed.

End iteration.

Lemma doProcess_conflict_rolls_back_witness :
  op_conflict 7 (facing tld_fresh)
    = ({| pushBuffer := [8]; allocated := 8%N; breakFlag := true |},
       ThrewInt 0) /\
  exists w' tld',
    doProcess traits_on op_conflict 7 tld_fresh work_fresh = Some (w', tld') /\
    global_wl w' = [] /\
    break_happened w' = 0 /\
    conflicts (stat tld') = 1 /\
    aborted w' = [7] /\
    abort_happened w' = 1.
Proof.
  assert (Hf : op_conflict 7 (facing tld_fresh)
               = ({| pushBuffer := [8]; allocated := 8%N; breakFlag := true |},
                  ThrewInt 0)) by reflexivity.
  split; [exact Hf|].
  destruct (doProcess_conflict_rolls_back traits_on op_conflict 7 tld_fresh
              work_fresh _ _ Hf)
    as [w' [tld' (H1 & H2 & H3 & H4 & _ & H5 & H6 & _)]].
  exists w', tld'. repeat split; assumption.
Defined.

Lemma doProcess_commits_witness :
  op_push_alloc_break 7 (facing tld_fresh)
    = ({| pushBuffer := [8]; allocated := 8%N; breakFlag := true |},
       Returned) /\
  exists w' tld',
    doProcess traits_on op_push_alloc_break 7 tld_fresh work_fresh
      = Some (w', tld') /\
    calls_since (cnx tld_fresh) (cnx tld')
      = [start_iteration; commit_iteration] /\
    global_wl w' = [8] /\
    pushBuffer (facing tld') = [] /\
    allocated (facing tld') = 0%N /\
    break_happened w' = 1.
Proof.
  assert (Hf : op_push_alloc_break 7 (facing tld_fresh)
               = ({| pushBuffer := [8]; allocated := 8%N; breakFlag := true |},
                  Returned)) by reflexivity.
  split; [exact Hf|].
  destruct (doProcess_commits traits_on op_push_alloc_break 7 tld_fresh
              work_fresh _ Hf)
    as [w' [tld' (H1 & H2 & H3 & H4 & H5 & _)]].
  exists w', tld'.
  destruct (H3 eq_refl) as [H3a H3b].
  split; [exact H1|]. split; [exact H2|]. split; [exact H3a|].
  split; [exact H3b|]. split; [exact (H4 eq_refl)|].
  exact (H5 eq_refl eq_refl).
Defined.

(** C6 as stated fails: for an operator without the traits [NeedsPush],
    [NeedsPIA] and [NeedsBreak] that pushes 8, allocates and asks for a
    break before it returns, the committed iteration adds nothing to the
    global worklist, leaves the buffer and the allocator as the operator
    left them, and does not raise the global break flag. *)
Lemma commit_elided_without_traits :
  exists fc w' tld',
    op_push_alloc_break 7 (facing tld_fresh) = (fc, Returned) /\
    doProcess traits_off op_push_alloc_break 7 tld_fresh work_fresh
      = Some (w', tld') /\
    pushBuffer fc = [8] /\ breakFlag fc = true /\
    global_wl w' <> global_wl work_fresh ++ pushBuffer fc /\
    pushBuffer (facing tld') <> [] /\
    allocated (facing tld') <> 0%N /\
    break_happened w' <> 1.
Proof.
  eexists _, _, _.
  split; [reflexivity|]. split; [reflexivity|].
  simpl. repeat split; discriminate.
Qed.

Section fill.
Context {value_type : Type}.
Implicit Types (items wl : list value_type) (fil : value_type -> bool).

Lemma AddInitialWork_loop_take fil n : forall rest wl,
  (n <= length rest)%nat ->
  AddInitialWork_loop rest n fil wl
    = Some (wl ++ List.filter fil (take n rest)).
Proof.
  induction n as [|n IH]; intros rest wl Hn; simpl.
  - destruct rest; simpl; now rewrite app_nil_r.
  - destruct rest as [|x rest]; simpl in *; [lia|].
    rewrite IH by lia.
    destruct (fil x); [|reflexivity].
    now rewrite <- app_assoc.
Qed.

Lemma AddInitialWork_slice items b e fil wl :
  0 <= b <= e -> e <= Z.of_nat (length items) ->
  AddInitialWork items b e fil wl
    = Some (wl ++ List.filter fil (slice items b e)).
Proof.
  intros Hb He. unfold AddInitialWork, slice.
  replace ((0 <=? b) && (b <=? e)) with true
    by (symmetry; apply andb_true_iff; split; apply Z.leb_le; lia).
  apply AddInitialWork_loop_take.
  rewrite length_drop. lia.
Qed.

(** [(n + a - 1) / a] is the least [q] with [n <= a * q]. *)
Lemma num_is_ceiling a n :
  0 < a -> 0 <= n ->
  a * (Z.quot (n + a - 1) a - 1) < n <= a * Z.quot (n + a - 1) a.
Proof.
  intros Ha Hn.
  rewrite Z.quot_div_nonneg by lia.
  pose proof (Z.div_mod (n + a - 1) a ltac:(lia)) as Hdm.
  pose proof (Z.mod_pos_bound (n + a - 1) a Ha) as Hm.
  lia.
Qed.

Section chunks.
Variables (a : Z) (items : list value_type).
Hypothesis Ha : 0 < a.
Hypothesis Hfit : Z.of_nat (length items) + a <= INT_MAX.

Local Abbreviation n := (Z.of_nat (length items)).
Local Abbreviation fw := (mkFillWork a items).

Lemma fits : 0 <= n /\ n + a <= 2147483647.
Proof. pose proof Hfit as H. unfold INT_MAX in H. lia. Qed.

Lemma mkFillWork_dist : dist fw = n.
Proof.
  unfold mkFillWork; simpl. apply wrap_int_small.
  pose proof fits. lia.
Qed.

Lemma mkFillWork_num : num fw = Z.quot (n + a - 1) a.
Proof.
  unfold mkFillWork; simpl.
  pose proof fits as [H0 H1].
  rewrite (wrap_int_small n) by lia.
  rewrite (wrap_int_small (n + a)) by lia.
  rewrite (wrap_int_small (n + a - 1)) by lia.
  reflexivity.
Qed.

Lemma num_bounds : 0 <= num fw /\ a * (num fw - 1) < n <= a * num fw.
Proof.
  rewrite mkFillWork_num.
  pose proof fits as [Hn _].
  pose proof (num_is_ceiling a n Ha Hn) as H.
  split; [|exact H]. nia.
Qed.

Lemma chunk_begin_eq id :
  0 <= id < a -> chunk_begin fw id = Z.min (num fw * id) n.
Proof.
  intros Hid. unfold chunk_begin. rewrite mkFillWork_dist.
  destruct num_bounds as [H0 [H1 H2]]. pose proof fits as [Hn Hf].
  rewrite wrap_int_small; [reflexivity|]. nia.
Qed.

Lemma chunk_end_eq id :
  0 <= id < a -> chunk_end fw id = Z.min (num fw * (id + 1)) n.
Proof.
  intros Hid. unfold chunk_end. rewrite mkFillWork_dist.
  destruct num_bounds as [H0 [H1 H2]]. pose proof fits as [Hn Hf].
  rewrite (wrap_int_small (id + 1)) by lia.
  rewrite wrap_int_small; [reflexivity|]. nia.
Qed.

Lemma chunk_ordered id :
  0 <= id < a ->
  0 <= chunk_begin fw id <= chunk_end fw id /\ chunk_end fw id <= n.
Proof.
  intros Hid. rewrite chunk_begin_eq, chunk_end_eq by lia.
  destruct num_bounds as [H0 _]. pose proof fits as [Hn _]. nia.
Qed.

Lemma chunks_disjoint id1 id2 :
  0 <= id1 < id2 -> id2 < a -> chunk_end fw id1 <= chunk_begin fw id2.
Proof.
  intros H1 H2. rewrite chunk_begin_eq, chunk_end_eq by lia.
  destruct num_bounds as [H0 _].
  assert (num fw * (id1 + 1) <= num fw * id2) by nia. lia.
Qed.

Lemma chunks_cover i :
  0 <= i < n ->
  exists id, 0 <= id < a /\ chunk_begin fw id <= i < chunk_end fw id.
Proof.
  intros Hi. destruct num_bounds as [H0 [H1 H2]].
  assert (Hq : 0 < num fw) by nia.
  exists (i / num fw).
  pose proof (Z.div_mod i (num fw) ltac:(lia)) as Hdm.
  pose proof (Z.mod_pos_bound i (num fw) Hq) as Hm.
  assert (Hid : 0 <= i / num fw < a).
  { split; [apply Z.div_pos; lia|]. apply Z.div_lt_upper_bound; lia. }
  split; [exact Hid|].
  rewrite chunk_begin_eq, chunk_end_eq by lia. lia.
Qed.

Lemma FillWork_run_chunk id fil wl :
  0 <= id < a ->
  FillWork_run fw id fil wl
    = Some (wl ++ List.filter fil
                    (slice items (chunk_begin fw id) (chunk_end fw id))).
Proof.
  intros Hid. destruct (chunk_ordered id Hid) as [[Hb Hbe] He].
  unfold FillWork_run, advance.
  change (range fw) with items. rewrite !Z.add_0_l.
  replace ((0 <=? chunk_begin fw id) && (chunk_begin fw id <=? n)) with true
    by (symmetry; apply andb_true_iff; split; apply Z.leb_le; lia).
  replace ((0 <=? chunk_end fw id) && (chunk_end fw id <=? n)) with true
    by (symmetry; apply andb_true_iff; split; apply Z.leb_le; lia).
  apply AddInitialWork_slice; lia.
Qed.

Lemma FillWork_all_chunks fil : forall ids wl,
  (forall id, id ∈ ids -> 0 <= id < a) ->
  FillWork_all fw ids fil wl
    = Some (wl ++ concat ((fun id =>
                List.filter fil
                  (slice items (chunk_begin fw id) (chunk_end fw id))) <$> ids)).
Proof.
  induction ids as [|id ids IH]; intros wl Hids.
  - simpl. now rewrite app_nil_r.
  - unfold FillWork_all. cbn [foldl mbind option_bind].
    rewrite FillWork_run_chunk by (apply Hids; left).
    fold (FillWork_all fw ids fil
            (wl ++ List.filter fil
                     (slice items (chunk_begin fw id) (chunk_end fw id)))).
    rewrite IH by (intros; apply Hids; now right).
    rewrite fmap_cons. cbn [concat]. now rewrite app_assoc.
Qed.

Lemma chunks_prefix (k : nat) :
  Z.of_nat k <= a ->
  concat ((fun id => slice items (chunk_begin fw id) (chunk_end fw id))
            <$> (Z.of_nat <$> seq 0 k))
  = take (Z.to_nat (Z.min (num fw * Z.of_nat k) n)) items.
Proof.
  induction k as [|k IH]; intros Hk.
  - simpl. rewrite Z.mul_0_r. destruct fits as [Hn _].
    rewrite Z.min_l by lia. reflexivity.
  - rewrite seq_S, !fmap_app, concat_app, IH by lia.
    cbn [Nat.add fmap list_fmap concat]. rewrite app_nil_r.
    rewrite chunk_begin_eq, chunk_end_eq by lia. unfold slice.
    destruct num_bounds as [H0 _]. destruct fits as [Hn _].
    rewrite take_take_drop. f_equal.
    replace (Z.of_nat (S k)) with (Z.of_nat k + 1) by lia.
    revert H0. generalize (num fw). intros m H0. nia.
Qed.

Lemma chunks_all :
  concat ((fun id => slice items (chunk_begin fw id) (chunk_end fw id))
            <$> (Z.of_nat <$> seq 0 (Z.to_nat a)))
  = items.
Proof.
  rewrite chunks_prefix by lia.
  destruct num_bounds as [H0 [_ H2]].
  rewrite Z2Nat.id by lia. rewrite Z.min_r by lia.
  rewrite Nat2Z.id. apply take_ge. lia.
Qed.

End chunks.

Lemma concat_filter_fmap {B} fil (g : B -> list value_type) (l : list B) :
  concat ((fun id => List.filter fil (g id)) <$> l)
  = List.filter fil (concat (g <$> l)).
Proof.
  induction l as [|x l IH]; [reflexivity|].
  rewrite !fmap_cons. cbn [concat]. now rewrite List.filter_app, IH.
Qed.

Lemma filter_perm fil (l1 l2 : list value_type) :
  l1 ≡ₚ l2 -> List.filter fil l1 ≡ₚ List.filter fil l2.
Proof.
  induction 1 as [|x l1 l2 _ IH|x y l|l1 l2 l3 _ IH1 _ IH2]; simpl.
  - reflexivity.
  - destruct (fil x); now rewrite IH.
  - destruct (fil x), (fil y); try reflexivity. apply perm_swap.
  - now rewrite IH1.
Qed.

Lemma concat_fmap_perm {B} (g : B -> list value_type) l1 l2 :
  l1 ≡ₚ l2 -> concat (g <$> l1) ≡ₚ concat (g <$> l2).
Proof.
  induction 1 as [|x l1 l2 _ IH|x y l|l1 l2 l3 _ IH1 _ IH2].
  - reflexivity.
  - rewrite !fmap_cons. cbn [concat]. now rewrite IH.
  - rewrite !fmap_cons. cbn [concat]. rewrite !app_assoc.
    now rewrite (Permutation_app_comm (g y) (g x)).
  - now rewrite IH1.
Qed.

(** C9.  With [a > 0] workers and [dist = e - b] items ([dist + a]
    within [int]): [num] is the ceiling of [dist / a]; the worker [id]
    of [0 .. a-1] works on the positions from [min(num*id, dist)] up to
    [min(num*(id+1), dist)], and pushes to the global worklist the items
    at these positions that the filter accepts, in their order; the
    chunks of two workers do not overlap, and every position below
    [dist] is in the chunk of some worker. *)
Theorem FillWork_partitions_range (a : Z) items fil :
  0 < a -> Z.of_nat (length items) + a <= INT_MAX ->
  let fw := mkFillWork a items in
  let n := Z.of_nat (length items) in
  dist fw = n /\
  a * (num fw - 1) < n <= a * num fw /\
  (forall id, 0 <= id < a ->
     chunk_begin fw id = Z.min (num fw * id) n /\
     chunk_end fw id = Z.min (num fw * (id + 1)) n /\
     0 <= chunk_begin fw id <= chunk_end fw id /\ chunk_end fw id <= n) /\
  (forall id wl, 0 <= id < a ->
     FillWork_run fw id fil wl
       = Some (wl ++ List.filter fil
                       (slice items (chunk_begin fw id) (chunk_end fw id)))) /\
  (forall id1 id2, 0 <= id1 < id2 -> id2 < a ->
     chunk_end fw id1 <= chunk_begin fw id2) /\
  (forall i, 0 <= i < n ->
     exists id, 0 <= id < a /\ chunk_begin fw id <= i < chunk_end fw id).
Proof.
  intros Ha Hfit fw n.
  split; [apply mkFillWork_dist; assumption|].
  split; [apply (num_bounds a items Ha Hfit)|].
  split.
  { intros id Hid.
    split; [apply chunk_begin_eq; assumption|].
    split; [apply chunk_end_eq; assumption|].
    apply chunk_ordered; assumption. }
  split; [intros; apply FillWork_run_chunk; assumption|].
  split; [intros; apply chunks_disjoint; assumption|].
  intros; apply chunks_cover; assumption.
Qed.

(** X8.  With [a > 0] workers ([dist + a] within [int]), once every
    worker [0 .. a-1] has run [FillWork::operator()], in whatever order
    their pushes reach it, the global worklist has gained exactly the
    items of the range that the filter accepts, each of them once; when
    the workers come in the order of their ids, the items are in the
    order of the range. *)
Theorem FillWork_all_fills_each_item_once (a : Z) items fil ids wl :
  0 < a -> Z.of_nat (length items) + a <= INT_MAX ->
  ids ≡ₚ Z.of_nat <$> seq 0 (Z.to_nat a) ->
  exists wl',
    FillWork_all (mkFillWork a items) ids fil wl = Some wl' /\
    wl' ≡ₚ wl ++ List.filter fil items /\
    (ids = Z.of_nat <$> seq 0 (Z.to_nat a) ->
     wl' = wl ++ List.filter fil items).
Proof.
  intros Ha Hfit Hperm.
  assert (Hids : forall id, id ∈ ids -> 0 <= id < a).
  { intros id Hid. rewrite Hperm in Hid.
    apply list_elem_of_fmap in Hid as [i [-> Hi]].
    apply elem_of_seq in Hi. lia. }
  eexists. split; [apply (FillWork_all_chunks a items Ha Hfit fil ids wl Hids)|].
  rewrite (concat_filter_fmap fil
             (fun id => slice items (chunk_begin (mkFillWork a items) id)
                                    (chunk_end (mkFillWork a items) id))).
  split.
  - apply Permutation_app_head, filter_perm.
    rewrite (concat_fmap_perm _ _ _ Hperm).
    now rewrite (chunks_all a items Ha Hfit).
  - intros ->. now rewrite (chunks_all a items Ha Hfit).
Qed.

End fill.

Lemma FillWork_all_fills_each_item_once_witness :
  0 < 3 /\ Z.of_nat (length [10; 11; 12; 13; 14; 15; 16]) + 3 <= INT_MAX /\
  [2; 0; 1] ≡ₚ Z.of_nat <$> seq 0 (Z.to_nat 3) /\
  exists wl',
    FillWork_all (mkFillWork 3 [10; 11; 12; 13; 14; 15; 16]) [2; 0; 1]
                 Z.even [8]
      = Some wl' /\
    wl' ≡ₚ [8] ++ List.filter Z.even [10; 11; 12; 13; 14; 15; 16].
Proof.
  assert (Ha : 0 < 3) by lia.
  assert (Hfit : Z.of_nat (length [10; 11; 12; 13; 14; 15; 16]) + 3 <= INT_MAX)
    by (unfold INT_MAX; simpl; lia).
  assert (Hp : [2; 0; 1] ≡ₚ Z.of_nat <$> seq 0 (Z.to_nat 3)).
  { change (Z.of_nat <$> seq 0 (Z.to_nat 3)) with [0; 1; 2].
    rewrite (Permutation_cons_append [0; 1] 2). reflexivity. }
  split; [exact Ha|]. split; [exact Hfit|]. split; [exact Hp|].
  destruct (FillWork_all_fills_each_item_once 3 [10; 11; 12; 13; 14; 15; 16]
              Z.even [2; 0; 1] [8] Ha Hfit Hp) as (wl' & H1 & H2 & _).
  exists wl'. split; [exact H1|exact H2].
Defined.

(** Seven items on three workers: chunks of three, three and one; the
    filter keeps the even items. *)
Lemma FillWork_partitions_range_witness :
  0 < 3 /\ Z.of_nat (length [10; 11; 12; 13; 14; 15; 16]) + 3 <= INT_MAX /\
  let fw := mkFillWork 3 [10; 11; 12; 13; 14; 15; 16] in
  num fw = 3 /\ dist fw = 7 /\
  FillWork_run fw 0 Z.even [] = Some [10; 12] /\
  FillWork_run fw 1 Z.even [] = Some [14] /\
  FillWork_run fw 2 Z.even [] = Some [16].
Proof.
  assert (Ha : 0 < 3) by lia.
  assert (Hfit : Z.of_nat (length [10; 11; 12; 13; 14; 15; 16]) + 3 <= INT_MAX)
    by (unfold INT_MAX; simpl; lia).
  split; [exact Ha|]. split; [exact Hfit|].
  destruct (FillWork_partitions_range 3 [10; 11; 12; 13; 14; 15; 16] Z.even
              Ha Hfit) as (Hd & Hn & _ & Hrun & _).
  cbv zeta.
  split; [reflexivity|]. split; [exact Hd|].
  split; [exact (Hrun 0 [] ltac:(lia))|].
  split; [exact (Hrun 1 [] ltac:(lia))|].
  exact (Hrun 2 [] ltac:(lia)).
Defined.

(** C9 as stated fails: with 2 workers and a range of 2147483647
    items, [dist + a] is beyond [int]; [num] comes out as -1073741824,
    which is not the ceiling of [dist / a], the chunks of the workers 0
    and 1 end at -1073741824 and at -2147483648, below where they begin,
    the worker 0 is sent before the start of the range, and the
    position 0 is in the chunk of no worker. *)
Lemma FillWork_num_overflows_int :
  let items := replicate (Z.to_nat INT_MAX) 0 in
  let fw := mkFillWork 2 items in
  Z.of_nat (length items) = 2147483647 /\
  dist fw = 2147483647 /\
  num fw = -1073741824 /\
  ~ (2 * (num fw - 1) < dist fw <= 2 * num fw) /\
  chunk_begin fw 0 = 0 /\ chunk_end fw 0 = -1073741824 /\
  chunk_begin fw 1 = -1073741824 /\ chunk_end fw 1 = -2147483648 /\
  (forall fil wl, FillWork_run fw 0 fil wl = None) /\
  ~ (exists id, 0 <= id < 2 /\ chunk_begin fw id <= 0 < chunk_end fw id).
Proof.
  intros items fw.
  assert (Hlen : Z.of_nat (length items) = 2147483647).
  { unfold items. rewrite length_replicate, Z2Nat.id by (unfold INT_MAX; lia).
    reflexivity. }
  assert (Hd : dist fw = 2147483647).
  { unfold fw, mkFillWork. cbn [dist]. rewrite Hlen. reflexivity. }
  assert (Hn : num fw = -1073741824).
  { unfold fw, mkFillWork. cbn [num]. rewrite Hlen. reflexivity. }
  assert (Hb0 : chunk_begin fw 0 = 0).
  { unfold chunk_begin. rewrite Hn, Hd. reflexivity. }
  assert (He0 : chunk_end fw 0 = -1073741824).
  { unfold chunk_end. rewrite Hn, Hd. reflexivity. }
  assert (Hb1 : chunk_begin fw 1 = -1073741824).
  { unfold chunk_begin. rewrite Hn, Hd. reflexivity. }
  assert (He1 : chunk_end fw 1 = -2147483648).
  { unfold chunk_end. rewrite Hn, Hd. reflexivity. }
  split; [exact Hlen|]. split; [exact Hd|]. split; [exact Hn|].
  split; [rewrite Hn, Hd; lia|].
  split; [exact Hb0|]. split; [exact He0|].
  split; [exact Hb1|]. split; [exact He1|].
  split.
  - intros fil wl. unfold FillWork_run. rewrite He0.
    assert (Hadv : advance (range fw) 0 (-1073741824) = None).
    { unfold advance.
      change (0 <=? 0 + -1073741824) with false.
      rewrite andb_false_l. reflexivity. }
    rewrite Hadv. destruct (advance (range fw) 0 (chunk_begin fw 0)); reflexivity.
  - intros (id & Hid & Hin).
    assert (Hcases : id = 0 \/ id = 1) by lia.
    destruct Hcases as [-> | ->].
    + rewrite Hb0, He0 in Hin. lia.
    + rewrite Hb1, He1 in Hin. lia.
Qed.

(** ** The worker loop *)

Section policies.
Context {value_type : Type}.

Lemma pop_ok_nil (pop : pop_policy value_type) : pop_ok pop -> pop [] = None.
Proof.
  intros [Hone _]. destruct (pop []) as [[x l']|] eqn:Hp; [|reflexivity].
  apply Hone, Permutation_nil_cons in Hp. contradiction.
Qed.

Lemma pop_ok_length (pop : pop_policy value_type) l x l' :
  pop_ok pop -> pop l = Some (x, l') -> length l = S (length l').
Proof.
  intros [Hone _] Hp. apply Hone, Permutation_length in Hp. exact Hp.
Qed.

Lemma fifo_ok : pop_ok (@fifo value_type).
Proof.
  split.
  - intros [|y l] x l' H; simpl in H; [discriminate|].
    injection H as <- <-. reflexivity.
  - intros [|y l] H; [congruence|]. simpl. eauto.
Qed.

Lemma lifo_ok : pop_ok (@lifo value_type).
Proof.
  split; unfold lifo.
  - intros l x l' H. destruct (reverse l) as [|y r] eqn:Hr; [discriminate|].
    injection H as <- <-.
    rewrite <- (reverse_involutive l), Hr, reverse_cons.
    rewrite <- Permutation_cons_append. reflexivity.
  - intros l H. destruct (reverse l) as [|y r] eqn:Hr; [|eauto].
    exfalso. apply H. rewrite <- (reverse_involutive l), Hr. reflexivity.
Qed.

End policies.

Section worker.
Context {value_type : Type}.
Variables (pop_wl pop_aborted : pop_policy value_type).
Implicit Types (w : ForEachWork value_type) (tld : tldTy value_type).
Implicit Types (fc : UserContext value_type) (f : Function value_type).
Implicit Types (k : Worker value_type).

Lemma doProcess_Returned cfg f val tld w fc :
  f val (facing tld) = (fc, Returned) ->
  exists w' tld',
    doProcess cfg f val tld w = Some (w', tld') /\
    aborted w' = aborted w /\
    abort_happened w' = abort_happened w /\
    global_wl w'
      = (if NeedsPush cfg then global_wl w ++ pushBuffer fc else global_wl w) /\
    break_happened w'
      = (if NeedsBreak cfg && breakFlag fc then 1 else break_happened w) /\
    facing tld' = committed cfg fc /\
    cnx tld' = cnx tld ++ [start_iteration; commit_iteration] /\
    stat tld' = inc_iterations (stat tld).
Proof.
  intros Hf. unfold doProcess. simpl. rewrite Hf.
  unfold finishIteration, __breakHappened, committed.
  destruct fc as [pb al bf].
  destruct (NeedsPush cfg), (NeedsPIA cfg), (NeedsBreak cfg), bf; simpl;
    (eexists _, _; split; [reflexivity|]); simpl;
    rewrite <- ?app_assoc, ?push_all_app; repeat split; reflexivity.
Qed.

Lemma doProcess_ThrewInt cfg f val tld w fc a :
  f val (facing tld) = (fc, ThrewInt a) ->
  exists w' tld',
    doProcess cfg f val tld w = Some (w', tld') /\
    aborted w' = aborted w ++ [val] /\
    abort_happened w' = 1 /\
    global_wl w' = global_wl w /\
    break_happened w' = break_happened w /\
    pushBuffer (facing tld') = [] /\
    breakFlag (facing tld') = false /\
    cnx tld'
      = cnx tld ++ [start_iteration; clearConflictLock; cancel_iteration] /\
    stat tld' = inc_conflicts (inc_iterations (stat tld)).
Proof.
  intros Hf. unfold doProcess. simpl. rewrite Hf.
  unfold finishIteration, __breakHappened.
  destruct (NeedsPush cfg), (NeedsPIA cfg), (NeedsBreak cfg); simpl;
    (eexists _, _; split; [reflexivity|]); simpl;
    rewrite <- ?app_assoc; repeat split; reflexivity.
Qed.

Lemma replicate_calls_S (n : nat) (c : list cnx_call) (l : list cnx_call) :
  (l ++ c) ++ concat (replicate n c) = l ++ concat (replicate (S n) c).
Proof. simpl. now rewrite app_assoc. Qed.

Lemma drain_loop_S fuel cfg f tld w :
  drain_loop pop_aborted (S fuel) cfg f tld w
  = match pop_aborted (aborted w) with
    | None => Finished (w, tld)
    | Some (val, rest) =>
        let w1 := {| global_wl := global_wl w; aborted := rest;
                     break_happened := break_happened w;
                     abort_happened := abort_happened w |} in
        if NeedsBreak cfg && negb (break_happened w1 =? 0)
        then Finished (w1, tld)
        else
          match doProcess cfg f val tld w1 with
          | Some (w2, tld2) => drain_loop pop_aborted fuel cfg f tld2 w2
          | None => Escaped
          end
    end.
Proof. reflexivity. Qed.

(** The retry loop when no retry conflicts: every pending item is
    handed to the operator once, in the order [pop] gives them. *)
Lemma drain_loop_returned cfg f :
  pop_ok pop_aborted ->
  NeedsBreak cfg = false ->
  (forall v c, snd (f v c) = Returned) ->
  forall n w tld,
    length (aborted w) = n ->
    0 <= iterations (stat tld) < 2 ^ 64 ->
    exists order w' tld',
      order ≡ₚ aborted w /\
      drain_loop pop_aborted (S n) cfg f tld w = Finished (w', tld') /\
      aborted w' = [] /\
      abort_happened w' = abort_happened w /\
      break_happened w' = break_happened w /\
      (NeedsPush cfg = false -> global_wl w' = global_wl w) /\
      facing tld'
        = foldl (fun c v => committed cfg (fst (f v c))) (facing tld) order /\
      iterations (stat tld')
        = wrap64 (iterations (stat tld) + Z.of_nat n) /\
      conflicts (stat tld') = conflicts (stat tld) /\
      cnx tld'
        = cnx tld
          ++ concat (replicate n [start_iteration; commit_iteration]).
Proof.
  intros Hpop Hnb Hf n. induction n as [|n IH]; intros w tld Hlen Hit.
  - apply length_zero_iff_nil in Hlen.
    exists [], w, tld. rewrite drain_loop_S, Hlen, (pop_ok_nil _ Hpop).
    simpl. rewrite app_nil_r, Z.add_0_r, wrap64_small by lia.
    repeat split; reflexivity.
  - destruct (pop_not_blocking _ Hpop (aborted w)) as [[x rest] Hp].
    { intros Hnil. rewrite Hnil in Hlen. discriminate. }
    pose proof (pop_takes_one _ Hpop _ _ _ Hp) as Hperm.
    pose proof (pop_ok_length _ _ _ _ Hpop Hp) as Hl.
    set (w1 := {| global_wl := global_wl w; aborted := rest;
                  break_happened := break_happened w;
                  abort_happened := abort_happened w |}).
    destruct (f x (facing tld)) as [fc ex] eqn:Hfx.
    pose proof (Hf x (facing tld)) as Hex. rewrite Hfx in Hex. simpl in Hex.
    subst ex.
    destruct (doProcess_Returned cfg f x tld w1 fc Hfx)
      as (w2 & tld2 & Hd & Ha & Hab & Hg & Hb & Hfc & Hc & Hs).
    destruct (IH w2 tld2) as (order & w' & tld' & Ho & Hr & R1 & R2 & R3 & R4
                                & R5 & R6 & R7 & R8).
    { rewrite Ha. simpl. lia. }
    { rewrite Hs. simpl. unfold wrap64.
      apply Z.mod_pos_bound. lia. }
    exists (x :: order), w', tld'.
    split; [rewrite Hperm, Ho, Ha; reflexivity|].
    split.
    { rewrite drain_loop_S, Hp. cbv zeta. fold w1. rewrite Hnb. cbn [andb].
      rewrite Hd. exact Hr. }
    split; [exact R1|].
    split; [rewrite R2, Hab; reflexivity|].
    split; [rewrite R3, Hb, Hnb; reflexivity|].
    split; [intros Hnp; rewrite (R4 Hnp), Hg, Hnp; reflexivity|].
    split; [rewrite R5, Hfc; cbn [foldl]; rewrite Hfx; reflexivity|].
    split; [rewrite R6, Hs; simpl; rewrite wrap64_add_l; f_equal; lia|].
    split; [rewrite R7, Hs; reflexivity|].
    rewrite R8, Hc. apply replicate_calls_S.
Qed.

(** X4.  On the leader, with [abort_happened] set, when the operator
    has not the trait [NeedsBreak] and returns normally on every retry:
    [drainAborted] ends, it logs [workHappened], clears
    [abort_happened] and empties the aborted list; every item of the
    list is handed to the operator exactly once, in the order [pop]
    gives them, and each of these iterations is committed:
    [iterations] goes up by the number of items (modulo 2^64) and
    [conflicts] stays. *)
Theorem drainAborted_retries_each_item cfg f k :
  pop_ok pop_aborted ->
  NeedsBreak cfg = false ->
  (forall v c, snd (f v c) = Returned) ->
  abort_happened (wk_shared k) <> 0 ->
  0 <= iterations (stat (wk_tld k)) < 2 ^ 64 ->
  let n := length (aborted (wk_shared k)) in
  exists order k',
    order ≡ₚ aborted (wk_shared k) /\
    drainAborted pop_aborted true (S n) cfg f k = Finished k' /\
    aborted (wk_shared k') = [] /\
    abort_happened (wk_shared k') = 0 /\
    facing (wk_tld k')
      = foldl (fun c v => committed cfg (fst (f v c)))
              (facing (wk_tld k)) order /\
    iterations (stat (wk_tld k'))
      = wrap64 (iterations (stat (wk_tld k)) + Z.of_nat n) /\
    conflicts (stat (wk_tld k')) = conflicts (stat (wk_tld k)) /\
    calls_since (cnx (wk_tld k)) (cnx (wk_tld k'))
      = concat (replicate n [start_iteration; commit_iteration]) /\
    wk_lterm k' = wk_lterm k ++ [workHappened].
Proof.
  intros Hpop Hnb Hf Hab Hit n.
  set (w0 := {| global_wl := global_wl (wk_shared k);
                aborted := aborted (wk_shared k);
                break_happened := break_happened (wk_shared k);
                abort_happened := 0 |}).
  destruct (drain_loop_returned cfg f Hpop Hnb Hf n w0 (wk_tld k) eq_refl Hit)
    as (order & w' & tld' & Ho & Hr & R1 & R2 & R3 & R4 & R5 & R6 & R7 & R8).
  exists order. eexists. split; [exact Ho|]. split.
  { unfold drainAborted. cbn [negb].
    destruct (Z.eqb_spec (abort_happened (wk_shared k)) 0) as [E|_];
      [contradiction|].
    fold w0. fold n. rewrite Hr. reflexivity. }
  cbn [wk_shared wk_tld wk_lterm].
  split; [exact R1|]. split; [exact R2|]. split; [exact R5|].
  split; [exact R6|]. split; [exact R7|].
  split; [rewrite R8; apply calls_since_app|reflexivity].
Qed.

(** The retry loop when every attempt conflicts: the item goes back on
    the list, which is never empty, and the loop does not end. *)
Lemma drain_loop_conflicting cfg f :
  pop_ok pop_aborted ->
  (forall v c, exists a, snd (f v c) = ThrewInt a) ->
  forall fuel w tld,
    aborted w <> [] ->
    NeedsBreak cfg = false \/ break_happened w = 0 ->
    drain_loop pop_aborted fuel cfg f tld w = OutOfFuel.
Proof.
  intros Hpop Hf fuel. induction fuel as [|fuel IH]; intros w tld Hne Hbr;
    [reflexivity|].
  destruct (pop_not_blocking _ Hpop (aborted w) Hne) as [[x rest] Hp].
  rewrite drain_loop_S, Hp. cbv zeta. cbn [break_happened].
  replace (NeedsBreak cfg && negb (break_happened w =? 0)) with false.
  2:{ destruct Hbr as [->| ->]; [reflexivity|]. simpl. now rewrite andb_false_r. }
  set (w1 := {| global_wl := global_wl w; aborted := rest;
                break_happened := break_happened w;
                abort_happened := abort_happened w |}).
  destruct (f x (facing tld)) as [fc ex] eqn:Hfx.
  destruct (Hf x (facing tld)) as [a Hex]. rewrite Hfx in Hex. simpl in Hex.
  subst ex.
  destruct (doProcess_ThrewInt cfg f x tld w1 fc a Hfx)
    as (w2 & tld2 & Hd & Ha & _ & _ & Hb & _).
  rewrite Hd. apply IH.
  - rewrite Ha. intros Hnil. apply app_eq_nil in Hnil as [_ Hnil]. discriminate.
  - rewrite Hb. exact Hbr.
Qed.

(** X5.  On the leader, with [abort_happened] set and an item on the
    aborted list, when the operator signals a conflict at every attempt
    and no break has been raised: [drainAborted] does not return,
    however long it runs. *)
Theorem drainAborted_spins_while_conflicting cfg f k fuel :
  pop_ok pop_aborted ->
  (forall v c, exists a, snd (f v c) = ThrewInt a) ->
  abort_happened (wk_shared k) <> 0 ->
  aborted (wk_shared k) <> [] ->
  NeedsBreak cfg = false \/ break_happened (wk_shared k) = 0 ->
  drainAborted pop_aborted true fuel cfg f k = OutOfFuel.
Proof.
  intros Hpop Hf Hab Hne Hbr. unfold drainAborted. cbn [negb].
  destruct (Z.eqb_spec (abort_happened (wk_shared k)) 0) as [E|_];
    [contradiction|].
  rewrite (drain_loop_conflicting cfg f Hpop Hf); [reflexivity|exact Hne|exact Hbr].
Qed.

Lemma drainAborted_idle isLeader fuel cfg f k :
  abort_happened (wk_shared k) = 0 ->
  drainAborted pop_aborted isLeader fuel cfg f k = Finished k.
Proof.
  intros H. unfold drainAborted. rewrite H. now destruct isLeader.
Qed.

Lemma go_pops_S fuel isLeader cfg f k :
  go_pops pop_wl pop_aborted (S fuel) isLeader cfg f k
  = match pop_wl (global_wl (wk_shared k)) with
    | None => Finished (k, false)
    | Some (val, rest) =>
        let w1 := {| global_wl := rest;
                     aborted := aborted (wk_shared k);
                     break_happened := break_happened (wk_shared k);
                     abort_happened := abort_happened (wk_shared k) |} in
        if NeedsBreak cfg && negb (break_happened w1 =? 0)
        then Finished ({| wk_shared := w1; wk_tld := wk_tld k;
                          wk_lterm := wk_lterm k |}, true)
        else
          match doProcess cfg f val (wk_tld k) w1 with
          | Some (w2, tld2) =>
              match drainAborted pop_aborted isLeader fuel cfg f
                      {| wk_shared := w2; wk_tld := tld2;
                         wk_lterm := wk_lterm k |} with
              | Finished k3 => go_pops pop_wl pop_aborted fuel isLeader cfg f k3
              | Escaped => Escaped
              | OutOfFuel => OutOfFuel
              end
          | None => Escaped
          end
    end.
Proof. reflexivity. Qed.

(** The inner loop of [go] for an operator that neither pushes nor
    breaks nor conflicts. *)
Lemma go_pops_returned isLeader cfg f :
  pop_ok pop_wl ->
  NeedsPush cfg = false ->
  NeedsBreak cfg = false ->
  (forall v c, snd (f v c) = Returned) ->
  forall n k,
    length (global_wl (wk_shared k)) = n ->
    abort_happened (wk_shared k) = 0 ->
    0 <= iterations (stat (wk_tld k)) < 2 ^ 64 ->
    exists order k',
      order ≡ₚ global_wl (wk_shared k) /\
      go_pops pop_wl pop_aborted (S n) isLeader cfg f k = Finished (k', false) /\
      global_wl (wk_shared k') = [] /\
      aborted (wk_shared k') = aborted (wk_shared k) /\
      abort_happened (wk_shared k') = 0 /\
      break_happened (wk_shared k') = break_happened (wk_shared k) /\
      facing (wk_tld k')
        = foldl (fun c v => committed cfg (fst (f v c)))
                (facing (wk_tld k)) order /\
      iterations (stat (wk_tld k'))
        = wrap64 (iterations (stat (wk_tld k)) + Z.of_nat n) /\
      conflicts (stat (wk_tld k')) = conflicts (stat (wk_tld k)) /\
      cnx (wk_tld k')
        = cnx (wk_tld k)
          ++ concat (replicate n [start_iteration; commit_iteration]) /\
      wk_lterm k' = wk_lterm k.
Proof.
  intros Hpop Hnp Hnb Hf n. induction n as [|n IH]; intros k Hlen Hab Hit.
  - apply length_zero_iff_nil in Hlen.
    exists [], k. rewrite go_pops_S, Hlen, (pop_ok_nil _ Hpop).
    simpl. rewrite app_nil_r, Z.add_0_r, wrap64_small by lia.
    repeat split; [reflexivity|exact Hab].
  - destruct (pop_not_blocking _ Hpop (global_wl (wk_shared k)))
      as [[x rest] Hp].
    { intros Hnil. rewrite Hnil in Hlen. discriminate. }
    pose proof (pop_takes_one _ Hpop _ _ _ Hp) as Hperm.
    pose proof (pop_ok_length _ _ _ _ Hpop Hp) as Hl.
    set (w1 := {| global_wl := rest;
                  aborted := aborted (wk_shared k);
                  break_happened := break_happened (wk_shared k);
                  abort_happened := abort_happened (wk_shared k) |}).
    destruct (f x (facing (wk_tld k))) as [fc ex] eqn:Hfx.
    pose proof (Hf x (facing (wk_tld k))) as Hex.
    rewrite Hfx in Hex. simpl in Hex. subst ex.
    destruct (doProcess_Returned cfg f x (wk_tld k) w1 fc Hfx)
      as (w2 & tld2 & Hd & Ha & Hab2 & Hg & Hb & Hfc & Hc & Hs).
    rewrite Hnp in Hg. rewrite Hnb in Hb. cbn [andb] in Hb.
    set (k2 := {| wk_shared := w2; wk_tld := tld2; wk_lterm := wk_lterm k |}).
    destruct (IH k2) as (order & k' & Ho & Hr & R1 & R2 & R3 & R4 & R5 & R6
                           & R7 & R8 & R9).
    { cbn [k2 wk_shared]. rewrite Hg. simpl. lia. }
    { cbn [k2 wk_shared]. rewrite Hab2. exact Hab. }
    { cbn [k2 wk_tld]. rewrite Hs. simpl. unfold wrap64.
      apply Z.mod_pos_bound. lia. }
    cbn [k2 wk_shared wk_tld wk_lterm] in *.
    exists (x :: order), k'.
    split; [rewrite Hperm, Ho, Hg; reflexivity|].
    split.
    { rewrite go_pops_S, Hp. cbv zeta. fold w1. rewrite Hnb. cbn [andb].
      rewrite Hd. fold k2. rewrite drainAborted_idle; [exact Hr|].
      cbn [k2 wk_shared]. rewrite Hab2. exact Hab. }
    split; [exact R1|].
    split; [rewrite R2, Ha; reflexivity|].
    split; [exact R3|].
    split; [rewrite R4, Hb; reflexivity|].
    split; [rewrite R5, Hfc; cbn [foldl]; rewrite Hfx; reflexivity|].
    split; [rewrite R6, Hs; simpl; rewrite wrap64_add_l; f_equal; lia|].
    split; [rewrite R7, Hs; reflexivity|].
    split; [rewrite R8, Hc; apply replicate_calls_S|exact R9].
Qed.

(** A round of [go] with nothing to do. *)
Lemma go_round_idle fuel isLeader cfg f k :
  pop_ok pop_wl ->
  NeedsBreak cfg = false ->
  global_wl (wk_shared k) = [] ->
  abort_happened (wk_shared k) = 0 ->
  go_round pop_wl pop_aborted (S fuel) isLeader cfg f k
  = Finished ({| wk_shared := wk_shared k; wk_tld := wk_tld k;
                 wk_lterm := wk_lterm k ++ [localTermination] |}, false).
Proof.
  intros Hpop Hnb Hwl Hab. unfold go_round.
  rewrite Hwl, (pop_ok_nil _ Hpop), go_pops_S, Hwl, (pop_ok_nil _ Hpop).
  rewrite drainAborted_idle by exact Hab. now rewrite Hnb.
Qed.

Lemma go_idle fuel isLeader cfg f : forall answers k,
  pop_ok pop_wl ->
  NeedsBreak cfg = false ->
  global_wl (wk_shared k) = [] ->
  abort_happened (wk_shared k) = 0 ->
  true ∈ answers ->
  exists k',
    go pop_wl pop_aborted (S fuel) isLeader cfg f answers k = Finished k' /\
    wk_shared k' = wk_shared k /\ wk_tld k' = wk_tld k.
Proof.
  induction answers as [|t answers IH]; intros k Hpop Hnb Hwl Hab Hin.
  - inversion Hin.
  - cbn [go]. rewrite go_round_idle by assumption.
    destruct t.
    + eexists. split; [reflexivity|]. split; reflexivity.
    + apply elem_of_cons in Hin as [Hin|Hin]; [discriminate|].
      destruct (IH {| wk_shared := wk_shared k; wk_tld := wk_tld k;
                      wk_lterm := wk_lterm k ++ [localTermination] |}
                   Hpop Hnb Hwl Hab Hin) as (k' & Hg & H1 & H2).
      exists k'. split; [exact Hg|]. split; assumption.
Qed.

(** X6.  A worker, leader or not, whose operator has neither the trait
    [NeedsPush] nor [NeedsBreak] and always returns normally, on a state
    without pending aborts: [go] returns once the termination protocol
    answers that all workers are done; by then the global worklist is
    empty, every item it held was handed to the operator exactly once,
    in the order [pop] gave them, each iteration was started and
    committed, [iterations] went up by the number of items (modulo
    2^64) and [conflicts] did not change. *)
Theorem go_processes_each_item_once isLeader cfg f answers k :
  pop_ok pop_wl ->
  NeedsPush cfg = false ->
  NeedsBreak cfg = false ->
  (forall v c, snd (f v c) = Returned) ->
  abort_happened (wk_shared k) = 0 ->
  0 <= iterations (stat (wk_tld k)) < 2 ^ 64 ->
  true ∈ answers ->
  let n := length (global_wl (wk_shared k)) in
  exists order k',
    order ≡ₚ global_wl (wk_shared k) /\
    go pop_wl pop_aborted (S n) isLeader cfg f answers k = Finished k' /\
    global_wl (wk_shared k') = [] /\
    facing (wk_tld k')
      = foldl (fun c v => committed cfg (fst (f v c)))
              (facing (wk_tld k)) order /\
    iterations (stat (wk_tld k'))
      = wrap64 (iterations (stat (wk_tld k)) + Z.of_nat n) /\
    conflicts (stat (wk_tld k')) = conflicts (stat (wk_tld k)) /\
    calls_since (cnx (wk_tld k)) (cnx (wk_tld k'))
      = concat (replicate n [start_iteration; commit_iteration]).
Proof.
  intros Hpop Hnp Hnb Hf Hab Hit Hin n.
  destruct answers as [|t answers]; [inversion Hin|].
  set (k0 := match pop_wl (global_wl (wk_shared k)) with
             | Some _ => {| wk_shared := wk_shared k; wk_tld := wk_tld k;
                            wk_lterm := wk_lterm k ++ [workHappened] |}
             | None => k
             end).
  assert (Hk0 : wk_shared k0 = wk_shared k /\ wk_tld k0 = wk_tld k).
  { unfold k0. destruct (pop_wl (global_wl (wk_shared k))); split; reflexivity. }
  destruct Hk0 as [Hs0 Ht0].
  destruct (go_pops_returned isLeader cfg f Hpop Hnp Hnb Hf n k0)
    as (order & k1 & Ho & Hr & R1 & R2 & R3 & R4 & R5 & R6 & R7 & R8 & R9).
  { rewrite Hs0. reflexivity. }
  { rewrite Hs0. exact Hab. }
  { rewrite Ht0. exact Hit. }
  rewrite Hs0 in Ho. rewrite Ht0 in R5, R6, R7, R8.
  set (k2 := {| wk_shared := wk_shared k1; wk_tld := wk_tld k1;
                wk_lterm := wk_lterm k1 ++ [localTermination] |}).
  assert (Hround : go_round pop_wl pop_aborted (S n) isLeader cfg f k
                   = Finished (k2, false)).
  { unfold go_round. fold k0. rewrite Hr.
    rewrite drainAborted_idle by exact R3. now rewrite Hnb. }
  exists order.
  destruct t.
  - exists k2. split; [exact Ho|]. split; [cbn [go]; now rewrite Hround|].
    cbn [k2 wk_shared wk_tld].
    split; [exact R1|]. split; [exact R5|]. split; [exact R6|].
    split; [exact R7|]. rewrite R8. apply calls_since_app.
  - apply elem_of_cons in Hin as [Hin|Hin]; [discriminate|].
    destruct (go_idle n isLeader cfg f answers k2 Hpop Hnb R1 R3 Hin)
      as (k' & Hg & H1 & H2).
    exists k'. split; [exact Ho|].
    split; [cbn [go]; rewrite Hround; exact Hg|].
    rewrite H1, H2. cbn [k2 wk_shared wk_tld].
    split; [exact R1|]. split; [exact R5|]. split; [exact R6|].
    split; [exact R7|]. rewrite R8. apply calls_since_app.
Qed.

(** X7.  Once [break_happened] is raised, a worker whose operator has
    the trait [NeedsBreak] leaves [go] without running the operator
    again: no iteration is started, the statistics and the user-facing
    context stay as they are, and the flag stays raised. *)
Theorem go_leaves_on_break fuel isLeader cfg f answers k :
  NeedsBreak cfg = true ->
  break_happened (wk_shared k) <> 0 ->
  answers <> [] ->
  exists k',
    go pop_wl pop_aborted (S fuel) isLeader cfg f answers k = Finished k' /\
    wk_tld k' = wk_tld k /\
    break_happened (wk_shared k') = break_happened (wk_shared k).
Proof.
  intros Hnb Hbr Hans. destruct answers as [|t answers]; [congruence|].
  assert (Hflag : negb (break_happened (wk_shared k) =? 0) = true).
  { destruct (Z.eqb_spec (break_happened (wk_shared k)) 0); [contradiction|].
    reflexivity. }
  cbn [go]. unfold go_round.
  destruct (pop_wl (global_wl (wk_shared k))) as [[val rest]|] eqn:Hp.
  - rewrite go_pops_S. cbn [wk_shared wk_tld wk_lterm]. rewrite Hp.
    cbv zeta. cbn [break_happened]. rewrite Hnb, Hflag. cbn [andb].
    eexists. split; [reflexivity|]. split; reflexivity.
  - rewrite go_pops_S, Hp.
    assert (Hd : exists k2,
               drainAborted pop_aborted isLeader (S fuel) cfg f k = Finished k2 /\
               wk_tld k2 = wk_tld k /\
               break_happened (wk_shared k2) = break_happened (wk_shared k)).
    { unfold drainAborted. destruct isLeader; cbn [negb].
      2:{ exists k. repeat split. }
      destruct (abort_happened (wk_shared k) =? 0).
      { exists k. repeat split. }
      rewrite drain_loop_S. cbn [aborted break_happened].
      destruct (pop_aborted (aborted (wk_shared k))) as [[v r]|].
      - cbv zeta. cbn [break_happened]. rewrite Hnb, Hflag. cbn [andb].
        eexists. split; [reflexivity|]. split; reflexivity.
      - eexists. split; [reflexivity|]. split; reflexivity. }
    destruct Hd as (k2 & Hd & H1 & H2).
    rewrite Hd, Hnb, H2, Hflag. cbn [andb].
    exists k2. split; [reflexivity|]. split; assumption.
Qed.

End worker.

Lemma drainAborted_retries_each_item_witness :
  pop_ok (@fifo Z) /\
  NeedsBreak traits_off = false /\
  (forall v c, snd (op_push_alloc_break v c) = Returned) /\
  abort_happened (wk_shared (worker_on work_aborted)) <> 0 /\
  exists k',
    drainAborted fifo true 3 traits_off op_push_alloc_break
      (worker_on work_aborted) = Finished k' /\
    aborted (wk_shared k') = [] /\
    abort_happened (wk_shared k') = 0 /\
    iterations (stat (wk_tld k')) = 2 /\
    conflicts (stat (wk_tld k')) = 0.
Proof.
  assert (H1 : NeedsBreak traits_off = false) by reflexivity.
  assert (H2 : forall v c, snd (op_push_alloc_break v c) = Returned)
    by reflexivity.
  assert (H3 : abort_happened (wk_shared (worker_on work_aborted)) <> 0)
    by discriminate.
  assert (H4 : 0 <= iterations (stat (wk_tld (worker_on work_aborted))) < 2 ^ 64)
    by (simpl; lia).
  split; [exact fifo_ok|]. split; [exact H1|]. split; [exact H2|].
  split; [exact H3|].
  destruct (drainAborted_retries_each_item fifo traits_off op_push_alloc_break
              (worker_on work_aborted) fifo_ok H1 H2 H3 H4)
    as (order & k' & _ & Hr & R1 & R2 & _ & R3 & R4 & _).
  exists k'. split; [exact Hr|]. split; [exact R1|]. split; [exact R2|].
  split; [exact R3|exact R4].
Defined.

Lemma drainAborted_spins_while_conflicting_witness :
  pop_ok (@fifo Z) /\
  (forall v c, exists a, snd (op_conflict v c) = ThrewInt a) /\
  drainAborted fifo true 1000 traits_on op_conflict (worker_on work_aborted)
    = OutOfFuel.
Proof.
  assert (H1 : forall v c, exists a, snd (op_conflict v c) = ThrewInt a)
    by (intros v c; exists 0; reflexivity).
  split; [exact fifo_ok|]. split; [exact H1|].
  apply (drainAborted_spins_while_conflicting fifo traits_on op_conflict
           (worker_on work_aborted) 1000 fifo_ok H1).
  - discriminate.
  - discriminate.
  - right. reflexivity.
Defined.

Lemma go_processes_each_item_once_witness :
  pop_ok (@fifo Z) /\
  NeedsPush traits_off = false /\ NeedsBreak traits_off = false /\
  (forall v c, snd (op_push_alloc_break v c) = Returned) /\
  exists k',
    go fifo fifo 3 true traits_off op_push_alloc_break [false; true]
      (worker_on work_pending) = Finished k' /\
    global_wl (wk_shared k') = [] /\
    iterations (stat (wk_tld k')) = 2 /\
    conflicts (stat (wk_tld k')) = 0.
Proof.
  assert (H1 : NeedsPush traits_off = false) by reflexivity.
  assert (H2 : NeedsBreak traits_off = false) by reflexivity.
  assert (H3 : forall v c, snd (op_push_alloc_break v c) = Returned)
    by reflexivity.
  assert (H4 : abort_happened (wk_shared (worker_on work_pending)) = 0)
    by reflexivity.
  assert (H5 : 0 <= iterations (stat (wk_tld (worker_on work_pending))) < 2 ^ 64)
    by (simpl; lia).
  assert (H6 : true ∈ [false; true]) by (right; left).
  split; [exact fifo_ok|]. split; [exact H1|]. split; [exact H2|].
  split; [exact H3|].
  destruct (go_processes_each_item_once fifo fifo true traits_off
              op_push_alloc_break [false; true] (worker_on work_pending)
              fifo_ok H1 H2 H3 H4 H5 H6)
    as (order & k' & _ & Hr & R1 & _ & R2 & R3 & _).
  exists k'. split; [exact Hr|]. split; [exact R1|].
  split; [exact R2|exact R3].
Defined.

Lemma go_leaves_on_break_witness :
  NeedsBreak traits_on = true /\
  break_happened (wk_shared (worker_on work_broken)) <> 0 /\
  exists k',
    go fifo fifo 1 true traits_on op_push_alloc_break [true]
      (worker_on work_broken) = Finished k' /\
    wk_tld k' = tld_fresh.
Proof.
  assert (H1 : NeedsBreak traits_on = true) by reflexivity.
  assert (H2 : break_happened (wk_shared (worker_on work_broken)) <> 0)
    by discriminate.
  split; [exact H1|]. split; [exact H2|].
  destruct (go_leaves_on_break fifo fifo 0 true traits_on op_push_alloc_break
              [true] (worker_on work_broken) H1 H2 ltac:(discriminate))
    as (k' & Hr & R1 & _).
  exists k'. split; [exact Hr|exact R1].
Defined.

End ParallelWork_facts.

(* ===================================================================== *)
(** * DistributedGraph_CustomEdgeCut.h: facts *)
(* ===================================================================== *)

Module CustomEdgeCut_facts.
Import CustomEdgeCut.

(** ** Mirror-owner lookup *)

Lemma lower_bound_loop_spec vec val : forall fuel first len,
  is_sorted vec ->
  (len <= fuel)%nat ->
  (first + len <= length vec)%nat ->
  (forall i x, (i < first)%nat -> vec !! i = Some x -> x < val) ->
  (forall i x, (first + len <= i)%nat -> vec !! i = Some x -> val <= x) ->
  let r := lower_bound_loop fuel vec first len val in
  (first <= r <= first + len)%nat /\
  (forall i x, (i < r)%nat -> vec !! i = Some x -> x < val) /\
  (forall i x, (r <= i)%nat -> vec !! i = Some x -> val <= x).
Proof.
  intros fuel. induction fuel as [|fuel IH];
    intros first len Hs Hf Hlen Hlo Hhi; cbn [lower_bound_loop].
  - assert (len = 0)%nat by lia. subst len.
    split; [lia|]. split; [exact Hlo|].
    intros i x Hi. apply Hhi. lia.
  - destruct (Nat.eqb_spec len 0) as [->|Hne].
    + split; [lia|]. split; [exact Hlo|].
      intros i x Hi. apply Hhi. lia.
    + pose proof (Nat.div_lt len 2 ltac:(lia) ltac:(lia)) as Hhalf.
      destruct (vec !! (first + len / 2)%nat) as [x|] eqn:Hmid.
      2:{ apply lookup_ge_None in Hmid. lia. }
      destruct (Z.ltb_spec x val) as [Hlt|Hge].
      * specialize (IH (first + len / 2 + 1)%nat (len - len / 2 - 1)%nat Hs).
        destruct IH as [Hr [H1 H2]]; try lia.
        { intros i y Hi Hy.
          destruct (decide (i < first)%nat) as [?|?]; [eauto|].
          pose proof (Hs i (first + len / 2)%nat y x ltac:(lia) Hy Hmid).
          lia. }
        { intros i y Hi. apply Hhi. lia. }
        split; [lia|]. split; assumption.
      * specialize (IH first (len / 2)%nat Hs).
        destruct IH as [Hr [H1 H2]]; try lia.
        { exact Hlo. }
        { intros i y Hi Hy.
          pose proof (Hs (first + len / 2)%nat i x y ltac:(lia) Hmid Hy).
          lia. }
        split; [lia|]. split; assumption.
Qed.

(** On a sorted vector [lower_bound] returns the first position whose
    element is not smaller than [val]. *)
Lemma lower_bound_spec vec val :
  is_sorted vec ->
  let r := lower_bound vec val in
  (r <= length vec)%nat /\
  (forall i x, (i < r)%nat -> vec !! i = Some x -> x < val) /\
  (forall i x, (r <= i)%nat -> vec !! i = Some x -> val <= x).
Proof.
  intros Hs. unfold lower_bound.
  destruct (lower_bound_loop_spec vec val (length vec) 0%nat (length vec) Hs)
    as [Hr [H1 H2]]; try lia.
  - intros i x Hi Hx. apply lookup_lt_Some in Hx. exfalso. lia.
  - cbn zeta. split; [lia|]. split; assumption.
Qed.

(** Every element smaller than [val]: the search ends at [vec.end()],
    sorted or not. *)
Lemma lower_bound_loop_all_less vec val : forall fuel first len,
  (len <= fuel)%nat ->
  (first + len <= length vec)%nat ->
  (forall x, x ∈ vec -> x < val) ->
  lower_bound_loop fuel vec first len val = (first + len)%nat.
Proof.
  intros fuel. induction fuel as [|fuel IH];
    intros first len Hf Hlen Hall; cbn [lower_bound_loop].
  - lia.
  - destruct (Nat.eqb_spec len 0) as [->|Hne]; [lia|].
    pose proof (Nat.div_lt len 2 ltac:(lia) ltac:(lia)) as Hhalf.
    destruct (vec !! (first + len / 2)%nat) as [x|] eqn:Hmid.
    2:{ apply lookup_ge_None in Hmid. lia. }
    assert (x < val) as Hlt
      by (apply Hall; eapply list_elem_of_lookup_2; eauto).
    destruct (Z.ltb_spec x val); [|lia].
    rewrite IH by (try assumption; lia). lia.
Qed.

Lemma lower_bound_all_less vec val :
  (forall x, x ∈ vec -> x < val) -> lower_bound vec val = length vec.
Proof.
  intros Hall. unfold lower_bound.
  rewrite lower_bound_loop_all_less by (try assumption; lia). lia.
Qed.

(** C7 (the code departs from the claim).  When [gid] is greater than
    every element of [vec] (an empty [vec] included), [find_hostID]
    dereferences [vec.end()]: it reads outside the vector, at the
    position [length vec], before it compares the iterator with
    [vec.end()]. *)
Theorem find_hostID_in_reads_past_end vec gid from_hostID :
  (forall x, x ∈ vec -> x < gid) ->
  find_hostID_in vec gid from_hostID = OutOfBounds (length vec).
Proof.
  intros Hall. unfold find_hostID_in, deref.
  rewrite lower_bound_all_less by assumption.
  rewrite (lookup_ge_None_2 vec (length vec)) by lia. reflexivity.
Qed.

(** Three hosts owning the nodes 0, 1 and 2 in turn, and the edge
    [0 -> 2]: host 0 looks its ghost 2 up in host 1's master list [1]. *)
Lemma find_hostID_in_reads_past_end_witness :
  (forall x, x ∈ [1] -> x < 2) /\
  find_hostID_in [1] 2 1 = OutOfBounds 1.
Proof.
  assert (H : forall x : Z, x ∈ [1] -> x < 2).
  { intros x Hx. apply list_elem_of_singleton in Hx. lia. }
  split; [exact H|]. exact (find_hostID_in_reads_past_end [1] 2 1 H).
Defined.

(** Where the search ends inside the vector the lookup is as claimed:
    the sender if [gid] occurs, the maximum of [uint32_t] otherwise. *)
Lemma find_hostID_in_inside vec gid from_hostID :
  is_sorted vec ->
  (exists x, x ∈ vec /\ gid <= x) ->
  find_hostID_in vec gid from_hostID
    = Ok (if bool_decide (gid ∈ vec) then from_hostID else UINT32_MAX).
Proof.
  intros Hs [y [Hy Hle]].
  destruct (lower_bound_spec vec gid Hs) as [Hr [H1 H2]].
  unfold find_hostID_in, deref.
  set (r := lower_bound vec gid) in *.
  apply list_elem_of_lookup_1 in Hy as [j Hj].
  assert (r <= j)%nat as Hrj.
  { destruct (decide (r <= j)%nat); [assumption|].
    pose proof (H1 j y ltac:(lia) Hj). lia. }
  pose proof (lookup_lt_Some _ _ _ Hj) as Hjl.
  destruct (vec !! r) as [x|] eqn:Hx.
  2:{ apply lookup_ge_None in Hx. lia. }
  f_equal.
  replace (r =? length vec)%nat with false
    by (symmetry; apply Nat.eqb_neq; lia).
  simpl. rewrite andb_true_r.
  destruct (Z.eqb_spec x gid) as [->|Hne].
  - rewrite bool_decide_eq_true_2; [reflexivity|].
    eapply list_elem_of_lookup_2; eauto.
  - rewrite bool_decide_eq_false_2; [reflexivity|].
    intros Hin. apply list_elem_of_lookup_1 in Hin as [i Hi].
    destruct (decide (i < r)%nat) as [Hlt|Hge].
    + pose proof (H1 i gid Hlt Hi). lia.
    + pose proof (H2 r x ltac:(lia) Hx).
      pose proof (Hs r i x gid ltac:(lia) Hx Hi). lia.
Qed.
Lemma bitset_set_all_Some dsts : forall bits,
  (forall d, d ∈ dsts -> 0 <= d < Z.of_nat (length bits)) ->
  exists bits', bitset_set_all bits dsts = Some bits' /\ length bits' = length bits.
Proof.
  induction dsts as [|d dsts IH]; intros bits Hin; simpl.
  - eauto.
  - unfold bitset_set.
    pose proof (Hin d ltac:(left)) as Hd.
    replace ((0 <=? d) && (d <? Z.of_nat (length bits))) with true
      by (symmetry; apply andb_true_iff; split; [apply Z.leb_le|apply Z.ltb_lt]; lia).
    destruct (IH (<[Z.to_nat d := true]> bits)) as [bits' [H1 H2]].
    { intros d' Hd'. rewrite length_insert. apply Hin. now right. }
    exists bits'. split; [exact H1|]. now rewrite H2, length_insert.
Qed.

(** ** Phase 1: edge inspection *)

Section inspection.
Variables (numHosts numGlobalNodes : nat) (vertexIDMap : list Z).
Variable edges : list (list Z).

Lemma inspected_init :
  inspected numHosts numGlobalNodes vertexIDMap edges 0 (inspection_init numHosts (length edges) numGlobalNodes).
Proof.
  unfold inspection_init.
  split; cbn [numOutgoingEdges hasIncomingEdge num_assigned_edges_perhost
              num_assigned_nodes_perhost];
    rewrite ?length_replicate; try reflexivity.
  - intros h bits Hb. apply lookup_replicate in Hb as [-> _].
    now rewrite length_replicate.
  - intros h row Hr. apply lookup_replicate in Hr as [-> _].
    split; [now rewrite length_replicate|].
    intros j dsts Hj. apply lookup_lt_Some in Hj.
    rewrite lookup_replicate_2 by assumption.
    rewrite bool_decide_eq_false_2; [reflexivity|]. intros [? _]. lia.
  - intros h Hh. rewrite lookup_replicate_2 by assumption. reflexivity.
Qed.

Lemma assigned_below_S h k v :
  vertexIDMap !! k = Some v ->
  assigned_below vertexIDMap h (S k)
    = (assigned_below vertexIDMap h k + (if decide (wrap32 v = Z.of_nat h) then 1 else 0))%nat.
Proof.
  intros Hv. unfold assigned_below.
  rewrite (take_S_r _ _ _ Hv), filter_app, length_app. f_equal.
  rewrite filter_cons, filter_nil. now destruct (decide _).
Qed.

Lemma inspect_src_inspected k dsts st h :
  inspected numHosts numGlobalNodes vertexIDMap edges k st ->
  edges !! k = Some dsts ->
  find_hostID vertexIDMap k = Some (Z.of_nat h) ->
  (h < numHosts)%nat ->
  (forall d, d ∈ dsts -> 0 <= d < Z.of_nat numGlobalNodes) ->
  exists st', inspect_src numHosts vertexIDMap k dsts st = Some st' /\
              inspected numHosts numGlobalNodes vertexIDMap edges (S k) st'.
Proof.
  intros Hinv Hk Hh Hlt Hd. destruct Hinv as [Hrows Hbs Hea Hbsz Hrow Hnodes].
  unfold inspect_src. rewrite Hh.
  replace (Z.of_nat h <? Z.of_nat numHosts) with true
    by (symmetry; apply Z.ltb_lt; lia).
  rewrite Nat2Z.id.
  destruct (numOutgoingEdges st !! h) as [row|] eqn:Hr.
  2:{ apply lookup_ge_None in Hr. lia. }
  destruct (hasIncomingEdge st !! h) as [bits|] eqn:Hb.
  2:{ apply lookup_ge_None in Hb. lia. }
  destruct (Hrow h row Hr) as [Hrl Hrv].
  pose proof (lookup_lt_Some _ _ _ Hk) as Hkl.
  replace (k <? length row)%nat with true
    by (symmetry; apply Nat.ltb_lt; lia).
  pose proof (Hbsz h bits Hb) as Hbl.
  destruct (bitset_set_all_Some dsts bits) as [bits' [Hset Hbl']].
  { intros d Hin. rewrite Hbl. now apply Hd. }
  rewrite Hset. eexists. split; [reflexivity|].
  unfold find_hostID in Hh. apply fmap_Some in Hh as [v [Hv Hvh]].
  split; cbn [numOutgoingEdges hasIncomingEdge num_assigned_edges_perhost
              num_assigned_nodes_perhost];
    rewrite ?length_insert, ?length_alter; try assumption.
  - intros h' bits0 Hb0.
    destruct (decide (h = h')) as [<-|Hne].
    + rewrite list_lookup_insert_eq in Hb0 by lia. congruence.
    + rewrite list_lookup_insert_ne in Hb0 by assumption. eauto.
  - intros h' row0 Hr0.
    destruct (decide (h = h')) as [<-|Hne].
    + rewrite list_lookup_insert_eq in Hr0 by lia.
      injection Hr0 as <-. rewrite length_alter, length_insert.
      split; [assumption|]. intros j dj Hj.
      destruct (decide (k = j)) as [<-|Hkj].
      * rewrite list_lookup_alter_eq, list_lookup_insert_eq by lia. simpl.
        rewrite bool_decide_eq_true_2.
        -- assert (dsts = dj) by congruence. subst dj.
           reflexivity.
        -- split; [lia|]. unfold find_hostID. rewrite Hv. simpl. congruence.
      * rewrite list_lookup_alter_ne, list_lookup_insert_ne by assumption.
        rewrite (Hrv j dj Hj). same_decision. intuition lia.
    + rewrite list_lookup_insert_ne in Hr0 by assumption.
      destruct (Hrow h' row0 Hr0) as [Hl0 Hv0].
      split; [assumption|]. intros j dj Hj.
      rewrite (Hv0 j dj Hj). same_decision.
      split; intros [Hjk Hf]; (split; [|assumption]); try lia.
      destruct (decide (j = k)) as [->|?]; [|lia].
      exfalso. unfold find_hostID in Hf. rewrite Hv in Hf. simpl in Hf.
      apply Hne. apply Nat2Z.inj. congruence.
  - intros h' Hh'. rewrite (assigned_below_S h' k v Hv).
    destruct (decide (h = h')) as [<-|Hne].
    + rewrite list_lookup_alter_eq, Hnodes by assumption. simpl.
      rewrite decide_True by congruence.
      rewrite wrap32_succ. do 2 f_equal. lia.
    + rewrite list_lookup_alter_ne, Hnodes by assumption.
      rewrite decide_False; [do 3 f_equal; lia|].
      intros Heq. apply Hne. apply Nat2Z.inj. congruence.
Qed.

Lemma inspect_from_inspected : forall rest k st,
  hosts_valid numHosts vertexIDMap edges ->
  dsts_valid numGlobalNodes edges ->
  (k <= length edges)%nat ->
  drop k edges = rest ->
  inspected numHosts numGlobalNodes vertexIDMap edges k st ->
  exists st', inspect_from numHosts vertexIDMap k rest st = Some st' /\
              inspected numHosts numGlobalNodes vertexIDMap edges (length edges) st'.
Proof.
  induction rest as [|dsts rest IH]; intros k st Hh Hd Hle Hdrop Hinv; simpl.
  - exists st. split; [reflexivity|].
    apply drop_nil_inv in Hdrop.
    replace (length edges) with k by lia. exact Hinv.
  - assert (Hk : edges !! k = Some dsts).
    { rewrite <- (Nat.add_0_r k), <- lookup_drop, Hdrop. reflexivity. }
    pose proof (lookup_lt_Some _ _ _ Hk) as Hkl.
    destruct (Hh k Hkl) as [h [Hf Hlt]].
    destruct (inspect_src_inspected k dsts st h Hinv Hk Hf Hlt) as [st1 [Hs1 Hi1]].
    { intros d Hin. eapply Hd; eauto. }
    rewrite Hs1. apply IH; try assumption; try lia.
    replace (S k) with (k + 1)%nat by lia.
    rewrite <- drop_drop, Hdrop. reflexivity.
Qed.

Lemma inspect_inspected :
  hosts_valid numHosts vertexIDMap edges ->
  dsts_valid numGlobalNodes edges ->
  exists st, inspect numHosts numGlobalNodes vertexIDMap edges = Some st /\
             inspected numHosts numGlobalNodes vertexIDMap edges (length edges) st.
Proof.
  intros Hh Hd. unfold inspect.
  apply inspect_from_inspected; try assumption.
  - lia.
  - reflexivity.
  - apply inspected_init.
Qed.

Lemma bitset_set_all_length dsts : forall bits bits',
  bitset_set_all bits dsts = Some bits' -> length bits' = length bits.
Proof.
  induction dsts as [|d dsts IH]; intros bits bits' H; cbn [bitset_set_all] in H.
  - now injection H as <-.
  - unfold bitset_set in H.
    destruct ((0 <=? d) && (d <? Z.of_nat (length bits))); [|discriminate].
    rewrite (IH _ _ H). apply length_insert.
Qed.

Lemma bitset_set_all_lookup dsts : forall bits bits',
  bitset_set_all bits dsts = Some bits' ->
  forall g, bits' !! g = Some true <->
    bits !! g = Some true \/ ((g < length bits)%nat /\ Z.of_nat g ∈ dsts).
Proof.
  induction dsts as [|d dsts IH]; intros bits bits' H g;
    cbn [bitset_set_all] in H.
  - injection H as <-. split; [tauto|].
    intros [?|[_ Hin]]; [assumption|inversion Hin].
  - unfold bitset_set in H.
    destruct ((0 <=? d) && (d <? Z.of_nat (length bits))) eqn:Hd;
      [|discriminate].
    apply andb_true_iff in Hd as [H0 H1].
    apply Z.leb_le in H0. apply Z.ltb_lt in H1.
    rewrite (IH _ _ H g), length_insert.
    destruct (decide (g = Z.to_nat d)) as [->|Hne].
    + rewrite list_lookup_insert_eq by lia. split.
      * intros _. right. split; [lia|]. rewrite Z2Nat.id by lia. left.
      * intros _. now left.
    + rewrite list_lookup_insert_ne by lia. split.
      * intros [?|[? Hin]]; [tauto|]. right. split; [assumption|now right].
      * intros [?|[? Hin]]; [tauto|].
        apply elem_of_cons in Hin as [Heq|Hin]; [exfalso; lia|]. right. tauto.
Qed.

Lemma edges_total_snoc cs c :
  edges_total (cs ++ [c]) = edges_total cs + (if is_master c then c - 1 else 0).
Proof.
  induction cs as [|d cs IH]; cbn [app edges_total]; [lia|]. rewrite IH. lia.
Qed.

Lemma inspected_edges_init :
  inspected_edges vertexIDMap edges 0
    (inspection_init numHosts (length edges) numGlobalNodes).
Proof.
  unfold inspection_init.
  split; cbn [hasIncomingEdge num_assigned_edges_perhost].
  - intros h bits Hb g. apply lookup_replicate in Hb as [-> _].
    split.
    + intros Hg. apply lookup_replicate in Hg as [Hg _]. discriminate.
    + intros [_ (j & _ & Hj & _)]. lia.
  - intros h Hh. rewrite length_replicate in Hh.
    rewrite lookup_replicate_2 by assumption. reflexivity.
Qed.

Lemma inspect_src_edges k dsts st st' :
  inspected numHosts numGlobalNodes vertexIDMap edges k st ->
  inspected_edges vertexIDMap edges k st ->
  edges !! k = Some dsts ->
  inspect_src numHosts vertexIDMap k dsts st = Some st' ->
  inspected_edges vertexIDMap edges (S k) st'.
Proof.
  intros [Hrows Hbs Hea _ _ _] [Hbits Hedges] Hk H.
  unfold inspect_src in H.
  destruct (find_hostID vertexIDMap k) as [hz|] eqn:Hf; [|discriminate].
  destruct (Z.ltb_spec hz (Z.of_nat numHosts)) as [Hlt|]; [|discriminate].
  destruct (numOutgoingEdges st !! Z.to_nat hz) as [row|]; [|discriminate].
  destruct (hasIncomingEdge st !! Z.to_nat hz) as [bits|] eqn:Hb;
    [|discriminate].
  destruct (k <? length row)%nat; [|discriminate].
  destruct (bitset_set_all bits dsts) as [bits'|] eqn:Hset; [|discriminate].
  injection H as <-.
  pose proof Hf as Hf'. unfold find_hostID in Hf'.
  apply fmap_Some in Hf' as [v [Hv Hvh]].
  assert (Hhz : 0 <= hz).
  { subst hz. unfold wrap32. apply Z.mod_pos_bound. lia. }
  set (hn := Z.to_nat hz) in *.
  assert (Hhn : Z.of_nat hn = hz) by (unfold hn; lia).
  assert (Hnode : zip vertexIDMap edges !! k = Some (v, dsts)).
  { apply lookup_zip_with_Some. eauto. }
  split; cbn [hasIncomingEdge num_assigned_edges_perhost].
  - intros h' bits0 Hb0 g.
    destruct (decide (hn = h')) as [<-|Hne].
    + rewrite list_lookup_insert_eq in Hb0
        by (apply lookup_lt_Some in Hb; exact Hb).
      injection Hb0 as <-.
      rewrite (bitset_set_all_lookup _ _ _ Hset g), (Hbits hn bits Hb g).
      rewrite (bitset_set_all_length _ _ _ Hset). split.
      * intros [[Hg (j & dj & Hj & He & Hfj & Hin)]|[Hg Hin]].
        -- split; [assumption|]. exists j, dj. split_all.
        -- split; [assumption|]. exists k, dsts.
           split; [lia|]. split; [assumption|]. split; [congruence|assumption].
      * intros [Hg (j & dj & Hj & He & Hfj & Hin)].
        destruct (decide (j = k)) as [->|Hjk].
        -- right. split; [assumption|]. congruence.
        -- left. split; [assumption|]. exists j, dj.
           split; [lia|]. split_all.
    + rewrite list_lookup_insert_ne in Hb0 by assumption.
      rewrite (Hbits h' bits0 Hb0 g). split.
      * intros [Hg (j & dj & Hj & He & Hfj & Hin)].
        split; [assumption|]. exists j, dj. split_all.
      * intros [Hg (j & dj & Hj & He & Hfj & Hin)].
        split; [assumption|]. exists j, dj.
        split; [|split_all].
        destruct (decide (j = k)) as [->|Hjk]; [|lia].
        exfalso. apply Hne. apply Nat2Z.inj. congruence.
  - intros h Hh. rewrite length_alter in Hh.
    rewrite (take_S_r _ _ _ Hnode), fmap_app.
    change (counter_of h <$> [(v, dsts)]) with [counter_of h (v, dsts)].
    rewrite edges_total_snoc. unfold counter_of at 2 3. cbn [fst snd].
    destruct (decide (hn = h)) as [<-|Hne].
    + rewrite list_lookup_alter_eq, (Hedges hn Hh). cbn [fmap option_fmap option_map].
      rewrite decide_True by congruence.
      unfold is_master.
      destruct (Z.ltb_spec 0 (1 + Z.of_nat (length dsts))); [|lia].
      rewrite wrap64_add_l. do 2 f_equal. lia.
    + rewrite list_lookup_alter_ne, (Hedges h Hh) by assumption.
      rewrite decide_False.
      * unfold is_master. cbn. now rewrite Z.add_0_r.
      * intros Heq. apply Hne. apply Nat2Z.inj. congruence.
Qed.

Lemma inspect_from_edges : forall rest k st st',
  hosts_valid numHosts vertexIDMap edges ->
  dsts_valid numGlobalNodes edges ->
  (k <= length edges)%nat ->
  drop k edges = rest ->
  inspected numHosts numGlobalNodes vertexIDMap edges k st ->
  inspected_edges vertexIDMap edges k st ->
  inspect_from numHosts vertexIDMap k rest st = Some st' ->
  inspected_edges vertexIDMap edges (length edges) st'.
Proof.
  induction rest as [|dsts rest IH]; intros k st st' Hh Hd Hle Hdrop Hinv He H;
    cbn [inspect_from] in H.
  - injection H as <-. apply drop_nil_inv in Hdrop.
    replace (length edges) with k by lia. exact He.
  - assert (Hk : edges !! k = Some dsts).
    { rewrite <- (Nat.add_0_r k), <- lookup_drop, Hdrop. reflexivity. }
    pose proof (lookup_lt_Some _ _ _ Hk) as Hkl.
    destruct (Hh k Hkl) as [h [Hf Hlt]].
    destruct (inspect_src_inspected k dsts st h Hinv Hk Hf Hlt) as [st1 [Hs1 Hi1]].
    { intros d Hin. eapply Hd; eauto. }
    rewrite Hs1 in H.
    apply (IH (S k) st1 st'); try assumption; try lia.
    + replace (S k) with (k + 1)%nat by lia.
      rewrite <- drop_drop, Hdrop. reflexivity.
    + eapply inspect_src_edges; eauto.
Qed.

Lemma inspect_edges st :
  hosts_valid numHosts vertexIDMap edges ->
  dsts_valid numGlobalNodes edges ->
  inspect numHosts numGlobalNodes vertexIDMap edges = Some st ->
  inspected_edges vertexIDMap edges (length edges) st.
Proof.
  intros Hh Hd H. unfold inspect in H.
  eapply (inspect_from_edges edges 0); eauto.
  - lia.
  - apply inspected_init.
  - apply inspected_edges_init.
Qed.

End inspection.

(** C4.  Provided the vertex-ID map has, for every source of the range,
    an entry that read as [uint32_t] is the number of a host
    ([assert(h < net.Num)]), every edge ends at a node, and one plus an
    outdegree fits 64 bits: the inspection ends, and for every host [h]
    and every source at the offset [k] of the range, [v] being the entry
    [vertexIDMap[k]] of the map, [numOutgoingEdges[h][k]] is one plus
    the outdegree of the source if [v] is [h], and 0 otherwise. *)
Theorem inspect_counts_owned_sources numHosts numGlobalNodes vertexIDMap edges :
  (forall k, (k < length edges)%nat ->
     exists v h, vertexIDMap !! k = Some v /\
                 wrap32 v = Z.of_nat h /\ (h < numHosts)%nat) ->
  dsts_valid numGlobalNodes edges ->
  (forall k dsts, edges !! k = Some dsts -> 1 + Z.of_nat (length dsts) < 2 ^ 64) ->
  exists st,
    inspect numHosts numGlobalNodes vertexIDMap edges = Some st /\
    forall h k v dsts, (h < numHosts)%nat ->
      vertexIDMap !! k = Some v -> edges !! k = Some dsts ->
      exists row,
        numOutgoingEdges st !! h = Some row /\
        row !! k = Some (if bool_decide (wrap32 v = Z.of_nat h)
                         then 1 + Z.of_nat (length dsts) else 0).
Proof.
  intros Hmap Hd Hsz.
  assert (Hh : hosts_valid numHosts vertexIDMap edges).
  { intros k Hk. destruct (Hmap k Hk) as (v & h & Hv & Hvh & Hlt).
    exists h. split; [|exact Hlt].
    unfold find_hostID. rewrite Hv. cbn [fmap option_fmap option_map].
    now rewrite Hvh. }
  destruct (inspect_inspected numHosts numGlobalNodes vertexIDMap edges Hh Hd)
    as [st [Hst Hinv]].
  exists st. split; [exact Hst|].
  intros h k v dsts Hlt Hv Hk. destruct Hinv as [Hrows _ _ _ Hrow _].
  destruct (numOutgoingEdges st !! h) as [row|] eqn:Hr.
  2:{ apply lookup_ge_None in Hr. lia. }
  exists row. split; [reflexivity|].
  destruct (Hrow h row Hr) as [_ Hc]. rewrite (Hc k dsts Hk).
  pose proof (lookup_lt_Some _ _ _ Hk) as Hkl.
  rewrite wrap64_small by (specialize (Hsz k dsts Hk); lia).
  unfold find_hostID. rewrite Hv. cbn [fmap option_fmap option_map].
  f_equal. repeat case_bool_decide; try reflexivity.
  - exfalso. destruct H as [_ H]. injection H as H. contradiction.
  - exfalso. apply H. split; [exact Hkl|]. now f_equal.
Qed.

(** Host 0 of two, with the range [0,2) of the graph [1 -> 2 -> 3] and
    the lone node 0: the map gives the source 0, which has no edge, to
    host 1, and the source 1 to host 0. *)
Lemma inspect_counts_owned_sources_witness :
  (forall k, (k < length [[]; [2]])%nat ->
     exists v h, [1; 0] !! k = Some v /\
                 wrap32 v = Z.of_nat h /\ (h < 2)%nat) /\
  dsts_valid 4 [[]; [2]] /\
  exists st,
    inspect 2 4 [1; 0] [[]; [2]] = Some st /\
    (exists row, numOutgoingEdges st !! 1%nat = Some row /\
                 row !! 0%nat = Some 1) /\
    (exists row, numOutgoingEdges st !! 0%nat = Some row /\
                 row !! 0%nat = Some 0) /\
    (exists row, numOutgoingEdges st !! 0%nat = Some row /\
                 row !! 1%nat = Some 2) /\
    (exists row, numOutgoingEdges st !! 1%nat = Some row /\
                 row !! 1%nat = Some 0).
Proof.
  assert (Hmap : forall k, (k < length [[]; [2]])%nat ->
            exists v h, [1; 0] !! k = Some v /\
                        wrap32 v = Z.of_nat h /\ (h < 2)%nat).
  { intros k Hk. destruct k as [|[|k]]; simpl in Hk; try lia.
    - exists 1, 1%nat. split; [reflexivity|]. split; [reflexivity|lia].
    - exists 0, 0%nat. split; [reflexivity|]. split; [reflexivity|lia]. }
  assert (Hd : dsts_valid 4 [[]; [2]]).
  { intros k dsts d Hk Hin.
    destruct k as [|[|k]]; simpl in Hk; try discriminate;
      injection Hk as <-.
    - apply elem_of_nil in Hin. contradiction.
    - apply list_elem_of_singleton in Hin. lia. }
  assert (Hsz : forall k dsts, [[]; [2]] !! k = Some dsts ->
                  1 + Z.of_nat (length dsts) < 2 ^ 64).
  { intros k dsts Hk.
    destruct k as [|[|k]]; simpl in Hk; try discriminate;
      injection Hk as <-; simpl; lia. }
  split; [exact Hmap|]. split; [exact Hd|].
  destruct (inspect_counts_owned_sources 2 4 [1; 0] [[]; [2]] Hmap Hd Hsz)
    as [st [Hst Hrows]].
  exists st. split; [exact Hst|].
  split; [exact (Hrows 1%nat 0%nat 1 [] ltac:(lia) eq_refl eq_refl)|].
  split; [exact (Hrows 0%nat 0%nat 1 [] ltac:(lia) eq_refl eq_refl)|].
  split; [exact (Hrows 0%nat 1%nat 0 [2] ltac:(lia) eq_refl eq_refl)|].
  exact (Hrows 1%nat 1%nat 0 [2] ltac:(lia) eq_refl eq_refl).
Defined.

(** ** Phase 1: exchange *)

Lemma receive_loop_numOwned : forall rounds inbox ex,
  (rounds <= length inbox)%nat ->
  Forall (fun m => (from_host m < length (ex_numOutgoingEdges ex))%nat)
         (take rounds inbox) ->
  exists ex',
    receive_loop rounds inbox ex = Some ex' /\
    length (ex_numOutgoingEdges ex') = length (ex_numOutgoingEdges ex) /\
    ex_numOwned ex'
      = match rounds with
        | O => ex_numOwned ex
        | S _ => wrap64 (ex_numOwned ex + nodes_received (take rounds inbox))
        end.
Proof.
  induction rounds as [|rounds IH]; intros inbox ex Hlen Hfrom.
  - exists ex. simpl. repeat split; congruence.
  - destruct inbox as [|m inbox]; [simpl in Hlen; lia|].
    simpl in Hlen, Hfrom. apply Forall_cons in Hfrom as [Hm Hfrom].
    cbn [receive_loop]. unfold receive_one.
    replace (from_host m <? length (ex_numOutgoingEdges ex))%nat with true
      by (symmetry; apply Nat.ltb_lt; assumption).
    match goal with |- context [receive_loop rounds inbox ?e] =>
      destruct (IH inbox e) as [ex' (Hr & Hl & Ho)] end.
    + lia.
    + cbn [ex_numOutgoingEdges]. now rewrite length_insert.
    + exists ex'. cbn [ex_numOutgoingEdges ex_numOwned] in *.
      rewrite length_insert in Hl.
      split; [exact Hr|]. split; [exact Hl|].
      rewrite Ho. cbn [take nodes_received].
      destruct rounds as [|r].
      * simpl. f_equal; lia.
      * rewrite wrap64_add_l. f_equal; lia.
Qed.

(** C8, amended.  After the phase-1 exchange [numOwned] is the count
    reduced from this host's [num_assigned_nodes_perhost[id]] plus the
    node counts of the messages received, one from each peer (modulo
    2^64, the width of [numOwned]). *)
Theorem numOwned_after_exchange numHosts id st inbox own :
  length (numOutgoingEdges st) = numHosts ->
  num_assigned_nodes_perhost st !! id = Some own ->
  0 <= own < 2 ^ 64 ->
  (numHosts - 1 <= length inbox)%nat ->
  Forall (fun m => (from_host m < numHosts)%nat) (take (numHosts - 1) inbox) ->
  exists ex0 ex,
    exchange_init id st = Some ex0 /\
    receive_loop (numHosts - 1) inbox ex0 = Some ex /\
    ex_numOwned ex
      = wrap64 (own + nodes_received (take (numHosts - 1) inbox)).
Proof.
  intros Hrows Hown Hrange Hlen Hfrom.
  unfold exchange_init. rewrite Hown.
  set (e0 := {| ex_numOutgoingEdges := numOutgoingEdges st;
                ex_hasIncomingEdge := hasIncomingEdge st;
                num_total_edges_to_receive := 0;
                ex_numOwned := own |}).
  destruct (receive_loop_numOwned (numHosts - 1) inbox e0)
    as [ex (Hr & _ & Ho)].
  - assumption.
  - cbn [e0 ex_numOutgoingEdges]. rewrite Hrows. assumption.
  - exists e0, ex. split; [reflexivity|]. split; [exact Hr|].
    cbn [e0 ex_numOwned] in Ho. rewrite Ho.
    destruct (numHosts - 1)%nat; [|reflexivity].
    simpl. rewrite Z.add_0_r. symmetry. now apply wrap64_small.
Qed.

Lemma two_hosts_inspection0_eq :
  inspect 2 4 [0; 0] [[]; []] = Some two_hosts_inspection0.
Proof. reflexivity. Qed.

Lemma two_hosts_message10_eq :
  inspect 2 4 [0; 1] [[]; []] ≫= (fun st1 => message_for 1 st1 0)
    = Some two_hosts_message10.
Proof. reflexivity. Qed.

Lemma numOwned_after_exchange_witness :
  exists ex0 ex,
    exchange_init 0 two_hosts_inspection0 = Some ex0 /\
    receive_loop (2 - 1) [two_hosts_message10] ex0 = Some ex /\
    ex_numOwned ex
      = wrap64 (2 + nodes_received (take (2 - 1) [two_hosts_message10])).
Proof.
  apply (numOwned_after_exchange 2 0 two_hosts_inspection0
           [two_hosts_message10] 2).
  - reflexivity.
  - reflexivity.
  - lia.
  - simpl. lia.
  - repeat constructor.
Defined.

(** C8 as stated fails.  Two hosts with the ranges [0,2) and [2,4); the
    vertex-ID map gives the nodes 0, 1 and 2 to host 0.  Host 0 counts
    two nodes locally and is sent one more by host 1, so that after the
    exchange [numOwned] is 3 and not the local count 2. *)
Lemma numOwned_adds_received_counts :
  exists st m ex0 ex,
    inspect 2 4 [0; 0] [[]; []] = Some st /\
    inspect 2 4 [0; 1] [[]; []] ≫= (fun st1 => message_for 1 st1 0)
      = Some m /\
    exchange_init 0 st = Some ex0 /\
    receive_loop (2 - 1) [m] ex0 = Some ex /\
    num_assigned_nodes_perhost st !! 0%nat = Some 2 /\
    ex_numOwned ex = 3 /\
    Some (ex_numOwned ex) <> num_assigned_nodes_perhost st !! 0%nat.
Proof.
  exists two_hosts_inspection0, two_hosts_message10. eexists _, _.
  split; [reflexivity|]. split; [reflexivity|].
  split; [reflexivity|]. split; [reflexivity|].
  split; [reflexivity|]. split; [reflexivity|]. discriminate.
Qed.

(** ** Local id assignment *)

Lemma select_bounds flags : forall src g,
  g ∈ select src flags -> src <= g < src + Z.of_nat (length flags).
Proof.
  induction flags as [|b flags IH]; intros src g Hg; simpl in *.
  - inversion Hg.
  - destruct b.
    + apply elem_of_cons in Hg as [->|Hg]; [lia|].
      apply IH in Hg. lia.
    + apply IH in Hg. lia.
Qed.

Lemma select_elem flags : forall src g,
  g ∈ select src flags <->
  exists k, flags !! k = Some true /\ g = src + Z.of_nat k.
Proof.
  induction flags as [|b flags IH]; intros src g; simpl.
  - split; [intros H; inversion H | intros [k [H _]]; discriminate].
  - assert (Hrest : g ∈ select (src + 1) flags <->
                    exists k, (b :: flags) !! S k = Some true /\ g = src + Z.of_nat (S k)).
    { rewrite IH. split; intros [k [H1 H2]]; exists k; (split; [exact H1|lia]). }
    destruct b.
    + rewrite elem_of_cons, Hrest. split.
      * intros [->|[k Hk]]; [exists 0%nat; split; [reflexivity|lia] | eauto].
      * intros [[|k] [H1 H2]]; [left; lia | right; eauto].
    + rewrite Hrest. split.
      * intros [k Hk]; eauto.
      * intros [[|k] [H1 H2]]; [discriminate | eauto].
Qed.

Lemma select_sorted flags : forall src, StronglySorted Z.lt (select src flags).
Proof.
  induction flags as [|b flags IH]; intros src; simpl.
  - constructor.
  - destruct b; [|apply IH].
    constructor; [apply IH|].
    apply Forall_forall. intros g Hg. apply select_bounds in Hg. lia.
Qed.

Lemma select_app f1 f2 src :
  select src (f1 ++ f2) = select src f1 ++ select (src + Z.of_nat (length f1)) f2.
Proof.
  revert src. induction f1 as [|b f1 IH]; intros src; simpl.
  - now rewrite Z.add_0_r.
  - rewrite IH. replace (src + 1 + Z.of_nat (length f1))
      with (src + Z.pos (Pos.of_succ_nat (length f1))) by lia.
    now destruct b.
Qed.

Lemma select_length flags src : (length (select src flags) <= length flags)%nat.
Proof.
  revert src. induction flags as [|b flags IH]; intros src; simpl; [lia|].
  destruct b; simpl; specialize (IH (src + 1)); lia.
Qed.

(** Masters and ghosts are different nodes: together at most all. *)
Lemma masters_ghosts_length bits : forall cs a b,
  (length (select a (is_master <$> cs)) +
   length (select b (zip_with is_ghost bits cs)) <= length cs)%nat.
Proof.
  induction bits as [|x bits IH]; intros cs a b.
  - pose proof (select_length (is_master <$> cs) a) as H.
    rewrite length_fmap in H. simpl. lia.
  - destruct cs as [|c cs]; [simpl; lia|].
    specialize (IH cs (a + 1) (b + 1)).
    rewrite fmap_cons. cbn [zip_with select]. unfold is_ghost at 1.
    destruct (is_master c), x; cbn [andb negb select length]; lia.
Qed.

(** ** The invariant of the assignment *)

Lemma consistent_init owned : consistent (local_ids_init owned).
Proof.
  split; simpl; try reflexivity.
  intros g l. rewrite lookup_empty, lookup_nil. split; [discriminate|].
  intros [_ H]. discriminate.
Qed.

Lemma push_node_consistent g e s :
  consistent s ->
  g ∉ localToGlobalVector s ->
  Z.of_nat (length (localToGlobalVector s)) + 1 < 2 ^ 32 ->
  consistent (push_node g e s).
Proof.
  intros [Hn Hp Hm] Hfresh Hsz. split; simpl.
  - rewrite length_app, Hn. simpl. rewrite wrap32_small by lia. lia.
  - rewrite !length_app, Hp. reflexivity.
  - intros g' l. rewrite Hn.
    destruct (decide (g = g')) as [<-|Hne].
    + rewrite lookup_insert_eq. split.
      * intros [= <-]. split; [lia|].
        rewrite Nat2Z.id. apply list_lookup_middle. reflexivity.
      * intros [Hl Hlk]. f_equal.
        apply lookup_app_Some in Hlk as [Hlk|[Hge Hlk]].
        -- exfalso. apply Hfresh. eapply list_elem_of_lookup_2; eauto.
        -- apply list_lookup_singleton_Some in Hlk as [Hz _]. lia.
    + rewrite lookup_insert_ne by assumption. rewrite Hm. split.
      * intros [Hl Hlk]. split; [assumption|]. now apply lookup_app_l_Some.
      * intros [Hl Hlk]. split; [assumption|].
        apply lookup_app_Some in Hlk as [Hlk|[Hge Hlk]]; [assumption|].
        apply list_lookup_singleton_Some in Hlk as [_ Heq]. congruence.
Qed.

(** ** The owned pass *)

Lemma owned_pass_concat counters sx :
  foldl (fun sx row => foldl owned_visit sx row) sx counters
    = foldl owned_visit sx (concat counters).
Proof.
  revert sx. induction counters as [|row counters IH]; intros sx; simpl.
  - reflexivity.
  - now rewrite foldl_app, IH.
Qed.

Lemma owned_fold cs : forall s src,
  consistent s ->
  (forall g, g ∈ localToGlobalVector s -> g < src) ->
  0 <= src -> src + Z.of_nat (length cs) < 2 ^ 64 ->
  Z.of_nat (length (localToGlobalVector s)) + Z.of_nat (length cs) < 2 ^ 32 ->
  (forall c, c ∈ cs -> 0 <= c < 2 ^ 64) ->
  0 <= numEdges s -> numEdges s + edges_total cs < 2 ^ 64 ->
  exists s',
    foldl owned_visit (s, src) cs = (s', src + Z.of_nat (length cs)) /\
    consistent s' /\
    localToGlobalVector s'
      = localToGlobalVector s ++ select src (is_master <$> cs) /\
    prefixSumOfEdges s'
      = prefixSumOfEdges s ++ prefix_sums (numEdges s) cs /\
    numEdges s' = numEdges s + edges_total cs /\
    numOwned s' = numOwned s.
Proof.
  induction cs as [|c cs IH]; intros s src Hc Hlt Hsrc Hsrc' Hsz Hcs He He'.
  - exists s. simpl. rewrite Z.add_0_r, !app_nil_r, Z.add_0_r.
    split_all.
  - assert (Hcr : 0 <= c < 2 ^ 64) by (apply Hcs; left).
    assert (Htl : 0 <= edges_total cs).
    { clear -Hcs. induction cs as [|d cs IH]; simpl; [lia|].
      assert (0 <= edges_total cs) by (apply IH; intros; apply Hcs;
        apply elem_of_cons in H as [->|H]; [left|right; now right]).
      unfold is_master. destruct (Z.ltb_spec 0 d); lia. }
    cbn [foldl owned_visit length fmap list_fmap select prefix_sums edges_total] in *.
    rewrite (wrap64_small (src + 1)) by lia.
    unfold is_master in *. destruct (Z.ltb_spec 0 c) as [Hpos|Hzero].
    + rewrite (wrap64_small (c - 1)) by lia.
      rewrite (wrap64_small (numEdges s + (c - 1))) by lia.
      set (s1 := push_node src (numEdges s + (c - 1)) s).
      destruct (IH s1 (src + 1)) as [s' (Hf & Hc' & Hv & Hp & Hn & Ho)].
      * apply push_node_consistent; [assumption| |lia].
        intros Hin. apply Hlt in Hin. lia.
      * intros g Hg. simpl in Hg. apply elem_of_app in Hg as [Hg|Hg].
        -- apply Hlt in Hg. lia.
        -- apply list_elem_of_singleton in Hg. lia.
      * lia.
      * lia.
      * simpl. rewrite length_app. simpl. lia.
      * intros d Hd. apply Hcs. now right.
      * simpl. lia.
      * simpl. lia.
      * exists s'. rewrite Hf, Hv, Hp, Hn, Ho. simpl.
        rewrite <- !app_assoc. simpl.
        split_all.
    + destruct (IH s (src + 1)) as [s' (Hf & Hc' & Hv & Hp & Hn & Ho)];
        try assumption; try lia.
      * intros g Hg. apply Hlt in Hg. lia.
      * intros d Hd. apply Hcs. now right.
      * exists s'. rewrite Hf, Hv, Hp, Hn, Ho.
        split_all.
Qed.

(** ** The ghost pass *)

Lemma isOwned_masters s masters G (i : Z) :
  consistent s ->
  localToGlobalVector s = masters ++ G ->
  numOwned s = Z.of_nat (length masters) ->
  i ∉ G ->
  isOwned s i = bool_decide (i ∈ masters).
Proof.
  intros [_ _ Hm] Hv Ho HG. unfold isOwned, isLocal.
  destruct (globalToLocalMap s !! i) as [l|] eqn:Hl.
  - apply Hm in Hl as [Hl0 Hl]. rewrite Hv in Hl. simpl. rewrite Ho.
    apply lookup_app_Some in Hl as [Hl|[Hge Hl]].
    + pose proof (lookup_lt_Some _ _ _ Hl).
      rewrite bool_decide_eq_true_2 by (eapply list_elem_of_lookup_2; eauto).
      apply Z.ltb_lt. lia.
    + exfalso. apply HG. eapply list_elem_of_lookup_2; eauto.
  - simpl. symmetry. apply bool_decide_eq_false_2. intros Hin.
    apply list_elem_of_lookup_1 in Hin as [k Hk].
    assert (globalToLocalMap s !! i = Some (Z.of_nat k)) as Hc; [|congruence].
    apply Hm. split; [lia|]. rewrite Nat2Z.id, Hv.
    now apply lookup_app_l_Some.
Qed.

Lemma master_flag cs (i : nat) c :
  cs !! i = Some c ->
  bool_decide (Z.of_nat i ∈ select 0 (is_master <$> cs)) = is_master c.
Proof.
  intros Hc. destruct (is_master c) eqn:Hmc.
  - apply bool_decide_eq_true_2. apply select_elem. exists i.
    split; [|lia]. rewrite list_lookup_fmap, Hc. simpl. now rewrite Hmc.
  - apply bool_decide_eq_false_2. intros Hin.
    apply select_elem in Hin as [k [Hk Hik]].
    assert (k = i) by lia. subst k.
    rewrite list_lookup_fmap, Hc in Hk. simpl in Hk. congruence.
Qed.

Section ghost.
Variables (bits : list bool) (cs : list Z).
Hypothesis Hlen : length bits = length cs.

Local Abbreviation masters := (select 0 (is_master <$> cs)).
Local Abbreviation flags := (zip_with is_ghost bits cs).

Lemma ghost_fold : forall n i s G,
  (i + n = length cs)%nat ->
  consistent s ->
  localToGlobalVector s = masters ++ G ->
  numOwned s = Z.of_nat (length masters) ->
  (forall g, g ∈ G -> g < Z.of_nat i) ->
  Z.of_nat (length (localToGlobalVector s))
    + Z.of_nat (length (select (Z.of_nat i) (drop i flags))) < 2 ^ 32 ->
  exists s',
    ghost_pass bits i n s = Some s' /\
    consistent s' /\
    localToGlobalVector s'
      = localToGlobalVector s ++ select (Z.of_nat i) (drop i flags) /\
    prefixSumOfEdges s'
      = prefixSumOfEdges s
        ++ replicate (length (select (Z.of_nat i) (drop i flags))) (numEdges s) /\
    numEdges s' = numEdges s /\
    numOwned s' = numOwned s.
Proof.
  induction n as [|n IH]; intros i s G Hin Hc Hv Ho HG Hsz.
  - exists s. simpl.
    assert (drop i flags = []) as ->.
    { apply drop_ge. rewrite length_zip_with. lia. }
    simpl. rewrite !app_nil_r.
    split_all.
  - destruct (bits !! i) as [b|] eqn:Hb.
    2:{ apply lookup_ge_None in Hb. lia. }
    destruct (cs !! i) as [c|] eqn:Hci.
    2:{ apply lookup_ge_None in Hci. lia. }
    assert (Hfl : flags !! i = Some (is_ghost b c)).
    { rewrite lookup_zip_with, Hb. simpl. now rewrite Hci. }
    assert (Hdrop : drop i flags = is_ghost b c :: drop (S i) flags).
    { now apply drop_S. }
    assert (HiG : Z.of_nat i ∉ G).
    { intros Hi. apply HG in Hi. lia. }
    cbn [ghost_pass]. unfold ghost_visit. rewrite Hb.
    rewrite (isOwned_masters s masters G _ Hc Hv Ho HiG).
    pose proof (master_flag cs i c Hci) as Hmf.
    rewrite Hmf.
    fold (is_ghost b c). rewrite Hdrop in *. cbn [select] in *.
    destruct (is_ghost b c) eqn:Hg.
    + set (s1 := push_node (Z.of_nat i) (numEdges s) s).
      cbn [length] in Hsz.
      destruct (IH (S i) s1 (G ++ [Z.of_nat i]))
        as [s' (Hf & Hc' & Hv' & Hp & Hn & Ho')].
      * lia.
      * apply push_node_consistent; [assumption| |lia].
        rewrite Hv. intros Hi. apply elem_of_app in Hi as [Hi|Hi]; [|tauto].
        unfold is_ghost in Hg. apply andb_true_iff in Hg as [_ Hg].
        rewrite bool_decide_eq_true_2 in Hmf by assumption.
        rewrite <- Hmf in Hg. discriminate.
      * simpl. rewrite Hv, <- app_assoc. reflexivity.
      * assumption.
      * intros g Hg'. apply elem_of_app in Hg' as [Hg'|Hg'].
        -- apply HG in Hg'. lia.
        -- apply list_elem_of_singleton in Hg'. lia.
      * simpl. rewrite length_app. simpl.
        replace (Z.of_nat (S i)) with (Z.of_nat i + 1) by lia. lia.
      * exists s'. rewrite Hf, Hv', Hp, Hn, Ho'. simpl.
        replace (Z.of_nat i + 1) with (Z.of_nat (S i)) by lia.
        rewrite <- !app_assoc. simpl.
        replace (Z.pos (Pos.of_succ_nat i)) with (Z.of_nat (S i)) by lia.
        split_all.
    + replace (Z.of_nat i + 1) with (Z.of_nat (S i)) in * by lia.
      destruct (IH (S i) s G) as [s' (Hf & Hc' & Hv' & Hp & Hn & Ho')];
        try assumption; try lia.
      * intros g Hg'. apply HG in Hg'. lia.
      * exists s'.
        split_all.
Qed.

End ghost.

Lemma edges_total_nonneg cs :
  (forall c, c ∈ cs -> 0 <= c) -> 0 <= edges_total cs.
Proof.
  induction cs as [|c cs IH]; intros Hcs; simpl; [lia|].
  assert (0 <= edges_total cs) by (apply IH; intros; apply Hcs; now right).
  unfold is_master. destruct (Z.ltb_spec 0 c); lia.
Qed.



Lemma prefix_sums_length cs e :
  length (prefix_sums e cs) = length (select 0 (is_master <$> cs)).
Proof.
  generalize 0. revert e.
  induction cs as [|c cs IH]; intros e z; simpl; [reflexivity|].
  destruct (is_master c); simpl; now rewrite (IH _ (z + 1)).
Qed.

Lemma prefix_sums_nil cs : forall e,
  prefix_sums e cs = [] -> edges_total cs = 0.
Proof.
  induction cs as [|d cs IH]; intros e Hp; cbn [prefix_sums edges_total] in *.
  - reflexivity.
  - destruct (is_master d); [discriminate|]. rewrite (IH e Hp). lia.
Qed.

Lemma prefix_sums_last cs : forall e,
  prefix_sums e cs <> [] ->
  last (prefix_sums e cs) = Some (e + edges_total cs).
Proof.
  induction cs as [|c cs IH]; intros e Hne;
    cbn [prefix_sums edges_total] in *; [congruence|].
  destruct (is_master c).
  - destruct (prefix_sums (e + (c - 1)) cs) eqn:Hp.
    + apply prefix_sums_nil in Hp. simpl. f_equal; lia.
    + rewrite last_cons, <- Hp, IH by (rewrite Hp; discriminate).
      f_equal; lia.
  - rewrite IH by assumption. f_equal; lia.
Qed.

Section assigned.
Variables (counters : list (list Z)) (bits : list bool) (owned : Z) (N : nat).

Local Abbreviation cs := (concat counters).
Local Abbreviation masters := (select 0 (is_master <$> cs)).
Local Abbreviation ghosts := (select 0 (zip_with is_ghost bits cs)).

Hypothesis Hcs : length cs = N.
Hypothesis Hbits : length bits = N.
Hypothesis HN : Z.of_nat N < 2 ^ 32.
Hypothesis Hrange : forall c, c ∈ cs -> 0 <= c < 2 ^ 64.
Hypothesis Hedges : edges_total cs < 2 ^ 64.
Hypothesis Howned : owned = Z.of_nat (length masters).

Lemma assign_local_ids_spec :
  exists s,
    assign_local_ids counters bits owned N = Some s /\
    consistent s /\
    localToGlobalVector s = masters ++ ghosts /\
    prefixSumOfEdges s
      = prefix_sums 0 cs ++ replicate (length ghosts) (edges_total cs) /\
    numEdges s = edges_total cs /\
    numOwned s = owned.
Proof.
  unfold assign_local_ids, owned_pass. rewrite owned_pass_concat.
  pose proof (edges_total_nonneg cs ltac:(intros c Hc; apply Hrange in Hc; lia))
    as Hnn.
  destruct (owned_fold cs (local_ids_init owned) 0)
    as [s1 (Hf & Hc1 & Hv1 & Hp1 & Hn1 & Ho1)];
    cbn [local_ids_init localToGlobalVector prefixSumOfEdges numEdges
         numOwned length] in *; try lia; try assumption.
  - apply consistent_init.
  - intros g Hg. inversion Hg.
  - rewrite Hf. cbn [fst]. rewrite app_nil_l, ?Z.add_0_l in *.
    pose proof (masters_ghosts_length bits cs 0 0) as Hmg.
    destruct (ghost_fold bits cs ltac:(lia) N 0%nat s1 [])
      as [s' (Hg & Hc' & Hv' & Hp' & Hn' & Ho')].
    + lia.
    + assumption.
    + now rewrite app_nil_r.
    + congruence.
    + intros g Hg. inversion Hg.
    + rewrite Hv1, drop_0. change (Z.of_nat 0) with 0. lia.
    + rewrite drop_0 in *. change (Z.of_nat 0) with 0 in *.
      exists s'. rewrite Hg, Hv', Hp', Hn', Ho', Hv1, Hp1, Hn1, Ho1.
      split_all.
Qed.

End assigned.

Lemma assignable_spec counters bits owned N :
  assignable counters bits owned N ->
  exists s,
    assign_local_ids counters bits owned N = Some s /\
    consistent s /\
    localToGlobalVector s
      = select 0 (is_master <$> concat counters)
        ++ select 0 (zip_with is_ghost bits (concat counters)) /\
    prefixSumOfEdges s
      = prefix_sums 0 (concat counters)
        ++ replicate (length (select 0 (zip_with is_ghost bits (concat counters))))
                     (edges_total (concat counters)) /\
    numEdges s = edges_total (concat counters) /\
    numOwned s = owned.
Proof.
  intros [H1 H2 H3 H4 H5 H6].
  apply (assign_local_ids_spec counters bits owned N); try assumption.
  intros c Hc. rewrite Forall_forall in H4. now apply H4.
Qed.




Lemma masters_elem cs g :
  Forall (fun c => 0 <= c < 2 ^ 64) cs ->
  g ∈ select 0 (is_master <$> cs) <->
  0 <= g /\ exists c, cs !! Z.to_nat g = Some c /\ c <> 0.
Proof.
  intros Hr. rewrite Forall_forall in Hr. rewrite select_elem. split.
  - intros [k [Hk ->]]. split; [lia|].
    rewrite list_lookup_fmap in Hk. apply fmap_Some in Hk as [c [Hc Hm]].
    exists c. rewrite Z.add_0_l, Nat2Z.id. split; [assumption|].
    unfold is_master in Hm. symmetry in Hm. apply Z.ltb_lt in Hm. lia.
  - intros [Hg [c [Hc Hne]]]. exists (Z.to_nat g). split; [|lia].
    rewrite list_lookup_fmap, Hc. simpl. f_equal. apply Z.ltb_lt.
    apply list_elem_of_lookup_2, Hr in Hc. lia.
Qed.

Lemma ghosts_elem bits cs g :
  Forall (fun c => 0 <= c < 2 ^ 64) cs ->
  g ∈ select 0 (zip_with is_ghost bits cs) <->
  0 <= g /\ bits !! Z.to_nat g = Some true /\ cs !! Z.to_nat g = Some 0.
Proof.
  intros Hr. rewrite Forall_forall in Hr. rewrite select_elem. split.
  - intros [k [Hk ->]]. split; [lia|]. rewrite Z.add_0_l, Nat2Z.id.
    apply lookup_zip_with_Some in Hk as (b & c & Hg & Hb & Hc).
    unfold is_ghost, is_master in Hg. symmetry in Hg.
    apply andb_true_iff in Hg as [-> Hg]. apply negb_true_iff, Z.ltb_ge in Hg.
    split; [assumption|].
    pose proof (Hr c ltac:(eapply list_elem_of_lookup_2; eauto)).
    replace c with 0 in Hc by lia. assumption.
  - intros (Hg & Hb & Hc). exists (Z.to_nat g). split; [|lia].
    apply lookup_zip_with_Some. exists true, 0. repeat split; assumption.
Qed.





(** ** From phase 1 to the local id assignment *)

Lemma sum_over_perm f l1 l2 : l1 ≡ₚ l2 -> sum_over f l1 = sum_over f l2.
Proof.
  induction 1; simpl; try lia.
Qed.

Lemma sum_over_ext f g l :
  (forall p, p ∈ l -> f p = g p) -> sum_over f l = sum_over g l.
Proof.
  induction l as [|p l IH]; intros H; simpl; [reflexivity|].
  rewrite (H p) by left. rewrite IH; [reflexivity|].
  intros q Hq. apply H. now right.
Qed.

Lemma sum_over_le f g l :
  (forall p, p ∈ l -> f p <= g p) -> sum_over f l <= sum_over g l.
Proof.
  induction l as [|p l IH]; intros H; simpl; [lia|].
  pose proof (H p ltac:(left)).
  assert (sum_over f l <= sum_over g l) by (apply IH; intros; apply H; now right).
  lia.
Qed.

Lemma select_length_shift flags : forall a b,
  length (select a flags) = length (select b flags).
Proof.
  induction flags as [|x flags IH]; intros a b; simpl; [reflexivity|].
  destruct x; simpl; now rewrite (IH (a + 1) (b + 1)).
Qed.

Lemma count_masters_app r1 r2 :
  count_masters (r1 ++ r2) = count_masters r1 + count_masters r2.
Proof.
  unfold count_masters. rewrite fmap_app, select_app, length_app.
  rewrite (select_length_shift (is_master <$> r2) _ 0). lia.
Qed.

Lemma count_masters_concat (R : nat -> list Z) l :
  count_masters (concat (R <$> l)) = sum_over (fun p => count_masters (R p)) l.
Proof.
  induction l as [|p l IH]; [reflexivity|].
  rewrite fmap_cons.
  change (concat (R p :: (R <$> l))) with (R p ++ concat (R <$> l)).
  cbn [sum_over]. now rewrite count_masters_app, IH.
Qed.

Lemma edges_total_app r1 r2 :
  edges_total (r1 ++ r2) = edges_total r1 + edges_total r2.
Proof. induction r1 as [|c r1 IH]; simpl; [reflexivity|]. rewrite IH. lia. Qed.

Lemma edges_total_concat (R : nat -> list Z) l :
  edges_total (concat (R <$> l)) = sum_over (fun p => edges_total (R p)) l.
Proof.
  induction l as [|p l IH]; [reflexivity|].
  rewrite fmap_cons.
  change (concat (R p :: (R <$> l))) with (R p ++ concat (R <$> l)).
  cbn [sum_over]. now rewrite edges_total_app, IH.
Qed.

Lemma length_concat_sum {A} (R : nat -> list A) l :
  Z.of_nat (length (concat (R <$> l)))
    = sum_over (fun p => Z.of_nat (length (R p))) l.
Proof.
  induction l as [|p l IH]; [reflexivity|].
  rewrite fmap_cons.
  change (concat (R p :: (R <$> l))) with (R p ++ concat (R <$> l)).
  cbn [sum_over]. rewrite length_app, Nat2Z.inj_add, IH. reflexivity.
Qed.

Lemma filter_seq_none me : forall k a,
  (forall p, p ∈ seq a k -> p <> me) ->
  filter (fun p => p = me) (seq a k) = [].
Proof.
  induction k as [|k IH]; intros a H; [reflexivity|].
  simpl. rewrite filter_cons, decide_False by (apply H; left).
  apply IH. intros p Hp. apply H. now right.
Qed.

Lemma filter_seq_one n me :
  (me < n)%nat -> filter (fun p => p = me) (seq 0 n) = [me].
Proof.
  intros Hme.
  replace n with (me + (1 + (n - me - 1)))%nat by lia.
  rewrite !seq_app, !filter_app. simpl.
  rewrite filter_cons, decide_True, filter_nil by reflexivity.
  rewrite !filter_seq_none; [reflexivity| |].
  - intros p Hp. apply elem_of_seq in Hp. lia.
  - intros p Hp. apply elem_of_seq in Hp. lia.
Qed.

Lemma seq_peers n me :
  (me < n)%nat -> seq 0 n ≡ₚ me :: peers n me.
Proof.
  intros Hme. unfold peers.
  transitivity (filter (fun p => p = me) (seq 0 n)
                ++ filter (fun p => p <> me) (seq 0 n)).
  - symmetry. apply filter_app_complement.
  - rewrite filter_seq_one by assumption. reflexivity.
Qed.

Lemma elem_of_peers n me p : p ∈ peers n me <-> (p < n)%nat /\ p <> me.
Proof.
  unfold peers. rewrite list_elem_of_filter, elem_of_seq. intuition lia.
Qed.

Lemma length_concat_lookup {A} (ls : list (list A)) j l :
  ls !! j = Some l -> (length l <= length (concat ls))%nat.
Proof.
  revert j. induction ls as [|x ls IH]; intros j Hj; [discriminate|].
  simpl. rewrite length_app. destruct j as [|j]; simpl in Hj.
  - injection Hj as ->. lia.
  - apply IH in Hj. lia.
Qed.

Lemma concat_take_S {A} (ls : list (list A)) k l :
  ls !! k = Some l -> concat (take (S k) ls) = concat (take k ls) ++ l.
Proof.
  intros Hk. rewrite (take_S_r _ _ _ Hk), concat_app. simpl.
  now rewrite app_nil_r.
Qed.

Lemma length_concat_take {A} (ls : list (list A)) k :
  (length (concat (take k ls)) <= length (concat ls))%nat.
Proof.
  rewrite <- (take_drop k ls) at 2. rewrite concat_app, length_app. lia.
Qed.

Section row_facts.
Variables (numHosts N : nat) (vertexIDMap : list Z) (edges : list (list Z)).
Variables (st : Inspection) (me : nat) (row : list Z).
Hypothesis Hinsp : inspected numHosts N vertexIDMap edges (length edges) st.
Hypothesis Hvalid : hosts_valid numHosts vertexIDMap edges.
Hypothesis Hme : (me < numHosts)%nat.
Hypothesis Hsize : Z.of_nat (length (concat edges)) + 1 < 2 ^ 64.
Hypothesis Hrow : numOutgoingEdges st !! me = Some row.

Lemma row_entry j dsts :
  edges !! j = Some dsts ->
  exists v, vertexIDMap !! j = Some v /\
    row !! j = Some (if decide (wrap32 v = Z.of_nat me)
                     then 1 + Z.of_nat (length dsts) else 0).
Proof.
  intros Hj. pose proof (lookup_lt_Some _ _ _ Hj) as Hlt.
  destruct (Hvalid j Hlt) as [h [Hf _]].
  unfold find_hostID in Hf. apply fmap_Some in Hf as [v [Hv Hh]].
  exists v. split; [exact Hv|].
  destruct (insp_row _ _ _ _ _ _ Hinsp me row Hrow) as [_ Hentry].
  rewrite (Hentry j dsts Hj).
  pose proof (length_concat_lookup edges j dsts Hj).
  rewrite wrap64_small by lia.
  unfold find_hostID. rewrite Hv. simpl.
  destruct (decide (wrap32 v = Z.of_nat me)) as [He|Hne].
  - rewrite bool_decide_eq_true_2; [reflexivity|]. split; [lia|congruence].
  - rewrite bool_decide_eq_false_2; [reflexivity|]. intros [_ [=]]. congruence.
Qed.

Lemma row_length : length row = length edges.
Proof. now destruct (insp_row _ _ _ _ _ _ Hinsp me row Hrow). Qed.

Lemma row_prefix_facts k :
  (k <= length edges)%nat ->
  length (select 0 (is_master <$> take k row))
    = assigned_below vertexIDMap me k /\
  Forall (fun c => 0 <= c < 2 ^ 64) (take k row) /\
  0 <= edges_total (take k row)
    <= Z.of_nat (length (concat (take k edges))).
Proof.
  induction k as [|k IH]; intros Hk.
  - simpl. unfold assigned_below. simpl. repeat split; try constructor; lia.
  - destruct IH as (IH1 & IH2 & IH3); [lia|].
    destruct (edges !! k) as [dsts|] eqn:Hd.
    2:{ apply lookup_ge_None in Hd. lia. }
    destruct (row_entry k dsts Hd) as [v [Hv Hc]].
    pose proof (length_concat_lookup edges k dsts Hd) as Hle.
    rewrite (take_S_r _ _ _ Hc), (concat_take_S _ _ _ Hd).
    rewrite fmap_app, select_app, !length_app, edges_total_app.
    rewrite (assigned_below_S vertexIDMap me k v Hv), IH1.
    split; [|split].
    + f_equal. simpl. unfold is_master.
      destruct (decide (wrap32 v = Z.of_nat me)); simpl.
      * destruct (Z.ltb_spec 0 (1 + Z.of_nat (length dsts))); [reflexivity|lia].
      * reflexivity.
    + apply Forall_app. split; [exact IH2|].
      constructor; [|constructor].
      destruct (decide (wrap32 v = Z.of_nat me)); lia.
    + simpl. unfold is_master.
      destruct (decide (wrap32 v = Z.of_nat me)); simpl.
      * destruct (Z.ltb_spec 0 (1 + Z.of_nat (length dsts))); lia.
      * lia.
Qed.

Lemma row_facts :
  Z.of_nat (length edges) < 2 ^ 32 ->
  length row = length edges /\
  num_assigned_nodes_perhost st !! me = Some (count_masters row) /\
  0 <= count_masters row /\
  Forall (fun c => 0 <= c < 2 ^ 64) row /\
  0 <= edges_total row <= Z.of_nat (length (concat edges)).
Proof.
  intros Hn. pose proof row_length as Hl.
  destruct (row_prefix_facts (length edges) ltac:(lia)) as (H1 & H2 & H3).
  rewrite (take_ge row) in H1, H2, H3 by lia.
  rewrite (take_ge edges) in H3 by lia.
  split; [exact Hl|]. unfold count_masters. rewrite H1.
  split; [|split; [lia|split; assumption]].
  rewrite (insp_nodes _ _ _ _ _ _ Hinsp me Hme). f_equal.
  apply wrap32_small.
  pose proof (length_filter (fun v => wrap32 v = Z.of_nat me)
                (take (length edges) vertexIDMap)) as Hf.
  rewrite length_take in Hf. unfold assigned_below. lia.
Qed.

End row_facts.

Lemma receive_loop_all R B C : forall order inbox ex,
  Forall2 (carries R B C) order inbox ->
  Forall (fun p => (p < length (ex_numOutgoingEdges ex))%nat) order ->
  length (ex_hasIncomingEdge ex) = length (ex_numOutgoingEdges ex) ->
  exists ex',
    receive_loop (length order) inbox ex = Some ex' /\
    length (ex_numOutgoingEdges ex') = length (ex_numOutgoingEdges ex) /\
    length (ex_hasIncomingEdge ex') = length (ex_hasIncomingEdge ex) /\
    (forall p, ex_numOutgoingEdges ex' !! p
               = if bool_decide (p ∈ order) then Some (R p)
                 else ex_numOutgoingEdges ex !! p) /\
    (forall p, ex_hasIncomingEdge ex' !! p
               = if bool_decide (p ∈ order) then Some (B p)
                 else ex_hasIncomingEdge ex !! p).
Proof.
  intros order inbox ex H. revert ex.
  induction H as [|p m order inbox (Hp & _ & HR & HB) _ IH]; intros ex Hlt Hlen.
  - exists ex. simpl. repeat split; reflexivity.
  - apply Forall_cons in Hlt as [Hplt Hlt].
    cbn [length receive_loop]. unfold receive_one. rewrite Hp, HR, HB.
    replace (p <? length (ex_numOutgoingEdges ex))%nat with true
      by (symmetry; apply Nat.ltb_lt; assumption).
    match goal with |- context [receive_loop _ inbox ?e] =>
      destruct (IH e) as [ex' (Hr & Hl1 & Hl2 & Hrows & Hbits)] end.
    + cbn [ex_numOutgoingEdges]. now rewrite length_insert.
    + cbn [ex_numOutgoingEdges ex_hasIncomingEdge].
      now rewrite !length_insert.
    + cbn [ex_numOutgoingEdges ex_hasIncomingEdge] in *.
      exists ex'. split; [exact Hr|].
      split; [rewrite Hl1; apply length_insert|].
      split; [rewrite Hl2; apply length_insert|].
      split; intros q; [rewrite Hrows|rewrite Hbits];
        destruct (decide (q ∈ order)) as [Hq|Hq].
      * rewrite !bool_decide_eq_true_2; [reflexivity|now right|assumption].
      * rewrite (bool_decide_eq_false_2 _ Hq).
        destruct (decide (q = p)) as [->|Hne].
        -- rewrite bool_decide_eq_true_2 by left.
           now apply list_lookup_insert_eq.
        -- rewrite bool_decide_eq_false_2
             by (intros Hin; apply elem_of_cons in Hin as [?|?]; tauto).
           now apply list_lookup_insert_ne.
      * rewrite !bool_decide_eq_true_2; [reflexivity|now right|assumption].
      * rewrite (bool_decide_eq_false_2 _ Hq).
        destruct (decide (q = p)) as [->|Hne].
        -- rewrite bool_decide_eq_true_2 by left.
           apply list_lookup_insert_eq. lia.
        -- rewrite bool_decide_eq_false_2
             by (intros Hin; apply elem_of_cons in Hin as [?|?]; tauto).
           now apply list_lookup_insert_ne.
Qed.

Lemma nodes_received_carries R B C order inbox :
  Forall2 (carries R B C) order inbox ->
  nodes_received inbox = sum_over C order.
Proof.
  induction 1 as [|p m order inbox (_ & Hc & _) _ IH]; simpl; [reflexivity|].
  now rewrite Hc, IH.
Qed.

Lemma merge_incoming_length id : forall others x0 mine,
  Forall (fun b => length b = length mine) others ->
  exists bits, merge_incoming id x0 others mine = Some bits /\
               length bits = length mine.
Proof.
  induction others as [|b others IH]; intros x0 mine Hall; simpl.
  - eauto.
  - apply Forall_cons in Hall as [Hb Hall].
    destruct (x0 =? id)%nat; [now apply IH|].
    unfold bitwise_or.
    replace (length mine =? length b)%nat with true
      by (symmetry; apply Nat.eqb_eq; lia).
    destruct (IH (S x0) (zip_with orb mine b)) as [bits [H1 H2]].
    + rewrite length_zip_with, Hb, Nat.min_id.
      eapply Forall_impl; [exact Hall|]. simpl. intros; lia.
    + exists bits. split; [exact H1|].
      rewrite H2, length_zip_with. lia.
Qed.

Lemma length_concat_concat_sum (E : nat -> list (list Z)) l :
  Z.of_nat (length (concat (concat (E <$> l))))
    = sum_over (fun p => Z.of_nat (length (concat (E p)))) l.
Proof.
  induction l as [|p l IH]; [reflexivity|].
  rewrite fmap_cons.
  change (concat (E p :: (E <$> l))) with (E p ++ concat (E <$> l)).
  cbn [sum_over]. rewrite concat_app, length_app, Nat2Z.inj_add, IH.
  reflexivity.
Qed.

Lemma fmap_seq_lookup {A} (f : nat -> A) (l : list A) :
  (forall p, (p < length l)%nat -> l !! p = Some (f p)) ->
  l = f <$> seq 0 (length l).
Proof.
  intros H. apply list_eq. intros i.
  rewrite list_lookup_fmap.
  destruct (decide (i < length l)%nat) as [Hlt|Hge].
  - rewrite (H i Hlt), lookup_seq_lt by assumption. reflexivity.
  - rewrite lookup_ge_None_2 by lia.
    rewrite lookup_seq_ge by lia. reflexivity.
Qed.

Lemma edges_of_hosts (hosts : list HostRange) :
  range_edges <$> hosts = edges_of hosts <$> seq 0 (length hosts).
Proof.
  rewrite <- (length_fmap range_edges hosts).
  apply fmap_seq_lookup. intros p Hp. rewrite length_fmap in Hp.
  unfold edges_of. rewrite list_lookup_fmap.
  destruct (hosts !! p) eqn:Hh; [reflexivity|].
  apply lookup_ge_None in Hh. lia.
Qed.

Section cluster.
Variables (hosts : list HostRange) (N me : nat).
Hypothesis Hok : cluster_ok hosts N.
Hypothesis Hme : (me < length hosts)%nat.

Lemma range_sizes p r :
  hosts !! p = Some r ->
  Z.of_nat (length (range_edges r)) < 2 ^ 32 /\
  Z.of_nat (length (concat (range_edges r))) + 1 < 2 ^ 64.
Proof.
  intros Hp. destruct Hok as [Hc Hn He _ _].
  assert ((range_edges <$> hosts) !! p = Some (range_edges r)) as Hl
    by (rewrite list_lookup_fmap, Hp; reflexivity).
  pose proof (length_concat_lookup _ _ _ Hl).
  assert ((@concat Z <$> (range_edges <$> hosts)) !! p
          = Some (concat (range_edges r))) as Hl2
    by (rewrite list_lookup_fmap, Hl; reflexivity).
  pose proof (length_concat_lookup _ _ _ Hl2) as Hcc.
  assert (concat (@concat Z <$> (range_edges <$> hosts))
          = concat (concat (range_edges <$> hosts))) as Heq.
  { generalize (range_edges <$> hosts). intros L.
    induction L as [|x L IH]; [reflexivity|].
    rewrite fmap_cons.
    change (concat (x :: L)) with (x ++ concat L).
    change (concat (concat x :: (concat (A:=Z) <$> L)))
      with (concat x ++ concat (concat (A:=Z) <$> L)).
    rewrite concat_app, IH. reflexivity. }
  rewrite Heq in Hcc. lia.
Qed.

Lemma host_facts p :
  (p < length hosts)%nat ->
  exists r,
    hosts !! p = Some r /\
    inspect (length hosts) N (range_vertexIDMap r) (range_edges r)
      = Some (state_of hosts N p) /\
    edges_of hosts p = range_edges r /\
    numOutgoingEdges (state_of hosts N p) !! me
      = Some (counters_from hosts N me p) /\
    hasIncomingEdge (state_of hosts N p) !! me
      = Some (bitset_from hosts N me p) /\
    num_assigned_nodes_perhost (state_of hosts N p) !! me
      = Some (nodes_from hosts N me p) /\
    is_Some (num_assigned_edges_perhost (state_of hosts N p) !! me) /\
    length (numOutgoingEdges (state_of hosts N p)) = length hosts /\
    length (hasIncomingEdge (state_of hosts N p)) = length hosts /\
    length (counters_from hosts N me p) = length (range_edges r) /\
    length (bitset_from hosts N me p) = N /\
    nodes_from hosts N me p = count_masters (counters_from hosts N me p) /\
    0 <= nodes_from hosts N me p /\
    Forall (fun c => 0 <= c < 2 ^ 64) (counters_from hosts N me p) /\
    0 <= edges_total (counters_from hosts N me p)
      <= Z.of_nat (length (concat (range_edges r))).
Proof.
  intros Hp. destruct (hosts !! p) as [r|] eqn:Hr.
  2:{ apply lookup_ge_None in Hr. lia. }
  exists r. split; [reflexivity|].
  pose proof Hok as [_ _ _ Hv Hd]. rewrite Forall_lookup in Hv, Hd.
  specialize (Hv p r Hr). specialize (Hd p r Hr).
  destruct (inspect_inspected _ _ _ _ Hv Hd) as [st [Hst Hinsp]].
  assert (state_of hosts N p = st) as Hso.
  { unfold state_of, inspection_of. rewrite Hr. simpl. now rewrite Hst. }
  rewrite Hso. split; [exact Hst|].
  split; [unfold edges_of; now rewrite Hr|].
  pose proof Hinsp as [Hrows Hbs Hea Hbsz _ _].
  destruct (numOutgoingEdges st !! me) as [row|] eqn:Hrow.
  2:{ apply lookup_ge_None in Hrow. lia. }
  destruct (hasIncomingEdge st !! me) as [bits|] eqn:Hbits.
  2:{ apply lookup_ge_None in Hbits. lia. }
  destruct (range_sizes p r Hr) as [Hs1 Hs2].
  destruct (row_facts _ _ _ _ st me row Hinsp Hv Hme Hs2 Hrow Hs1)
    as (F1 & F2 & F3 & F4 & F5).
  unfold counters_from, bitset_from, nodes_from.
  rewrite Hso, Hrow, Hbits, F2. simpl.
  split; [reflexivity|]. split; [reflexivity|]. split; [reflexivity|].
  split; [apply lookup_lt_is_Some; lia|].
  split; [exact Hrows|]. split; [exact Hbs|]. split; [exact F1|].
  split; [exact (Hbsz me bits Hbits)|].
  split; [reflexivity|]. split; [exact F3|]. split; [exact F4|exact F5].
Qed.

Lemma message_carries p m :
  (p < length hosts)%nat ->
  message_from hosts N me p = Some m ->
  carries (counters_from hosts N me) (bitset_from hosts N me)
          (nodes_from hosts N me) p m.
Proof.
  intros Hp Hm.
  destruct (host_facts p Hp) as (r & Hr & Hst & _ & H1 & H2 & H3 & [e H4] & _).
  unfold message_from, inspection_of in Hm. rewrite Hr in Hm. simpl in Hm.
  rewrite Hst in Hm. simpl in Hm. unfold message_for in Hm.
  rewrite H1, H2, H3, H4 in Hm. injection Hm as <-.
  repeat split.
Qed.

End cluster.

Lemma Forall_concat_fmap {A} (P : A -> Prop) (R : nat -> list A) l :
  (forall p, p ∈ l -> Forall P (R p)) -> Forall P (concat (R <$> l)).
Proof.
  induction l as [|p l IH]; intros H; [constructor|].
  rewrite fmap_cons.
  change (concat (R p :: (R <$> l))) with (R p ++ concat (R <$> l)).
  apply Forall_app. split; [apply H; left|].
  apply IH. intros q Hq. apply H. now right.
Qed.

Lemma sum_over_nonneg f l :
  (forall p, p ∈ l -> 0 <= f p) -> 0 <= sum_over f l.
Proof.
  induction l as [|p l IH]; intros H; simpl; [lia|].
  pose proof (H p ltac:(left)).
  assert (0 <= sum_over f l) by (apply IH; intros; apply H; now right). lia.
Qed.

Lemma count_masters_le row : count_masters row <= Z.of_nat (length row).
Proof.
  unfold count_masters.
  pose proof (select_length (is_master <$> row) 0) as H.
  rewrite length_fmap in H. lia.
Qed.

Lemma Forall2_impl_elem {A B} (P Q : A -> B -> Prop) l k :
  Forall2 P l k ->
  (forall x y, x ∈ l -> P x y -> Q x y) ->
  Forall2 Q l k.
Proof.
  induction 1 as [|x y l k Hxy _ IH]; intros H; constructor.
  - apply H; [left|assumption].
  - apply IH. intros a b Ha. apply H. now right.
Qed.

(** Phase 1 on the host [me] of a cluster that is [cluster_ok], with
    the message of every peer delivered once and in any order: the local
    id assignment is run on the counters and on the merged bitsets that
    the hosts' inspections hold for [me]. *)
Lemma phase1_run hosts N me r order inbox :
  cluster_ok hosts N ->
  hosts !! me = Some r ->
  order ≡ₚ peers (length hosts) me ->
  Forall2 (fun p m => message_from hosts N me p = Some m) order inbox ->
  exists counters bits owned,
    (assignable counters bits owned N /\
     assign_edges_phase1 (length hosts) N me
         (range_vertexIDMap r) (range_edges r) inbox
       = assign_local_ids counters bits owned N) /\
    counters = counters_from hosts N me <$> seq 0 (length hosts) /\
    merge_incoming me 0 (bitset_from hosts N me <$> seq 0 (length hosts))
                   (bitset_from hosts N me me) = Some bits.
Proof.
  intros Hok Hr Hperm Hmsgs.
  pose proof (lookup_lt_Some _ _ _ Hr) as Hme.
  set (n := length hosts) in *.
  set (R := counters_from hosts N me).
  set (B := bitset_from hosts N me).
  set (C := nodes_from hosts N me).
  pose proof (host_facts hosts N me Hok Hme) as HF. fold n R B C in HF.
  (* the peers' messages *)
  assert (Hin : forall p, p ∈ order <-> (p < n)%nat /\ p <> me).
  { intros p. rewrite Hperm. apply elem_of_peers. }
  assert (Hcar : Forall2 (carries R B C) order inbox).
  { eapply Forall2_impl_elem; [exact Hmsgs|].
    intros p m Hp Hm. apply (message_carries hosts N me Hok Hme).
    - now apply Hin.
    - exact Hm. }
  assert (Hlen : length order = (n - 1)%nat).
  { pose proof (seq_peers n me Hme) as Hs. apply Permutation_length in Hs.
    rewrite length_seq in Hs. simpl in Hs. rewrite Hperm. lia. }
  (* this host's inspection *)
  destruct (HF me Hme) as (r' & Hr' & Hst & _ & Hrow & Hbits & Hnodes & _
                             & Hrl & Hbl & _).
  assert (r' = r) by congruence. subst r'.
  unfold assign_edges_phase1. rewrite Hst. cbn [mbind option_bind].
  unfold exchange_init. rewrite Hnodes. cbn [mbind option_bind].
  set (ex0 := {| ex_numOutgoingEdges := numOutgoingEdges (state_of hosts N me);
                 ex_hasIncomingEdge := hasIncomingEdge (state_of hosts N me);
                 num_total_edges_to_receive := 0;
                 ex_numOwned := C me |}).
  (* the receive loop *)
  destruct (receive_loop_all R B C order inbox ex0 Hcar)
    as (ex & Hrecv & Hl1 & Hl2 & Hrows & Hbs).
  { apply Forall_forall. intros p Hp. apply Hin in Hp.
    cbn [ex0 ex_numOutgoingEdges]. fold n in Hrl. lia. }
  { cbn [ex0 ex_numOutgoingEdges ex_hasIncomingEdge]. congruence. }
  rewrite Hlen in Hrecv. rewrite Hrecv. cbn [mbind option_bind].
  cbn [ex0 ex_numOutgoingEdges ex_hasIncomingEdge] in Hl1, Hl2, Hrows, Hbs.
  assert (Hrows' : forall p, (p < n)%nat -> ex_numOutgoingEdges ex !! p = Some (R p)).
  { intros p Hp. rewrite Hrows. destruct (decide (p = me)) as [->|Hne].
    - rewrite bool_decide_eq_false_2 by (rewrite Hin; tauto). exact Hrow.
    - rewrite bool_decide_eq_true_2 by (rewrite Hin; tauto). reflexivity. }
  assert (Hbs' : forall p, (p < n)%nat -> ex_hasIncomingEdge ex !! p = Some (B p)).
  { intros p Hp. rewrite Hbs. destruct (decide (p = me)) as [->|Hne].
    - rewrite bool_decide_eq_false_2 by (rewrite Hin; tauto). exact Hbits.
    - rewrite bool_decide_eq_true_2 by (rewrite Hin; tauto). reflexivity. }
  assert (Hcounters : ex_numOutgoingEdges ex = R <$> seq 0 n).
  { replace n with (length (ex_numOutgoingEdges ex)) at 1 by congruence.
    apply fmap_seq_lookup. intros p Hp. apply Hrows'. lia. }
  assert (Hbitsets : ex_hasIncomingEdge ex = B <$> seq 0 n).
  { replace n with (length (ex_hasIncomingEdge ex)) at 1 by congruence.
    apply fmap_seq_lookup. intros p Hp. apply Hbs'. lia. }
  rewrite (Hbs' me Hme). cbn [mbind option_bind].
  (* the merge of the bitsets *)
  destruct (merge_incoming_length me (ex_hasIncomingEdge ex) 0 (B me))
    as [bits [Hmerge Hbitsl]].
  { rewrite Hbitsets. apply Forall_fmap, Forall_forall. intros p Hp.
    apply elem_of_seq in Hp. simpl.
    destruct (HF p ltac:(lia)) as (_ & _ & _ & _ & _ & _ & _ & _ & _ & _ & _ & Hb & _).
    destruct (HF me Hme) as (_ & _ & _ & _ & _ & _ & _ & _ & _ & _ & _ & Hb' & _).
    congruence. }
  rewrite Hmerge. cbn [mbind option_bind].
  exists (ex_numOutgoingEdges ex), bits, (ex_numOwned ex).
  split; [|split; [exact Hcounters|rewrite <- Hbitsets; exact Hmerge]].
  split; [|reflexivity].
  (* the sums over the hosts *)
  pose proof Hok as [Hcover Hnodes32 Hedges64 _ _].
  rewrite (edges_of_hosts hosts) in Hcover, Hedges64. fold n in Hcover, Hedges64.
  assert (Hlens : Z.of_nat (length (concat (ex_numOutgoingEdges ex))) = Z.of_nat N).
  { rewrite Hcounters, length_concat_sum, <- Hcover, length_concat_sum.
    apply sum_over_ext. intros p Hp. apply elem_of_seq in Hp.
    destruct (HF p ltac:(lia)) as (rp & _ & _ & He & _ & _ & _ & _ & _ & _ & Hl & _).
    rewrite He. f_equal. exact Hl. }
  assert (Hcm : count_masters (concat (ex_numOutgoingEdges ex))
                = C me + sum_over C order).
  { rewrite Hcounters, count_masters_concat.
    rewrite (sum_over_perm _ _ _ (seq_peers n me Hme)). cbn [sum_over].
    rewrite <- (sum_over_perm _ _ _ Hperm).
    destruct (HF me Hme) as (_ & _ & _ & _ & _ & _ & _ & _ & _ & _ & _ & _ & Hc & _).
    rewrite <- Hc. f_equal.
    apply sum_over_ext. intros p Hp. apply Hin in Hp as [Hp _].
    destruct (HF p Hp) as (_ & _ & _ & _ & _ & _ & _ & _ & _ & _ & _ & _ & Hc' & _).
    now rewrite Hc'. }
  split.
  - apply Nat2Z.inj. exact Hlens.
  - rewrite Hbitsl.
    destruct (HF me Hme) as (_ & _ & _ & _ & _ & _ & _ & _ & _ & _ & _ & Hb' & _).
    exact Hb'.
  - exact Hnodes32.
  - rewrite Hcounters. apply Forall_concat_fmap. intros p Hp.
    apply elem_of_seq in Hp.
    destruct (HF p ltac:(lia)) as (_ & _ & _ & _ & _ & _ & _ & _ & _ & _ & _ & _ & _ & _ & Hf & _).
    exact Hf.
  - rewrite Hcounters, edges_total_concat.
    rewrite length_concat_concat_sum in Hedges64.
    assert (sum_over (fun p => edges_total (R p)) (seq 0 n)
            <= sum_over (fun p => Z.of_nat (length (concat (edges_of hosts p))))
                        (seq 0 n)); [|lia].
    apply sum_over_le. intros p Hp. apply elem_of_seq in Hp.
    destruct (HF p ltac:(lia)) as (rp & _ & _ & He & _ & _ & _ & _ & _ & _ & _ & _ & _ & _ & _ & Hle).
    rewrite He. lia.
  - fold (count_masters (concat (ex_numOutgoingEdges ex))). rewrite Hcm.
    destruct (receive_loop_numOwned (n - 1) inbox ex0) as (ex2 & Hrecv2 & _ & Hown).
    + apply Forall2_length in Hcar. lia.
    + apply Forall_forall. intros m Hm.
      apply elem_of_take in Hm as (i & Hm & _).
      destruct (Forall2_lookup_r _ _ _ _ _ Hcar Hm) as (p & Hp & Hc & _).
      rewrite Hc. apply list_elem_of_lookup_2, Hin in Hp.
      cbn [ex0 ex_numOutgoingEdges]. fold n in Hrl. lia.
    + assert (ex2 = ex) by congruence. subst ex2.
      cbn [ex0 ex_numOwned] in Hown. fold C in Hown.
      assert (Hnr : nodes_received (take (n - 1) inbox) = sum_over C order).
      { rewrite take_ge by (apply Forall2_length in Hcar; lia).
        eapply nodes_received_carries; eauto. }
      rewrite Hnr in Hown.
      assert (0 <= C me + sum_over C order < 2 ^ 64) as Hrange.
      { rewrite <- Hcm.
        pose proof (count_masters_le (concat (ex_numOutgoingEdges ex))).
        unfold count_masters in *. lia. }
      destruct (n - 1)%nat eqn:Hn1.
      * destruct order; [|discriminate]. simpl. rewrite Hown. lia.
      * rewrite Hown. now apply wrap64_small.
Qed.

(** Phase 1 establishes the conditions of the local id assignment: on a
    cluster that is [cluster_ok], with the message of every peer
    delivered once and in any order, [assign_edges_phase1] on the host
    [me] runs the assignment on counters, a bitset and a [numOwned] that
    are [assignable]. *)
Theorem phase1_establishes_assignable hosts N me r order inbox :
  cluster_ok hosts N ->
  hosts !! me = Some r ->
  order ≡ₚ peers (length hosts) me ->
  Forall2 (fun p m => message_from hosts N me p = Some m) order inbox ->
  exists counters bits owned,
    assignable counters bits owned N /\
    assign_edges_phase1 (length hosts) N me
        (range_vertexIDMap r) (range_edges r) inbox
      = assign_local_ids counters bits owned N.
Proof.
  intros Hok Hr Hperm Hmsgs.
  destruct (phase1_run hosts N me r order inbox Hok Hr Hperm Hmsgs)
    as (counters & bits & owned & H & _).
  exists counters, bits, owned. exact H.
Qed.

Lemma path_hosts_ok : cluster_ok path_hosts 4.
Proof.
  unfold path_hosts. split; try reflexivity.
  - constructor; [|constructor; [|constructor]]; intros k Hk;
      destruct k as [|[|k]]; simpl in Hk; try lia.
    + exists 0%nat. split; [reflexivity|simpl; lia].
    + exists 0%nat. split; [reflexivity|simpl; lia].
    + exists 1%nat. split; [reflexivity|simpl; lia].
    + exists 1%nat. split; [reflexivity|simpl; lia].
  - constructor; [|constructor; [|constructor]]; intros k dsts d Hk Hin;
      destruct k as [|[|k]]; simpl in Hk; try discriminate;
      injection Hk as <-;
      first [apply list_elem_of_singleton in Hin; lia | inversion Hin].
Qed.

(** Host 0 owns the nodes 0 and 1 and has the ghost 2; host 1 owns 2 and
    3 and has no ghost. *)
Lemma path_hosts_local_ids :
  (exists m s,
     message_from path_hosts 4 0 1 = Some m /\
     assign_edges_phase1 2 4 0 [0; 0] [[1]; [2]] [m] = Some s /\
     numOwned s = 2 /\ numNodes s = 3 /\ numEdges s = 2 /\
     localToGlobalVector s = [0; 1; 2] /\
     prefixSumOfEdges s = [1; 2; 2]) /\
  (exists m s,
     message_from path_hosts 4 1 0 = Some m /\
     assign_edges_phase1 2 4 1 [1; 1] [[3]; []] [m] = Some s /\
     numOwned s = 2 /\ numNodes s = 2 /\ numEdges s = 1 /\
     localToGlobalVector s = [2; 3] /\
     prefixSumOfEdges s = [1; 1]).
Proof.
  split; eexists _, _;
    (split; [vm_compute; reflexivity|]);
    (split; [vm_compute; reflexivity|]);
    repeat split.
Qed.

(** ** The graph as a whole *)

Lemma sum_over_add f g l :
  sum_over (fun p => f p + g p) l = sum_over f l + sum_over g l.
Proof. induction l as [|p l IH]; simpl; lia. Qed.

Lemma sum_over_app f l1 l2 :
  sum_over f (l1 ++ l2) = sum_over f l1 + sum_over f l2.
Proof. induction l1 as [|p l1 IH]; simpl; lia. Qed.

(** One host of [0 .. n-1] is the one the map names. *)
Lemma sum_over_indicator (x c : Z) (n : nat) :
  sum_over (fun h => if decide (x = Z.of_nat h) then c else 0) (seq 0 n)
  = if decide (0 <= x < Z.of_nat n) then c else 0.
Proof.
  induction n as [|n IH].
  - cbn [seq sum_over]. now rewrite decide_False by lia.
  - rewrite seq_S, sum_over_app, IH. simpl.
    destruct (decide (0 <= x < Z.of_nat n)),
             (decide (x = Z.of_nat n)),
             (decide (0 <= x < Z.of_nat (S n))); lia.
Qed.

Lemma edges_total_cons c cs :
  edges_total (c :: cs) = (if is_master c then c - 1 else 0) + edges_total cs.
Proof. reflexivity. Qed.

Lemma counter_of_edges h (node : Z * list Z) :
  (if is_master (counter_of h node) then counter_of h node - 1 else 0)
  = if decide (wrap32 node.1 = Z.of_nat h) then Z.of_nat (length node.2) else 0.
Proof.
  unfold counter_of, is_master.
  destruct (decide (wrap32 node.1 = Z.of_nat h)); [|reflexivity].
  destruct (Z.ltb_spec 0 (1 + Z.of_nat (length node.2))); lia.
Qed.

Lemma counter_of_master h (node : Z * list Z) :
  is_master (counter_of h node) = bool_decide (wrap32 node.1 = Z.of_nat h).
Proof.
  unfold counter_of, is_master.
  destruct (decide (wrap32 node.1 = Z.of_nat h)).
  - rewrite bool_decide_eq_true_2 by assumption. apply Z.ltb_lt. lia.
  - rewrite bool_decide_eq_false_2 by assumption. reflexivity.
Qed.

Lemma counter_of_range h (node : Z * list Z) :
  Z.of_nat (length node.2) + 1 < 2 ^ 64 ->
  0 <= counter_of h node < 2 ^ 64.
Proof. unfold counter_of. destruct (decide _); lia. Qed.

(** Every edge is counted for the host the map gives its source to. *)
Lemma edges_total_owners (nodes : list (Z * list Z)) (n : nat) :
  (forall node, node ∈ nodes -> 0 <= wrap32 node.1 < Z.of_nat n) ->
  sum_over (fun h => edges_total (counter_of h <$> nodes)) (seq 0 n)
  = Z.of_nat (length (concat (snd <$> nodes))).
Proof.
  induction nodes as [|node nodes IH]; intros Hn.
  - simpl. clear. induction (seq 0 n); simpl; lia.
  - rewrite (sum_over_ext _
      (fun h => (if decide (wrap32 node.1 = Z.of_nat h)
                 then Z.of_nat (length node.2) else 0)
                + edges_total (counter_of h <$> nodes))).
    2:{ intros h _. rewrite fmap_cons, edges_total_cons, counter_of_edges.
        reflexivity. }
    rewrite sum_over_add, sum_over_indicator, IH
      by (intros; apply Hn; now right).
    rewrite decide_True by (apply Hn; left).
    rewrite fmap_cons. cbn [concat]. rewrite length_app. lia.
Qed.

(** Every node is counted for the host the map gives it to. *)
Lemma count_masters_owners (nodes : list (Z * list Z)) (n : nat) :
  (forall node, node ∈ nodes -> 0 <= wrap32 node.1 < Z.of_nat n) ->
  sum_over (fun h => count_masters (counter_of h <$> nodes)) (seq 0 n)
  = Z.of_nat (length nodes).
Proof.
  induction nodes as [|node nodes IH]; intros Hn.
  - simpl. clear. induction (seq 0 n); simpl; [reflexivity|].
    unfold count_masters in *. simpl in *. lia.
  - rewrite (sum_over_ext _
      (fun h => (if decide (wrap32 node.1 = Z.of_nat h) then 1 else 0)
                + count_masters (counter_of h <$> nodes))).
    2:{ intros h _. rewrite fmap_cons.
        change (counter_of h node :: (counter_of h <$> nodes))
          with ([counter_of h node] ++ (counter_of h <$> nodes)).
        rewrite count_masters_app. f_equal.
        unfold count_masters. cbn [fmap list_fmap select].
        rewrite counter_of_master.
        destruct (decide (wrap32 node.1 = Z.of_nat h)).
        - now rewrite bool_decide_eq_true_2 by assumption.
        - now rewrite bool_decide_eq_false_2 by assumption. }
    rewrite sum_over_add, sum_over_indicator, IH
      by (intros; apply Hn; now right).
    rewrite decide_True by (apply Hn; left).
    cbn [length]. lia.
Qed.

Lemma foldl_wrap64_sum (f : nat -> Z) l : forall a,
  0 <= a < 2 ^ 64 ->
  foldl (fun acc c => wrap64 (acc + c)) a (f <$> l)
  = wrap64 (a + sum_over f l).
Proof.
  induction l as [|p l IH]; intros a Ha.
  - simpl. rewrite Z.add_0_r. symmetry. now apply wrap64_small.
  - rewrite fmap_cons. cbn [foldl sum_over]. rewrite IH.
    + rewrite wrap64_add_l. f_equal. lia.
    + unfold wrap64. apply Z.mod_pos_bound. lia.
Qed.

(** The nodes of a range whose sources all have a host. *)
Lemma range_nodes_valid numHosts vertexIDMap edges :
  hosts_valid numHosts vertexIDMap edges ->
  (length edges <= length vertexIDMap)%nat /\
  forall node, node ∈ zip vertexIDMap edges ->
    exists h, (h < numHosts)%nat /\ wrap32 node.1 = Z.of_nat h.
Proof.
  intros Hv. split.
  - destruct (decide (length edges <= length vertexIDMap)%nat); [assumption|].
    destruct (Hv (length vertexIDMap) ltac:(lia)) as [h [Hf _]].
    unfold find_hostID in Hf. rewrite lookup_ge_None_2 in Hf by lia.
    discriminate.
  - intros [v dsts] Hin. apply list_elem_of_lookup_1 in Hin as [k Hk].
    apply lookup_zip_with_Some in Hk as (v' & d' & Heq & Hv' & Hd').
    injection Heq as <- <-.
    destruct (Hv k (lookup_lt_Some _ _ _ Hd')) as [h [Hf Hlt]].
    exists h. split; [assumption|].
    unfold find_hostID in Hf. rewrite Hv' in Hf.
    cbn [fmap option_fmap option_map] in Hf. cbn [fst]. congruence.
Qed.

(** X9.  When every source of the range has a host of the cluster and
    every edge ends at a node (and the edges of the range number less
    than 2^64), the inspection ends and the sum of the per-host edge
    accumulators equals the number of edges of the range: the assertion
    [check_numEdges == numEdges_distribute] holds. *)
Theorem inspect_check_numEdges numHosts numGlobalNodes vertexIDMap edges :
  hosts_valid numHosts vertexIDMap edges ->
  dsts_valid numGlobalNodes edges ->
  Z.of_nat (length (concat edges)) < 2 ^ 64 ->
  exists st,
    inspect numHosts numGlobalNodes vertexIDMap edges = Some st /\
    check_numEdges st = Z.of_nat (length (concat edges)).
Proof.
  intros Hv Hd Hsz.
  destruct (inspect_inspected numHosts numGlobalNodes vertexIDMap edges Hv Hd)
    as [st [Hst Hinsp]].
  pose proof (inspect_edges _ _ _ _ st Hv Hd Hst) as [_ Hacc].
  destruct (range_nodes_valid _ _ _ Hv) as [Hlen Hown].
  exists st. split; [exact Hst|].
  set (nodes := zip vertexIDMap edges) in *.
  assert (Htake : take (length edges) nodes = nodes).
  { apply take_ge. unfold nodes. rewrite length_zip. lia. }
  rewrite Htake in Hacc.
  assert (Hsum : sum_over (fun h => edges_total (counter_of h <$> nodes))
                          (seq 0 numHosts)
                 = Z.of_nat (length (concat edges))).
  { rewrite edges_total_owners.
    - unfold nodes. now rewrite snd_zip by lia.
    - intros node Hin. destruct (Hown node Hin) as [h [Hh ->]]. lia. }
  assert (Hnn : forall h, 0 <= edges_total (counter_of h <$> nodes)).
  { intros h. apply edges_total_nonneg. intros c Hc.
    apply list_elem_of_fmap in Hc as [node [-> _]].
    unfold counter_of. destruct (decide _); lia. }
  assert (Hle : forall h, (h < numHosts)%nat ->
            edges_total (counter_of h <$> nodes)
            <= Z.of_nat (length (concat edges))).
  { intros h Hh. rewrite <- Hsum.
    assert (Hin : h ∈ seq 0 numHosts) by (apply elem_of_seq; lia).
    revert Hin. generalize (seq 0 numHosts). intros l Hin.
    induction l as [|p l IH]; [inversion Hin|].
    cbn [sum_over]. pose proof (sum_over_nonneg
      (fun h => edges_total (counter_of h <$> nodes)) l (fun p _ => Hnn p)).
    apply elem_of_cons in Hin as [->|Hin]; [lia|].
    specialize (IH Hin). pose proof (Hnn p). lia. }
  assert (Hlist : num_assigned_edges_perhost st
                  = (fun h => edges_total (counter_of h <$> nodes))
                      <$> seq 0 numHosts).
  { destruct Hinsp as [_ _ Hea _ _ _].
    rewrite <- Hea. apply fmap_seq_lookup. intros h Hh.
    rewrite (Hacc h Hh). f_equal. apply wrap64_small.
    split; [apply Hnn|]. specialize (Hle h ltac:(lia)). lia. }
  unfold check_numEdges. rewrite Hlist, foldl_wrap64_sum by lia.
  rewrite Z.add_0_l, Hsum. apply wrap64_small. lia.
Qed.

Lemma elem_of_concat {A} (x : A) (ls : list (list A)) :
  x ∈ concat ls <-> exists l, l ∈ ls /\ x ∈ l.
Proof.
  induction ls as [|l0 ls IH]; cbn [concat].
  - split; [intros H; inversion H|intros (l & H & _); inversion H].
  - rewrite elem_of_app, IH. split.
    + intros [H|(l & H1 & H2)].
      * exists l0. split; [left|assumption].
      * exists l. split; [now right|assumption].
    + intros (l & H1 & H2). apply elem_of_cons in H1 as [->|H1].
      * now left.
      * right. eauto.
Qed.

Lemma concat_fmap_fmap {A B C} (f : B -> C) (g : A -> list B) (l : list A) :
  concat ((fun r => f <$> g r) <$> l) = f <$> concat (g <$> l).
Proof.
  induction l as [|x l IH]; [reflexivity|].
  rewrite !fmap_cons. cbn [concat]. now rewrite fmap_app, IH.
Qed.

Lemma zip_with_orb_lookup (a b : list bool) g :
  length a = length b ->
  zip_with orb a b !! g = Some true <->
  a !! g = Some true \/ b !! g = Some true.
Proof.
  intros Hl. rewrite lookup_zip_with_Some. split.
  - intros (x & y & Hxy & Hx & Hy). symmetry in Hxy.
    apply orb_true_iff in Hxy as [-> | ->]; tauto.
  - intros [Hx|Hy].
    + destruct (b !! g) as [y|] eqn:Hy.
      * exists true, y. split_all.
      * apply lookup_ge_None in Hy. apply lookup_lt_Some in Hx. lia.
    + destruct (a !! g) as [x|] eqn:Hx.
      * exists x, true. split; [now destruct x|]. split_all.
      * apply lookup_ge_None in Hx. apply lookup_lt_Some in Hy. lia.
Qed.

(** The merged bitset has the bits of the host's own bitset and of
    every other host's. *)
Lemma merge_incoming_lookup id : forall others x0 mine bits,
  merge_incoming id x0 others mine = Some bits ->
  length bits = length mine /\
  forall g, bits !! g = Some true <->
    mine !! g = Some true \/
    exists x b, others !! x = Some b /\ (x0 + x)%nat <> id /\
                b !! g = Some true.
Proof.
  induction others as [|b others IH]; intros x0 mine bits H;
    cbn [merge_incoming] in H.
  - injection H as <-. split; [reflexivity|]. intros g. split; [tauto|].
    intros [?|(x & b & Hx & _)]; [assumption|discriminate].
  - destruct (Nat.eqb_spec x0 id) as [->|Hne].
    + destruct (IH _ _ _ H) as [Hl Hg]. split; [exact Hl|].
      intros g. rewrite Hg. split.
      * intros [?|(x & b' & Hx & Hn & Hb)]; [tauto|].
        right. exists (S x), b'. split; [exact Hx|]. split; [lia|exact Hb].
      * intros [?|(x & b' & Hx & Hn & Hb)]; [tauto|].
        destruct x as [|x]; [exfalso; lia|].
        right. exists x, b'. split; [exact Hx|]. split; [lia|exact Hb].
    + unfold bitwise_or in H.
      destruct (Nat.eqb_spec (length mine) (length b)) as [Hlen|];
        [|discriminate].
      destruct (IH _ _ _ H) as [Hl Hg].
      rewrite length_zip_with in Hl. split; [lia|].
      intros g. rewrite Hg, (zip_with_orb_lookup _ _ _ Hlen). split.
      * intros [[?|Hb]|(x & b' & Hx & Hn & Hb)]; [tauto| |].
        -- right. exists 0%nat, b. split; [reflexivity|]. split; [lia|exact Hb].
        -- right. exists (S x), b'. split; [exact Hx|]. split; [lia|exact Hb].
      * intros [?|(x & b' & Hx & Hn & Hb)]; [tauto|].
        destruct x as [|x].
        -- injection Hx as <-. tauto.
        -- right. exists x, b'. split; [exact Hx|]. split; [lia|exact Hb].
Qed.

Lemma nodes_length n hs :
  Forall (fun r => hosts_valid n (range_vertexIDMap r) (range_edges r)) hs ->
  length (concat (range_nodes <$> hs)) = length (concat (range_edges <$> hs)).
Proof.
  induction 1 as [|r hs Hr _ IH]; [reflexivity|].
  rewrite !fmap_cons. cbn [concat]. rewrite !length_app, IH.
  destruct (range_nodes_valid _ _ _ Hr) as [Hl _].
  unfold range_nodes. rewrite length_zip. lia.
Qed.

Section cluster_graph.
Variables (hosts : list HostRange) (N me : nat).
Hypothesis Hok : cluster_ok hosts N.
Hypothesis Hme : (me < length hosts)%nat.

Lemma host_state p r :
  hosts !! p = Some r ->
  hosts_valid (length hosts) (range_vertexIDMap r) (range_edges r) /\
  dsts_valid N (range_edges r) /\
  inspect (length hosts) N (range_vertexIDMap r) (range_edges r)
    = Some (state_of hosts N p) /\
  inspected (length hosts) N (range_vertexIDMap r) (range_edges r)
            (length (range_edges r)) (state_of hosts N p) /\
  inspected_edges (range_vertexIDMap r) (range_edges r)
                  (length (range_edges r)) (state_of hosts N p).
Proof.
  intros Hr. pose proof Hok as [_ _ _ Hv Hd]. rewrite Forall_lookup in Hv, Hd.
  specialize (Hv p r Hr). specialize (Hd p r Hr).
  destruct (inspect_inspected _ _ _ _ Hv Hd) as [st [Hst Hinsp]].
  assert (state_of hosts N p = st) as ->.
  { unfold state_of, inspection_of. rewrite Hr. simpl. now rewrite Hst. }
  split; [exact Hv|]. split; [exact Hd|]. split; [exact Hst|].
  split; [exact Hinsp|]. eapply inspect_edges; eauto.
Qed.

Lemma host_counters p r :
  hosts !! p = Some r ->
  counters_from hosts N me p = counter_of me <$> range_nodes r.
Proof.
  intros Hr. destruct (host_state p r Hr) as (Hv & Hd & Hst & Hinsp & _).
  edestruct range_sizes as [_ Hsz]; eauto.
  pose proof Hinsp as [Hrows _ _ _ _ _].
  destruct (numOutgoingEdges (state_of hosts N p) !! me) as [row|] eqn:Hrow.
  2:{ apply lookup_ge_None in Hrow. lia. }
  unfold counters_from. rewrite Hrow. change (default [] (Some row)) with row.
  assert (Hrl : length row = length (range_edges r))
    by (eapply row_length; eauto).
  apply list_eq. intros i. rewrite list_lookup_fmap. unfold range_nodes.
  rewrite lookup_zip_with.
  destruct (range_edges r !! i) as [dsts|] eqn:Hdi.
  - edestruct row_entry as [v [Hvi Hri]]; eauto.
    rewrite Hri, Hvi. reflexivity.
  - rewrite lookup_ge_None_2 by (apply lookup_ge_None in Hdi; lia).
    destruct (range_vertexIDMap r !! i); reflexivity.
Qed.

Lemma host_bits p r :
  hosts !! p = Some r ->
  length (bitset_from hosts N me p) = N /\
  forall g, bitset_from hosts N me p !! g = Some true <->
    (g < N)%nat /\
    exists node, node ∈ range_nodes r /\
                 wrap32 node.1 = Z.of_nat me /\ Z.of_nat g ∈ node.2.
Proof.
  intros Hr. destruct (host_state p r Hr) as (Hv & Hd & Hst & Hinsp & Hie).
  pose proof Hinsp as [_ Hbs _ Hbsz _ _].
  destruct (hasIncomingEdge (state_of hosts N p) !! me) as [bits|] eqn:Hb.
  2:{ apply lookup_ge_None in Hb. lia. }
  unfold bitset_from. rewrite Hb. change (default [] (Some bits)) with bits.
  pose proof (Hbsz me bits Hb) as Hbl. split; [exact Hbl|].
  intros g. rewrite (insp_bits _ _ _ _ Hie me bits Hb g), Hbl.
  unfold range_nodes. split.
  - intros [Hg (j & dsts & _ & Hj & Hf & Hin)]. split; [exact Hg|].
    unfold find_hostID in Hf. apply fmap_Some in Hf as [v [Hvj Hvm]].
    exists (v, dsts). split; [|split; [symmetry; exact Hvm|exact Hin]].
    apply (list_elem_of_lookup_2 _ j), lookup_zip_with_Some. eauto.
  - intros [Hg ([v dsts] & Hin & Hvm & Hgd)]. split; [exact Hg|].
    apply list_elem_of_lookup_1 in Hin as [j Hj].
    apply lookup_zip_with_Some in Hj as (v' & d' & Heq & Hvj & Hdj).
    injection Heq as <- <-. exists j, dsts.
    split; [eapply lookup_lt_Some; eauto|]. split; [exact Hdj|].
    split; [|exact Hgd].
    unfold find_hostID. rewrite Hvj. cbn [fmap option_fmap option_map].
    f_equal. exact Hvm.
Qed.

Lemma counters_graph :
  concat (counters_from hosts N me <$> seq 0 (length hosts))
  = counter_of me <$> graph hosts.
Proof.
  unfold graph. rewrite <- concat_fmap_fmap. f_equal.
  rewrite <- (length_fmap (fun r => counter_of me <$> range_nodes r) hosts).
  symmetry. apply fmap_seq_lookup. intros p Hp. rewrite length_fmap in Hp.
  rewrite list_lookup_fmap.
  destruct (hosts !! p) as [r|] eqn:Hr.
  2:{ apply lookup_ge_None in Hr. lia. }
  cbn [fmap option_fmap option_map]. f_equal. symmetry.
  now apply host_counters.
Qed.

Lemma merged_bits bits :
  merge_incoming me 0 (bitset_from hosts N me <$> seq 0 (length hosts))
                 (bitset_from hosts N me me) = Some bits ->
  length bits = N /\
  forall g, bits !! g = Some true <->
    (g < N)%nat /\
    exists node, node ∈ graph hosts /\
                 wrap32 node.1 = Z.of_nat me /\ Z.of_nat g ∈ node.2.
Proof.
  intros Hm. destruct (merge_incoming_lookup _ _ _ _ _ Hm) as [Hl Hg].
  destruct (hosts !! me) as [rme|] eqn:Hrme.
  2:{ apply lookup_ge_None in Hrme. lia. }
  destruct (host_bits me rme Hrme) as [Hlme Hbme].
  split; [lia|]. intros g. rewrite Hg. unfold graph. split.
  - intros [Hb|(x & b & Hx & _ & Hb)].
    + destruct (proj1 (Hbme g) Hb) as [Hlt (node & Hin & Hown & Hgd)].
      split; [exact Hlt|]. exists node. split; [|split_all].
      apply elem_of_concat. exists (range_nodes rme). split; [|exact Hin].
      apply list_elem_of_fmap. exists rme. split; [reflexivity|].
      eapply list_elem_of_lookup_2; eauto.
    + rewrite list_lookup_fmap in Hx. apply fmap_Some in Hx as [p [Hp ->]].
      apply lookup_seq in Hp as [-> Hp]. cbn [Nat.add] in Hb.
      destruct (hosts !! x) as [r|] eqn:Hr.
      2:{ apply lookup_ge_None in Hr. lia. }
      destruct (host_bits x r Hr) as [_ Hbx].
      destruct (proj1 (Hbx g) Hb) as [Hlt (node & Hin & Hown & Hgd)].
      split; [exact Hlt|]. exists node. split; [|split_all].
      apply elem_of_concat. exists (range_nodes r). split; [|exact Hin].
      apply list_elem_of_fmap. exists r. split; [reflexivity|].
      eapply list_elem_of_lookup_2; eauto.
  - intros [Hlt (node & Hin & Hown & Hgd)].
    apply elem_of_concat in Hin as (l & Hl' & Hin).
    apply list_elem_of_fmap in Hl' as (r & Heq & Hr). subst l.
    apply list_elem_of_lookup_1 in Hr as [p Hp].
    assert (Hbp : bitset_from hosts N me p !! g = Some true).
    { destruct (host_bits p r Hp) as [_ Hbx]. apply Hbx.
      split; [exact Hlt|]. exists node. split_all. }
    destruct (decide (p = me)) as [->|Hne]; [now left|].
    right. exists p, (bitset_from hosts N me p).
    split; [|split; [lia|exact Hbp]].
    rewrite list_lookup_fmap, lookup_seq_lt by (eapply lookup_lt_Some; eauto).
    reflexivity.
Qed.

Lemma graph_length : length (graph hosts) = N.
Proof.
  destruct Hok as [Hc _ _ Hv _]. rewrite <- Hc.
  exact (nodes_length _ _ Hv).
Qed.

Lemma graph_dsts_valid node d :
  node ∈ graph hosts -> d ∈ node.2 -> 0 <= d < Z.of_nat N.
Proof.
  intros Hin Hd. unfold graph in Hin.
  apply elem_of_concat in Hin as (l & Hl & Hin).
  apply list_elem_of_fmap in Hl as (r & Heq & Hr). subst l.
  destruct Hok as [_ _ _ _ Hdv]. rewrite Forall_forall in Hdv.
  specialize (Hdv r Hr).
  apply list_elem_of_lookup_1 in Hin as [j Hj]. unfold range_nodes in Hj.
  apply lookup_zip_with_Some in Hj as (v & dsts & -> & _ & Hdj).
  exact (Hdv j dsts d Hdj Hd).
Qed.

Lemma graph_counters_range :
  Forall (fun c => 0 <= c < 2 ^ 64) (counter_of me <$> graph hosts).
Proof.
  apply Forall_fmap, Forall_forall. intros node Hin. cbn.
  apply counter_of_range. unfold graph in Hin.
  apply elem_of_concat in Hin as (l & Hl & Hin).
  apply list_elem_of_fmap in Hl as (r & Heq & Hr). subst l.
  apply list_elem_of_lookup_1 in Hr as [p Hp].
  edestruct range_sizes as [_ Hsz]; eauto.
  apply list_elem_of_lookup_1 in Hin as [j Hj]. unfold range_nodes in Hj.
  apply lookup_zip_with_Some in Hj as (v & dsts & -> & _ & Hdj).
  pose proof (length_concat_lookup _ _ _ Hdj). cbn [snd]. lia.
Qed.

(** Phase 1 on the host [me] in terms of the graph: the counters are
    those of the nodes in GID order, a bit of the merged bitset is set
    when an edge from a node given to [me] ends there. *)
Lemma phase1_local_ids r order inbox :
  hosts !! me = Some r ->
  order ≡ₚ peers (length hosts) me ->
  Forall2 (fun p m => message_from hosts N me p = Some m) order inbox ->
  exists s bits,
    assign_edges_phase1 (length hosts) N me
        (range_vertexIDMap r) (range_edges r) inbox = Some s /\
    consistent s /\
    length bits = N /\
    (forall g, bits !! g = Some true <->
       (g < N)%nat /\
       exists node, node ∈ graph hosts /\
                    wrap32 node.1 = Z.of_nat me /\ Z.of_nat g ∈ node.2) /\
    localToGlobalVector s
      = select 0 (is_master <$> (counter_of me <$> graph hosts))
        ++ select 0 (zip_with is_ghost bits (counter_of me <$> graph hosts)) /\
    prefixSumOfEdges s
      = prefix_sums 0 (counter_of me <$> graph hosts)
        ++ replicate
             (length (select 0 (zip_with is_ghost bits
                                   (counter_of me <$> graph hosts))))
             (edges_total (counter_of me <$> graph hosts)) /\
    numEdges s = edges_total (counter_of me <$> graph hosts) /\
    numOwned s = count_masters (counter_of me <$> graph hosts).
Proof.
  intros Hr Hperm Hmsgs.
  destruct (phase1_run hosts N me r order inbox Hok Hr Hperm Hmsgs)
    as (counters & bits & owned & [Ha Hrun] & Hc & Hm).
  destruct (assignable_spec _ _ _ _ Ha) as [s (Hs & Hcons & Hv & Hp & He & Ho)].
  pose proof Ha as [_ _ _ _ _ Hown].
  assert (Hcs : concat counters = counter_of me <$> graph hosts)
    by (rewrite Hc; apply counters_graph).
  rewrite Hcs in *.
  destruct (merged_bits bits Hm) as [Hbl Hbg].
  exists s, bits. rewrite Hrun.
  split; [exact Hs|]. split; [exact Hcons|]. split; [exact Hbl|].
  split; [exact Hbg|]. split; [exact Hv|]. split; [exact Hp|].
  split; [exact He|]. rewrite Ho, Hown. reflexivity.
Qed.

End cluster_graph.

Lemma isOwned_iff s masters G g :
  consistent s ->
  localToGlobalVector s = masters ++ G ->
  numOwned s = Z.of_nat (length masters) ->
  isOwned s g = true <-> g ∈ masters.
Proof.
  intros [_ _ Hm] Hv Ho. unfold isOwned, isLocal. split.
  - destruct (globalToLocalMap s !! g) as [l|] eqn:Hl; [|discriminate].
    cbn [andb]. intros Hlt. apply Z.ltb_lt in Hlt.
    apply Hm in Hl as [Hl0 Hl]. rewrite Hv in Hl.
    rewrite lookup_app_l in Hl by lia.
    eapply list_elem_of_lookup_2; eauto.
  - intros Hin. apply list_elem_of_lookup_1 in Hin as [k Hk].
    assert (Hg : globalToLocalMap s !! g = Some (Z.of_nat k)).
    { apply Hm. split; [lia|]. rewrite Nat2Z.id, Hv.
      now apply lookup_app_l_Some. }
    rewrite Hg. cbn [andb]. apply Z.ltb_lt.
    apply lookup_lt_Some in Hk. lia.
Qed.

Lemma isLocal_iff s g :
  consistent s -> isLocal s g = true <-> g ∈ localToGlobalVector s.
Proof.
  intros [_ _ Hm]. unfold isLocal. split.
  - destruct (globalToLocalMap s !! g) as [l|] eqn:Hl; [|discriminate].
    intros _. apply Hm in Hl as [_ Hl]. eapply list_elem_of_lookup_2; eauto.
  - intros Hin. apply list_elem_of_lookup_1 in Hin as [k Hk].
    assert (Hg : globalToLocalMap s !! g = Some (Z.of_nat k)).
    { apply Hm. split; [lia|]. now rewrite Nat2Z.id. }
    now rewrite Hg.
Qed.

(** The masters are the nodes the map gives to the host. *)
Lemma master_iff_owner hosts me g :
  g ∈ select 0 (is_master <$> (counter_of me <$> graph hosts))
  <-> owner_is hosts me g.
Proof.
  rewrite select_elem. unfold owner_is. split.
  - intros [k [Hk ->]]. split; [lia|].
    rewrite !list_lookup_fmap in Hk.
    destruct (graph hosts !! k) as [[v dsts]|] eqn:Hn; [|discriminate].
    cbn [fmap option_fmap option_map] in Hk. injection Hk as Hk.
    rewrite counter_of_master in Hk. apply bool_decide_eq_true_1 in Hk.
    exists v, dsts. rewrite Z.add_0_l, Nat2Z.id. split; [exact Hn|exact Hk].
  - intros [Hg (v & dsts & Hn & Hv)]. exists (Z.to_nat g). split; [|lia].
    rewrite !list_lookup_fmap, Hn. cbn [fmap option_fmap option_map].
    f_equal. rewrite counter_of_master. now apply bool_decide_eq_true_2.
Qed.

Lemma count_masters_filter (me : nat) (nodes : list (Z * list Z)) :
  count_masters (counter_of me <$> nodes)
  = Z.of_nat (length (filter (fun node => wrap32 node.1 = Z.of_nat me) nodes)).
Proof.
  induction nodes as [|node nodes IH]; [reflexivity|].
  rewrite fmap_cons.
  change (counter_of me node :: (counter_of me <$> nodes))
    with ([counter_of me node] ++ (counter_of me <$> nodes)).
  rewrite count_masters_app, IH, filter_cons.
  unfold count_masters. cbn [fmap list_fmap select].
  rewrite counter_of_master.
  destruct (decide (wrap32 node.1 = Z.of_nat me)).
  - rewrite bool_decide_eq_true_2 by assumption. cbn [length]. lia.
  - rewrite bool_decide_eq_false_2 by assumption. cbn [length]. lia.
Qed.

Lemma prefix_sums_step cs : forall e src k g,
  select src (is_master <$> cs) !! k = Some g ->
  exists c,
    cs !! Z.to_nat (g - src) = Some c /\ src <= g /\ is_master c = true /\
    prefix_sums e cs !! k
      = Some (match k with
              | O => e
              | S k' => default 0 (prefix_sums e cs !! k')
              end + (c - 1)).
Proof.
  induction cs as [|c0 cs IH]; intros e src k g Hk.
  - discriminate.
  - rewrite fmap_cons in Hk. cbn [select prefix_sums] in *.
    destruct (is_master c0) eqn:Hm.
    + destruct k as [|k].
      * injection Hk as <-. exists c0. rewrite Z.sub_diag.
        split; [reflexivity|]. split; [lia|]. split; [exact Hm|reflexivity].
      * cbn [lookup list_lookup] in Hk.
        destruct (IH (e + (c0 - 1)) (src + 1) k g Hk)
          as (c & Hc & Hle & Hmc & Hp).
        exists c. split.
        { replace (Z.to_nat (g - src)) with (S (Z.to_nat (g - (src + 1))))
            by lia. exact Hc. }
        split; [lia|]. split; [exact Hmc|].
        change ((e + (c0 - 1) :: prefix_sums (e + (c0 - 1)) cs) !! S k)
          with (prefix_sums (e + (c0 - 1)) cs !! k).
        rewrite Hp. destruct k; reflexivity.
    + destruct (IH e (src + 1) k g Hk) as (c & Hc & Hle & Hmc & Hp).
      exists c. split.
      { replace (Z.to_nat (g - src)) with (S (Z.to_nat (g - (src + 1))))
          by lia. exact Hc. }
      split; [lia|]. split; [exact Hmc|exact Hp].
Qed.

(** X10.  After phase 1 on a well-formed cluster, with every peer's
    message delivered once in any order, [isOwned(g)] holds on a host
    exactly for the nodes the vertex-ID map gives to that host, and
    [numOwned] is their number. *)
Theorem isOwned_iff_vertexIDMap hosts N me r order inbox :
  cluster_ok hosts N ->
  hosts !! me = Some r ->
  order ≡ₚ peers (length hosts) me ->
  Forall2 (fun p m => message_from hosts N me p = Some m) order inbox ->
  exists s,
    assign_edges_phase1 (length hosts) N me
        (range_vertexIDMap r) (range_edges r) inbox = Some s /\
    (forall g, isOwned s g = true <-> owner_is hosts me g) /\
    numOwned s
      = Z.of_nat (length (filter (fun node => wrap32 node.1 = Z.of_nat me)
                                 (graph hosts))).
Proof.
  intros Hok Hr Hperm Hmsgs.
  pose proof (lookup_lt_Some _ _ _ Hr) as Hme.
  destruct (phase1_local_ids hosts N me Hok Hme r order inbox Hr Hperm Hmsgs)
    as (s & bits & Hs & Hcons & _ & _ & Hv & _ & _ & Ho).
  exists s. split; [exact Hs|]. split.
  - intros g. rewrite (isOwned_iff s _ _ g Hcons Hv Ho).
    apply master_iff_owner.
  - rewrite Ho. apply count_masters_filter.
Qed.

(** X11.  After phase 1 on a well-formed cluster, [isLocal(g)] holds on
    a host exactly for the nodes the vertex-ID map gives to that host
    and for the destinations of the edges that leave such a node. *)
Theorem isLocal_iff_owned_or_destination hosts N me r order inbox :
  cluster_ok hosts N ->
  hosts !! me = Some r ->
  order ≡ₚ peers (length hosts) me ->
  Forall2 (fun p m => message_from hosts N me p = Some m) order inbox ->
  exists s,
    assign_edges_phase1 (length hosts) N me
        (range_vertexIDMap r) (range_edges r) inbox = Some s /\
    forall g, isLocal s g = true <->
      owner_is hosts me g \/
      exists src, owner_is hosts me src /\ has_edge hosts src g.
Proof.
  intros Hok Hr Hperm Hmsgs.
  pose proof (lookup_lt_Some _ _ _ Hr) as Hme.
  destruct (phase1_local_ids hosts N me Hok Hme r order inbox Hr Hperm Hmsgs)
    as (s & bits & Hs & Hcons & Hbl & Hbits & Hv & _).
  pose proof (graph_counters_range hosts N me Hok Hme) as Hrange.
  pose proof (graph_length hosts N Hok) as Hgl.
  exists s. split; [exact Hs|]. intros g.
  rewrite (isLocal_iff s g Hcons), Hv, elem_of_app, master_iff_owner.
  rewrite (ghosts_elem bits _ g Hrange). split.
  - intros [Hown|(Hg & Hb & _)]; [now left|]. right.
    apply Hbits in Hb as [_ ([v dsts] & Hin & Hvm & Hgd)].
    apply list_elem_of_lookup_1 in Hin as [src Hsrc].
    rewrite Z2Nat.id in Hgd by lia. cbn [fst snd] in *.
    exists (Z.of_nat src). unfold owner_is, has_edge. rewrite Nat2Z.id.
    split; (split; [lia|]); exists v, dsts; split_all.
  - intros [Hown|(src & [Hs0 (v & dsts & Hn & Hvm)] & [_ (v' & d' & Hn' & Hgd)])];
      [now left|].
    rewrite Hn in Hn'. injection Hn' as <- <-.
    assert (Hin : (v, dsts) ∈ graph hosts)
      by (eapply list_elem_of_lookup_2; eauto).
    pose proof (graph_dsts_valid hosts N Hok _ _ Hin Hgd) as Hg.
    assert (Hb : bits !! Z.to_nat g = Some true).
    { apply Hbits. split; [lia|]. exists (v, dsts).
      rewrite Z2Nat.id by lia. split_all. }
    destruct ((counter_of me <$> graph hosts) !! Z.to_nat g) as [c|] eqn:Hc.
    2:{ apply lookup_ge_None in Hc. rewrite length_fmap in Hc. lia. }
    destruct (decide (c = 0)) as [->|Hne].
    + right. split; [lia|]. split; [exact Hb|reflexivity].
    + left. apply master_iff_owner.
      apply (masters_elem _ g Hrange). split; [lia|]. eauto.
Qed.

(** X12.  After phase 1 on a well-formed cluster, the lookups of the
    edge loading are defined on the host that owns the source of an
    edge: [G2L] maps the source to a local id below [numOwned] and the
    destination to a local id below [numNodes]. *)
Theorem edge_endpoints_have_local_ids hosts N me r order inbox :
  cluster_ok hosts N ->
  hosts !! me = Some r ->
  order ≡ₚ peers (length hosts) me ->
  Forall2 (fun p m => message_from hosts N me p = Some m) order inbox ->
  exists s,
    assign_edges_phase1 (length hosts) N me
        (range_vertexIDMap r) (range_edges r) inbox = Some s /\
    forall src dst,
      owner_is hosts me src -> has_edge hosts src dst ->
      exists lsrc ldst,
        G2L s src = Some lsrc /\ 0 <= lsrc < numOwned s /\
        G2L s dst = Some ldst /\ 0 <= ldst < numNodes s.
Proof.
  intros Hok Hr Hperm Hmsgs.
  pose proof (lookup_lt_Some _ _ _ Hr) as Hme.
  destruct (phase1_local_ids hosts N me Hok Hme r order inbox Hr Hperm Hmsgs)
    as (s & bits & Hs & Hcons & Hbl & Hbits & Hv & _ & _ & Ho).
  pose proof (graph_counters_range hosts N me Hok Hme) as Hrange.
  pose proof (graph_length hosts N Hok) as Hgl.
  exists s. split; [exact Hs|]. intros src dst Hown Hedge.
  pose proof Hcons as [Hnn _ Hmap].
  assert (Hsrc : isOwned s src = true).
  { apply (isOwned_iff s _ _ src Hcons Hv Ho). now apply master_iff_owner. }
  assert (Hdst : dst ∈ localToGlobalVector s).
  { destruct Hown as [Hs0 (v & dsts & Hn & Hvm)].
    destruct Hedge as [_ (v' & d' & Hn' & Hgd)].
    rewrite Hn in Hn'. injection Hn' as <- <-.
    assert (Hin : (v, dsts) ∈ graph hosts)
      by (eapply list_elem_of_lookup_2; eauto).
    pose proof (graph_dsts_valid hosts N Hok _ _ Hin Hgd) as Hg.
    rewrite Hv, elem_of_app.
    destruct ((counter_of me <$> graph hosts) !! Z.to_nat dst) as [c|] eqn:Hc.
    2:{ apply lookup_ge_None in Hc. rewrite length_fmap in Hc. lia. }
    destruct (decide (c = 0)) as [->|Hne].
    - right. apply (ghosts_elem bits _ dst Hrange).
      split; [lia|]. split; [|exact Hc].
      apply Hbits. split; [lia|]. exists (v, dsts).
      rewrite Z2Nat.id by lia. split_all.
    - left. apply (masters_elem _ dst Hrange). split; [lia|]. eauto. }
  unfold isOwned, isLocal in Hsrc. unfold G2L.
  destruct (globalToLocalMap s !! src) as [lsrc|] eqn:Hl; [|discriminate].
  cbn [andb] in Hsrc. apply Z.ltb_lt in Hsrc.
  apply list_elem_of_lookup_1 in Hdst as [k Hk].
  exists lsrc, (Z.of_nat k).
  split; [reflexivity|]. split; [apply Hmap in Hl; lia|].
  split; [apply Hmap; rewrite Nat2Z.id; split; [lia|exact Hk]|].
  apply lookup_lt_Some in Hk. lia.
Qed.

(** X13.  After phase 1 on a well-formed cluster, the entry of the
    prefix-sum array for a local node exceeds the entry before it (0
    for the first node) by the number of edges that leave the node when
    the host owns it, and equals it for a ghost. *)
Theorem prefixSumOfEdges_steps_by_out_degree hosts N me r order inbox :
  cluster_ok hosts N ->
  hosts !! me = Some r ->
  order ≡ₚ peers (length hosts) me ->
  Forall2 (fun p m => message_from hosts N me p = Some m) order inbox ->
  exists s,
    assign_edges_phase1 (length hosts) N me
        (range_vertexIDMap r) (range_edges r) inbox = Some s /\
    forall (l : nat) g,
      localToGlobalVector s !! l = Some g ->
      exists before,
        match l with
        | O => Some 0
        | S l' => prefixSumOfEdges s !! l'
        end = Some before /\
        prefixSumOfEdges s !! l
          = Some (before + (if isOwned s g then out_degree hosts g else 0)).
Proof.
  intros Hok Hr Hperm Hmsgs.
  pose proof (lookup_lt_Some _ _ _ Hr) as Hme.
  destruct (phase1_local_ids hosts N me Hok Hme r order inbox Hr Hperm Hmsgs)
    as (s & bits & Hs & Hcons & Hbl & Hbits & Hv & Hp & _ & Ho).
  pose proof (graph_counters_range hosts N me Hok Hme) as Hrange.
  exists s. split; [exact Hs|]. intros l g Hl.
  set (cs := counter_of me <$> graph hosts) in *.
  set (masters := select 0 (is_master <$> cs)) in *.
  set (ghosts := select 0 (zip_with is_ghost bits cs)) in *.
  pose proof (prefix_sums_length cs 0) as Hpl. fold masters in Hpl.
  assert (Hbefore : forall l', (S l' < length masters + length ghosts)%nat ->
            prefixSumOfEdges s !! l'
            = Some (default 0 (prefixSumOfEdges s !! l'))).
  { intros l' Hl'.
    destruct (prefixSumOfEdges s !! l') as [x|] eqn:Hx; [reflexivity|].
    apply lookup_ge_None in Hx.
    rewrite Hp, length_app, length_replicate in Hx. lia. }
  rewrite Hv in Hl. apply lookup_app_Some in Hl as [Hl|[Hge Hl]].
  - (* a master *)
    pose proof (lookup_lt_Some _ _ _ Hl) as Hlt.
    assert (Hown : isOwned s g = true).
    { apply (isOwned_iff s _ _ g Hcons Hv Ho).
      eapply list_elem_of_lookup_2; eauto. }
    rewrite Hown.
    destruct (prefix_sums_step cs 0 0 l g Hl) as (c & Hc & _ & Hmc & Hstep).
    rewrite Z.sub_0_r in Hc. unfold cs in Hc.
    rewrite list_lookup_fmap in Hc.
    destruct (graph hosts !! Z.to_nat g) as [node|] eqn:Hn; [|discriminate].
    cbn [fmap option_fmap option_map] in Hc. injection Hc as <-.
    rewrite counter_of_master in Hmc. apply bool_decide_eq_true_1 in Hmc.
    assert (Hdeg : counter_of me node - 1 = out_degree hosts g).
    { unfold out_degree, counter_of. rewrite Hn, decide_True by assumption.
      destruct node. cbn [snd]. lia. }
    rewrite Hdeg in Hstep.
    exists (match l with O => 0 | S l' => default 0 (prefix_sums 0 cs !! l') end).
    split.
    + destruct l as [|l']; [reflexivity|].
      rewrite Hbefore by lia. rewrite Hp, lookup_app_l by lia. reflexivity.
    + rewrite Hp, lookup_app_l by lia. exact Hstep.
  - (* a ghost *)
    pose proof (lookup_lt_Some _ _ _ Hl) as Hlt.
    assert (Hown : isOwned s g = false).
    { apply not_true_is_false. intros Hown.
      apply (isOwned_iff s _ _ g Hcons Hv Ho) in Hown.
      assert (Hgh : g ∈ ghosts) by (eapply list_elem_of_lookup_2; eauto).
      apply (ghosts_elem bits cs g Hrange) in Hgh as (_ & _ & Hc0).
      apply (masters_elem cs g Hrange) in Hown as (_ & c & Hc & Hne).
      congruence. }
    rewrite Hown.
    assert (Hhere : prefixSumOfEdges s !! l = Some (edges_total cs)).
    { rewrite Hp, lookup_app_r by lia.
      apply lookup_replicate. split; [reflexivity|lia]. }
    exists (edges_total cs). rewrite Z.add_0_r. split; [|exact Hhere].
    destruct l as [|l'].
    + assert (Hnil : prefix_sums 0 cs = []).
      { apply length_zero_iff_nil. lia. }
      now rewrite (prefix_sums_nil cs 0 Hnil).
    + rewrite Hp.
      destruct (decide (l' < length masters)%nat) as [Hin|Hout].
      * rewrite lookup_app_l by lia.
        assert (l' = pred (length (prefix_sums 0 cs))) as -> by lia.
        rewrite <- last_lookup, prefix_sums_last; [reflexivity|].
        intros Hnil. rewrite Hnil in Hpl. simpl in Hpl. lia.
      * rewrite lookup_app_r by lia.
        apply lookup_replicate. split; [reflexivity|lia].
Qed.

(** ** All hosts *)

Lemma graph_owner_valid hosts N node :
  cluster_ok hosts N ->
  node ∈ graph hosts -> 0 <= wrap32 node.1 < Z.of_nat (length hosts).
Proof.
  intros [_ _ _ Hv _] Hin. rewrite Forall_forall in Hv. unfold graph in Hin.
  apply elem_of_concat in Hin as (l & Hl & Hin).
  apply list_elem_of_fmap in Hl as (r & Heq & Hr). subst l.
  destruct (range_nodes_valid _ _ _ (Hv r Hr)) as [_ Hown].
  destruct (Hown node Hin) as [h [Hh ->]]. lia.
Qed.

Lemma graph_edges hosts N :
  cluster_ok hosts N ->
  concat (snd <$> graph hosts) = concat (concat (range_edges <$> hosts)).
Proof.
  intros [_ _ _ Hv _]. unfold graph. f_equal.
  revert Hv. generalize (length hosts). intros n Hv.
  induction Hv as [|r hs Hr _ IH]; [reflexivity|].
  rewrite !fmap_cons. cbn [concat]. rewrite fmap_app, IH. f_equal.
  destruct (range_nodes_valid _ _ _ Hr) as [Hl _].
  unfold range_nodes. apply snd_zip. lia.
Qed.

Lemma message_from_is_Some hosts N me p :
  cluster_ok hosts N ->
  (me < length hosts)%nat -> (p < length hosts)%nat ->
  is_Some (message_from hosts N me p).
Proof.
  intros Hok Hme Hp.
  destruct (host_facts hosts N me Hok Hme p Hp)
    as (r & Hr & Hst & _ & H1 & H2 & H3 & [e H4] & _).
  unfold message_from, inspection_of. rewrite Hr. simpl. rewrite Hst. simpl.
  unfold message_for. rewrite H1, H2, H3, H4. eauto.
Qed.

(** Phase 1 with the peers' messages in the order of the peers. *)
Lemma phase1_of_spec hosts N me :
  cluster_ok hosts N ->
  (me < length hosts)%nat ->
  exists s,
    phase1_of hosts N me = Some s /\
    (forall g, isOwned s g = true <-> owner_is hosts me g) /\
    numOwned s = count_masters (counter_of me <$> graph hosts) /\
    numEdges s = edges_total (counter_of me <$> graph hosts).
Proof.
  intros Hok Hme.
  destruct (hosts !! me) as [r|] eqn:Hr.
  2:{ apply lookup_ge_None in Hr. lia. }
  destruct (mapM_is_Some_2 (message_from hosts N me) (peers (length hosts) me))
    as [inbox Hin].
  { apply Forall_forall. intros p Hp. apply elem_of_peers in Hp as [Hp _].
    now apply message_from_is_Some. }
  pose proof Hin as Hmsgs. apply mapM_Some in Hmsgs.
  destruct (phase1_local_ids hosts N me Hok Hme r _ inbox Hr
              (reflexivity _) Hmsgs)
    as (s & bits & Hs & Hcons & _ & _ & Hv & _ & He & Ho).
  exists s. split.
  { unfold phase1_of. rewrite Hr. cbn [mbind option_bind]. rewrite Hin.
    cbn [mbind option_bind]. exact Hs. }
  split; [|split; [exact Ho|exact He]].
  intros g. rewrite (isOwned_iff s _ _ g Hcons Hv Ho).
  apply master_iff_owner.
Qed.

(** X14.  On a well-formed cluster phase 1 ends on every host; the
    values of [numOwned] of the hosts add up to the number of nodes of
    the graph, and every node is owned, in the sense of [isOwned], on
    exactly one host. *)
Theorem every_node_has_one_owner hosts N :
  cluster_ok hosts N ->
  (forall me, (me < length hosts)%nat -> is_Some (phase1_of hosts N me)) /\
  sum_over (owned_on hosts N) (seq 0 (length hosts)) = Z.of_nat N /\
  forall g, 0 <= g < Z.of_nat N ->
    exists me s,
      phase1_of hosts N me = Some s /\ isOwned s g = true /\
      forall me' s', phase1_of hosts N me' = Some s' ->
                     isOwned s' g = true -> me' = me.
Proof.
  intros Hok. split; [|split].
  - intros me Hme. destruct (phase1_of_spec hosts N me Hok Hme) as (s & Hs & _).
    rewrite Hs. eauto.
  - rewrite (sum_over_ext _
      (fun me => count_masters (counter_of me <$> graph hosts))).
    + rewrite count_masters_owners by (intros; eapply graph_owner_valid; eauto).
      f_equal. now apply graph_length.
    + intros me Hme. apply elem_of_seq in Hme.
      destruct (phase1_of_spec hosts N me Hok ltac:(lia)) as (s & Hs & _ & Ho & _).
      unfold owned_on. rewrite Hs. exact Ho.
  - intros g Hg.
    destruct (graph hosts !! Z.to_nat g) as [[v dsts]|] eqn:Hn.
    2:{ apply lookup_ge_None in Hn. rewrite (graph_length hosts N Hok) in Hn.
        lia. }
    pose proof (graph_owner_valid hosts N (v, dsts) Hok
                  ltac:(eapply list_elem_of_lookup_2; eauto)) as Hv.
    cbn [fst] in Hv.
    assert (Hme : (Z.to_nat (wrap32 v) < length hosts)%nat) by lia.
    destruct (phase1_of_spec hosts N _ Hok Hme) as (s & Hs & Hown & _).
    exists (Z.to_nat (wrap32 v)), s. split; [exact Hs|]. split.
    + apply Hown. split; [lia|]. exists v, dsts. split; [exact Hn|lia].
    + intros me' s' Hs' Ho'.
      assert (Hme' : (me' < length hosts)%nat).
      { unfold phase1_of in Hs'.
        destruct (hosts !! me') eqn:Hr; [|discriminate].
        eapply lookup_lt_Some; eauto. }
      destruct (phase1_of_spec hosts N me' Hok Hme') as (s2 & Hs2 & Hown2 & _).
      assert (s2 = s') by congruence. subst s2.
      apply Hown2 in Ho' as [_ (v' & d' & Hn' & Hv')].
      rewrite Hn in Hn'. injection Hn' as <- <-. lia.
Qed.

(** X15.  On a well-formed cluster the values of [numEdges] of the
    hosts after phase 1 add up to the number of edges of the graph. *)
Theorem every_edge_is_on_one_host hosts N :
  cluster_ok hosts N ->
  sum_over (edges_on hosts N) (seq 0 (length hosts))
  = Z.of_nat (length (concat (concat (range_edges <$> hosts)))).
Proof.
  intros Hok.
  rewrite (sum_over_ext _
    (fun me => edges_total (counter_of me <$> graph hosts))).
  - rewrite edges_total_owners by (intros; eapply graph_owner_valid; eauto).
    now rewrite (graph_edges hosts N Hok).
  - intros me Hme. apply elem_of_seq in Hme.
    destruct (phase1_of_spec hosts N me Hok ltac:(lia)) as (s & Hs & _ & _ & He).
    unfold edges_on. rewrite Hs. exact He.
Qed.

(** ** Mirror-owner resolution *)

Lemma resolved_range numHosts ghosts inbox g :
  (0 < numHosts)%nat ->
  Forall (masters_usable numHosts ghosts) inbox ->
  0 <= resolved inbox g < Z.of_nat numHosts.
Proof.
  intros Hn Hall. unfold resolved.
  assert (H : forall h, 0 <= h < Z.of_nat numHosts ->
            0 <= foldl (fun h m => if bool_decide (g ∈ masters_vec m)
                                   then masters_from m else h) h inbox
              < Z.of_nat numHosts); [|apply H; lia].
  induction Hall as [|m inbox (_ & Hf & _) _ IH]; intros h Hh; [exact Hh|].
  cbn [foldl]. apply IH. now destruct (bool_decide _).
Qed.

Section mirrors.
Variables (s : LocalIds) (masters ghosts : list Z) (numHosts : nat).
Hypothesis Hcons : consistent s.
Hypothesis Hvec : localToGlobalVector s = masters ++ ghosts.
Hypothesis Hown : numOwned s = Z.of_nat (length masters).
Hypothesis Hsize : Z.of_nat (length (localToGlobalVector s)) < 2 ^ 32.

Lemma ghosts_of_eq : ghosts_of s = ghosts.
Proof.
  unfold ghosts_of. rewrite Hown, Nat2Z.id, Hvec. apply drop_app_length.
Qed.

Lemma sizes : Z.of_nat (length masters) + Z.of_nat (length ghosts) < 2 ^ 32.
Proof. pose proof Hsize as H. rewrite Hvec, length_app in H. lia. Qed.

Lemma ghost_G2L i g :
  ghosts !! i = Some g -> G2L s g = Some (numOwned s + Z.of_nat i).
Proof.
  intros Hg. unfold G2L. apply (cons_map s Hcons). split; [lia|].
  rewrite Hown, <- Nat2Z.inj_add, Nat2Z.id, Hvec, lookup_app_r by lia.
  rewrite <- Hg. f_equal. lia.
Qed.

Lemma mirror_visit_spec m mapping i g :
  masters_usable numHosts ghosts m ->
  ghosts !! i = Some g ->
  length mapping = length ghosts ->
  mirror_visit s m mapping g
  = Some (if bool_decide (g ∈ masters_vec m)
          then <[i := masters_from m]> mapping else mapping).
Proof.
  intros (Hs & Hf & Hmax & Hin) Hg Hl. unfold mirror_visit.
  rewrite (find_hostID_in_inside _ _ _ Hs
             (Hin g ltac:(eapply list_elem_of_lookup_2; eauto))).
  destruct (bool_decide (g ∈ masters_vec m)).
  - destruct (Z.ltb_spec (masters_from m) UINT32_MAX); [|lia].
    rewrite (ghost_G2L i g Hg). cbv zeta.
    pose proof (lookup_lt_Some _ _ _ Hg) as Hi. pose proof sizes.
    replace (numOwned s + Z.of_nat i - numOwned s) with (Z.of_nat i) by lia.
    rewrite wrap64_small by lia.
    destruct (Z.ltb_spec (Z.of_nat i) (Z.of_nat (length mapping))); [|lia].
    now rewrite Nat2Z.id.
  - now rewrite Z.ltb_irrefl.
Qed.

Lemma mirror_fold m : forall rest k mapping,
  masters_usable numHosts ghosts m ->
  drop k ghosts = rest ->
  length mapping = length ghosts ->
  exists mapping',
    foldl (fun acc src => acc ≫= fun mp => mirror_visit s m mp src)
          (Some mapping) rest = Some mapping' /\
    length mapping' = length ghosts /\
    forall i g, ghosts !! i = Some g ->
      mapping' !! i
      = if decide (k <= i)%nat
        then Some (if bool_decide (g ∈ masters_vec m)
                   then masters_from m else default 0 (mapping !! i))
        else mapping !! i.
Proof.
  induction rest as [|g0 rest IH]; intros k mapping Hm Hdrop Hl.
  - exists mapping. split; [reflexivity|]. split; [exact Hl|].
    intros i g Hg. apply drop_nil_inv in Hdrop.
    apply lookup_lt_Some in Hg. rewrite decide_False by lia. reflexivity.
  - assert (Hk : ghosts !! k = Some g0).
    { rewrite <- (Nat.add_0_r k), <- lookup_drop, Hdrop. reflexivity. }
    pose proof (lookup_lt_Some _ _ _ Hk) as Hkl.
    cbn [foldl mbind option_bind].
    rewrite (mirror_visit_spec m mapping k g0 Hm Hk Hl).
    set (mapping1 := if bool_decide (g0 ∈ masters_vec m)
                     then <[k := masters_from m]> mapping else mapping).
    assert (Hl1 : length mapping1 = length ghosts).
    { unfold mapping1. destruct (bool_decide _); [|exact Hl].
      now rewrite length_insert. }
    destruct (IH (S k) mapping1 Hm) as (mapping' & Hf & Hl' & Hlook).
    { replace (S k) with (k + 1)%nat by lia.
      rewrite <- drop_drop, Hdrop. reflexivity. }
    { exact Hl1. }
    exists mapping'. split; [exact Hf|]. split; [exact Hl'|].
    intros i g Hg. rewrite (Hlook i g Hg).
    destruct (decide (S k <= i)%nat), (decide (k <= i)%nat); try lia.
    + do 2 f_equal. unfold mapping1.
      destruct (bool_decide (g0 ∈ masters_vec m)); [|reflexivity].
      now rewrite list_lookup_insert_ne by lia.
    + assert (i = k) by lia. subst i.
      assert (g = g0) by congruence. subst g. unfold mapping1.
      destruct (bool_decide (g0 ∈ masters_vec m)).
      * now rewrite list_lookup_insert_eq by lia.
      * destruct (mapping !! k) eqn:Hmk; [reflexivity|].
        apply lookup_ge_None in Hmk. lia.
    + unfold mapping1.
      destruct (bool_decide (g0 ∈ masters_vec m)); [|reflexivity].
      now rewrite list_lookup_insert_ne by lia.
Qed.

Lemma mirror_rounds_spec : forall inbox mapping,
  Forall (masters_usable numHosts ghosts) inbox ->
  length mapping = length ghosts ->
  exists mapping',
    mirror_rounds (length inbox) s inbox mapping = Some mapping' /\
    length mapping' = length ghosts /\
    forall i g, ghosts !! i = Some g ->
      mapping' !! i
      = Some (foldl (fun h m => if bool_decide (g ∈ masters_vec m)
                                then masters_from m else h)
                    (default 0 (mapping !! i)) inbox).
Proof.
  induction inbox as [|m inbox IH]; intros mapping Hall Hl.
  - exists mapping. split; [reflexivity|]. split; [exact Hl|].
    intros i g Hg. cbn [foldl].
    destruct (mapping !! i) eqn:Hmi; [reflexivity|].
    apply lookup_ge_None in Hmi. apply lookup_lt_Some in Hg. lia.
  - apply Forall_cons in Hall as [Hm Hall].
    destruct (mirror_fold m ghosts 0 mapping Hm (drop_0 _) Hl)
      as (mapping1 & Hf & Hl1 & Hlook1).
    destruct (IH mapping1 Hall Hl1) as (mapping' & Hr & Hl' & Hlook).
    exists mapping'. split.
    { cbn [length mirror_rounds]. unfold mirror_round.
      rewrite ghosts_of_eq, Hf. exact Hr. }
    split; [exact Hl'|].
    intros i g Hg. rewrite (Hlook i g Hg), (Hlook1 i g Hg).
    rewrite decide_True by lia. reflexivity.
Qed.

Lemma fill_mirrors_fold mapping : forall k mirrorNodes,
  (k <= length ghosts)%nat ->
  (forall i g, ghosts !! i = Some g ->
     exists h, mapping !! i = Some (Z.of_nat h) /\
               (h < length mirrorNodes)%nat) ->
  exists mirrorNodes',
    foldl (fun acc i => acc ≫= fun mn => fill_mirror s mapping mn i)
          (Some mirrorNodes) (seq 0 k) = Some mirrorNodes' /\
    length mirrorNodes' = length mirrorNodes /\
    forall h l, mirrorNodes !! h = Some l ->
      mirrorNodes' !! h
      = Some (l ++ (filter (fun ig => mapping !! ig.1 = Some (Z.of_nat h))
                           (zip (seq 0 k) (take k ghosts))).*2).
Proof.
  induction k as [|k IH]; intros mirrorNodes Hk Hmap.
  - exists mirrorNodes. split; [reflexivity|]. split; [reflexivity|].
    intros h l Hl. cbn. now rewrite app_nil_r.
  - destruct (IH mirrorNodes ltac:(lia) Hmap) as (mn & Hf & Hlen & Hlook).
    destruct (ghosts !! k) as [g|] eqn:Hg.
    2:{ apply lookup_ge_None in Hg. lia. }
    destruct (Hmap k g Hg) as (h0 & Hm0 & Hh0).
    rewrite seq_S, foldl_app, Hf. cbn [foldl mbind option_bind Nat.add].
    unfold fill_mirror. rewrite Hm0. cbn [mbind option_bind].
    rewrite Hown, !Nat2Z.id, Hvec, lookup_app_r by lia.
    replace (length masters + k - length masters)%nat with k by lia.
    rewrite Hg. cbn [mbind option_bind]. rewrite Hlen.
    destruct (Z.leb_spec 0 (Z.of_nat h0)); [|lia].
    destruct (Z.ltb_spec (Z.of_nat h0) (Z.of_nat (length mirrorNodes)));
      [|lia].
    cbn [andb].
    eexists. split; [reflexivity|]. split; [now rewrite length_alter|].
    intros h l Hl.
    rewrite (take_S_r _ _ _ Hg), zip_with_app
      by (rewrite length_seq, length_take; lia).
    rewrite filter_app, fmap_app, app_assoc. cbn [zip zip_with].
    rewrite filter_cons, filter_nil. cbn [fst].
    destruct (decide (h0 = h)) as [->|Hne].
    + rewrite list_lookup_alter_eq, (Hlook h l Hl). cbn.
      rewrite decide_True by exact Hm0. reflexivity.
    + rewrite list_lookup_alter_ne, (Hlook h l Hl) by exact Hne.
      rewrite decide_False.
      * cbn. now rewrite app_nil_r.
      * rewrite Hm0. intros Heq. apply Hne. injection Heq. lia.
Qed.

End mirrors.

Lemma filter_zip_snd (P : nat * Z -> Prop) (Q : Z -> Prop)
    `{!forall x, Decision (P x)} `{!forall g, Decision (Q g)} :
  forall gs idx,
    length idx = length gs ->
    (forall i g, (i, g) ∈ zip idx gs -> P (i, g) <-> Q g) ->
    (filter P (zip idx gs)).*2 = filter Q gs.
Proof.
  induction gs as [|g gs IH]; intros [|i idx] Hl HPQ; try discriminate.
  - reflexivity.
  - cbn [zip zip_with]. rewrite !filter_cons.
    assert (Hrest : (filter P (zip idx gs)).*2 = filter Q gs).
    { apply IH; [now injection Hl|].
      intros i' g' Hin. apply HPQ. cbn [zip zip_with]. now right. }
    assert (Hhd : P (i, g) <-> Q g).
    { apply HPQ. cbn [zip zip_with]. now left. }
    destruct (decide (P (i, g))) as [Hp|Hp], (decide (Q g)) as [Hq|Hq].
    + rewrite fmap_cons. cbn [snd]. now rewrite Hrest.
    + now apply Hhd in Hp.
    + now apply Hhd in Hq.
    + exact Hrest.
Qed.

Lemma resolve_mirrors_spec numHosts s masters ghosts inbox mirrorNodes :
  consistent s ->
  localToGlobalVector s = masters ++ ghosts ->
  numOwned s = Z.of_nat (length masters) ->
  Z.of_nat (length (localToGlobalVector s)) < 2 ^ 32 ->
  (0 < numHosts)%nat ->
  length mirrorNodes = numHosts ->
  length inbox = (numHosts - 1)%nat ->
  Forall (masters_usable numHosts ghosts) inbox ->
  exists mirrorNodes',
    resolve_mirrors numHosts s inbox mirrorNodes = Some mirrorNodes' /\
    length mirrorNodes' = numHosts /\
    forall h l, mirrorNodes !! h = Some l ->
      mirrorNodes' !! h
      = Some (l ++ filter (fun g => resolved inbox g = Z.of_nat h) ghosts).
Proof.
  intros Hcons Hvec Hown Hsize Hn Hmn Hin Hall.
  assert (Hsz : Z.of_nat (length masters) + Z.of_nat (length ghosts) < 2 ^ 32)
    by (eapply sizes; eauto).
  assert (Hdiff : Z.of_nat (length (localToGlobalVector s)) - numOwned s
                  = Z.of_nat (length ghosts))
    by (rewrite Hvec, length_app, Hown; lia).
  assert (Hw64 : wrap64 (Z.of_nat (length ghosts)) = Z.of_nat (length ghosts))
    by (unfold wrap64; apply Z.mod_small; lia).
  assert (Hw32 : wrap32 (Z.of_nat (length ghosts)) = Z.of_nat (length ghosts))
    by (unfold wrap32; apply Z.mod_small; lia).
  destruct (mirror_rounds_spec s masters ghosts numHosts Hcons Hvec Hown
              Hsize inbox (replicate (length ghosts) 0) Hall
              (length_replicate _ _)) as (mapping & Hr & Hlm & Hlook).
  assert (Hres : forall i g, ghosts !! i = Some g ->
            mapping !! i = Some (resolved inbox g)).
  { intros i g Hg. rewrite (Hlook i g Hg).
    rewrite lookup_replicate_2 by (apply lookup_lt_Some in Hg; exact Hg).
    reflexivity. }
  edestruct (fill_mirrors_fold s masters ghosts Hvec Hown mapping
               (length ghosts) mirrorNodes) as (mn & Hf & Hlen & Hfill);
    [lia| |].
  { intros i g Hg. exists (Z.to_nat (resolved inbox g)).
    pose proof (resolved_range numHosts ghosts inbox g Hn Hall).
    rewrite Z2Nat.id by lia. split; [now apply Hres|lia]. }
  exists mn. split; [|split; [lia|]].
  - unfold resolve_mirrors, fill_mirrors.
    rewrite Hdiff, Hw64, Hw32, Nat2Z.id, <- Hin, Hr.
    cbn [mbind option_bind].
    destruct (Z.ltb_spec (Z.of_nat (length ghosts)) (2 ^ 32)); [|lia].
    exact Hf.
  - intros h l Hl. rewrite (Hfill h l Hl). do 2 f_equal.
    rewrite firstn_all. apply filter_zip_snd; [apply length_seq|].
    intros i g Hig.
    apply list_elem_of_lookup in Hig as [k Hk].
    apply lookup_zip_with_Some in Hk as (i' & g' & Heq & Hi & Hg).
    injection Heq as -> ->.
    apply lookup_seq in Hi as [-> _]. cbn [Nat.add fst].
    rewrite (Hres k g' Hg). split; [congruence|now intros ->].
Qed.


(** X16. The end of [assign_edges_phase1]: when every received list of
    masters is sorted, comes from a host of the cluster and ends no
    earlier than each ghost, the resolution succeeds and
    [mirrorNodes[h]] grows by exactly the ghosts resolved to [h] -- the
    sender of the last received list that holds the ghost, host 0 when
    no list holds it -- in the order of their local IDs; the number of
    lists stays the number of hosts. *)
Theorem resolve_mirrors_by_owner numHosts s masters ghosts inbox mirrorNodes :
  consistent s ->
  localToGlobalVector s = masters ++ ghosts ->
  numOwned s = Z.of_nat (length masters) ->
  Z.of_nat (length (localToGlobalVector s)) < 2 ^ 32 ->
  (0 < numHosts)%nat ->
  length mirrorNodes = numHosts ->
  length inbox = (numHosts - 1)%nat ->
  Forall (masters_usable numHosts ghosts) inbox ->
  exists mirrorNodes',
    resolve_mirrors numHosts s inbox mirrorNodes = Some mirrorNodes' /\
    length mirrorNodes' = numHosts /\
    forall h l, mirrorNodes !! h = Some l ->
      mirrorNodes' !! h
      = Some (l ++ filter (fun g => resolved inbox g = Z.of_nat h) ghosts).
Proof. apply resolve_mirrors_spec. Qed.

(** X18.  Once the local ids are assigned, [reset_bitset] asks for the
    reset of one range of local ids at most: [[0, numOwned - 1]], the
    masters, for [syncBroadcast] and [[numOwned, numNodes - 1]], the
    mirrors, for [syncReduce]; it makes no call when that range is
    empty, and never asks for a range in front of the masters. *)
Theorem reset_bitset_ranges s masters ghosts :
  consistent s ->
  localToGlobalVector s = masters ++ ghosts ->
  numOwned s = Z.of_nat (length masters) ->
  Z.of_nat (length (localToGlobalVector s)) < 2 ^ 32 ->
  reset_bitset s (numOwned s) syncBroadcast
  = Some (if 0 <? numOwned s then [(0, numOwned s - 1)] else []) /\
  reset_bitset s (numOwned s) syncReduce
  = Some (if numOwned s <? numNodes s
          then [(numOwned s, numNodes s - 1)] else []).
Proof.
  intros Hcons Hvec Hown Hsize.
  pose proof (cons_numNodes s Hcons) as Hnn.
  pose proof Hsize as Hlen. rewrite Hvec, length_app in Hlen, Hnn.
  assert (HG : forall l g, localToGlobalVector s !! l = Some g ->
             G2L s g = Some (Z.of_nat l)).
  { intros l g Hl. apply (cons_map s Hcons). split; [lia|].
    now rewrite Nat2Z.id. }
  unfold reset_bitset.
  destruct (Z.ltb_spec 0 (numOwned s)) as [Hpos|Hzero].
  - destruct masters as [|g0 masters']; [cbn [length] in Hown; lia|].
    assert (H0 : localToGlobalVector s !! 0%nat = Some g0)
      by now rewrite Hvec.
    assert (Hw : wrap64 (numOwned s - 1) = numOwned s - 1)
      by (unfold wrap64; apply Z.mod_small; lia).
    destruct (localToGlobalVector s !! Z.to_nat (numOwned s - 1))
      as [g1|] eqn:H1.
    2:{ apply lookup_ge_None in H1. rewrite Hvec, length_app in H1. lia. }
    rewrite H0. cbn [mbind option_bind]. rewrite (HG _ _ H0).
    cbn [mbind option_bind]. rewrite Hw, H1. cbn [mbind option_bind].
    rewrite (HG _ _ H1). cbn [mbind option_bind fst snd].
    rewrite Z2Nat.id by lia. change (Z.of_nat 0) with 0.
    change (0 <? 0) with false. cbn [app].
    assert (Hw32 : wrap32 (numNodes s - 1) = numNodes s - 1).
    { unfold wrap32. apply Z.mod_small. cbn [length] in *. lia. }
    assert (Hw1 : wrap64 (numOwned s - 1 + 1) = numOwned s).
    { unfold wrap64. rewrite Z.mod_small by lia. lia. }
    rewrite Hw32, Hw1. split; [reflexivity|].
    destruct (Z.ltb_spec (numOwned s - 1) (numNodes s - 1)),
             (Z.ltb_spec (numOwned s) (numNodes s)); (reflexivity || lia).
  - assert (Hno : numOwned s = 0) by lia.
    cbn [mbind option_bind fst snd]. split; [reflexivity|]. rewrite Hno.
    destruct (Z.ltb_spec 0 (numNodes s)); [|reflexivity].
    unfold wrap32. rewrite Z.mod_small; [reflexivity|lia].
Qed.

(** *** The second exchange on a cluster *)

Lemma sorted_is_sorted l : StronglySorted Z.lt l -> is_sorted l.
Proof.
  induction 1 as [|a l _ IH Hall]; intros i j x y Hij Hi Hj.
  - discriminate.
  - destruct i as [|i], j as [|j]; cbn in Hi, Hj.
    + injection Hi as <-. injection Hj as <-. lia.
    + injection Hi as <-. rewrite Forall_forall in Hall.
      apply list_elem_of_lookup_2, Hall in Hj. lia.
    + lia.
    + apply (IH i j x y); [lia|assumption|assumption].
Qed.

Lemma sorted_filter (P : Z -> Prop) `{!forall g, Decision (P g)} l :
  StronglySorted Z.lt l -> StronglySorted Z.lt (filter P l).
Proof.
  induction 1 as [|a l _ IH Hall]; [constructor|].
  rewrite filter_cons. destruct (decide (P a)); [|exact IH].
  constructor; [exact IH|].
  rewrite Forall_forall in *. intros x Hx.
  apply list_elem_of_filter in Hx as [_ Hx]. now apply Hall.
Qed.

Lemma length_peers_from me : forall n a,
  length (filter (fun p => p <> me) (seq a n))
  = (n - (if decide (a <= me < a + n)%nat then 1 else 0))%nat.
Proof.
  induction n as [|n IH]; intros a; [reflexivity|].
  cbn [seq]. rewrite filter_cons. specialize (IH (S a)).
  destruct (decide (a <> me)); cbn [length]; rewrite IH;
    repeat destruct (decide _); lia.
Qed.

(** The sender of the only list that holds [g]. *)
Lemma resolved_unique inbox g m :
  m ∈ inbox -> g ∈ masters_vec m ->
  (forall m', m' ∈ inbox -> g ∈ masters_vec m' ->
              masters_from m' = masters_from m) ->
  resolved inbox g = masters_from m.
Proof.
  unfold resolved. generalize 0.
  induction inbox as [|m' inbox IH] using rev_ind; intros h0 Hin Hg Huniq.
  - inversion Hin.
  - rewrite foldl_app. cbn [foldl].
    destruct (decide (g ∈ masters_vec m')) as [Hg'|Hg'].
    + rewrite bool_decide_eq_true_2 by exact Hg'.
      apply Huniq; [|exact Hg']. apply elem_of_app. right.
      now apply list_elem_of_singleton.
    + rewrite bool_decide_eq_false_2 by exact Hg'.
      apply elem_of_app in Hin as [Hin|Hin].
      * apply IH; [exact Hin|exact Hg|].
        intros m2 Hm2. apply Huniq, elem_of_app. now left.
      * apply list_elem_of_singleton in Hin. now subst m'.
Qed.

(** Phase 1 on a host of the cluster, with what the assignment is made
    of. *)
Lemma phase1_of_run hosts N me :
  cluster_ok hosts N ->
  (me < length hosts)%nat ->
  exists s bits,
    phase1_of hosts N me = Some s /\
    consistent s /\
    (forall g, bits !! g = Some true <->
       (g < N)%nat /\
       exists node, node ∈ graph hosts /\
                    wrap32 node.1 = Z.of_nat me /\ Z.of_nat g ∈ node.2) /\
    localToGlobalVector s
      = select 0 (is_master <$> (counter_of me <$> graph hosts))
        ++ select 0 (zip_with is_ghost bits (counter_of me <$> graph hosts)) /\
    numOwned s = count_masters (counter_of me <$> graph hosts).
Proof.
  intros Hok Hme.
  destruct (hosts !! me) as [r|] eqn:Hr.
  2:{ apply lookup_ge_None in Hr. lia. }
  destruct (mapM_is_Some_2 (message_from hosts N me) (peers (length hosts) me))
    as [inbox Hin].
  { apply Forall_forall. intros p Hp. apply elem_of_peers in Hp as [Hp _].
    now apply message_from_is_Some. }
  pose proof Hin as Hmsgs. apply mapM_Some in Hmsgs.
  destruct (phase1_local_ids hosts N me Hok Hme r _ inbox Hr
              (reflexivity _) Hmsgs)
    as (s & bits & Hs & Hcons & _ & Hbits & Hv & _ & _ & Ho).
  exists s, bits. split.
  { unfold phase1_of. rewrite Hr. cbn [mbind option_bind]. rewrite Hin.
    cbn [mbind option_bind]. exact Hs. }
  split; [exact Hcons|]. split; [exact Hbits|]. split; [exact Hv|exact Ho].
Qed.

(** What a host sends in the second exchange: its own number and the
    nodes the vertex-ID map gives it, in increasing order. *)
Lemma masters_of_spec hosts N p :
  cluster_ok hosts N ->
  (p < length hosts)%nat ->
  masters_of hosts N p
  = Some {| masters_from := Z.of_nat p;
            masters_vec :=
              select 0 (is_master <$> (counter_of p <$> graph hosts)) |}.
Proof.
  intros Hok Hp.
  destruct (phase1_of_run hosts N p Hok Hp) as (s & bits & Hs & _ & _ & Hv & Ho).
  unfold masters_of, masters_for. rewrite Hs. cbn [mbind option_bind].
  unfold count_masters in Ho. rewrite Ho, Hv, length_app, Nat2Z.id.
  rewrite take_app_length.
  destruct (Z.leb_spec 0 (Z.of_nat (length (select 0 (is_master <$>
              (counter_of p <$> graph hosts)))))); [|lia].
  match goal with
  | |- context [?a <=? ?b] => destruct (Z.leb_spec a b); [|lia]
  end.
  reflexivity.
Qed.

(** X17.  The second exchange on a well-formed cluster, the lists of
    the peers arriving in any order: when every peer owns a node that is
    no smaller than each ghost of the host [me], the resolution ends and
    [mirrorNodes[h]] grows by exactly the nodes that are local but not
    owned on [me] and that the vertex-ID map gives to [h], in increasing
    order. *)
Theorem mirrorNodes_hold_ghosts_of_owner hosts N me order mirrorNodes :
  cluster_ok hosts N ->
  Z.of_nat (length hosts) < 2 ^ 32 ->
  (me < length hosts)%nat ->
  order ≡ₚ peers (length hosts) me ->
  length mirrorNodes = length hosts ->
  (forall p src g,
     (p < length hosts)%nat -> p <> me ->
     owner_is hosts me src -> has_edge hosts src g ->
     ~ owner_is hosts me g ->
     exists x, owner_is hosts p x /\ g <= x) ->
  exists s inbox mirrorNodes',
    phase1_of hosts N me = Some s /\
    mapM (masters_of hosts N) order = Some inbox /\
    resolve_mirrors (length hosts) s inbox mirrorNodes = Some mirrorNodes' /\
    forall h l, mirrorNodes !! h = Some l ->
      exists added,
        mirrorNodes' !! h = Some (l ++ added) /\
        StronglySorted Z.lt added /\
        forall g, g ∈ added <->
          isLocal s g = true /\ isOwned s g = false /\ owner_is hosts h g.
Proof.
  intros Hok Hhosts Hme Hperm Hmn Hreach.
  destruct (phase1_of_run hosts N me Hok Hme)
    as (s & bits & Hs & Hcons & Hbits & Hv & Ho).
  pose proof (graph_counters_range hosts N me Hok Hme) as Hrange.
  pose proof (graph_length hosts N Hok) as Hgl.
  set (masters := select 0 (is_master <$> (counter_of me <$> graph hosts))) in *.
  set (ghosts := select 0 (zip_with is_ghost bits
                             (counter_of me <$> graph hosts))) in *.
  set (list_of := fun p : nat =>
         {| masters_from := Z.of_nat p;
            masters_vec :=
              select 0 (is_master <$> (counter_of p <$> graph hosts)) |}).
  assert (Hpeer : forall p, p ∈ order <-> (p < length hosts)%nat /\ p <> me).
  { intros p. rewrite Hperm. apply elem_of_peers. }
  (* a ghost is the end of an edge that leaves a master, and no master *)
  assert (Hghost : forall g, g ∈ ghosts ->
            0 <= g < Z.of_nat N /\ ~ owner_is hosts me g /\
            exists src, owner_is hosts me src /\ has_edge hosts src g).
  { intros g Hg. apply (ghosts_elem bits _ g Hrange) in Hg as (Hg0 & Hb & Hc).
    destruct (proj1 (Hbits _) Hb) as [HgN ([v dsts] & Hin & Hvm & Hgd)].
    split; [lia|]. split.
    - intros Hown. apply master_iff_owner in Hown.
      apply (masters_elem _ g Hrange) in Hown as [_ (c & Hc' & Hne)].
      congruence.
    - apply list_elem_of_lookup_1 in Hin as [src Hsrc].
      rewrite Z2Nat.id in Hgd by lia. cbn [fst snd] in *.
      exists (Z.of_nat src). unfold owner_is, has_edge. rewrite Nat2Z.id.
      split; (split; [lia|]); exists v, dsts; split_all. }
  (* the lists of the peers *)
  assert (Hinbox : mapM (masters_of hosts N) order = Some (list_of <$> order)).
  { apply mapM_Some_2, Forall2_fmap_r, Forall_Forall2_diag, Forall_forall.
    intros p Hp. apply Hpeer in Hp as [Hp _].
    now apply masters_of_spec. }
  assert (Husable : Forall (masters_usable (length hosts) ghosts)
                           (list_of <$> order)).
  { apply Forall_fmap, Forall_forall. intros p Hp.
    apply Hpeer in Hp as [Hp Hne]. unfold masters_usable.
    cbv [list_of masters_from masters_vec]. split; [|split; [|split]].
    - apply sorted_is_sorted, select_sorted.
    - lia.
    - unfold UINT32_MAX. lia.
    - intros g Hg. destruct (Hghost g Hg) as (_ & Hnot & src & Hsrc & He).
      destruct (Hreach p src g Hp Hne Hsrc He Hnot) as (x & Hx & Hgx).
      exists x. split; [now apply master_iff_owner|exact Hgx]. }
  assert (Hlen : Z.of_nat (length (localToGlobalVector s)) < 2 ^ 32).
  { rewrite Hv, length_app.
    pose proof (masters_ghosts_length bits (counter_of me <$> graph hosts) 0 0)
      as Hmg.
    rewrite length_fmap, Hgl in Hmg. destruct Hok as [_ HN _ _ _].
    fold masters ghosts in Hmg. lia. }
  destruct (resolve_mirrors_spec (length hosts) s masters ghosts
              (list_of <$> order) mirrorNodes Hcons Hv Ho Hlen
              ltac:(lia) Hmn)
    as (mn & Hres & _ & Hfill).
  { rewrite length_fmap, Hperm. unfold peers.
    rewrite length_peers_from. destruct (decide _); lia. }
  { exact Husable. }
  (* the host a ghost is resolved to is the host the map gives it to *)
  assert (Hresolved : forall g h, g ∈ ghosts ->
            resolved (list_of <$> order) g = Z.of_nat h <-> owner_is hosts h g).
  { intros g h Hg. destruct (Hghost g Hg) as ((Hg0 & HgN) & Hnot & _).
    destruct (graph hosts !! Z.to_nat g) as [[v dsts]|] eqn:Hn.
    2:{ apply lookup_ge_None in Hn. lia. }
    pose proof (graph_owner_valid hosts N (v, dsts) Hok
                  ltac:(eapply list_elem_of_lookup_2; eauto)) as Hvr.
    cbn [fst] in Hvr.
    assert (Hq : owner_is hosts (Z.to_nat (wrap32 v)) g).
    { split; [lia|]. exists v, dsts. split; [exact Hn|lia]. }
    assert (Hone : forall h', owner_is hosts h' g -> h' = Z.to_nat (wrap32 v)).
    { intros h' [_ (v' & d' & Hn' & Hv')]. rewrite Hn in Hn'.
      injection Hn' as <- <-. lia. }
    assert (Hqin : Z.to_nat (wrap32 v) ∈ order).
    { apply Hpeer. split; [lia|]. intros Heq. apply Hnot. now rewrite <- Heq. }
    rewrite (resolved_unique _ g (list_of (Z.to_nat (wrap32 v)))).
    - cbv [list_of masters_from]. split.
      + intros Heq. apply Nat2Z.inj in Heq. now subst h.
      + intros Hh. now rewrite (Hone h Hh).
    - apply list_elem_of_fmap. eauto.
    - cbv [list_of masters_vec]. now apply master_iff_owner.
    - intros m' Hm' Hgm'. apply list_elem_of_fmap in Hm' as (p & -> & _).
      cbv [list_of masters_vec masters_from] in *.
      apply master_iff_owner, Hone in Hgm'. now subst p. }
  exists s, (list_of <$> order), mn.
  split; [exact Hs|]. split; [exact Hinbox|]. split; [exact Hres|].
  intros h l Hl. eexists. split; [exact (Hfill h l Hl)|]. split.
  - apply sorted_filter, select_sorted.
  - intros g. rewrite list_elem_of_filter.
    rewrite <- not_true_iff_false.
    rewrite (isOwned_iff s masters ghosts g Hcons Hv Ho).
    rewrite (isLocal_iff s g Hcons), Hv, elem_of_app. split.
    + intros [Hr Hg]. destruct (Hghost g Hg) as (_ & Hnot & _).
      split; [now right|]. split.
      * intros Hm. apply Hnot. now apply master_iff_owner.
      * now apply Hresolved.
    + intros ([Hm|Hg] & Hnm & Hh); [contradiction|].
      split; [now apply Hresolved|exact Hg].
Qed.

(** ** File names *)

Lemma append_cancel_l (b x y : string) :
  String.append b x = String.append b y -> x = y.
Proof.
  induction b as [|c b IH]; cbn; intros H; [exact H|].
  injection H as H. now apply IH.
Qed.

(** Decimal digits end at a dot. *)
Lemma digits_cancel d : forall d' r r',
  String.append (NilEmpty.string_of_uint d) (String "."%char r)
  = String.append (NilEmpty.string_of_uint d') (String "."%char r') ->
  d = d' /\ r = r'.
Proof.
  induction d as [|d IH|d IH|d IH|d IH|d IH|d IH|d IH|d IH|d IH|d IH];
    intros d' r r' H; destruct d'; cbn in H; try discriminate;
    try (injection H as H; apply IH in H as [-> ->]; split; reflexivity).
  injection H as ->. split; reflexivity.
Qed.

Lemma digits_inj d d' :
  NilEmpty.string_of_uint d = NilEmpty.string_of_uint d' -> d = d'.
Proof.
  intros H.
  assert (H' : String.append (NilEmpty.string_of_uint d)
                             (String "."%char EmptyString)
               = String.append (NilEmpty.string_of_uint d')
                               (String "."%char EmptyString))
    by now rewrite H.
  now apply digits_cancel in H' as [-> _].
Qed.

Lemma name_tail_inj h n h' n' :
  String.append (to_string h) (String.append ".OF."%string (to_string n))
  = String.append (to_string h') (String.append ".OF."%string (to_string n')) ->
  h = h' /\ n = n'.
Proof.
  unfold to_string. cbn [String.append]. intros H.
  apply digits_cancel in H as [Hh Hn]. injection Hn as Hn.
  apply digits_inj in Hn.
  split; now apply Unsigned.to_uint_inj.
Qed.

(** X24.  For one base name, the names of the meta files of different
    pairs of host and number of hosts differ, so do the names of their
    partition files, and no meta file has the name of a partition
    file. *)
Theorem file_names_distinct basename h n h' n' :
  (getMetaFileName basename h n = getMetaFileName basename h' n' ->
   h = h' /\ n = n') /\
  (getPartitionFileName basename h n = getPartitionFileName basename h' n' ->
   h = h' /\ n = n') /\
  getMetaFileName basename h n <> getPartitionFileName basename h' n'.
Proof.
  unfold getMetaFileName, getPartitionFileName. split; [|split].
  - intros H. apply append_cancel_l in H. cbn [String.append] in H.
    injection H as H. now apply name_tail_inj.
  - intros H. apply append_cancel_l in H. cbn [String.append] in H.
    injection H as H. now apply name_tail_inj.
  - intros H. apply append_cancel_l in H. cbn [String.append] in H.
    discriminate.
Qed.

(** ** Reading the vertex-ID map *)

Lemma element_app_l (a b : list Byte.byte) i :
  (4 * i + 4 <= length a)%nat -> element (a ++ b) i = element a i.
Proof.
  intros H. unfold element. rewrite drop_app_le by lia.
  apply take_app_le. rewrite length_drop. lia.
Qed.

Lemma element_app_r (a b : list Byte.byte) i :
  (length a <= 4 * i)%nat ->
  element (a ++ drop (length a) b) i = element b i.
Proof.
  intros H. unfold element. rewrite drop_app_ge by lia.
  rewrite drop_drop. do 2 f_equal. lia.
Qed.

(** X22.  [readVertexIDMappingFile] with a start location returns
    [true] whenever the file opens, also when the file ends early, and
    takes [startLoc] for a byte offset: the element [i] of the vector
    gets the four bytes of the file from the byte [startLoc + 4 i] on,
    which is the [int32_t] number [q + i] of the file when
    [startLoc = 4 q]; an element that lies behind the end of the file
    keeps its bytes.  For a file that cannot be opened it returns
    [false] and leaves the vector as it is. *)
Theorem readVertexIDMappingFile_seeks_bytes bytes vertexIDMap n startLoc :
  0 < n -> 0 <= startLoc ->
  length vertexIDMap = Z.to_nat (4 * n) ->
  readVertexIDMappingFile None vertexIDMap n startLoc
    = Some (false, vertexIDMap) /\
  exists vertexIDMap',
    readVertexIDMappingFile (Some bytes) vertexIDMap n startLoc
      = Some (true, vertexIDMap') /\
    length vertexIDMap' = length vertexIDMap /\
    (forall i, (i < Z.to_nat n)%nat ->
       (Z.to_nat startLoc + 4 * i + 4 <= length bytes)%nat ->
       element vertexIDMap' i
         = take 4 (drop (Z.to_nat startLoc + 4 * i) bytes) /\
       forall q, Z.to_nat startLoc = (4 * q)%nat ->
         element vertexIDMap' i = element bytes (q + i)) /\
    (forall i, (length bytes <= Z.to_nat startLoc + 4 * i)%nat ->
       element vertexIDMap' i = element vertexIDMap i).
Proof.
  intros Hn Hs Hlen. split; [reflexivity|].
  unfold readVertexIDMappingFile.
  set (extracted := take (Z.to_nat (4 * n)) (drop (Z.to_nat startLoc) bytes)).
  assert (Hex : length extracted
                = Nat.min (Z.to_nat (4 * n))
                          (length bytes - Z.to_nat startLoc)).
  { unfold extracted. now rewrite length_take, length_drop. }
  destruct (Nat.eqb_spec (length vertexIDMap) 0); [lia|].
  destruct (Nat.leb_spec (length extracted) (length vertexIDMap)); [|lia].
  eexists. split; [reflexivity|]. split; [|split].
  - rewrite length_app, length_drop. lia.
  - intros i Hi Hfile.
    assert (Hel : element (extracted ++ drop (length extracted) vertexIDMap) i
                  = take 4 (drop (Z.to_nat startLoc + 4 * i) bytes)).
    { rewrite element_app_l by lia. unfold element, extracted.
      rewrite skipn_firstn_comm, drop_drop, take_take.
      f_equal. lia. }
    split; [exact Hel|]. intros q Hq. rewrite Hel. unfold element.
    do 2 f_equal. lia.
  - intros i Hi. apply element_app_r. lia.
Qed.

(** X23.  The constructor's read of the vertex-ID map, for a file with
    one [int32_t] for each of the [N] nodes and a host with the range
    [[first, second)]: the read succeeds and fills the vector, and the
    element [i], which the host takes for the entry of its node
    [first + i], holds the four bytes of the file from the byte
    [first + 4 i] on; that is the file's entry of the node [q + i] when
    [first = 4 q], the node's own entry for a range that starts
    at 0. *)
Theorem read_vertexIDMap_entries bytes first second N :
  length bytes = (4 * N)%nat ->
  0 <= first < second -> second <= Z.of_nat N -> Z.of_nat N < 2 ^ 32 ->
  exists vertexIDMap,
    read_vertexIDMap (Some bytes) first second = Some (true, vertexIDMap) /\
    length vertexIDMap = Z.to_nat (4 * (second - first)) /\
    forall i, (i < Z.to_nat (second - first))%nat ->
      element vertexIDMap i = take 4 (drop (Z.to_nat first + 4 * i) bytes) /\
      forall q, Z.to_nat first = (4 * q)%nat ->
        element vertexIDMap i = element bytes (q + i).
Proof.
  intros Hbytes Hfs HsN HN.
  unfold read_vertexIDMap, readVertexIDMappingFile.
  assert (Hw64 : wrap64 (second - first) = second - first)
    by (unfold wrap64; apply Z.mod_small; lia).
  assert (Hw32 : wrap32 (second - first) = second - first)
    by (unfold wrap32; apply Z.mod_small; lia).
  assert (Hwf : wrap32 first = first)
    by (unfold wrap32; apply Z.mod_small; lia).
  rewrite Hw64, Hw32, Hwf, length_replicate.
  set (count := Z.to_nat (4 * (second - first))).
  set (extracted := take count (drop (Z.to_nat first) bytes)).
  assert (Hex : length extracted = count).
  { unfold extracted. rewrite length_take, length_drop. lia. }
  destruct (Nat.eqb_spec count 0); [lia|].
  destruct (Nat.leb_spec (length extracted) count); [|lia].
  eexists. split; [reflexivity|]. split.
  { rewrite length_app, length_drop, length_replicate. lia. }
  intros i Hi.
  assert (Hel : element (extracted ++ drop (length extracted)
                                        (replicate count Byte.x00)) i
                = take 4 (drop (Z.to_nat first + 4 * i) bytes)).
  { rewrite element_app_l by lia. unfold element, extracted.
    rewrite skipn_firstn_comm, drop_drop, take_take. f_equal. lia. }
  split; [exact Hel|]. intros q Hq. rewrite Hel. unfold element.
  do 2 f_equal. lia.
Qed.

(** ** Phase 2: edge distribution *)

Lemma slots_app l1 : forall cur l2,
  slots cur (l1 ++ l2)
  = slots cur l1 ++ slots (cur + Z.of_nat (length l1)) l2.
Proof.
  induction l1 as [|x l1 IH]; intros cur l2.
  - cbn [app slots length]. now rewrite Z.add_0_r.
  - cbn [app slots length]. rewrite IH. do 3 f_equal. lia.
Qed.

Lemma length_slots l : forall cur, length (slots cur l) = length l.
Proof.
  induction l as [|x l IH]; intros cur; [reflexivity|].
  cbn [slots length]. now rewrite IH.
Qed.

Lemma lid_Some s g : is_Some (G2L s g) -> G2L s g = Some (lid s g).
Proof. intros [l Hl]. unfold lid. now rewrite Hl. Qed.

Lemma keep_edges_spec s dsts : forall cur calls,
  Forall (fun gdst => is_Some (G2L s gdst)) dsts ->
  0 <= cur -> cur + Z.of_nat (length dsts) < 2 ^ 64 ->
  keep_edges s dsts cur calls
  = Some (calls ++ slots cur (lid s <$> dsts),
          cur + Z.of_nat (length dsts)).
Proof.
  induction dsts as [|gdst dsts IH]; intros cur calls Hall H0 Hlt.
  - cbn. now rewrite app_nil_r, Z.add_0_r.
  - apply Forall_cons in Hall as [Hg Hall].
    cbn [keep_edges length] in *. rewrite (lid_Some _ _ Hg).
    assert (Hw : wrap64 (cur + 1) = cur + 1)
      by (unfold wrap64; apply Z.mod_small; lia).
    rewrite Hw, IH by (assumption || lia).
    rewrite fmap_cons. cbn [slots]. rewrite <- app_assoc. cbn [app].
    do 2 f_equal. lia.
Qed.

Lemma deserialize_loop_spec s dsts : forall pre cur calls,
  Forall (fun gdst => is_Some (G2L s gdst)) dsts ->
  deserialize_loop (length dsts) s (pre ++ dsts) (length pre) cur calls
  = Some (calls ++ slots cur (lid s <$> dsts)).
Proof.
  induction dsts as [|gdst dsts IH]; intros pre cur calls Hall.
  - cbn. now rewrite app_nil_r.
  - apply Forall_cons in Hall as [Hg Hall].
    cbn [length deserialize_loop].
    rewrite lookup_app_r, Nat.sub_diag by lia. cbn [lookup list_lookup].
    rewrite (lid_Some _ _ Hg).
    replace (pre ++ gdst :: dsts) with ((pre ++ [gdst]) ++ dsts)
      by now rewrite <- app_assoc.
    replace (S (length pre)) with (length (pre ++ [gdst]))
      by (rewrite length_app; cbn [length]; lia).
    rewrite IH by assumption.
    rewrite fmap_cons. cbn [slots]. now rewrite <- app_assoc.
Qed.

(** A read of [gdst_vec] behind its end. *)
Lemma deserialize_loop_short s gdst_vec : forall n i cur calls,
  (length gdst_vec < i + S n)%nat ->
  deserialize_loop (S n) s gdst_vec i cur calls = None.
Proof.
  induction n as [|n IH]; intros i cur calls Hlt.
  - cbn [deserialize_loop]. rewrite lookup_ge_None_2 by lia. reflexivity.
  - cbn [deserialize_loop] in *.
    destruct (gdst_vec !! i) as [gdst|] eqn:Hi; [|reflexivity].
    destruct (G2L s gdst); [|reflexivity].
    apply IH. lia.
Qed.

Lemma assign_to_spec h dsts : forall gdst_vec,
  (h < length gdst_vec)%nat ->
  assign_to (Z.of_nat h) dsts gdst_vec
  = Some (alter (fun v => v ++ dsts) h gdst_vec).
Proof.
  induction dsts as [|gdst dsts IH]; intros gdst_vec Hh.
  - cbn [assign_to]. f_equal. symmetry. apply list_eq. intros i.
    destruct (decide (i = h)) as [->|Hne].
    + rewrite list_lookup_alter_eq. destruct (gdst_vec !! h); [|reflexivity].
      cbn. now rewrite app_nil_r.
    + now rewrite list_lookup_alter_ne.
  - cbn [assign_to].
    destruct (Z.ltb_spec (Z.of_nat h) (Z.of_nat (length gdst_vec))); [|lia].
    rewrite Nat2Z.id, IH by (rewrite length_alter; lia).
    f_equal. apply list_eq. intros i.
    destruct (decide (i = h)) as [->|Hne].
    + rewrite !list_lookup_alter_eq. destruct (gdst_vec !! h); [|reflexivity].
      cbn. now rewrite <- app_assoc.
    + now rewrite !list_lookup_alter_ne.
Qed.

Lemma default_Some {A} (d x : A) : default d (Some x) = x.
Proof. reflexivity. Qed.

Lemma records_sent_app h sent1 sent2 :
  records_sent h (sent1 ++ sent2) = records_sent h sent1 ++ records_sent h sent2.
Proof.
  unfold records_sent. now rewrite filter_app, fmap_app, concat_app.
Qed.

Lemma records_sent_one h h' b :
  records_sent h [(h', b)] = if decide (h' = h) then b else [].
Proof.
  unfold records_sent. rewrite filter_cons, filter_nil. cbn [fst].
  destruct (decide (h' = h)); cbn; [apply app_nil_r|reflexivity].
Qed.

Section loading.
Variables (edge_begin : Z -> option Z).
Variable buffer_size : list EdgeRecord -> Z.
Variable partition_edge_send_buffer_size : Z.
Variables (id numHosts : nat) (globalOffset : Z) (vertexIDMap : list Z).
Variable s : LocalIds.

Local Abbreviation send_to' :=
  (send_to buffer_size partition_edge_send_buffer_size id).

(** What the send loop adds for the host [h'] when it visits [h]. *)
Lemma send_to_spec src gdst_vec st h v :
  gdst_vec !! h = Some v ->
  (h < length (sendBuffers st))%nat ->
  exists st',
    send_to' src gdst_vec st h = Some st' /\
    ld_calls st' = ld_calls st /\
    length (sendBuffers st') = length (sendBuffers st) /\
    forall h',
      records_to h' st'
      = records_to h' st
        ++ (if decide (h' = h /\ h <> id /\ v <> []) then [(src, v)] else []).
Proof.
  intros Hv Hh. unfold send_to.
  destruct (Nat.eqb_spec h id) as [->|Hne].
  { exists st. split_and!; try reflexivity. intros h'.
    rewrite decide_False by tauto. now rewrite app_nil_r. }
  rewrite Hv.
  destruct (sendBuffers st !! h) as [b|] eqn:Hb.
  2:{ apply lookup_ge_None in Hb. lia. }
  destruct v as [|gdst v'].
  { exists st. split_and!; try reflexivity. intros h'.
    rewrite decide_False by tauto. now rewrite app_nil_r. }
  cbn [length Nat.eqb].
  destruct (partition_edge_send_buffer_size <? buffer_size _).
  - eexists. split; [reflexivity|]. cbn [ld_calls sendBuffers ld_sent].
    split; [reflexivity|]. split; [apply length_insert|].
    intros h'. unfold records_to. cbn [ld_calls sendBuffers ld_sent].
    rewrite records_sent_app, records_sent_one.
    destruct (decide (h = h')) as [<-|Hne'].
    + rewrite list_lookup_insert_eq, Hb by exact Hh.
      rewrite decide_True by (split_and!; [reflexivity|exact Hne|discriminate]).
      rewrite !default_Some. now rewrite !app_nil_r, !app_assoc.
    + rewrite list_lookup_insert_ne by exact Hne'.
      rewrite decide_False by (intros [-> _]; now apply Hne').
      now rewrite !app_nil_r.
  - eexists. split; [reflexivity|]. cbn [ld_calls sendBuffers ld_sent].
    split; [reflexivity|]. split; [apply length_insert|].
    intros h'. unfold records_to. cbn [ld_calls sendBuffers ld_sent].
    destruct (decide (h = h')) as [<-|Hne'].
    + rewrite list_lookup_insert_eq, Hb by exact Hh.
      rewrite decide_True by (split_and!; [reflexivity|exact Hne|discriminate]).
      rewrite !default_Some. now rewrite !app_assoc.
    + rewrite list_lookup_insert_ne by exact Hne'.
      rewrite decide_False by (intros [-> _]; now apply Hne').
      now rewrite !app_nil_r.
Qed.

(** The buffers sent go to other hosts of the cluster. *)
Local Abbreviation sent_ok st :=
  (Forall (fun m : nat * list (Z * list Z) =>
             m.1 <> id /\ (m.1 < numHosts)%nat) (ld_sent st)).

Lemma send_to_sent src gdst_vec st h st' :
  (h < numHosts)%nat ->
  send_to' src gdst_vec st h = Some st' ->
  sent_ok st -> sent_ok st'.
Proof.
  intros Hh Hs Hok. unfold send_to in Hs.
  destruct (Nat.eqb_spec h id) as [->|Hne]; [now injection Hs as <-|].
  destruct (gdst_vec !! h) as [v|]; [|discriminate].
  destruct (sendBuffers st !! h) as [b|]; [|discriminate].
  destruct (length v =? 0)%nat; [now injection Hs as <-|].
  destruct (partition_edge_send_buffer_size <? buffer_size _);
    injection Hs as <-; cbn [ld_sent]; [|exact Hok].
  apply Forall_app. split; [exact Hok|]. now repeat constructor.
Qed.

Lemma send_fold src gdst_vec : forall hs st,
  NoDup hs ->
  Forall (fun h => (h < numHosts)%nat) hs ->
  length gdst_vec = numHosts ->
  length (sendBuffers st) = numHosts ->
  sent_ok st ->
  exists st',
    foldl (fun acc h' => acc ≫= fun st' => send_to' src gdst_vec st' h')
          (Some st) hs = Some st' /\
    ld_calls st' = ld_calls st /\
    length (sendBuffers st') = numHosts /\
    sent_ok st' /\
    forall h',
      records_to h' st'
      = records_to h' st
        ++ (if decide (h' ∈ hs /\ h' <> id /\ default [] (gdst_vec !! h') <> [])
            then [(src, default [] (gdst_vec !! h'))] else []).
Proof.
  induction hs as [|h hs IH]; intros st Hnd Hlt Hgl Hbl Hok.
  - exists st. split_and!; try reflexivity; try assumption. intros h'.
    rewrite decide_False by (intros [Hin _]; inversion Hin).
    now rewrite app_nil_r.
  - apply NoDup_cons in Hnd as [Hnin Hnd].
    apply Forall_cons in Hlt as [Hh Hlt].
    destruct (lookup_lt_is_Some_2 gdst_vec h ltac:(lia)) as [v Hv].
    destruct (send_to_spec src gdst_vec st h v Hv ltac:(lia))
      as (st1 & Hs1 & Hc1 & Hl1 & Hr1).
    pose proof (send_to_sent _ _ _ _ _ Hh Hs1 Hok) as Hok1.
    destruct (IH st1 Hnd Hlt Hgl ltac:(lia) Hok1)
      as (st' & Hf & Hc & Hl & Hok' & Hr).
    exists st'. cbn [foldl mbind option_bind]. rewrite Hs1.
    split; [exact Hf|]. split; [congruence|]. split; [exact Hl|].
    split; [exact Hok'|].
    intros h'. rewrite Hr, Hr1, <- app_assoc. f_equal.
    destruct (decide (h' = h)) as [->|Hne].
    + rewrite Hv, default_Some.
      destruct (decide (h <> id /\ v <> [])) as [[H1 H2]|Hno].
      * rewrite decide_True by tauto.
        rewrite decide_False by tauto.
        rewrite decide_True by (split_and!; [now left|exact H1|exact H2]).
        reflexivity.
      * rewrite decide_False by tauto.
        rewrite decide_False by tauto.
        rewrite decide_False by tauto. reflexivity.
    + rewrite decide_False by tauto. cbn [app].
      destruct (decide (h' ∈ hs /\ h' <> id /\ default [] (gdst_vec !! h') <> []))
        as [(H1 & H2 & H3)|Hno].
      * rewrite decide_True by (split_and!; [now right|exact H2|exact H3]).
        reflexivity.
      * rewrite decide_False; [reflexivity|].
        intros (H1 & H2 & H3). apply Hno. split_and!; try assumption.
        apply elem_of_cons in H1 as [H1|H1]; [contradiction|exact H1].
Qed.

Lemma load_src_spec k dsts st :
  loadable edge_begin id numHosts globalOffset vertexIDMap s k dsts ->
  length (sendBuffers st) = numHosts ->
  sent_ok st ->
  exists v st',
    vertexIDMap !! k = Some v /\
    load_src edge_begin buffer_size partition_edge_send_buffer_size
             id numHosts globalOffset vertexIDMap s k dsts st = Some st' /\
    ld_calls st'
      = ld_calls st
        ++ calls_for id edge_begin s (globalOffset + Z.of_nat k) [(v, dsts)] /\
    length (sendBuffers st') = numHosts /\
    sent_ok st' /\
    forall h, h <> id ->
      records_to h st'
      = records_to h st
        ++ records_for h (globalOffset + Z.of_nat k) [(v, dsts)].
Proof.
  intros (hn & Hf & Hhn & Hown) Hbl Hok.
  pose proof Hf as Hfv. unfold find_hostID in Hfv.
  apply fmap_Some in Hfv as (v & Hv & Hvw).
  exists v. unfold load_src. rewrite Hf. cbn [mbind option_bind].
  cbn [calls_for records_for fst snd]. rewrite <- Hvw.
  destruct (Z.eqb_spec (Z.of_nat hn) (Z.of_nat id)) as [Heq|Hne].
  - apply Nat2Z.inj in Heq. subst hn.
    destruct (Hown eq_refl) as (lsrc & cur & Hl & Hb & H0 & Hlt & Hall).
    rewrite Hl. cbn [mbind option_bind]. rewrite Hb. cbn [mbind option_bind].
    rewrite (keep_edges_spec s dsts cur _ Hall H0 Hlt).
    cbn [mbind option_bind fst snd].
    match goal with
    | |- context [foldl _ (Some ?st0) _] =>
        destruct (send_fold (globalOffset + Z.of_nat k)
                    (replicate numHosts []) (seq 0 numHosts) st0)
          as (st' & Hfold & Hc & Hlen & Hok' & Hr)
    end.
    { apply NoDup_seq. }
    { apply Forall_forall. intros h Hh. apply elem_of_seq in Hh. lia. }
    { apply length_replicate. }
    { exact Hbl. }
    { exact Hok. }
    exists st'. split; [exact Hv|]. split; [exact Hfold|].
    cbn [ld_calls] in Hc. split.
    { rewrite Hc, decide_True by reflexivity. rewrite app_nil_r.
      unfold node_calls.
      replace (lid s (globalOffset + Z.of_nat k)) with lsrc
        by (unfold lid; now rewrite Hl).
      now rewrite Hb, default_Some. }
    split; [exact Hlen|]. split; [exact Hok'|].
    intros h Hh. rewrite Hr. unfold records_to at 2.
    cbn [ld_sent sendBuffers]. fold (records_to h st). f_equal.
    rewrite decide_False.
    2:{ intros (Hin & _ & Hne). apply Hne. apply elem_of_seq in Hin.
        rewrite lookup_replicate_2 by lia. reflexivity. }
    rewrite decide_False; [reflexivity|].
    intros [Heq _]. apply Nat2Z.inj in Heq. congruence.
  - rewrite (assign_to_spec hn dsts)
      by (rewrite length_replicate; exact Hhn).
    cbn [mbind option_bind fst snd].
    match goal with
    | |- context [foldl _ (Some ?st0) _] =>
        destruct (send_fold (globalOffset + Z.of_nat k)
                    (alter (fun v => v ++ dsts) hn (replicate numHosts []))
                    (seq 0 numHosts) st0)
          as (st' & Hfold & Hc & Hlen & Hok' & Hr)
    end.
    { apply NoDup_seq. }
    { apply Forall_forall. intros h Hh. apply elem_of_seq in Hh. lia. }
    { rewrite length_alter. apply length_replicate. }
    { exact Hbl. }
    { exact Hok. }
    exists st'. split; [exact Hv|]. split; [exact Hfold|].
    cbn [ld_calls] in Hc. split.
    { rewrite Hc, decide_False by exact Hne. now rewrite !app_nil_r. }
    split; [exact Hlen|]. split; [exact Hok'|].
    intros h Hh. rewrite Hr. unfold records_to at 2.
    cbn [ld_sent sendBuffers]. fold (records_to h st). f_equal.
    rewrite app_nil_r.
    destruct (decide (h = hn)) as [->|Hhne].
    + rewrite list_lookup_alter_eq, lookup_replicate_2 by exact Hhn.
      cbn [fmap option_fmap option_map app]. rewrite default_Some.
      destruct (decide (dsts = [])) as [->|Hd].
      * rewrite decide_False by tauto. rewrite decide_False by tauto.
        reflexivity.
      * rewrite decide_True
          by (split_and!; [apply elem_of_seq; lia|exact Hh|exact Hd]).
        rewrite decide_True by tauto. reflexivity.
    + rewrite list_lookup_alter_ne by (intros ->; now apply Hhne).
      rewrite decide_False.
      2:{ intros (Hin & _ & Hnil). apply Hnil. apply elem_of_seq in Hin.
          rewrite lookup_replicate_2 by lia. reflexivity. }
      rewrite decide_False; [reflexivity|].
      intros [Heq _]. apply Nat2Z.inj in Heq. congruence.
Qed.

Lemma load_from_spec : forall edges k st,
  (forall j dsts, edges !! j = Some dsts ->
     loadable edge_begin id numHosts globalOffset vertexIDMap s
              (k + j) dsts) ->
  length (sendBuffers st) = numHosts ->
  sent_ok st ->
  exists st',
    load_from edge_begin buffer_size partition_edge_send_buffer_size
              id numHosts globalOffset vertexIDMap s k edges st = Some st' /\
    ld_calls st'
      = ld_calls st
        ++ calls_for id edge_begin s (globalOffset + Z.of_nat k)
                     (zip (drop k vertexIDMap) edges) /\
    length (sendBuffers st') = numHosts /\
    sent_ok st' /\
    forall h, h <> id ->
      records_to h st'
      = records_to h st
        ++ records_for h (globalOffset + Z.of_nat k)
                       (zip (drop k vertexIDMap) edges).
Proof.
  induction edges as [|dsts edges IH]; intros k st Hload Hbl Hok.
  - exists st. cbn [load_from]. rewrite zip_with_nil_r.
    cbn [calls_for records_for]. rewrite app_nil_r.
    split_and!; try reflexivity; try assumption.
    intros h _. now rewrite app_nil_r.
  - pose proof (Hload 0%nat dsts eq_refl) as H0. rewrite Nat.add_0_r in H0.
    destruct (load_src_spec k dsts st H0 Hbl Hok)
      as (v & st1 & Hv & Hs1 & Hc1 & Hl1 & Hok1 & Hr1).
    destruct (IH (S k) st1) as (st' & Hf & Hc & Hl & Hok' & Hr);
      [|exact Hl1|exact Hok1|].
    { intros j d Hj. replace (S k + j)%nat with (k + S j)%nat by lia.
      now apply Hload. }
    exists st'. cbn [load_from]. rewrite Hs1.
    split; [exact Hf|].
    rewrite (drop_S _ _ _ Hv). cbn [zip zip_with calls_for records_for].
    cbn [calls_for records_for] in Hc1, Hr1. rewrite app_nil_r in Hc1.
    replace (globalOffset + Z.of_nat k + 1)
      with (globalOffset + Z.of_nat (S k)) by lia.
    split; [rewrite Hc, Hc1; now rewrite <- app_assoc|].
    split; [exact Hl|]. split; [exact Hok'|].
    intros h Hh. rewrite (Hr h Hh), (Hr1 h Hh), app_nil_r.
    now rewrite <- app_assoc.
Qed.

Hypothesis Hsize : forall b, b <> [] -> 0 < buffer_size b.

Lemma flush_fold : forall hs st,
  Forall (fun h => (h < numHosts)%nat) hs ->
  length (sendBuffers st) = numHosts ->
  sent_ok st ->
  exists st',
    foldl (fun acc h => acc ≫= fun st' => flush_to buffer_size id st' h)
          (Some st) hs = Some st' /\
    ld_calls st' = ld_calls st /\
    length (sendBuffers st') = numHosts /\
    sent_ok st' /\
    (forall h, records_to h st' = records_to h st) /\
    (forall h, h <> id ->
       sendBuffers st' !! h
       = if decide (h ∈ hs) then Some [] else sendBuffers st !! h).
Proof.
  induction hs as [|h hs IH]; intros st Hlt Hbl Hok.
  - exists st. split_and!; try reflexivity; assumption.
  - apply Forall_cons in Hlt as [Hh Hlt].
    assert (Hstep : exists st1,
              flush_to buffer_size id st h = Some st1 /\
              ld_calls st1 = ld_calls st /\
              length (sendBuffers st1) = numHosts /\
              sent_ok st1 /\
              (forall h', records_to h' st1 = records_to h' st) /\
              (forall h', h' <> id ->
                 sendBuffers st1 !! h'
                 = if decide (h' = h) then Some [] else sendBuffers st !! h')).
    { unfold flush_to.
      destruct (Nat.eqb_spec h id) as [->|Hne].
      { exists st. split_and!; try reflexivity; try assumption.
        intros h' Hh'. now rewrite decide_False. }
      destruct (sendBuffers st !! h) as [b|] eqn:Hb.
      2:{ apply lookup_ge_None in Hb. lia. }
      destruct (Z.ltb_spec 0 (buffer_size b)) as [Hpos|Hzero].
      - eexists. split; [reflexivity|]. cbn [ld_calls sendBuffers ld_sent].
        split; [reflexivity|].
        split; [now rewrite length_insert|].
        split; [apply Forall_app; split; [exact Hok|now repeat constructor]|].
        split.
        + intros h'. unfold records_to. cbn [sendBuffers ld_sent].
          rewrite records_sent_app, records_sent_one.
          destruct (decide (h = h')) as [<-|Hne'].
          * rewrite list_lookup_insert_eq, Hb, !default_Some by lia.
            now rewrite app_nil_r.
          * rewrite list_lookup_insert_ne by exact Hne'.
            now rewrite app_nil_r.
        + intros h' Hh'. destruct (decide (h' = h)) as [->|Hne'].
          * now rewrite list_lookup_insert_eq by lia.
          * rewrite list_lookup_insert_ne; [reflexivity|].
            intros ->. now apply Hne'.
      - assert (b = []) as ->.
        { destruct b as [|x b]; [reflexivity|].
          pose proof (Hsize (x :: b) ltac:(discriminate)). lia. }
        exists st. split_and!; try reflexivity; try assumption.
        intros h' Hh'. destruct (decide (h' = h)) as [->|]; [|reflexivity].
        exact Hb. }
    destruct Hstep as (st1 & Hs1 & Hc1 & Hl1 & Hok1 & Hr1 & Hb1).
    destruct (IH st1 Hlt Hl1 Hok1) as (st' & Hf & Hc & Hl & Hok' & Hr & Hb').
    exists st'. cbn [foldl mbind option_bind]. rewrite Hs1.
    split; [exact Hf|]. split; [congruence|]. split; [exact Hl|].
    split; [exact Hok'|]. split; [intros h'; now rewrite Hr, Hr1|].
    intros h' Hh'. rewrite (Hb' h' Hh').
    destruct (decide (h' ∈ hs)) as [Hin|Hnin].
    + rewrite decide_True by now right. reflexivity.
    + rewrite (Hb1 h' Hh'). destruct (decide (h' = h)) as [->|Hne].
      * rewrite decide_True by now left. reflexivity.
      * rewrite decide_False; [reflexivity|].
        intros Hin. apply elem_of_cons in Hin as [?|?]; contradiction.
Qed.

Lemma assign_load_send_edges_spec edges :
  (forall k dsts, edges !! k = Some dsts ->
     loadable edge_begin id numHosts globalOffset vertexIDMap s k dsts) ->
  exists calls sent,
    assign_load_send_edges edge_begin buffer_size
      partition_edge_send_buffer_size id numHosts globalOffset vertexIDMap
      s edges = Some (calls, sent) /\
    calls = calls_for id edge_begin s globalOffset (zip vertexIDMap edges) /\
    Forall (fun m : nat * list (Z * list Z) =>
              m.1 <> id /\ (m.1 < numHosts)%nat) sent /\
    forall h, (h < numHosts)%nat -> h <> id ->
      records_sent h sent = records_for h globalOffset (zip vertexIDMap edges).
Proof.
  intros Hload. unfold assign_load_send_edges.
  match goal with
  | |- context [load_from _ _ _ _ _ _ _ _ _ _ ?st0] =>
      destruct (load_from_spec edges 0 st0) as (st1 & Hs1 & Hc1 & Hl1 & Hok1 & Hr1)
  end.
  { exact Hload. }
  { apply length_replicate. }
  { constructor. }
  rewrite Hs1. cbn [mbind option_bind].
  destruct (flush_fold (seq 0 numHosts) st1) as (st' & Hf & Hc & Hl & Hok' & Hr & Hb);
    [|exact Hl1|exact Hok1|].
  { apply Forall_forall. intros h Hh. apply elem_of_seq in Hh. lia. }
  rewrite Hf. cbn [mbind option_bind].
  exists (ld_calls st'), (ld_sent st'). split; [reflexivity|].
  cbn [ld_calls ld_sent sendBuffers] in *.
  rewrite drop_0, Z.add_0_r in *.
  split; [now rewrite Hc, Hc1|]. split; [exact Hok'|].
  intros h Hh Hne.
  pose proof (Hr h) as Hrh. unfold records_to at 1 in Hrh.
  rewrite (Hb h Hne), decide_True, default_Some, app_nil_r in Hrh
    by (apply elem_of_seq; lia).
  rewrite Hrh, (Hr1 h Hne). unfold records_to. cbn [ld_sent sendBuffers].
  rewrite lookup_replicate_2 by exact Hh. reflexivity.
Qed.

End loading.

Lemma edges_in_cons (rec : Z * list Z) records :
  edges_in (rec :: records) = Z.of_nat (length rec.2) + edges_in records.
Proof.
  unfold edges_in. rewrite fmap_cons. cbn [concat].
  rewrite length_app. lia.
Qed.

Lemma edges_in_app records1 records2 :
  edges_in (records1 ++ records2) = edges_in records1 + edges_in records2.
Proof.
  unfold edges_in. rewrite fmap_app, concat_app, length_app. lia.
Qed.

Lemma edges_in_nonneg records : 0 <= edges_in records.
Proof. unfold edges_in. lia. Qed.

Lemma edges_in_zero edge_begin s records :
  edges_in records = 0 ->
  concat ((fun rec : Z * list Z => node_calls edge_begin s rec.1 rec.2)
          <$> records) = [].
Proof.
  induction records as [|[src dsts] records IH]; [reflexivity|].
  rewrite edges_in_cons. cbn [snd fst]. intros H.
  pose proof (edges_in_nonneg records).
  rewrite fmap_cons. cbn [concat fst snd]. rewrite IH by lia.
  destruct dsts; [reflexivity|cbn [length] in H; lia].
Qed.

Section receiving.
Variables (edge_begin edge_end : Z -> option Z) (s : LocalIds).

Local Abbreviation record_calls :=
  (fun rec : Z * list Z => node_calls edge_begin s rec.1 rec.2).

Lemma receive_record_spec st rec :
  receivable edge_begin edge_end s rec ->
  receive_record edge_begin edge_end s st rec
  = Some (wrap64 (st.1 - Z.of_nat (length rec.2)), st.2 ++ record_calls rec).
Proof.
  intros (lsrc & cur & Hl & Hb & He & Hall). unfold receive_record.
  rewrite Hl. cbn [mbind option_bind]. rewrite Hb, He.
  cbn [mbind option_bind]. unfold deserializeEdges.
  replace (Z.to_nat (cur + Z.of_nat (length rec.2) - cur))
    with (length rec.2) by lia.
  pose proof (deserialize_loop_spec s rec.2 [] cur st.2 Hall) as Hd.
  cbn [app length] in Hd. rewrite Hd.
  cbn [mbind option_bind]. unfold node_calls.
  replace (lid s rec.1) with lsrc by (unfold lid; now rewrite Hl).
  now rewrite Hb, default_Some.
Qed.

Lemma wrap64_sub_sub a b c : wrap64 (wrap64 (a - b) - c) = wrap64 (a - (b + c)).
Proof.
  unfold wrap64. rewrite Zminus_mod_idemp_l. f_equal. lia.
Qed.

(** The counter goes down by the number of destinations, whatever the
    records are. *)
Lemma receive_records_counter : forall records st st',
  0 <= st.1 < 2 ^ 64 ->
  receive_records edge_begin edge_end s records st = Some st' ->
  st'.1 = wrap64 (st.1 - edges_in records).
Proof.
  induction records as [|rec records IH]; intros st st' Hst H.
  - cbn [receive_records] in H. injection H as <-.
    unfold edges_in, wrap64. cbn [fmap list_fmap concat length].
    rewrite Z.sub_0_r. symmetry. now apply Z.mod_small.
  - cbn [receive_records] in H.
    destruct (receive_record edge_begin edge_end s st rec) as [st1|] eqn:H1;
      [|discriminate].
    assert (Hst1 : st1.1 = wrap64 (st.1 - Z.of_nat (length rec.2))).
    { unfold receive_record in H1.
      destruct (G2L s rec.1); [|discriminate]. cbn [mbind option_bind] in H1.
      destruct (edge_begin _); [|discriminate]. cbn [mbind option_bind] in H1.
      destruct (edge_end _); [|discriminate]. cbn [mbind option_bind] in H1.
      destruct (deserializeEdges _ _ _ _ _); [|discriminate].
      cbn [mbind option_bind] in H1. now injection H1 as <-. }
    rewrite (IH _ _ ltac:(rewrite Hst1; apply Z.mod_pos_bound; lia) H).
    rewrite Hst1, edges_in_cons. apply wrap64_sub_sub.
Qed.

Lemma receive_records_spec : forall records st,
  Forall (receivable edge_begin edge_end s) records ->
  0 <= edges_in records <= st.1 -> st.1 < 2 ^ 64 ->
  receive_records edge_begin edge_end s records st
  = Some (st.1 - edges_in records,
          st.2 ++ concat (record_calls <$> records)).
Proof.
  induction records as [|rec records IH]; intros st Hall Hle Hlt.
  - cbn. rewrite app_nil_r. unfold edges_in. cbn. rewrite Z.sub_0_r.
    now destruct st.
  - apply Forall_cons in Hall as [Hrec Hall].
    rewrite edges_in_cons in Hle. pose proof (edges_in_nonneg records).
    cbn [receive_records]. rewrite (receive_record_spec st rec Hrec).
    assert (Hw : wrap64 (st.1 - Z.of_nat (length rec.2))
                 = st.1 - Z.of_nat (length rec.2))
      by (unfold wrap64; apply Z.mod_small; lia).
    rewrite Hw, IH by (cbn [fst]; (assumption || lia)).
    cbn [fst snd]. rewrite edges_in_cons, fmap_cons. cbn [concat].
    rewrite <- app_assoc. do 2 f_equal. lia.
Qed.

Lemma receive_edges_spec : forall inbox calls,
  Forall (Forall (receivable edge_begin edge_end s)) inbox ->
  edges_in (concat inbox) < 2 ^ 64 ->
  receive_edges edge_begin edge_end s inbox (edges_in (concat inbox)) calls
  = Some (calls ++ concat (record_calls <$> concat inbox)).
Proof.
  induction inbox as [|records inbox IH]; intros calls Hall Hlt.
  - cbn. now rewrite app_nil_r.
  - apply Forall_cons in Hall as [Hrec Hall].
    cbn [concat] in *. rewrite edges_in_app in *.
    pose proof (edges_in_nonneg records).
    pose proof (edges_in_nonneg (concat inbox)).
    cbn [receive_edges].
    destruct (Z.eqb_spec (edges_in records + edges_in (concat inbox)) 0)
      as [Hz|Hnz].
    + rewrite fmap_app, concat_app.
      rewrite (edges_in_zero edge_begin s records) by lia.
      rewrite (edges_in_zero edge_begin s (concat inbox)) by lia.
      now rewrite !app_nil_r.
    + rewrite receive_records_spec by (cbn [fst]; (assumption || lia)).
      cbn [fst snd].
      replace (edges_in records + edges_in (concat inbox) - edges_in records)
        with (edges_in (concat inbox)) by lia.
      rewrite IH by (assumption || lia).
      now rewrite fmap_app, concat_app, app_assoc.
Qed.

(** Fewer edges than announced: the loop never ends. *)
Lemma receive_edges_waits : forall inbox edgesToReceive calls,
  edges_in (concat inbox) < edgesToReceive < 2 ^ 64 ->
  receive_edges edge_begin edge_end s inbox edgesToReceive calls = None.
Proof.
  induction inbox as [|records inbox IH]; intros e calls Hlt.
  - pose proof (edges_in_nonneg (concat (@nil (list (Z * list Z))))).
    cbn [receive_edges]. destruct (Z.eqb_spec e 0); [lia|reflexivity].
  - cbn [concat] in Hlt. rewrite edges_in_app in Hlt.
    pose proof (edges_in_nonneg records).
    pose proof (edges_in_nonneg (concat inbox)).
    cbn [receive_edges]. destruct (Z.eqb_spec e 0); [lia|].
    destruct (receive_records edge_begin edge_end s records (e, calls))
      as [st'|] eqn:Hr; [|reflexivity].
    apply receive_records_counter in Hr; [|cbn [fst]; lia].
    cbn [fst] in Hr. apply IH. rewrite Hr. unfold wrap64.
    rewrite Z.mod_small by lia. lia.
Qed.

End receiving.

(** *** Nodes, records and slots *)

Lemma calls_for_app h edge_begin s l1 : forall g l2,
  calls_for h edge_begin s g (l1 ++ l2)
  = calls_for h edge_begin s g l1
    ++ calls_for h edge_begin s (g + Z.of_nat (length l1)) l2.
Proof.
  induction l1 as [|node l1 IH]; intros g l2.
  - cbn [app calls_for length]. now rewrite Z.add_0_r.
  - cbn [app calls_for length]. rewrite IH, <- app_assoc. do 3 f_equal. lia.
Qed.

Lemma records_for_app h l1 : forall g l2,
  records_for h g (l1 ++ l2)
  = records_for h g l1 ++ records_for h (g + Z.of_nat (length l1)) l2.
Proof.
  induction l1 as [|node l1 IH]; intros g l2.
  - cbn [app records_for length]. now rewrite Z.add_0_r.
  - cbn [app records_for length]. rewrite IH, <- app_assoc. do 3 f_equal. lia.
Qed.

(** The calls for the records are the calls for the nodes: a node
    without an edge has no record and needs no call. *)
Lemma calls_of_records h edge_begin s nodes : forall g,
  concat ((fun rec : Z * list Z => node_calls edge_begin s rec.1 rec.2)
          <$> records_for h g nodes)
  = calls_for h edge_begin s g nodes.
Proof.
  induction nodes as [|[v dsts] nodes IH]; intros g; [reflexivity|].
  cbn [records_for calls_for fst snd].
  rewrite fmap_app, concat_app, IH. f_equal.
  destruct (decide (wrap32 v = Z.of_nat h)) as [Hv|Hv].
  - destruct dsts as [|d dsts].
    + rewrite decide_False by tauto. reflexivity.
    + rewrite decide_True by (split; [exact Hv|discriminate]).
      cbn. now rewrite app_nil_r.
  - rewrite decide_False by tauto. reflexivity.
Qed.

Lemma edges_in_records_for h nodes : forall g,
  edges_in (records_for h g nodes) = edges_total (counter_of h <$> nodes).
Proof.
  induction nodes as [|[v dsts] nodes IH]; intros g; [reflexivity|].
  cbn [records_for fst snd]. rewrite edges_in_app, IH, fmap_cons.
  cbn [edges_total]. rewrite counter_of_edges. cbn [fst snd]. f_equal.
  destruct (decide (wrap32 v = Z.of_nat h)) as [Hv|Hv].
  - destruct dsts as [|d dsts].
    + rewrite decide_False by tauto. reflexivity.
    + rewrite decide_True by (split; [exact Hv|discriminate]).
      unfold edges_in. cbn. now rewrite app_nil_r.
  - rewrite decide_False by tauto. reflexivity.
Qed.

Lemma edges_total_owned h (nodes : list (Z * list Z)) :
  edges_total (counter_of h <$> nodes)
  = Z.of_nat (length (concat
      ((fun node : Z * list Z =>
          if decide (wrap32 node.1 = Z.of_nat h) then node.2 else [])
       <$> nodes))).
Proof.
  induction nodes as [|node nodes IH]; [reflexivity|].
  rewrite !fmap_cons. cbn [edges_total concat].
  rewrite counter_of_edges, IH, length_app.
  destruct (decide (wrap32 node.1 = Z.of_nat h)); cbn [length]; lia.
Qed.

Lemma prefix_sums_app l1 : forall e l2,
  prefix_sums e (l1 ++ l2)
  = prefix_sums e l1 ++ prefix_sums (e + edges_total l1) l2.
Proof.
  induction l1 as [|c l1 IH]; intros e l2.
  - cbn [app prefix_sums edges_total]. now rewrite Z.add_0_r.
  - cbn [app prefix_sums edges_total]. destruct (is_master c).
    + rewrite IH. cbn [app]. do 3 f_equal. lia.
    + rewrite IH. do 2 f_equal.
Qed.

(** Where a master is in the list of masters, and what the prefix sums
    hold for it and for the master before it. *)
Lemma slot_of_master me (nodes : list (Z * list Z)) g v dsts :
  nodes !! g = Some (v, dsts) ->
  wrap32 v = Z.of_nat me ->
  exists k,
    select 0 (is_master <$> (counter_of me <$> nodes)) !! k
      = Some (Z.of_nat g) /\
    prefix_sums 0 (counter_of me <$> nodes) !! k
      = Some (edges_total (counter_of me <$> take g nodes)
              + Z.of_nat (length dsts)) /\
    match k with
    | O => 0
    | S k' => default 0 (prefix_sums 0 (counter_of me <$> nodes) !! k')
    end = edges_total (counter_of me <$> take g nodes).
Proof.
  intros Hg Hv.
  pose proof (take_drop_middle _ _ _ Hg) as Hsplit.
  set (before := counter_of me <$> take g nodes).
  set (after := counter_of me <$> drop (S g) nodes).
  assert (Hcs : counter_of me <$> nodes
                = before ++ (1 + Z.of_nat (length dsts)) :: after).
  { rewrite <- Hsplit at 1. rewrite fmap_app, fmap_cons. unfold counter_of at 2.
    cbn [fst snd]. now rewrite decide_True by exact Hv. }
  assert (Hm : is_master (1 + Z.of_nat (length dsts)) = true)
    by (apply Z.ltb_lt; lia).
  assert (Hlb : length before = g).
  { unfold before. rewrite length_fmap, length_take.
    apply lookup_lt_Some in Hg. lia. }
  exists (length (select 0 (is_master <$> before))).
  rewrite Hcs, fmap_app, fmap_cons, select_app, prefix_sums_app.
  cbn [select prefix_sums]. rewrite Hm.
  split; [|split].
  - rewrite lookup_app_r, Nat.sub_diag by lia. cbn. f_equal.
    rewrite length_fmap. lia.
  - rewrite <- (prefix_sums_length before 0).
    rewrite lookup_app_r, Nat.sub_diag by lia. cbn. f_equal. lia.
  - rewrite <- (prefix_sums_length before 0).
    destruct (prefix_sums 0 before) as [|x l] eqn:Hp.
    + cbn [length]. symmetry. eapply prefix_sums_nil; eauto.
    + assert (Hne : prefix_sums 0 before <> []) by (rewrite Hp; discriminate).
      pose proof (prefix_sums_last before 0 Hne) as Hlast.
      rewrite Hp, last_lookup in Hlast. cbn [length pred] in *.
      rewrite lookup_app_l by (cbn [length]; lia).
      rewrite Hlast. cbn. lia.
Qed.

Lemma lookup_concat_offset {A} (ls : list (list A)) : forall p l k x,
  ls !! p = Some l -> l !! k = Some x ->
  concat ls !! (length (concat (take p ls)) + k)%nat = Some x.
Proof.
  induction ls as [|l0 ls IH]; intros p l k x Hp Hk; [discriminate|].
  destruct p as [|p]; cbn in Hp.
  - injection Hp as ->. cbn [take concat length Nat.add].
    now apply lookup_app_l_Some.
  - cbn [take concat]. rewrite length_app, <- Nat.add_assoc.
    rewrite lookup_app_r by lia.
    replace (length l0 + (length (concat (take p ls)) + k) - length l0)%nat
      with (length (concat (take p ls)) + k)%nat by lia.
    eapply IH; eauto.
Qed.

Lemma concat_fmap_Permutation {A B} (f : A -> list B) l1 l2 :
  l1 ≡ₚ l2 -> concat (f <$> l1) ≡ₚ concat (f <$> l2).
Proof.
  induction 1 as [|x l1 l2 _ IH|x y l|l1 l2 l3 _ IH1 _ IH2].
  - reflexivity.
  - rewrite !fmap_cons. cbn [concat]. now rewrite IH.
  - rewrite !fmap_cons. cbn [concat]. rewrite !app_assoc.
    apply Permutation_app_tail, Permutation_app_comm.
  - now rewrite IH1.
Qed.

Lemma concat_Permutation {A} (ls1 ls2 : list (list A)) :
  ls1 ≡ₚ ls2 -> concat ls1 ≡ₚ concat ls2.
Proof.
  intros H. rewrite <- (list_fmap_id ls1), <- (list_fmap_id ls2).
  now apply concat_fmap_Permutation.
Qed.

(** The calls for the nodes of a host fill the slots from 0 on, in the
    order of the nodes and of their edges, when the slots of a node
    begin where the edges of the host's nodes before it end. *)
Lemma calls_for_slots h edge_begin s (nodes : list (Z * list Z)) :
  (forall g v dsts,
     nodes !! g = Some (v, dsts) -> wrap32 v = Z.of_nat h ->
     dsts <> [] ->
     default 0 (edge_begin (lid s (Z.of_nat g)))
     = edges_total (counter_of h <$> take g nodes)) ->
  calls_for h edge_begin s 0 nodes
  = slots 0 (lid s <$> concat
      ((fun node : Z * list Z =>
          if decide (wrap32 node.1 = Z.of_nat h) then node.2 else [])
       <$> nodes)).
Proof.
  intros Hslot.
  set (own := fun node : Z * list Z =>
                if decide (wrap32 node.1 = Z.of_nat h) then node.2 else []).
  assert (H : forall k, (k <= length nodes)%nat ->
            calls_for h edge_begin s 0 (take k nodes)
            = slots 0 (lid s <$> concat (own <$> take k nodes))).
  { induction k as [|k IH]; intros Hk; [reflexivity|].
    destruct (lookup_lt_is_Some_2 nodes k ltac:(lia)) as [[v dsts] Hn].
    rewrite (take_S_r _ _ _ Hn), calls_for_app, IH by lia.
    rewrite fmap_app, concat_app, fmap_app, slots_app.
    f_equal. cbn [fmap list_fmap concat calls_for]. rewrite !app_nil_r.
    rewrite length_fmap. subst own. cbv beta.
    rewrite <- edges_total_owned.
    rewrite length_take, Nat.min_l, !Z.add_0_l by lia.
    cbn [fst snd].
    destruct (decide (wrap32 v = Z.of_nat h)) as [Hv|Hv]; [|reflexivity].
    unfold node_calls. destruct dsts as [|d dsts]; [reflexivity|].
    rewrite (Hslot k v (d :: dsts) Hn Hv) by discriminate. reflexivity. }
  specialize (H (length nodes) ltac:(lia)). now rewrite firstn_all in H.
Qed.

(** *** Edge distribution on a cluster *)

Lemma owned_edges_le h (nodes : list (Z * list Z)) :
  (length (concat ((fun node : Z * list Z =>
                      if decide (wrap32 node.1 = Z.of_nat h)
                      then node.2 else []) <$> nodes))
   <= length (concat (snd <$> nodes)))%nat.
Proof.
  induction nodes as [|node nodes IH]; [reflexivity|].
  rewrite !fmap_cons. cbn [concat]. rewrite !length_app.
  destruct (decide (wrap32 node.1 = Z.of_nat h)); cbn [length]; lia.
Qed.

(** Phase 1 on a host of the cluster gives every node of the host a
    local id and edge slots that begin where the edges of the host's
    nodes with smaller GIDs end; the destinations of its edges are
    local. *)
Lemma phase1_of_slots hosts N me :
  cluster_ok hosts N ->
  (me < length hosts)%nat ->
  exists s,
    phase1_of hosts N me = Some s /\
    forall g v dsts,
      graph hosts !! g = Some (v, dsts) -> wrap32 v = Z.of_nat me ->
      exists lsrc,
        G2L s (Z.of_nat g) = Some lsrc /\
        fixed_begin (prefixSumOfEdges s) lsrc
          = Some (edges_total (counter_of me <$> take g (graph hosts))) /\
        fixed_end (prefixSumOfEdges s) lsrc
          = Some (edges_total (counter_of me <$> take g (graph hosts))
                  + Z.of_nat (length dsts)) /\
        0 <= edges_total (counter_of me <$> take g (graph hosts)) /\
        edges_total (counter_of me <$> take g (graph hosts))
          + Z.of_nat (length dsts) < 2 ^ 64 /\
        Forall (fun gdst => is_Some (G2L s gdst)) dsts.
Proof.
  intros Hok Hme.
  destruct (hosts !! me) as [r|] eqn:Hr.
  2:{ apply lookup_ge_None in Hr. lia. }
  destruct (mapM_is_Some_2 (message_from hosts N me) (peers (length hosts) me))
    as [inbox Hin].
  { apply Forall_forall. intros p Hp. apply elem_of_peers in Hp as [Hp _].
    now apply message_from_is_Some. }
  pose proof Hin as Hmsgs. apply mapM_Some in Hmsgs.
  destruct (phase1_local_ids hosts N me Hok Hme r _ inbox Hr
              (reflexivity _) Hmsgs)
    as (s & bits & Hs & Hcons & _ & Hbits & Hv & Hp & _ & Ho).
  pose proof (graph_counters_range hosts N me Hok Hme) as Hrange.
  pose proof (graph_length hosts N Hok) as Hgl.
  exists s. split.
  { unfold phase1_of. rewrite Hr. cbn [mbind option_bind]. rewrite Hin.
    cbn [mbind option_bind]. exact Hs. }
  intros g v dsts Hg Hvm.
  destruct (slot_of_master me (graph hosts) g v dsts Hg Hvm)
    as (k & Hk & Hpk & Hprev).
  pose proof (lookup_lt_Some _ _ _ Hk) as Hklt.
  exists (Z.of_nat k). split; [|split; [|split; [|split; [|split]]]].
  - unfold G2L. apply (cons_map s Hcons). split; [lia|].
    rewrite Nat2Z.id, Hv. now apply lookup_app_l_Some.
  - unfold fixed_begin, fixed_end. rewrite <- Hprev.
    destruct k as [|k']; [reflexivity|].
    destruct (Z.eqb_spec (Z.of_nat (S k')) 0); [lia|].
    destruct (Z.leb_spec 0 (Z.of_nat (S k') - 1)); [|lia].
    replace (Z.to_nat (Z.of_nat (S k') - 1)) with k' by lia.
    destruct (lookup_lt_is_Some_2 (prefix_sums 0 (counter_of me <$> graph hosts))
                k') as [x Hx].
    { rewrite prefix_sums_length. lia. }
    rewrite Hx, default_Some, Hp. now apply lookup_app_l_Some.
  - unfold fixed_end. destruct (Z.leb_spec 0 (Z.of_nat k)); [|lia].
    rewrite Nat2Z.id, Hp. now apply lookup_app_l_Some.
  - apply edges_total_nonneg. intros c Hc.
    apply list_elem_of_fmap in Hc as (node & -> & Hnode).
    apply subseteq_take in Hnode.
    rewrite Forall_forall in Hrange.
    specialize (Hrange (counter_of me node)
                  ltac:(apply list_elem_of_fmap; eauto)). lia.
  - pose proof (take_drop_middle _ _ _ Hg) as Hsplit.
    pose proof (edges_total_owned me (graph hosts)) as Htot.
    rewrite <- Hsplit in Htot at 1.
    rewrite fmap_app, fmap_cons, edges_total_app in Htot.
    cbn [edges_total] in Htot. rewrite counter_of_edges in Htot.
    cbn [fst snd] in Htot. rewrite decide_True in Htot by exact Hvm.
    assert (0 <= edges_total (counter_of me <$> drop (S g) (graph hosts))).
    { apply edges_total_nonneg. intros c Hc.
      apply list_elem_of_fmap in Hc as (node & -> & Hnode).
      apply subseteq_drop in Hnode.
      rewrite Forall_forall in Hrange.
      specialize (Hrange (counter_of me node)
                    ltac:(apply list_elem_of_fmap; eauto)). lia. }
    pose proof (owned_edges_le me (graph hosts)) as Hle.
    rewrite (graph_edges hosts N Hok) in Hle.
    destruct Hok as [_ _ He _ _]. lia.
  - apply Forall_forall. intros d Hd.
    assert (Hin' : (v, dsts) ∈ graph hosts)
      by (eapply list_elem_of_lookup_2; eauto).
    pose proof (graph_dsts_valid hosts N Hok _ _ Hin' Hd) as HdN.
    assert (Hb : bits !! Z.to_nat d = Some true).
    { apply Hbits. split; [lia|]. exists (v, dsts).
      rewrite Z2Nat.id by lia. split_all. }
    assert (Hloc : isLocal s d = true).
    { apply (isLocal_iff s d Hcons). rewrite Hv, elem_of_app.
      destruct ((counter_of me <$> graph hosts) !! Z.to_nat d) as [c|] eqn:Hc.
      2:{ apply lookup_ge_None in Hc. rewrite length_fmap in Hc. lia. }
      destruct (decide (c = 0)) as [->|Hne].
      - right. apply (ghosts_elem bits _ d Hrange). split; [lia|].
        split; [exact Hb|exact Hc].
      - left. apply (masters_elem _ d Hrange). split; [lia|]. eauto. }
    unfold isLocal in Hloc. unfold G2L.
    destruct (globalToLocalMap s !! d); [eauto|discriminate].
Qed.

Lemma records_for_elem h nodes : forall g (rec : Z * list Z),
  rec ∈ records_for h g nodes ->
  exists k v,
    nodes !! k = Some (v, rec.2) /\ rec.1 = g + Z.of_nat k /\
    wrap32 v = Z.of_nat h /\ rec.2 <> [].
Proof.
  induction nodes as [|[v dsts] nodes IH]; intros g rec Hin.
  - inversion Hin.
  - cbn [records_for fst snd] in Hin. apply elem_of_app in Hin as [Hin|Hin].
    + destruct (decide (wrap32 v = Z.of_nat h /\ dsts <> [])) as [[Hv Hd]|];
        [|inversion Hin].
      apply list_elem_of_singleton in Hin as ->.
      exists 0%nat, v. cbn [fst snd]. split_and!; try assumption;
        [reflexivity|lia].
    + destruct (IH _ _ Hin) as (k & v' & Hk & Hg & Hv & Hd).
      exists (S k), v'. split_and!; try assumption. lia.
Qed.

(** The counter of the edges to receive adds up what the messages
    announce. *)
Lemma receive_loop_total : forall rounds inbox ex ex',
  0 <= num_total_edges_to_receive ex < 2 ^ 64 ->
  receive_loop rounds inbox ex = Some ex' ->
  num_total_edges_to_receive ex'
  = wrap64 (num_total_edges_to_receive ex
            + foldr (fun m acc => num_edges_from_host m + acc) 0
                    (take rounds inbox)).
Proof.
  induction rounds as [|rounds IH]; intros inbox ex ex' Hr H.
  - cbn [receive_loop] in H. injection H as <-. cbn [take foldr].
    rewrite Z.add_0_r. unfold wrap64. symmetry. now apply Z.mod_small.
  - destruct inbox as [|m inbox]; [discriminate|]. cbn [receive_loop] in H.
    destruct (receive_one m ex) as [ex1|] eqn:H1; [|discriminate].
    assert (Hex1 : num_total_edges_to_receive ex1
                   = wrap64 (num_total_edges_to_receive ex
                             + num_edges_from_host m)).
    { unfold receive_one in H1. destruct (_ <? _)%nat; [|discriminate].
      now injection H1 as <-. }
    rewrite (IH inbox ex1 ex'); [|rewrite Hex1; apply Z.mod_pos_bound; lia
                                 |exact H].
    rewrite Hex1, wrap64_add_l. cbn [take foldr]. f_equal. lia.
Qed.

Lemma edges_in_perm records1 records2 :
  records1 ≡ₚ records2 -> edges_in records1 = edges_in records2.
Proof.
  intros H. unfold edges_in. f_equal.
  apply Permutation_length, concat_Permutation. now rewrite H.
Qed.

Lemma edges_in_concat_fmap (f : nat -> list (Z * list Z)) l :
  edges_in (concat (f <$> l)) = sum_over (fun p => edges_in (f p)) l.
Proof.
  induction l as [|x l IH]; [reflexivity|].
  rewrite fmap_cons. cbn [concat sum_over]. now rewrite edges_in_app, IH.
Qed.

Lemma concat_concat_fmap {A B} (g : A -> list (list B)) l :
  concat (concat (g <$> l)) = concat ((fun x => concat (g x)) <$> l).
Proof.
  induction l as [|x l IH]; [reflexivity|].
  rewrite !fmap_cons. cbn [concat]. now rewrite concat_app, IH.
Qed.

Lemma concat_fmap_concat {A B C} (f : B -> list C) (g : A -> list B) l :
  concat (f <$> concat (g <$> l))
  = concat ((fun x => concat (f <$> g x)) <$> l).
Proof.
  induction l as [|x l IH]; [reflexivity|].
  rewrite !fmap_cons. cbn [concat]. now rewrite fmap_app, concat_app, IH.
Qed.

Lemma calls_for_ranges h edge_begin s (F : nat -> list (Z * list Z)) n :
  calls_for h edge_begin s 0 (concat (F <$> seq 0 n))
  = concat ((fun p => calls_for h edge_begin s
                        (Z.of_nat (length (concat (F <$> seq 0 p)))) (F p))
            <$> seq 0 n).
Proof.
  induction n as [|n IH]; [reflexivity|].
  rewrite seq_S, !fmap_app, !concat_app, calls_for_app, IH.
  cbn [Nat.add fmap list_fmap concat]. now rewrite !app_nil_r, Z.add_0_l.
Qed.

Section cluster_loading.
Variables (hosts : list HostRange) (N : nat).
Hypothesis Hok : cluster_ok hosts N.

Lemma range_offset_nodes p :
  range_offset hosts p
  = Z.of_nat (length (concat (take p (range_nodes <$> hosts)))).
Proof.
  unfold range_offset. rewrite <- fmap_take. f_equal. symmetry.
  apply (nodes_length (length hosts)).
  destruct Hok as [_ _ _ Hv _]. now apply Forall_take.
Qed.

(** The node at the offset [k] of the range of the host [p]. *)
Lemma graph_at p r k node :
  hosts !! p = Some r ->
  range_nodes r !! k = Some node ->
  graph hosts !! (Z.to_nat (range_offset hosts p) + k)%nat = Some node.
Proof.
  intros Hp Hk. rewrite range_offset_nodes, Nat2Z.id. unfold graph.
  apply (lookup_concat_offset _ p (range_nodes r)); [|exact Hk].
  now rewrite list_lookup_fmap, Hp.
Qed.

Lemma range_offset_nonneg p : 0 <= range_offset hosts p.
Proof. unfold range_offset. lia. Qed.

Lemma loadable_cluster p r s k dsts :
  hosts !! p = Some r ->
  (forall g v dsts,
     graph hosts !! g = Some (v, dsts) -> wrap32 v = Z.of_nat p ->
     exists lsrc,
       G2L s (Z.of_nat g) = Some lsrc /\
       fixed_begin (prefixSumOfEdges s) lsrc
         = Some (edges_total (counter_of p <$> take g (graph hosts))) /\
       fixed_end (prefixSumOfEdges s) lsrc
         = Some (edges_total (counter_of p <$> take g (graph hosts))
                 + Z.of_nat (length dsts)) /\
       0 <= edges_total (counter_of p <$> take g (graph hosts)) /\
       edges_total (counter_of p <$> take g (graph hosts))
         + Z.of_nat (length dsts) < 2 ^ 64 /\
       Forall (fun gdst => is_Some (G2L s gdst)) dsts) ->
  range_edges r !! k = Some dsts ->
  loadable (fixed_begin (prefixSumOfEdges s)) p (length hosts)
           (range_offset hosts p) (range_vertexIDMap r) s k dsts.
Proof.
  intros Hp Hslots Hk.
  pose proof Hok as [_ _ _ Hv _]. rewrite Forall_lookup in Hv.
  destruct (Hv p r Hp k (lookup_lt_Some _ _ _ Hk)) as (h & Hf & Hh).
  exists h. split; [exact Hf|]. split; [exact Hh|]. intros ->.
  unfold find_hostID in Hf. apply fmap_Some in Hf as (v & Hvk & Hvw).
  assert (Hnode : range_nodes r !! k = Some (v, dsts)).
  { unfold range_nodes. apply lookup_zip_with_Some. eauto. }
  pose proof (graph_at p r k _ Hp Hnode) as Hg.
  destruct (Hslots _ v dsts Hg (eq_sym Hvw))
    as (lsrc & Hl & Hb & _ & H0 & Hlt & Hall).
  exists lsrc, (edges_total (counter_of p <$>
                  take (Z.to_nat (range_offset hosts p) + k) (graph hosts))).
  pose proof (range_offset_nonneg p).
  split_and!; try assumption.
  rewrite <- Hl. f_equal. lia.
Qed.

Variables (buffer_size : list (Z * list Z) -> Z).
Variable partition_edge_send_buffer_size : Z.
Hypothesis Hsize : forall b, b <> [] -> 0 < buffer_size b.

Local Abbreviation nodes_at p := (from_option range_nodes [] (hosts !! p)).

(** What a host of the cluster constructs of its own range, and what
    it sends. *)
Lemma load_of_spec p :
  (p < length hosts)%nat ->
  exists s calls sent,
    phase1_of hosts N p = Some s /\
    load_of buffer_size partition_edge_send_buffer_size hosts N p
      = Some (calls, sent) /\
    calls = calls_for p (fixed_begin (prefixSumOfEdges s)) s
                      (range_offset hosts p) (nodes_at p) /\
    forall h, (h < length hosts)%nat -> h <> p ->
      records_sent h sent = records_for h (range_offset hosts p) (nodes_at p).
Proof.
  intros Hp.
  destruct (hosts !! p) as [r|] eqn:Hr.
  2:{ apply lookup_ge_None in Hr. lia. }
  destruct (phase1_of_slots hosts N p Hok Hp) as (s & Hs & Hslots).
  destruct (assign_load_send_edges_spec (fixed_begin (prefixSumOfEdges s))
              buffer_size partition_edge_send_buffer_size p (length hosts)
              (range_offset hosts p) (range_vertexIDMap r) s Hsize
              (range_edges r))
    as (calls & sent & Hload & Hcalls & _ & Hsent).
  { intros k dsts Hk. now apply loadable_cluster. }
  exists s, calls, sent. split; [exact Hs|]. split.
  { unfold load_of. rewrite Hr, Hs. exact Hload. }
  split; [exact Hcalls|exact Hsent].
Qed.

(** The records that arrive on a host can be used there. *)
Lemma records_receivable me p s :
  (p < length hosts)%nat ->
  (forall g v dsts,
     graph hosts !! g = Some (v, dsts) -> wrap32 v = Z.of_nat me ->
     exists lsrc,
       G2L s (Z.of_nat g) = Some lsrc /\
       fixed_begin (prefixSumOfEdges s) lsrc
         = Some (edges_total (counter_of me <$> take g (graph hosts))) /\
       fixed_end (prefixSumOfEdges s) lsrc
         = Some (edges_total (counter_of me <$> take g (graph hosts))
                 + Z.of_nat (length dsts)) /\
       0 <= edges_total (counter_of me <$> take g (graph hosts)) /\
       edges_total (counter_of me <$> take g (graph hosts))
         + Z.of_nat (length dsts) < 2 ^ 64 /\
       Forall (fun gdst => is_Some (G2L s gdst)) dsts) ->
  Forall (receivable (fixed_begin (prefixSumOfEdges s))
                     (fixed_end (prefixSumOfEdges s)) s)
         (records_for me (range_offset hosts p) (nodes_at p)).
Proof.
  intros Hp Hslots. apply Forall_forall. intros rec Hrec.
  destruct (hosts !! p) as [r|] eqn:Hr.
  2:{ apply lookup_ge_None in Hr. lia. }
  cbn [from_option] in Hrec.
  apply records_for_elem in Hrec as (k & v & Hk & Hg & Hv & _).
  pose proof (graph_at p r k _ Hr Hk) as Hgr.
  destruct (Hslots _ v rec.2 Hgr Hv) as (lsrc & Hl & Hb & He & _ & _ & Hall).
  pose proof (range_offset_nonneg p).
  exists lsrc, (edges_total (counter_of me <$>
                  take (Z.to_nat (range_offset hosts p) + k) (graph hosts))).
  split_and!; try assumption.
  rewrite <- Hl. f_equal. lia.
Qed.

(** The edges of the nodes of a range that the map gives to a host. *)
Lemma nodes_at_edges me p r :
  hosts !! p = Some r ->
  0 <= edges_total (counter_of me <$> range_nodes r)
    <= Z.of_nat (length (concat (range_edges r))).
Proof.
  intros Hr. rewrite edges_total_owned.
  pose proof (owned_edges_le me (range_nodes r)) as Hle.
  pose proof Hok as [_ _ _ Hv _]. rewrite Forall_lookup in Hv.
  destruct (range_nodes_valid _ _ _ (Hv p r Hr)) as [Hl _].
  unfold range_nodes in Hle at 2. rewrite snd_zip in Hle by lia. lia.
Qed.

(** What a peer announces in the first exchange: the edges of the
    nodes of its range that the map gives to the receiver. *)
Lemma message_announces me p m :
  (me < length hosts)%nat -> (p < length hosts)%nat ->
  message_from hosts N me p = Some m ->
  num_edges_from_host m = edges_total (counter_of me <$> nodes_at p).
Proof.
  intros Hme Hp Hm.
  destruct (hosts !! p) as [r|] eqn:Hr.
  2:{ apply lookup_ge_None in Hr. lia. }
  cbn [from_option].
  destruct (host_state hosts N Hok p r Hr) as (Hv & Hd & Hst & Hinsp & Hie).
  unfold message_from, inspection_of in Hm. rewrite Hr in Hm.
  cbn [mbind option_bind] in Hm. rewrite Hst in Hm.
  cbn [mbind option_bind] in Hm. unfold message_for in Hm.
  destruct (num_assigned_nodes_perhost _ !! me); [|discriminate].
  destruct (num_assigned_edges_perhost _ !! me) as [e|] eqn:He;
    [|discriminate].
  destruct (numOutgoingEdges _ !! me); [|discriminate].
  destruct (hasIncomingEdge _ !! me); [|discriminate].
  injection Hm as <-. cbn [num_edges_from_host].
  rewrite (insp_edges _ _ _ _ Hie me) in He
    by (eapply lookup_lt_Some; eauto).
  injection He as <-.
  destruct (range_nodes_valid _ _ _ Hv) as [Hl _].
  rewrite take_ge by (rewrite length_zip; lia).
  fold (range_nodes r). unfold wrap64. apply Z.mod_small.
  pose proof (nodes_at_edges me p r Hr).
  edestruct range_sizes as [_ Hsz]; eauto. lia.
Qed.

Lemma take_ranges p :
  (p <= length hosts)%nat ->
  take p (range_nodes <$> hosts) = (fun q => nodes_at q) <$> seq 0 p.
Proof.
  intros Hp. apply list_eq. intros i. rewrite list_lookup_fmap.
  destruct (decide (i < p)%nat) as [Hi|Hi].
  - rewrite lookup_take_lt, list_lookup_fmap, lookup_seq_lt by lia.
    cbn [fmap option_fmap option_map Nat.add].
    destruct (hosts !! i) as [r|] eqn:Hr; [reflexivity|].
    apply lookup_ge_None in Hr. lia.
  - rewrite lookup_take_ge, lookup_seq_ge by lia. reflexivity.
Qed.

Lemma graph_ranges :
  graph hosts = concat ((fun p => nodes_at p) <$> seq 0 (length hosts)).
Proof.
  unfold graph. f_equal. rewrite <- take_ranges by lia.
  rewrite take_ge; [reflexivity|]. now rewrite length_fmap.
Qed.

Lemma range_offset_ranges p :
  (p <= length hosts)%nat ->
  range_offset hosts p
  = Z.of_nat (length (concat ((fun q => nodes_at q) <$> seq 0 p))).
Proof. intros Hp. now rewrite range_offset_nodes, take_ranges. Qed.

(** The edges a host owns, range by range. *)
Lemma edges_by_range me :
  sum_over (fun p => edges_total (counter_of me <$> nodes_at p))
           (seq 0 (length hosts))
  = Z.of_nat (length (owned_edges hosts me)).
Proof.
  unfold owned_edges. rewrite <- edges_total_owned, graph_ranges.
  now rewrite <- concat_fmap_fmap, edges_total_concat.
Qed.

Lemma owned_edges_bound me :
  Z.of_nat (length (owned_edges hosts me)) + 1 < 2 ^ 64.
Proof.
  pose proof (owned_edges_le me (graph hosts)) as Hle.
  rewrite (graph_edges hosts N Hok) in Hle.
  destruct Hok as [_ _ He _ _]. unfold owned_edges. lia.
Qed.

Lemma nodes_at_nonneg me p :
  0 <= edges_total (counter_of me <$> nodes_at p).
Proof.
  destruct (hosts !! p) as [r|] eqn:Hr; [|cbn; lia].
  cbn [from_option]. now apply (nodes_at_edges me p r).
Qed.

(** The edges announced to a host by its peers. *)
Lemma peers_edges_bound me :
  (me < length hosts)%nat ->
  0 <= sum_over (fun p => edges_total (counter_of me <$> nodes_at p))
                (peers (length hosts) me)
    < 2 ^ 64.
Proof.
  intros Hme. split.
  - apply sum_over_nonneg. intros p _. apply nodes_at_nonneg.
  - pose proof (edges_by_range me) as Hsum.
    rewrite (sum_over_perm _ _ _ (seq_peers _ _ Hme)) in Hsum.
    cbn [sum_over] in Hsum.
    pose proof (nodes_at_nonneg me me). pose proof (owned_edges_bound me). lia.
Qed.

Lemma edges_to_receive_spec me :
  (me < length hosts)%nat ->
  edges_to_receive_of hosts N me
  = Some (sum_over (fun p => edges_total (counter_of me <$> nodes_at p))
                   (peers (length hosts) me)).
Proof.
  intros Hme.
  destruct (phase1_of_slots hosts N me Hok Hme) as (s & Hs & _).
  unfold phase1_of in Hs. unfold edges_to_receive_of.
  destruct (hosts !! me) as [r|]; [|discriminate].
  cbn [mbind option_bind] in *.
  destruct (mapM (message_from hosts N me) (peers (length hosts) me))
    as [inbox|] eqn:Hin; [|discriminate].
  cbn [mbind option_bind] in *. unfold assign_edges_phase1 in Hs.
  destruct (inspect _ _ _ _) as [st|]; [|discriminate].
  cbn [mbind option_bind] in *.
  destruct (exchange_init me st) as [ex0|] eqn:Hex0; [|discriminate].
  cbn [mbind option_bind] in *.
  destruct (receive_loop _ inbox ex0) as [ex|] eqn:Hrl; [|discriminate].
  cbn [mbind option_bind] in *. f_equal.
  assert (H0 : num_total_edges_to_receive ex0 = 0).
  { unfold exchange_init in Hex0.
    destruct (num_assigned_nodes_perhost st !! me); [|discriminate].
    now injection Hex0 as <-. }
  rewrite (receive_loop_total _ _ _ _ ltac:(rewrite H0; lia) Hrl), H0.
  apply mapM_Some in Hin.
  rewrite take_ge.
  2:{ rewrite <- (Forall2_length _ _ _ Hin). unfold peers.
      rewrite length_peers_from. destruct (decide _); lia. }
  assert (Hsum : foldr (fun m acc => num_edges_from_host m + acc) 0 inbox
                 = sum_over (fun p => edges_total (counter_of me <$> nodes_at p))
                            (peers (length hosts) me)).
  { assert (Hlt : Forall (fun p => (p < length hosts)%nat)
                         (peers (length hosts) me)).
    { apply Forall_forall. intros p Hp. now apply elem_of_peers in Hp as [? _]. }
    clear Hrl.
    induction Hin as [|p m order inbox' Hm _ IH]; [reflexivity|].
    apply Forall_cons in Hlt as [Hp Hlt].
    cbn [foldr sum_over]. rewrite IH by exact Hlt.
    now rewrite (message_announces me p m Hme Hp Hm). }
  rewrite Hsum, Z.add_0_l. unfold wrap64. apply Z.mod_small.
  now apply peers_edges_bound.
Qed.

End cluster_loading.

(** X19.  [assign_load_send_edges], whatever the sizes of the send
    buffers and the threshold: when every source of the range can be
    loaded, the edges of the sources that the vertex-ID map gives to
    this host are constructed in the slots of their source, in the
    order of the sources; the buffers sent to another host of the
    cluster hold, taken together and in the order of sending, one
    record for each source given to that host that has an edge, with
    all its destinations; and nothing is sent to the host itself or
    outside the cluster. *)
Theorem assign_load_send_edges_sends_each_record_once
    edge_begin buffer_size partition_edge_send_buffer_size id numHosts
    globalOffset vertexIDMap s edges :
  (forall b, b <> [] -> 0 < buffer_size b) ->
  (forall k dsts, edges !! k = Some dsts ->
     loadable edge_begin id numHosts globalOffset vertexIDMap s k dsts) ->
  exists calls sent,
    assign_load_send_edges edge_begin buffer_size
      partition_edge_send_buffer_size id numHosts globalOffset vertexIDMap
      s edges = Some (calls, sent) /\
    calls = calls_for id edge_begin s globalOffset (zip vertexIDMap edges) /\
    Forall (fun m : nat * list (Z * list Z) =>
              m.1 <> id /\ (m.1 < numHosts)%nat) sent /\
    forall h, (h < numHosts)%nat -> h <> id ->
      records_sent h sent = records_for h globalOffset (zip vertexIDMap edges).
Proof.
  intros Hsize Hload. now apply assign_load_send_edges_spec.
Qed.

(** X20.  [receive_edges] on buffers whose records can be used: when
    the counter starts at the number of edges that the buffers hold,
    the loop ends and has constructed, record by record, the edges of
    each source in the slots of that source; when the counter starts
    above that number, the loop does not end. *)
Theorem receive_edges_ends_when_all_edges_arrived edge_begin edge_end s inbox
    calls :
  Forall (Forall (receivable edge_begin edge_end s)) inbox ->
  edges_in (concat inbox) < 2 ^ 64 ->
  receive_edges edge_begin edge_end s inbox (edges_in (concat inbox)) calls
  = Some (calls
          ++ concat ((fun rec : Z * list Z =>
                        node_calls edge_begin s rec.1 rec.2)
                     <$> concat inbox)) /\
  forall edgesToReceive,
    edges_in (concat inbox) < edgesToReceive < 2 ^ 64 ->
    receive_edges edge_begin edge_end s inbox edgesToReceive calls = None.
Proof.
  intros Hall Hlt. split.
  - now apply receive_edges_spec.
  - intros e He. now apply receive_edges_waits.
Qed.

Local Abbreviation nodes_of hosts p :=
  (from_option range_nodes [] (hosts !! p)).

(** X25.  After the first exchange on a well-formed cluster,
    [num_total_edges_to_receive] is what the host's [numEdges] exceeds
    the edges of the host's own range by that the vertex-ID map gives
    to the host: every edge of the host is either read by the host
    itself or announced by a peer. *)
Theorem edges_to_receive_complements_own_range hosts N me r :
  cluster_ok hosts N ->
  hosts !! me = Some r ->
  exists s total,
    phase1_of hosts N me = Some s /\
    edges_to_receive_of hosts N me = Some total /\
    0 <= total /\
    numEdges s = edges_total (counter_of me <$> range_nodes r) + total.
Proof.
  intros Hok Hr. pose proof (lookup_lt_Some _ _ _ Hr) as Hme.
  destruct (phase1_of_spec hosts N me Hok Hme) as (s & Hs & _ & _ & He).
  exists s. eexists. split; [exact Hs|].
  split; [exact (edges_to_receive_spec hosts N Hok me Hme)|].
  split; [exact (proj1 (peers_edges_bound hosts N Hok me Hme))|].
  rewrite He, edges_total_owned.
  fold (owned_edges hosts me).
  rewrite <- (edges_by_range hosts me).
  rewrite (sum_over_perm _ _ _ (seq_peers _ _ Hme)). cbn [sum_over].
  now rewrite Hr.
Qed.

(** X21.  [loadEdges] on a host of a well-formed cluster, whatever the
    sizes of the send buffers and the threshold, and in whatever order
    the buffers of the peers arrive: the loading ends, and every edge
    slot of the host, from 0 to [numEdges - 1], is constructed exactly
    once; the slots hold, in the order of the GIDs of the sources and
    of the edges of a source, the local ids of the destinations of the
    edges that leave the nodes the vertex-ID map gives to the host. *)
Theorem loadEdges_constructs_every_edge_once
    buffer_size partition_edge_send_buffer_size hosts N me inbox :
  cluster_ok hosts N ->
  (me < length hosts)%nat ->
  (forall b, b <> [] -> 0 < buffer_size b) ->
  inbox ≡ₚ concat (buffers_from buffer_size partition_edge_send_buffer_size
                                hosts N me <$> peers (length hosts) me) ->
  exists s calls,
    phase1_of hosts N me = Some s /\
    load_edges_of buffer_size partition_edge_send_buffer_size hosts N me inbox
      = Some calls /\
    numEdges s = Z.of_nat (length (owned_edges hosts me)) /\
    Forall (fun gdst => is_Some (G2L s gdst)) (owned_edges hosts me) /\
    calls ≡ₚ slots 0 (lid s <$> owned_edges hosts me).
Proof.
  intros Hok Hme Hsize Hinbox.
  destruct (phase1_of_slots hosts N me Hok Hme) as (s & Hs & Hslots).
  destruct (load_of_spec hosts N Hok buffer_size
              partition_edge_send_buffer_size Hsize me Hme)
    as (s' & calls0 & sent0 & Hs' & Hload & Hcalls0 & _).
  assert (s' = s) as -> by congruence.
  set (eb := fixed_begin (prefixSumOfEdges s)) in *.
  set (ee := fixed_end (prefixSumOfEdges s)) in *.
  set (RF := fun p => records_for me (range_offset hosts p) (nodes_of hosts p)).
  set (CF := fun p => calls_for me eb s (range_offset hosts p) (nodes_of hosts p)).
  assert (Hpeer : forall p, p ∈ peers (length hosts) me ->
            (p < length hosts)%nat /\ p <> me)
    by (intros p Hp; now apply elem_of_peers in Hp).
  (* what arrives *)
  assert (Hrecords : concat inbox ≡ₚ concat (RF <$> peers (length hosts) me)).
  { rewrite (concat_Permutation _ _ Hinbox), concat_concat_fmap.
    apply reflexive_eq. f_equal. apply list_fmap_ext. intros i p Hpin.
    apply list_elem_of_lookup_2, Hpeer in Hpin as [Hp Hne].
    destruct (load_of_spec hosts N Hok buffer_size
                partition_edge_send_buffer_size Hsize p Hp)
      as (sp & callsp & sentp & _ & Hloadp & _ & Hsentp).
    unfold buffers_from. rewrite Hloadp. cbn [from_option snd].
    exact (Hsentp me Hme (not_eq_sym Hne)). }
  assert (Htotal : edges_in (concat inbox)
                   = sum_over (fun p => edges_total
                                 (counter_of me <$> nodes_of hosts p))
                              (peers (length hosts) me)).
  { rewrite (edges_in_perm _ _ Hrecords), edges_in_concat_fmap.
    apply sum_over_ext. intros p _. apply edges_in_records_for. }
  pose proof (peers_edges_bound hosts N Hok me Hme) as Hbound.
  rewrite <- Htotal in Hbound.
  assert (Hrecv : Forall (Forall (receivable eb ee s)) inbox).
  { apply Forall_concat. rewrite Hrecords.
    apply Forall_concat, Forall_fmap, Forall_forall. intros p Hp.
    apply Hpeer in Hp as [Hp _].
    now apply (records_receivable hosts N Hok me p s Hp). }
  assert (Hcf : calls0 = CF me) by exact Hcalls0.
  clear Hcalls0.
  (* the run *)
  destruct (hosts !! me) as [r|] eqn:Hr.
  2:{ apply lookup_ge_None in Hr. lia. }
  exists s. eexists. split; [exact Hs|]. split.
  { unfold load_edges_of. rewrite Hr, Hs. cbn [mbind option_bind].
    rewrite (edges_to_receive_spec hosts N Hok me Hme).
    cbn [mbind option_bind]. rewrite <- Htotal.
    unfold loadEdges. unfold load_of in Hload. rewrite Hr, Hs in Hload.
    cbn [mbind option_bind] in Hload. fold eb in Hload. fold eb ee.
    rewrite Hload.
    cbn [mbind option_bind fst snd].
    rewrite (receive_edges_spec eb ee s inbox calls0 Hrecv) by lia.
    reflexivity. }
  (* the slots *)
  assert (Hlid : forall g v dsts,
            graph hosts !! g = Some (v, dsts) -> wrap32 v = Z.of_nat me ->
            default 0 (eb (lid s (Z.of_nat g)))
            = edges_total (counter_of me <$> take g (graph hosts))).
  { intros g v dsts Hg Hv.
    destruct (Hslots g v dsts Hg Hv) as (lsrc & Hl & Hb & _).
    unfold lid. rewrite Hl, default_Some. fold eb in Hb. now rewrite Hb. }
  split; [|split].
  - destruct (phase1_of_spec hosts N me Hok Hme) as (s2 & Hs2 & _ & _ & He).
    assert (s2 = s) as -> by congruence.
    rewrite He. apply edges_total_owned.
  - unfold owned_edges. apply Forall_concat, Forall_fmap, Forall_forall.
    intros [v dsts] Hin. unfold compose. cbn [fst snd].
    case_decide as Hv; [|constructor].
    apply list_elem_of_lookup_1 in Hin as [g Hg].
    now destruct (Hslots g v dsts Hg Hv) as (_ & _ & _ & _ & _ & _ & Hall).
  - cbn [fmap option_fmap option_map fst].
    rewrite (concat_fmap_Permutation _ _ _ Hrecords), concat_fmap_concat.
    rewrite Hcf.
    rewrite (list_fmap_ext _ CF (peers (length hosts) me))
      by (intros i p _; apply calls_of_records).
    change (CF me ++ concat (CF <$> peers (length hosts) me))
      with (concat (CF <$> me :: peers (length hosts) me)).
    rewrite <- (concat_fmap_Permutation CF _ _ (seq_peers _ _ Hme)).
    apply reflexive_eq. unfold owned_edges.
    rewrite <- (calls_for_slots me eb s (graph hosts)).
    2:{ intros g v dsts Hg Hv _. now apply (Hlid g v dsts). }
    rewrite (graph_ranges hosts), calls_for_ranges. f_equal.
    apply list_fmap_ext. intros i p Hpin.
    apply list_elem_of_lookup_2, elem_of_seq in Hpin.
    unfold CF. now rewrite (range_offset_ranges hosts N Hok p) by lia.
Qed.

(** ** The path on two hosts *)

Lemma path_range0_valid :
  hosts_valid 2 [0; 0] [[1]; [2]] /\ dsts_valid 4 [[1]; [2]].
Proof.
  split.
  - intros k Hk. exists 0%nat.
    destruct k as [|[|k]]; simpl in Hk; try lia; split; (reflexivity || lia).
  - intros k dsts d Hk Hin.
    destruct k as [|[|k]]; simpl in Hk; try discriminate;
      injection Hk as <-; apply list_elem_of_singleton in Hin; lia.
Qed.

Lemma path_hosts_delivery :
  path_hosts !! 0%nat = Some path_range0 /\
  [1%nat] ≡ₚ peers (length path_hosts) 0 /\
  Forall2 (fun p m => message_from path_hosts 4 0 p = Some m)
          [1%nat] [path_message10].
Proof.
  split; [reflexivity|]. split; [reflexivity|].
  constructor; [reflexivity|constructor].
Qed.

Lemma inspect_check_numEdges_witness :
  hosts_valid 2 [0; 0] [[1]; [2]] /\
  dsts_valid 4 [[1]; [2]] /\
  Z.of_nat (length (concat [[1]; [2]])) < 2 ^ 64 /\
  exists st,
    inspect 2 4 [0; 0] [[1]; [2]] = Some st /\ check_numEdges st = 2.
Proof.
  destruct path_range0_valid as [Hh Hd].
  assert (Hsz : Z.of_nat (length (concat [[1]; [2]])) < 2 ^ 64)
    by (simpl; lia).
  split; [exact Hh|]. split; [exact Hd|]. split; [exact Hsz|].
  exact (inspect_check_numEdges 2 4 [0; 0] [[1]; [2]] Hh Hd Hsz).
Defined.

Lemma isOwned_iff_vertexIDMap_witness :
  cluster_ok path_hosts 4 /\
  path_hosts !! 0%nat = Some path_range0 /\
  [1%nat] ≡ₚ peers (length path_hosts) 0 /\
  Forall2 (fun p m => message_from path_hosts 4 0 p = Some m)
          [1%nat] [path_message10] /\
  exists s,
    assign_edges_phase1 (length path_hosts) 4 0
        (range_vertexIDMap path_range0) (range_edges path_range0)
        [path_message10] = Some s /\
    (forall g, isOwned s g = true <-> owner_is path_hosts 0 g) /\
    numOwned s = 2.
Proof.
  destruct path_hosts_delivery as (Hr & Hp & Hm).
  split; [exact path_hosts_ok|]. split; [exact Hr|]. split; [exact Hp|].
  split; [exact Hm|].
  exact (isOwned_iff_vertexIDMap path_hosts 4 0 path_range0 [1%nat]
           [path_message10] path_hosts_ok Hr Hp Hm).
Defined.

Lemma isLocal_iff_owned_or_destination_witness :
  cluster_ok path_hosts 4 /\
  path_hosts !! 0%nat = Some path_range0 /\
  [1%nat] ≡ₚ peers (length path_hosts) 0 /\
  Forall2 (fun p m => message_from path_hosts 4 0 p = Some m)
          [1%nat] [path_message10] /\
  exists s,
    assign_edges_phase1 (length path_hosts) 4 0
        (range_vertexIDMap path_range0) (range_edges path_range0)
        [path_message10] = Some s /\
    forall g, isLocal s g = true <->
      owner_is path_hosts 0 g \/
      exists src, owner_is path_hosts 0 src /\ has_edge path_hosts src g.
Proof.
  destruct path_hosts_delivery as (Hr & Hp & Hm).
  split; [exact path_hosts_ok|]. split; [exact Hr|]. split; [exact Hp|].
  split; [exact Hm|].
  exact (isLocal_iff_owned_or_destination path_hosts 4 0 path_range0 [1%nat]
           [path_message10] path_hosts_ok Hr Hp Hm).
Defined.

Lemma edge_endpoints_have_local_ids_witness :
  cluster_ok path_hosts 4 /\
  path_hosts !! 0%nat = Some path_range0 /\
  [1%nat] ≡ₚ peers (length path_hosts) 0 /\
  Forall2 (fun p m => message_from path_hosts 4 0 p = Some m)
          [1%nat] [path_message10] /\
  exists s,
    assign_edges_phase1 (length path_hosts) 4 0
        (range_vertexIDMap path_range0) (range_edges path_range0)
        [path_message10] = Some s /\
    forall src dst,
      owner_is path_hosts 0 src -> has_edge path_hosts src dst ->
      exists lsrc ldst,
        G2L s src = Some lsrc /\ 0 <= lsrc < numOwned s /\
        G2L s dst = Some ldst /\ 0 <= ldst < numNodes s.
Proof.
  destruct path_hosts_delivery as (Hr & Hp & Hm).
  split; [exact path_hosts_ok|]. split; [exact Hr|]. split; [exact Hp|].
  split; [exact Hm|].
  exact (edge_endpoints_have_local_ids path_hosts 4 0 path_range0 [1%nat]
           [path_message10] path_hosts_ok Hr Hp Hm).
Defined.

Lemma prefixSumOfEdges_steps_by_out_degree_witness :
  cluster_ok path_hosts 4 /\
  path_hosts !! 0%nat = Some path_range0 /\
  [1%nat] ≡ₚ peers (length path_hosts) 0 /\
  Forall2 (fun p m => message_from path_hosts 4 0 p = Some m)
          [1%nat] [path_message10] /\
  exists s,
    assign_edges_phase1 (length path_hosts) 4 0
        (range_vertexIDMap path_range0) (range_edges path_range0)
        [path_message10] = Some s /\
    forall (l : nat) g,
      localToGlobalVector s !! l = Some g ->
      exists before,
        match l with
        | O => Some 0
        | S l' => prefixSumOfEdges s !! l'
        end = Some before /\
        prefixSumOfEdges s !! l
          = Some (before + (if isOwned s g then out_degree path_hosts g else 0)).
Proof.
  destruct path_hosts_delivery as (Hr & Hp & Hm).
  split; [exact path_hosts_ok|]. split; [exact Hr|]. split; [exact Hp|].
  split; [exact Hm|].
  exact (prefixSumOfEdges_steps_by_out_degree path_hosts 4 0 path_range0
           [1%nat] [path_message10] path_hosts_ok Hr Hp Hm).
Defined.

Lemma path_ids0_consistent :
  phase1_of path_hosts 4 0 = Some path_ids0 /\ consistent path_ids0.
Proof.
  assert (Hrun : phase1_of path_hosts 4 0 = Some path_ids0)
    by (vm_compute; reflexivity).
  split; [exact Hrun|].
  destruct (phase1_of_run path_hosts 4 0 path_hosts_ok ltac:(simpl; lia))
    as (s & _ & Hs & Hcons & _).
  rewrite Hrun in Hs. now injection Hs as <-.
Qed.

Lemma path_masters1_usable : Forall (masters_usable 2 [2]) [path_masters1].
Proof.
  constructor; [|constructor]. split; [|split; [|split]].
  - apply sorted_is_sorted. repeat constructor.
  - cbn. lia.
  - reflexivity.
  - intros g Hg. apply list_elem_of_singleton in Hg as ->.
    exists 2. split; [now left|lia].
Qed.

Lemma path_hosts_reach p src g :
  (p < length path_hosts)%nat -> p <> 0%nat ->
  owner_is path_hosts 0 src -> has_edge path_hosts src g ->
  ~ owner_is path_hosts 0 g ->
  exists x, owner_is path_hosts p x /\ g <= x.
Proof.
  intros Hp Hne _ [_ (v & dsts & Hn & Hd)] _.
  assert (p = 1%nat) as -> by (simpl in Hp; lia).
  exists 3. split.
  - split; [lia|]. exists 1, []. split; reflexivity.
  - pose proof (graph_dsts_valid path_hosts 4 path_hosts_ok (v, dsts) g
                  ltac:(eapply list_elem_of_lookup_2; eauto) Hd). lia.
Qed.

Lemma resolve_mirrors_by_owner_witness :
  consistent path_ids0 /\
  localToGlobalVector path_ids0 = [0; 1] ++ [2] /\
  numOwned path_ids0 = Z.of_nat (length [0; 1]) /\
  Z.of_nat (length (localToGlobalVector path_ids0)) < 2 ^ 32 /\
  (0 < 2)%nat /\
  length path_mirrorNodes = 2%nat /\
  length [path_masters1] = (2 - 1)%nat /\
  Forall (masters_usable 2 [2]) [path_masters1] /\
  exists mirrorNodes',
    resolve_mirrors 2 path_ids0 [path_masters1] path_mirrorNodes = Some mirrorNodes' /\
    length mirrorNodes' = 2%nat /\
    forall h l, path_mirrorNodes !! h = Some l ->
      mirrorNodes' !! h
      = Some (l ++ filter (fun g => resolved [path_masters1] g = Z.of_nat h)
                          [2]).
Proof.
  destruct path_ids0_consistent as [_ Hcons].
  assert (Hsz : Z.of_nat (length (localToGlobalVector path_ids0)) < 2 ^ 32)
    by (simpl; lia).
  assert (Hn : (0 < 2)%nat) by lia.
  split; [exact Hcons|]. split; [reflexivity|]. split; [reflexivity|].
  split; [exact Hsz|]. split; [exact Hn|]. split; [reflexivity|].
  split; [reflexivity|]. split; [exact path_masters1_usable|].
  exact (resolve_mirrors_by_owner 2 path_ids0 [0; 1] [2] [path_masters1]
           path_mirrorNodes Hcons eq_refl eq_refl Hsz Hn eq_refl eq_refl
           path_masters1_usable).
Defined.

Lemma reset_bitset_ranges_witness :
  consistent path_ids0 /\
  localToGlobalVector path_ids0 = [0; 1] ++ [2] /\
  numOwned path_ids0 = Z.of_nat (length [0; 1]) /\
  Z.of_nat (length (localToGlobalVector path_ids0)) < 2 ^ 32 /\
  reset_bitset path_ids0 2 syncBroadcast = Some [(0, 1)] /\
  reset_bitset path_ids0 2 syncReduce = Some [(2, 2)].
Proof.
  destruct path_ids0_consistent as [_ Hcons].
  assert (Hsz : Z.of_nat (length (localToGlobalVector path_ids0)) < 2 ^ 32)
    by (simpl; lia).
  split; [exact Hcons|]. split; [reflexivity|]. split; [reflexivity|].
  split; [exact Hsz|].
  exact (reset_bitset_ranges path_ids0 [0; 1] [2] Hcons eq_refl eq_refl Hsz).
Defined.

Lemma records_size_pos b : b <> [] -> 0 < records_size b.
Proof. destruct b; [congruence|]. intros _. unfold records_size. cbn. lia. Qed.

Lemma cross_hosts_ok : cluster_ok cross_hosts 4.
Proof.
  unfold cross_hosts. split; try reflexivity.
  - constructor; [|constructor; [|constructor]]; intros k Hk;
      destruct k as [|[|k]]; simpl in Hk; try lia.
    + exists 1%nat. split; [reflexivity|simpl; lia].
    + exists 0%nat. split; [reflexivity|simpl; lia].
    + exists 1%nat. split; [reflexivity|simpl; lia].
    + exists 0%nat. split; [reflexivity|simpl; lia].
  - constructor; [|constructor; [|constructor]]; intros k dsts d Hk Hin;
      destruct k as [|[|k]]; simpl in Hk; try discriminate;
      injection Hk as <-;
      first [apply list_elem_of_singleton in Hin; lia | inversion Hin].
Qed.

(** Host 0 with the local ids of [path_ids0], given a range whose first
    source belongs to host 1. *)
Lemma path_ids0_loadable k dsts :
  [[1]; [2]] !! k = Some dsts ->
  loadable (fixed_begin [1; 2; 2]) 0 2 0 [1; 0] path_ids0 k dsts.
Proof.
  intros Hk. destruct k as [|[|k]]; simpl in Hk; try discriminate;
    injection Hk as <-.
  - exists 1%nat. split; [reflexivity|]. split; [lia|]. discriminate.
  - exists 0%nat. split; [reflexivity|]. split; [lia|]. intros _.
    exists 1, 1. split; [reflexivity|]. split; [reflexivity|].
    split; [lia|]. split; [cbn; lia|].
    constructor; [|constructor]. exists 2. reflexivity.
Qed.

Lemma path_ids0_receivable :
  Forall (Forall (receivable (fixed_begin [1; 2; 2]) (fixed_end [1; 2; 2])
                             path_ids0))
         [[(0, [1])]].
Proof.
  repeat constructor. exists 0, 0. split; [reflexivity|].
  split; [reflexivity|]. split; [reflexivity|].
  constructor; [|constructor]. exists 1. reflexivity.
Qed.

Lemma assign_load_send_edges_sends_each_record_once_witness :
  (forall b, b <> [] -> 0 < records_size b) /\
  (forall k dsts, [[1]; [2]] !! k = Some dsts ->
     loadable (fixed_begin [1; 2; 2]) 0 2 0 [1; 0] path_ids0 k dsts) /\
  exists calls sent,
    assign_load_send_edges (fixed_begin [1; 2; 2]) records_size 0 0 2 0
      [1; 0] path_ids0 [[1]; [2]] = Some (calls, sent) /\
    calls = calls_for 0 (fixed_begin [1; 2; 2]) path_ids0 0
                      (zip [1; 0] [[1]; [2]]) /\
    Forall (fun m : nat * list (Z * list Z) =>
              m.1 <> 0%nat /\ (m.1 < 2)%nat) sent /\
    forall h, (h < 2)%nat -> h <> 0%nat ->
      records_sent h sent = records_for h 0 (zip [1; 0] [[1]; [2]]).
Proof.
  split; [exact records_size_pos|]. split; [exact path_ids0_loadable|].
  exact (assign_load_send_edges_sends_each_record_once
           (fixed_begin [1; 2; 2]) records_size 0 0 2 0 [1; 0] path_ids0
           [[1]; [2]] records_size_pos path_ids0_loadable).
Defined.

Lemma receive_edges_ends_when_all_edges_arrived_witness :
  Forall (Forall (receivable (fixed_begin [1; 2; 2]) (fixed_end [1; 2; 2])
                             path_ids0))
         [[(0, [1])]] /\
  edges_in (concat [[(0, [1])]]) < 2 ^ 64 /\
  receive_edges (fixed_begin [1; 2; 2]) (fixed_end [1; 2; 2]) path_ids0
                [[(0, [1])]] (edges_in (concat [[(0, [1])]])) []
  = Some ([] ++ concat ((fun rec : Z * list Z =>
                           node_calls (fixed_begin [1; 2; 2]) path_ids0
                                      rec.1 rec.2)
                        <$> concat [[(0, [1])]])) /\
  forall edgesToReceive,
    edges_in (concat [[(0, [1])]]) < edgesToReceive < 2 ^ 64 ->
    receive_edges (fixed_begin [1; 2; 2]) (fixed_end [1; 2; 2]) path_ids0
                  [[(0, [1])]] edgesToReceive [] = None.
Proof.
  assert (Hlt : edges_in (concat [[(0, [1])]]) < 2 ^ 64)
    by (vm_compute; reflexivity).
  split; [exact path_ids0_receivable|]. split; [exact Hlt|].
  exact (receive_edges_ends_when_all_edges_arrived (fixed_begin [1; 2; 2])
           (fixed_end [1; 2; 2]) path_ids0 [[(0, [1])]] []
           path_ids0_receivable Hlt).
Defined.

Lemma cross_hosts_inbox1 :
  [[(0, [1])]]
  ≡ₚ concat (buffers_from records_size 0 cross_hosts 4 1
             <$> peers (length cross_hosts) 1).
Proof. vm_compute. reflexivity. Qed.

Lemma loadEdges_constructs_every_edge_once_witness :
  cluster_ok cross_hosts 4 /\
  (1 < length cross_hosts)%nat /\
  (forall b, b <> [] -> 0 < records_size b) /\
  [[(0, [1])]]
  ≡ₚ concat (buffers_from records_size 0 cross_hosts 4 1
             <$> peers (length cross_hosts) 1) /\
  exists s calls,
    phase1_of cross_hosts 4 1 = Some s /\
    load_edges_of records_size 0 cross_hosts 4 1 [[(0, [1])]] = Some calls /\
    numEdges s = Z.of_nat (length (owned_edges cross_hosts 1)) /\
    Forall (fun gdst => is_Some (G2L s gdst)) (owned_edges cross_hosts 1) /\
    calls ≡ₚ slots 0 (lid s <$> owned_edges cross_hosts 1).
Proof.
  assert (Hme : (1 < length cross_hosts)%nat) by (simpl; lia).
  split; [exact cross_hosts_ok|]. split; [exact Hme|].
  split; [exact records_size_pos|]. split; [exact cross_hosts_inbox1|].
  exact (loadEdges_constructs_every_edge_once records_size 0 cross_hosts 4 1
           [[(0, [1])]] cross_hosts_ok Hme records_size_pos
           cross_hosts_inbox1).
Defined.

Lemma readVertexIDMappingFile_seeks_bytes_witness :
  0 < 1 /\ 0 <= 4 /\
  length (replicate 4 Byte.x00) = Z.to_nat (4 * 1) /\
  readVertexIDMappingFile None (replicate 4 Byte.x00) 1 4
    = Some (false, replicate 4 Byte.x00) /\
  exists vertexIDMap',
    readVertexIDMappingFile (Some map_file) (replicate 4 Byte.x00) 1 4
      = Some (true, vertexIDMap') /\
    length vertexIDMap' = length (replicate 4 Byte.x00) /\
    (forall i, (i < Z.to_nat 1)%nat ->
       (Z.to_nat 4 + 4 * i + 4 <= length map_file)%nat ->
       element vertexIDMap' i = take 4 (drop (Z.to_nat 4 + 4 * i) map_file) /\
       forall q, Z.to_nat 4 = (4 * q)%nat ->
         element vertexIDMap' i = element map_file (q + i)) /\
    (forall i, (length map_file <= Z.to_nat 4 + 4 * i)%nat ->
       element vertexIDMap' i = element (replicate 4 Byte.x00) i).
Proof.
  assert (H1 : 0 < 1) by lia. assert (H4 : 0 <= 4) by lia.
  split; [exact H1|]. split; [exact H4|]. split; [reflexivity|].
  exact (readVertexIDMappingFile_seeks_bytes map_file (replicate 4 Byte.x00)
           1 4 H1 H4 eq_refl).
Defined.

Lemma read_vertexIDMap_entries_witness :
  length map_file = (4 * 5)%nat /\
  0 <= 4 < 5 /\ 5 <= Z.of_nat 5 /\ Z.of_nat 5 < 2 ^ 32 /\
  exists vertexIDMap,
    read_vertexIDMap (Some map_file) 4 5 = Some (true, vertexIDMap) /\
    length vertexIDMap = Z.to_nat (4 * (5 - 4)) /\
    forall i, (i < Z.to_nat (5 - 4))%nat ->
      element vertexIDMap i = take 4 (drop (Z.to_nat 4 + 4 * i) map_file) /\
      forall q, Z.to_nat 4 = (4 * q)%nat ->
        element vertexIDMap i = element map_file (q + i).
Proof.
  assert (H1 : 0 <= 4 < 5) by lia.
  assert (H2 : 5 <= Z.of_nat 5) by lia.
  assert (H3 : Z.of_nat 5 < 2 ^ 32) by (cbn; lia).
  split; [reflexivity|]. split; [exact H1|]. split; [exact H2|].
  split; [exact H3|].
  exact (read_vertexIDMap_entries map_file 4 5 5 eq_refl H1 H2 H3).
Defined.

Lemma edges_to_receive_complements_own_range_witness :
  cluster_ok cross_hosts 4 /\
  cross_hosts !! 1%nat
    = Some {| range_vertexIDMap := [1; 0]; range_edges := [[3]; []] |} /\
  exists s total,
    phase1_of cross_hosts 4 1 = Some s /\
    edges_to_receive_of cross_hosts 4 1 = Some total /\
    0 <= total /\
    numEdges s
    = edges_total (counter_of 1 <$>
        range_nodes {| range_vertexIDMap := [1; 0];
                       range_edges := [[3]; []] |})
      + total.
Proof.
  split; [exact cross_hosts_ok|]. split; [reflexivity|].
  exact (edges_to_receive_complements_own_range cross_hosts 4 1 _
           cross_hosts_ok eq_refl).
Defined.

Lemma mirrorNodes_hold_ghosts_of_owner_witness :
  cluster_ok path_hosts 4 /\
  Z.of_nat (length path_hosts) < 2 ^ 32 /\
  (0 < length path_hosts)%nat /\
  [1%nat] ≡ₚ peers (length path_hosts) 0 /\
  length path_mirrorNodes = length path_hosts /\
  exists s inbox mirrorNodes',
    phase1_of path_hosts 4 0 = Some s /\
    mapM (masters_of path_hosts 4) [1%nat] = Some inbox /\
    resolve_mirrors (length path_hosts) s inbox path_mirrorNodes
      = Some mirrorNodes' /\
    forall h l, path_mirrorNodes !! h = Some l ->
      exists added,
        mirrorNodes' !! h = Some (l ++ added) /\
        StronglySorted Z.lt added /\
        forall g, g ∈ added <->
          isLocal s g = true /\ isOwned s g = false /\
          owner_is path_hosts h g.
Proof.
  assert (Hh : Z.of_nat (length path_hosts) < 2 ^ 32) by (simpl; lia).
  assert (Hme : (0 < length path_hosts)%nat) by (simpl; lia).
  assert (Hp : [1%nat] ≡ₚ peers (length path_hosts) 0) by reflexivity.
  split; [exact path_hosts_ok|]. split; [exact Hh|]. split; [exact Hme|].
  split; [exact Hp|]. split; [reflexivity|].
  exact (mirrorNodes_hold_ghosts_of_owner path_hosts 4 0 [1%nat] path_mirrorNodes
           path_hosts_ok Hh Hme Hp eq_refl path_hosts_reach).
Defined.

Lemma every_node_has_one_owner_witness :
  cluster_ok path_hosts 4 /\
  sum_over (owned_on path_hosts 4) (seq 0 (length path_hosts)) = 4.
Proof.
  split; [exact path_hosts_ok|].
  exact (proj1 (proj2 (every_node_has_one_owner path_hosts 4 path_hosts_ok))).
Defined.

Lemma every_edge_is_on_one_host_witness :
  cluster_ok path_hosts 4 /\
  sum_over (edges_on path_hosts 4) (seq 0 (length path_hosts)) = 3.
Proof.
  split; [exact path_hosts_ok|].
  exact (every_edge_is_on_one_host path_hosts 4 path_hosts_ok).
Defined.

End CustomEdgeCut_facts.

